(** * go-sudoku: validator, backtracking solver, uniqueness counter,
      generator and string codec

    The development follows the three Go files of the library:
    - [sudoku.go] and [parse.go]: the classic 9x9 [Board] (a value type,
      [[9][9]int]) -- module [Board];
    - [grid.go]: the generalised [Grid] whose [Cells] are Go slices, hence
      references into a mutable store -- module [Grid];
    - module [Pure] holds the mathematical content shared by both code
      paths, on immutable matrices; the two embeddings are related to it
      and all the combinatorial arguments are carried out there. *)

From stdpp Require Import base list strings.
From Stdlib Require Import ZArith Lia Ascii.

Local Open Scope nat_scope.

(** ** Go values *)

(** Go's [error]: [None] is [nil], [Some msg] an error built by
    [errors.New(msg)] or [fmt.Errorf]. *)
Definition error := option string.

Definition ErrInvalidBoard : error := Some "invalid board"%string.

(** [type Difficulty string] with its three named constants. *)
Definition Difficulty := string.
Definition Easy : Difficulty := "easy"%string.
Definition Medium : Difficulty := "medium"%string.
Definition Hard : Difficulty := "hard"%string.

(** ** The random source ([math/rand/v2])

    [globalRand] is a [*rand.Rand].  The generator behind it belongs to
    Go's standard library, not to this repository; it is kept abstract:
    a state, the seeding constructor [rand.New(rand.NewPCG(a, b))] and the
    bounded draw [uint64n] on which [Shuffle] and [Perm] are built, together
    with the library's contract that a draw below [n] lies in [[0, n)]. *)
Class RandSource := {
  rstate : Type;
  NewPCG : Z → Z → rstate;
  uint64n : rstate → Z → Z * rstate;
  uint64n_range : ∀ g n, (0 < n)%Z → (0 ≤ (uint64n g n).1 < n)%Z
}.

(** A small linear congruential source, used to run the definitions on
    closed examples. *)
Definition lcg_next (g : Z) : Z :=
  ((g * 6364136223846793005 + 1442695040888963407) mod 2 ^ 64)%Z.

Definition lcgSource : RandSource := {|
  rstate := Z;
  NewPCG := λ a b, Z.lxor a b;
  uint64n := λ g n, ((g mod n)%Z, lcg_next g);
  uint64n_range := λ g n Hn, Z.mod_pos_bound g n Hn
|}.

Section Rand.
Context {RS : RandSource}.

(** [vals[i], vals[j] = vals[j], vals[i]] *)
Definition swap {A} (vals : list A) (i j : nat) : list A :=
  match vals !! i, vals !! j with
  | Some x, Some y => <[i := y]> (<[j := x]> vals)
  | _, _ => vals
  end.

(** [for i := n - 1; i > 0; i-- { j := uint64n(i+1); swap(i, j) }];
    [shuffleFrom k] runs the iterations [i = k, k-1, ..., 1]. *)
Fixpoint shuffleFrom {A} (k : nat) (vals : list A) (g : rstate)
  : list A * rstate :=
  match k with
  | O => (vals, g)
  | S k' =>
      let '(j, g') := uint64n g (Z.of_nat (k + 1)) in
      shuffleFrom k' (swap vals k (Z.to_nat j)) g'
  end.

(** [globalRand.Shuffle(len(vals), swap)] *)
Definition Shuffle {A} (vals : list A) (g : rstate) : list A * rstate :=
  shuffleFrom (length vals - 1) vals g.

(** [globalRand.Perm(n)]: the identity permutation of [0..n-1],
    shuffled. *)
Definition Perm (n : nat) (g : rstate) : list nat * rstate :=
  Shuffle (seq 0 n) g.

(** [SetRandSeed(seed)]: the global source is replaced, whatever it was. *)
Definition SetRandSeed (seed : Z) (_ : rstate) : rstate :=
  NewPCG seed (Z.lxor seed 0x9e3779b97f4a7c15).
End Rand.

(** ** Matrices of cells *)

Definition get (m : list (list Z)) (r c : nat) : Z := nth c (nth r m []) 0%Z.

Definition set (m : list (list Z)) (r c : nat) (v : Z) : list (list Z) :=
  <[r := <[c := v]> (nth r m [])]> m.

(** [shape n m]: [m] has [n] rows of [n] cells. *)
Definition shape (n : nat) (m : list (list Z)) : Prop :=
  length m = n ∧ Forall (λ row, length row = n) m.

(** Cell coordinates in row-major order, as the nested [for r]/[for c]
    loops visit them. *)
Definition cellsOf (n : nat) : list (nat * nat) :=
  r ← seq 0 n; c ← seq 0 n; [(r, c)].

(** The candidate loop shared by [backtrack] and the closure [dfs]:
    [for _, v := range vs { if isSafe(w, r, c, v) { w[r][c] = v; if rec(w) {
    return true }; w[r][c] = 0 } }; return false].
    [rec] is the recursive call; it receives the board and the state it
    threads ([globalRand] for [backtrack], the counter for [dfs]) and gives
    both back. [None] is propagated: the recursion budget ran out. *)
Fixpoint tryEach {St : Type} (safe : list (list Z) → nat → nat → Z → bool)
    (rec : list (list Z) → St → option (bool * list (list Z) * St))
    (r c : nat) (vs : list Z) (w : list (list Z)) (st : St)
  : option (bool * list (list Z) * St) :=
  match vs with
  | [] => Some (false, w, st)
  | v :: vs' =>
      if safe w r c v then
        match rec (set w r c v) st with
        | None => None
        | Some (true, w', st') => Some (true, w', st')
        | Some (false, w', st') => tryEach safe rec r c vs' (set w' r c 0%Z) st'
        end
      else tryEach safe rec r c vs' w st
  end.

(** ** The algorithms on immutable matrices *)
Module Pure.
Section Pure.
Context {RS : RandSource}.
Variables (Size BoxRows BoxCols : nat).

(** One step of a duplicate scan: [if v != 0 { if seen[v] { return
    ErrInvalidBoard }; seen[v] = true }]; [None] is the early return. *)
Definition mark (v : Z) (seen : list bool) : option (list bool) :=
  if (v =? 0)%Z then Some seen
  else if nth (Z.to_nat v) seen false then None
  else Some (<[Z.to_nat v := true]> seen).

(** The inner [for j] loop of the first half of [Validate], for row and
    column [i] at once. *)
Fixpoint scanLine (m : list (list Z)) (i : nat) (js : list nat)
    (row col : list bool) : bool :=
  match js with
  | [] => true
  | j :: js' =>
      let rv := get m i j in
      let cv := get m j i in
      if (rv <? 0)%Z || (Z.of_nat Size <? rv)%Z
         || (cv <? 0)%Z || (Z.of_nat Size <? cv)%Z then false
      else match mark rv row with
           | None => false
           | Some row' =>
               match mark cv col with
               | None => false
               | Some col' => scanLine m i js' row' col'
               end
           end
  end.

Definition fresh : list bool := replicate (Size + 1) false.

Definition rowsColsOk (m : list (list Z)) : bool :=
  forallb (λ i, scanLine m i (seq 0 Size) fresh fresh) (seq 0 Size).

(** The cells of the box whose top-left corner is [(br, bc)], in the order
    of the loops [for r := br; r < br+BoxRows] / [for c := bc; ...]. *)
Definition boxCells (br bc : nat) : list (nat * nat) :=
  r ← seq br BoxRows; c ← seq bc BoxCols; [(r, c)].

Fixpoint scanBox (m : list (list Z)) (ps : list (nat * nat))
    (seen : list bool) : bool :=
  match ps with
  | [] => true
  | (r, c) :: ps' =>
      match mark (get m r c) seen with
      | None => false
      | Some seen' => scanBox m ps' seen'
      end
  end.

(** Box corners: [for br := 0; br < Size; br += BoxRows], and likewise for
    columns, when [Size = BoxRows * BoxCols]. *)
Definition boxRowStarts : list nat := (λ k, k * BoxRows) <$> seq 0 BoxCols.
Definition boxColStarts : list nat := (λ k, k * BoxCols) <$> seq 0 BoxRows.

Definition boxesOk (m : list (list Z)) : bool :=
  forallb (λ br,
    forallb (λ bc, scanBox m (boxCells br bc) fresh) boxColStarts)
    boxRowStarts.

Definition Validate (m : list (list Z)) : error :=
  if rowsColsOk m && boxesOk m then None else ErrInvalidBoard.

Definition findEmpty (m : list (list Z)) : nat * nat * bool :=
  match List.find (λ p, (get m p.1 p.2 =? 0)%Z) (cellsOf Size) with
  | Some (r, c) => (r, c, true)
  | None => (0, 0, false)
  end.

Definition isSafe (m : list (list Z)) (r c : nat) (v : Z) : bool :=
  forallb (λ i, negb ((get m r i =? v)%Z || (get m i c =? v)%Z))
          (seq 0 Size)
  && (let br := r / BoxRows * BoxRows in
      let bc := c / BoxCols * BoxCols in
      forallb (λ i,
        forallb (λ j, negb (get m (br + i) (bc + j) =? v)%Z)
                (seq 0 BoxCols))
        (seq 0 BoxRows)).

(** Candidate values [1..Size]. *)
Definition candidates : list Z := Z.of_nat <$> seq 1 Size.

(** [backtrack]; [None] only when the recursion budget [fuel] is
    exhausted (see [backtrack_spec]). The board is threaded through the
    calls exactly as the pointer [w] is in the source. *)
Fixpoint backtrack (fuel : nat) (w : list (list Z)) (g : rstate)
  : option (bool * list (list Z) * rstate) :=
  match fuel with
  | O => None
  | S fuel' =>
      let '(r, c, ok) := findEmpty w in
      if negb ok then Some (true, w, g)
      else
        let '(vals, g1) := Shuffle candidates g in
        tryEach isSafe (backtrack fuel') r c vals w g1
  end.

(** The closure [dfs] of [hasUniqueSolution]; the captured counter
    [count] is threaded explicitly. *)
Fixpoint dfs (fuel : nat) (limit : Z) (cur : list (list Z)) (count : Z)
  : option (bool * list (list Z) * Z) :=
  match fuel with
  | O => None
  | S fuel' =>
      let '(r, c, ok) := findEmpty cur in
      if negb ok then Some ((limit <=? count + 1)%Z, cur, (count + 1)%Z)
      else
        tryEach isSafe (dfs fuel' limit) r c candidates cur count
  end.

(** Recursion budget: one call per empty cell, plus the final one. *)
Definition budget : nat := Size * Size + 1.

Definition hasUniqueSolution (w : list (list Z)) (limit : Z) : option bool :=
  match dfs budget limit w 0%Z with
  | None => None
  | Some (_, _, count) => Some (count =? 1)%Z
  end.

Definition countClues (w : list (list Z)) : Z :=
  foldl (λ cnt p, if (get w p.1 p.2 =? 0)%Z then cnt else (cnt + 1)%Z)
        0%Z (cellsOf Size).

(** [fillBox]: the first [BoxRows*BoxCols] entries of a fresh
    permutation, plus one, written row by row into the box at
    [(br, bc)]; the accumulator carries [idx]. *)
Definition fillBox (m : list (list Z)) (br bc : nat) (g : rstate)
  : list (list Z) * rstate :=
  let '(vals, g') := Perm Size g in
  ((foldl (λ '(m, idx) '(r, c),
             (set m r c (Z.of_nat (nth idx vals 0%nat) + 1)%Z, idx + 1))
          (m, 0) (boxCells br bc)).1, g').

Fixpoint fillBoxes (m : list (list Z)) (ks : list nat) (g : rstate)
  : list (list Z) * rstate :=
  match ks with
  | [] => (m, g)
  | i :: ks' =>
      let '(m', g') := fillBox m (i * BoxRows) (i * BoxCols) g in
      fillBoxes m' ks' g'
  end.

Definition fillDiagonalBoxes (m : list (list Z)) (g : rstate)
  : list (list Z) * rstate :=
  let nRowBoxes := Size / BoxRows in
  let nColBoxes := Size / BoxCols in
  let steps := if nColBoxes <? nRowBoxes then nColBoxes else nRowBoxes in
  fillBoxes m (seq 0 steps) g.

Definition cluesFor (d : Difficulty) : Z :=
  let base := if String.eqb d Easy then 40%Z
              else if String.eqb d Hard then 26%Z else 32%Z in
  if Size =? 9 then base
  else
    let cells := Z.of_nat (Size * Size) in
    Z.max 8 (Z.quot (cells * base) 81).

(** The carving loop over [rmOrder], with its [break] and [continue]. *)
Fixpoint carve (target : Z) (rmOrder : list nat) (puzzle : list (list Z))
  : option (list (list Z)) :=
  match rmOrder with
  | [] => Some puzzle
  | idx :: rest =>
      if (countClues puzzle <=? target)%Z then Some puzzle
      else
        let r := idx / Size in
        let c := idx mod Size in
        let old := get puzzle r c in
        if (old =? 0)%Z then carve target rest puzzle
        else
          let cleared := set puzzle r c 0%Z in
          match hasUniqueSolution cleared 2 with
          | None => None
          | Some true => carve target rest cleared
          | Some false => carve target rest (set cleared r c old)
          end
  end.

(** The attempt loop of [Generate]. [start] is the grid every attempt
    begins from, [failed] the value returned with an error and [msg] the
    message of a failed base fill (the two code paths differ in those
    only). *)
Fixpoint attemptsLoop (tries : nat) (start failed : list (list Z))
    (msg : string) (d : Difficulty) (lastErr : error) (g : rstate)
  : option (list (list Z) * error * rstate) :=
  match tries with
  | O =>
      let lastErr' := match lastErr with
                      | None => Some "generation failed"%string
                      | Some _ => lastErr
                      end in
      Some (failed, lastErr', g)
  | S tries' =>
      let '(seeded, g1) := fillDiagonalBoxes start g in
      match backtrack budget seeded g1 with
      | None => None
      | Some (false, _, g2) =>
          attemptsLoop tries' start failed msg d (Some msg) g2
      | Some (true, solved, g2) =>
          let target := cluesFor d in
          let '(rmOrder, g3) := Perm (Size * Size) g2 in
          match carve target rmOrder solved with
          | None => None
          | Some puzzle =>
              match hasUniqueSolution puzzle 2 with
              | None => None
              | Some true => Some (puzzle, None, g3)
              | Some false =>
                  attemptsLoop tries' start failed msg d
                    (Some "puzzle uniqueness not achieved"%string) g3
              end
          end
      end
  end.

(** [if attempts < 1 { attempts = 1 }] *)
Definition tries (attempts : Z) : nat :=
  Z.to_nat (if (attempts <? 1)%Z then 1%Z else attempts).

(** *** Codec *)

(** One byte of the compact form: [byte('0'+v)], or ['0'] for an empty
    cell. *)
Definition cellChar (v : Z) : ascii :=
  if (v =? 0)%Z then "0"%char
  else ascii_of_N (Z.to_N ((48 + v) mod 256)%Z).

Definition formatCells (m : list (list Z)) : string :=
  String.string_of_list_ascii ((λ p, cellChar (get m p.1 p.2)) <$> cellsOf Size).

(** The decoding loop [for i := 0; i < expected; i++] over the bytes
    [s[i]]; [inr msg] is the early return with an error. *)
Fixpoint parseCells (chars : list ascii) (i : nat) (m : list (list Z))
  : list (list Z) + string :=
  match chars with
  | [] => inl m
  | ch :: chars' =>
      let r := i / Size in
      let c := i mod Size in
      let code := Z.of_N (N_of_ascii ch) in
      if (49 <=? code)%Z && (code <=? 57)%Z then
        let v := (code - 48)%Z in
        if (Z.of_nat Size <? v)%Z then inr "digit exceeds grid size"%string
        else parseCells chars' (i + 1) (set m r c v)
      else if (code =? 48)%Z || (code =? 46)%Z then
        parseCells chars' (i + 1) (set m r c 0%Z)
      else inr "invalid character in grid"%string
  end.

(** The first empty cell of [b], with the value [sol] holds there. *)
Definition firstHint (b sol : list (list Z)) : nat * nat * Z * bool :=
  match List.find (λ p, (get b p.1 p.2 =? 0)%Z) (cellsOf Size) with
  | Some (r, c) => (r, c, get sol r c, true)
  | None => (0, 0, 0%Z, false)
  end.

End Pure.
End Pure.

(** ** The classic board: [sudoku.go], [parse.go] and [Hint] of [grid.go]

    [type Board [9][9]int] is an array, hence a value: assignment, parameter
    passing and [copyBoard] copy all 81 cells, and [*Board] parameters are
    modelled by passing the board in and out. A board is a list of rows;
    [wf] states the shape the Go type guarantees. *)
Module Board.
Section Board.
Context {RS : RandSource}.

Definition Board := list (list Z).

(** [Board{}] and [var b Board]. *)
Definition zero : Board := replicate 9 (replicate 9 0%Z).

Definition wf (b : Board) : Prop := shape 9 b.

Definition Validate (b : Board) : error :=
  if forallb (λ i, Pure.scanLine 9 b i (seq 0 9)
                     (replicate 10 false) (replicate 10 false)) (seq 0 9)
     && forallb (λ br,
          forallb (λ bc,
            Pure.scanBox b (r ← seq br 3; c ← seq bc 3; [(r, c)])
              (replicate 10 false)) [0; 3; 6]) [0; 3; 6]
  then None else ErrInvalidBoard.

Definition findEmpty (b : Board) : nat * nat * bool :=
  match List.find (λ p, (get b p.1 p.2 =? 0)%Z) (cellsOf 9) with
  | Some (r, c) => (r, c, true)
  | None => (0, 0, false)
  end.

Definition isSafe (b : Board) (r c : nat) (v : Z) : bool :=
  forallb (λ i, negb ((get b r i =? v)%Z || (get b i c =? v)%Z)) (seq 0 9)
  && (let br := r / 3 * 3 in
      let bc := c / 3 * 3 in
      forallb (λ i,
        forallb (λ j, negb (get b (br + i) (bc + j) =? v)%Z) (seq 0 3))
        (seq 0 3)).

(** [for i := range dst { dst[i] = src[i] }] *)
Definition copyBoard (dst src : Board) : Board :=
  foldl (λ d i, <[i := nth i src []]> d) dst (seq 0 9).

Fixpoint backtrack (fuel : nat) (b : Board) (g : rstate)
  : option (bool * Board * rstate) :=
  match fuel with
  | O => None
  | S fuel' =>
      let '(r, c, ok) := findEmpty b in
      if negb ok then Some (true, b, g)
      else
        let '(vals, g1) := Shuffle [1; 2; 3; 4; 5; 6; 7; 8; 9]%Z g in
        tryEach isSafe (backtrack fuel') r c vals b g1
  end.

(** Recursion budget of the two searches: 81 cells, plus the last call. *)
Definition budget : nat := 82.

Definition Solve (b : Board) (g : rstate) : option (Board * bool * rstate) :=
  let solved := copyBoard zero b in
  match backtrack budget solved g with
  | None => None
  | Some (false, _, g') => Some (zero, false, g')
  | Some (true, solved', g') => Some (solved', true, g')
  end.

Definition cluesFor (d : Difficulty) : Z :=
  if String.eqb d Easy then 40%Z
  else if String.eqb d Medium then 32%Z
  else if String.eqb d Hard then 26%Z
  else 32%Z.

Definition countClues (b : Board) : Z :=
  foldl (λ cnt p, if (get b p.1 p.2 =? 0)%Z then cnt else (cnt + 1)%Z)
        0%Z (cellsOf 9).

Fixpoint dfs (fuel : nat) (limit : Z) (cur : Board) (count : Z)
  : option (bool * Board * Z) :=
  match fuel with
  | O => None
  | S fuel' =>
      let '(r, c, ok) := findEmpty cur in
      if negb ok then Some ((limit <=? count + 1)%Z, cur, (count + 1)%Z)
      else
        tryEach isSafe (dfs fuel' limit) r c
          [1; 2; 3; 4; 5; 6; 7; 8; 9]%Z cur count
  end.

Definition hasUniqueSolution (b : Board) (limit : Z) : option bool :=
  let work := copyBoard zero b in
  match dfs budget limit work 0%Z with
  | None => None
  | Some (_, _, count) => Some (count =? 1)%Z
  end.

Definition fillBox (b : Board) (br bc : nat) (g : rstate) : Board * rstate :=
  let '(vals, g') := Perm 9 g in
  ((foldl (λ '(b, idx) '(r, c),
             (set b r c (Z.of_nat (nth idx vals 0%nat) + 1)%Z, idx + 1))
          (b, 0) (r ← seq br 3; c ← seq bc 3; [(r, c)])).1, g').

(** [for d := 0; d < 9; d += 3 { fillBox(b, d, d) }] *)
Definition fillDiagonalBoxes (b : Board) (g : rstate) : Board * rstate :=
  let '(b1, g1) := fillBox b 0 0 g in
  let '(b2, g2) := fillBox b1 3 3 g1 in
  fillBox b2 6 6 g2.

Fixpoint carve (target : Z) (rmOrder : list nat) (puzzle : Board)
  : option Board :=
  match rmOrder with
  | [] => Some puzzle
  | idx :: rest =>
      if (countClues puzzle <=? target)%Z then Some puzzle
      else
        let r := idx / 9 in
        let c := idx mod 9 in
        let old := get puzzle r c in
        if (old =? 0)%Z then carve target rest puzzle
        else
          let cleared := set puzzle r c 0%Z in
          match hasUniqueSolution cleared 2 with
          | None => None
          | Some true => carve target rest cleared
          | Some false => carve target rest (set cleared r c old)
          end
  end.

Fixpoint attemptsLoop (tries : nat) (d : Difficulty) (lastErr : error)
    (g : rstate) : option (Board * error * rstate) :=
  match tries with
  | O =>
      let lastErr' := match lastErr with
                      | None => Some "generation failed"%string
                      | Some _ => lastErr
                      end in
      Some (zero, lastErr', g)
  | S tries' =>
      let '(b, g1) := fillDiagonalBoxes zero g in
      match backtrack budget b g1 with
      | None => None
      | Some (false, _, g2) =>
          attemptsLoop tries' d
            (Some "failed to build solved board"%string) g2
      | Some (true, solution, g2) =>
          let target := cluesFor d in
          let '(rmOrder, g3) := Perm 81 g2 in
          match carve target rmOrder solution with
          | None => None
          | Some puzzle =>
              match hasUniqueSolution puzzle 2 with
              | None => None
              | Some true => Some (puzzle, None, g3)
              | Some false =>
                  attemptsLoop tries' d
                    (Some "puzzle uniqueness not achieved"%string) g3
              end
          end
      end
  end.

Definition Generate (d : Difficulty) (attempts : Z) (g : rstate)
  : option (Board * error * rstate) :=
  attemptsLoop (Pure.tries attempts) d None g.

(** [parse.go] *)
Fixpoint parseCells (chars : list ascii) (i : nat) (b : Board)
  : Board + string :=
  match chars with
  | [] => inl b
  | ch :: chars' =>
      let r := i / 9 in
      let c := i mod 9 in
      let code := Z.of_N (N_of_ascii ch) in
      if (49 <=? code)%Z && (code <=? 57)%Z then
        parseCells chars' (i + 1) (set b r c (code - 48)%Z)
      else if (code =? 48)%Z || (code =? 46)%Z then
        parseCells chars' (i + 1) (set b r c 0%Z)
      else inr "invalid character in board"%string
  end.

Definition FromString (s : string) : Board * error :=
  if negb (String.length s =? 81) then
    (zero, Some "input must be 81 characters"%string)
  else
    match parseCells (String.list_ascii_of_string s) 0 zero with
    | inr msg => (zero, Some msg)
    | inl b =>
        match Validate b with
        | Some msg => (zero, Some msg)
        | None => (b, None)
        end
    end.

Definition String (b : Board) : string :=
  String.string_of_list_ascii
    ((λ p, Pure.cellChar (get b p.1 p.2)) <$> cellsOf 9).

(** [Hint], from [grid.go]. *)
Definition Hint (b : Board) (g : rstate)
  : option (nat * nat * Z * bool * rstate) :=
  match Validate b with
  | Some _ => Some (0, 0, 0%Z, false, g)
  | None =>
      match Solve b g with
      | None => None
      | Some (sol, true, g') =>
          match List.find (λ p, (get b p.1 p.2 =? 0)%Z) (cellsOf 9) with
          | Some (r, c) => Some (r, c, get sol r c, true, g')
          | None => Some (0, 0, 0%Z, false, g')
          end
      | Some (_, false, g') => Some (0, 0, 0%Z, false, g')
      end
  end.
End Board.
End Board.

(** ** The generalised grid: [grid.go]

    [Grid.Cells] is a slice of slices: the rows live in backing arrays that
    several [Grid] values may share, and [w.Cells[r][c] = v] writes through.
    The store maps the address of a row to its cells; a [Grid] holds the
    addresses of its rows. Indexing outside a slice and dividing by zero
    panic; a loop whose counter never reaches its bound diverges. *)
Module Grid.

Inductive res (A : Type) : Type :=
  | Ok (a : A)
  | Panic
  | Diverge
  | OutOfFuel.
Arguments Ok {A} a.
Arguments Panic {A}.
Arguments Diverge {A}.
Arguments OutOfFuel {A}.

#[global] Instance res_bind : MBind res := λ A B f x,
  match x with
  | Ok a => f a
  | Panic => Panic
  | Diverge => Diverge
  | OutOfFuel => OutOfFuel
  end.

Abbreviation heap := (list (list Z)).

Record Grid := mkGrid {
  Size : Z;
  BoxRows : Z;
  BoxCols : Z;
  Cells : list nat
}.

(** [Grid{}] *)
Definition none : Grid := mkGrid 0 0 0 [].

Definition MaxGridSize : Z := 25.

(** Go's [int], taken at its 64-bit width: a result that leaves the range
    wraps around.  The guards of [NewGrid], of [FromStringN] and of the
    [/generate] handler multiply numbers that nothing has bounded yet, so
    their products are wrapped.  On a well-formed grid (sizes at most 25)
    every number the code computes stays far inside the range. *)
Definition wrap (z : Z) : Z := ((z + 2 ^ 63) mod 2 ^ 64 - 2 ^ 63)%Z.

(** [l[i]] *)
Definition index {A} (l : list A) (i : Z) : res A :=
  if (i <? 0)%Z then Panic
  else match l !! Z.to_nat i with
       | Some x => Ok x
       | None => Panic
       end.

(** [w.Cells[r][c]] *)
Definition cell (h : heap) (w : Grid) (r c : Z) : res Z :=
  a ← index (Cells w) r; row ← index h (Z.of_nat a); index row c.

(** [w.Cells[r][c] = v] *)
Definition setCell (h : heap) (w : Grid) (r c v : Z) : res heap :=
  a ← index (Cells w) r; row ← index h (Z.of_nat a); _ ← index row c;
  Ok (<[a := <[Z.to_nat c := v]> row]> h).

(** Short-circuiting conjunction of the iterations of a loop whose body
    returns early with [false]. *)
Fixpoint allM {A} (f : A → res bool) (l : list A) : res bool :=
  match l with
  | [] => Ok true
  | x :: l' => b ← f x; if b : bool then allM f l' else Ok false
  end.

(** [make([][]int, size)] and one [make([]int, size)] per row: fresh
    addresses at the end of the store. Error texts are kept without the
    formatted numbers. *)
Definition NewGrid (size boxRows boxCols : Z) (h : heap)
  : Grid * error * heap :=
  if (size <=? 0)%Z || (boxRows <=? 0)%Z || (boxCols <=? 0)%Z
     || negb (size =? wrap (boxRows * boxCols))%Z
  then (none, Some "invalid dimensions"%string, h)
  else if (MaxGridSize <? size)%Z
  then (none, Some "grid size exceeds maximum allowed"%string, h)
  else
    let n := Z.to_nat size in
    (mkGrid size boxRows boxCols (seq (length h) n), None,
     h ++ replicate n (replicate n 0%Z)).

(** [copy(dst, src)] on two rows. *)
Definition copyRow (dst src : list Z) : list Z :=
  take (length dst) src ++ drop (length src) dst.

Fixpoint cloneRows (out g : Grid) (rs : list Z) (h : heap) : res heap :=
  match rs with
  | [] => Ok h
  | r :: rs' =>
      d ← index (Cells out) r; dst ← index h (Z.of_nat d);
      s ← index (Cells g) r; src ← index h (Z.of_nat s);
      cloneRows out g rs' (<[d := copyRow dst src]> h)
  end.

Definition Clone (g : Grid) (h : heap) : res (Grid * heap) :=
  let '(out, _, h1) := NewGrid (Size g) (BoxRows g) (BoxCols g) h in
  h2 ← cloneRows out g (seqZ 0 (Size g)) h1; Ok (out, h2).

(** [seen[v]] with its bounds check. *)
Definition mark (v : Z) (seen : list bool) : res (option (list bool)) :=
  if (v =? 0)%Z then Ok (Some seen)
  else b ← index seen v;
       if b : bool then Ok None else Ok (Some (<[Z.to_nat v := true]> seen)).

Fixpoint scanLine (h : heap) (g : Grid) (i : Z) (js : list Z)
    (row col : list bool) : res bool :=
  match js with
  | [] => Ok true
  | j :: js' =>
      rv ← cell h g i j; cv ← cell h g j i;
      if (rv <? 0)%Z || (Size g <? rv)%Z || (cv <? 0)%Z || (Size g <? cv)%Z
      then Ok false
      else
        row' ← mark rv row;
        match row' with
        | None => Ok false
        | Some row' =>
            col' ← mark cv col;
            match col' with
            | None => Ok false
            | Some col' => scanLine h g i js' row' col'
            end
        end
  end.

Fixpoint scanBox (h : heap) (g : Grid) (ps : list (Z * Z)) (seen : list bool)
  : res bool :=
  match ps with
  | [] => Ok true
  | (r, c) :: ps' =>
      v ← cell h g r c; seen' ← mark v seen;
      match seen' with
      | None => Ok false
      | Some seen' => scanBox h g ps' seen'
      end
  end.

(** [make([]bool, s+1)] *)
Definition fresh (g : Grid) : list bool :=
  replicate (Z.to_nat (Size g + 1)) false.

(** The values of the counter of [for b := 0; b < s; b += step], for a
    positive [step]. *)
Definition starts (s step : Z) : list Z :=
  (λ k, k * step)%Z <$> seqZ 0 ((s + step - 1) / step).

Definition boxCells (g : Grid) (br bc : Z) : list (Z * Z) :=
  r ← seqZ br (BoxRows g); c ← seqZ bc (BoxCols g); [(r, c)].

Definition Validate (g : Grid) (h : heap) : res error :=
  let s := Size g in
  lines ← allM (λ i, scanLine h g i (seqZ 0 s) (fresh g) (fresh g)) (seqZ 0 s);
  if negb lines then Ok ErrInvalidBoard
  else if (s <=? 0)%Z then Ok None
  else if (BoxRows g <=? 0)%Z || (BoxCols g <=? 0)%Z then Diverge
  else
    boxes ← allM (λ br,
               allM (λ bc, scanBox h g (boxCells g br bc) (fresh g))
                    (starts s (BoxCols g)))
             (starts s (BoxRows g));
    Ok (if boxes : bool then None else ErrInvalidBoard).

Fixpoint findFirst (h : heap) (w : Grid) (ps : list (Z * Z))
  : res (Z * Z * bool) :=
  match ps with
  | [] => Ok (0%Z, 0%Z, false)
  | (r, c) :: ps' =>
      v ← cell h w r c;
      if (v =? 0)%Z then Ok (r, c, true) else findFirst h w ps'
  end.

Definition cellsOfZ (s : Z) : list (Z * Z) :=
  r ← seqZ 0 s; c ← seqZ 0 s; [(r, c)].

Definition findEmpty (g w : Grid) (h : heap) : res (Z * Z * bool) :=
  findFirst h w (cellsOfZ (Size g)).

Definition isSafe (g w : Grid) (h : heap) (r c v : Z) : res bool :=
  line ← allM (λ i, a ← cell h w r i;
                    if (a =? v)%Z then Ok false
                    else b ← cell h w i c; Ok (negb (b =? v)%Z))
              (seqZ 0 (Size g));
  if negb line then Ok false
  else if (BoxRows g =? 0)%Z then Panic
  else
    let br := (Z.quot r (BoxRows g) * BoxRows g)%Z in
    if (BoxCols g =? 0)%Z then Panic
    else
      let bc := (Z.quot c (BoxCols g) * BoxCols g)%Z in
      allM (λ i,
        allM (λ j, a ← cell h w (br + i) (bc + j); Ok (negb (a =? v)%Z))
             (seqZ 0 (BoxCols g)))
        (seqZ 0 (BoxRows g)).

Section Search.
Context {RS : RandSource}.

(** The candidate loop of [backtrack] and [dfs] on the store; [rec] is the
    recursive call and threads the state [St] ([globalRand] or the
    counter). *)
Fixpoint tryEachM {St : Type}
    (rec : heap → St → res (bool * heap * St))
    (g w : Grid) (r c : Z) (vs : list Z) (h : heap) (st : St)
  : res (bool * heap * St) :=
  match vs with
  | [] => Ok (false, h, st)
  | v :: vs' =>
      safe ← isSafe g w h r c v;
      if safe : bool then
        h1 ← setCell h w r c v;
        '(found, h2, st') ← rec h1 st;
        if found : bool then Ok (true, h2, st')
        else h3 ← setCell h2 w r c 0%Z; tryEachM rec g w r c vs' h3 st'
      else tryEachM rec g w r c vs' h st
  end.

(** [vals[i] = i + 1] for [i] below [g.Size]; [make] panics on a negative
    length. *)
Definition oneTo (s : Z) : res (list Z) :=
  if (s <? 0)%Z then Panic else Ok ((λ i, i + 1)%Z <$> seqZ 0 s).

Fixpoint backtrack (fuel : nat) (g w : Grid) (h : heap) (rs : rstate)
  : res (bool * heap * rstate) :=
  match fuel with
  | O => OutOfFuel
  | S fuel' =>
      '(r, c, ok) ← findEmpty g w h;
      if negb ok then Ok (true, h, rs)
      else
        vals ← oneTo (Size g);
        let '(vals, rs1) := Shuffle vals rs in
        tryEachM (backtrack fuel' g w) g w r c vals h rs1
  end.

(** One call per cell of the grid, plus the last one. *)
Definition budget (g : Grid) : nat := Z.to_nat (Size g * Size g) + 1.

Definition Solve (g : Grid) (h : heap) (rs : rstate)
  : res (Grid * bool * heap * rstate) :=
  '(work, h1) ← Clone g h;
  '(ok, h2, rs') ← backtrack (budget g) g work h1 rs;
  if ok : bool then Ok (work, true, h2, rs') else Ok (none, false, h2, rs').

Fixpoint dfs (fuel : nat) (limit : Z) (g cur : Grid) (h : heap) (count : Z)
  : res (bool * heap * Z) :=
  match fuel with
  | O => OutOfFuel
  | S fuel' =>
      '(r, c, ok) ← findEmpty g cur h;
      if negb ok then Ok ((limit <=? count + 1)%Z, h, (count + 1)%Z)
      else tryEachM (dfs fuel' limit g cur) g cur r c
             ((λ i, i + 1)%Z <$> seqZ 0 (Size g)) h count
  end.

Definition hasUniqueSolution (g w : Grid) (limit : Z) (h : heap)
  : res (bool * heap) :=
  '(work, h1) ← Clone w h;
  '(_, h2, count) ← dfs (budget g) limit g work h1 0%Z;
  Ok ((count =? 1)%Z, h2).

Definition cluesFor (g : Grid) (d : Difficulty) : Z :=
  let base := if String.eqb d Easy then 40%Z
              else if String.eqb d Hard then 26%Z else 32%Z in
  if (Size g =? 9)%Z then base
  else Z.max 8 (Z.quot (Size g * Size g * base) 81).

Fixpoint countFrom (h : heap) (w : Grid) (ps : list (Z * Z)) (cnt : Z)
  : res Z :=
  match ps with
  | [] => Ok cnt
  | (r, c) :: ps' =>
      v ← cell h w r c;
      countFrom h w ps' (if (v =? 0)%Z then cnt else (cnt + 1)%Z)
  end.

Definition countClues (g w : Grid) (h : heap) : res Z :=
  countFrom h w (cellsOfZ (Size g)) 0%Z.

Fixpoint fillFrom (g : Grid) (vals : list nat) (ps : list (Z * Z))
    (idx : Z) (h : heap) : res heap :=
  match ps with
  | [] => Ok h
  | (r, c) :: ps' =>
      x ← index vals idx;
      h' ← setCell h g r c (Z.of_nat x + 1)%Z;
      fillFrom g vals ps' (idx + 1)%Z h'
  end.

Definition fillBox (g : Grid) (br bc : Z) (h : heap) (rs : rstate)
  : res (heap * rstate) :=
  if (Size g <? 0)%Z then Panic
  else
    let '(vals, rs') := Perm (Z.to_nat (Size g)) rs in
    h' ← fillFrom g vals (boxCells g br bc) 0%Z h; Ok (h', rs').

Fixpoint fillBoxes (g : Grid) (ks : list Z) (h : heap) (rs : rstate)
  : res (heap * rstate) :=
  match ks with
  | [] => Ok (h, rs)
  | i :: ks' =>
      '(h', rs') ← fillBox g (i * BoxRows g)%Z (i * BoxCols g)%Z h rs;
      fillBoxes g ks' h' rs'
  end.

Definition fillDiagonalBoxes (g : Grid) (h : heap) (rs : rstate)
  : res (heap * rstate) :=
  if (BoxRows g =? 0)%Z then Panic
  else
    let nRowBoxes := Z.quot (Size g) (BoxRows g) in
    if (BoxCols g =? 0)%Z then Panic
    else
      let nColBoxes := Z.quot (Size g) (BoxCols g) in
      let steps := if (nColBoxes <? nRowBoxes)%Z then nColBoxes
                   else nRowBoxes in
      fillBoxes g (seqZ 0 steps) h rs.

Fixpoint carve (g puzzle : Grid) (target : Z) (rmOrder : list nat)
    (h : heap) : res heap :=
  match rmOrder with
  | [] => Ok h
  | idx :: rest =>
      n ← countClues g puzzle h;
      if (n <=? target)%Z then Ok h
      else if (Size g =? 0)%Z then Panic
      else
        let r := Z.quot (Z.of_nat idx) (Size g) in
        let c := Z.rem (Z.of_nat idx) (Size g) in
        old ← cell h puzzle r c;
        if (old =? 0)%Z then carve g puzzle target rest h
        else
          h1 ← setCell h puzzle r c 0%Z;
          '(unique, h2) ← hasUniqueSolution g puzzle 2 h1;
          if unique : bool then carve g puzzle target rest h2
          else h3 ← setCell h2 puzzle r c old; carve g puzzle target rest h3
  end.

Fixpoint attemptsLoop (n : nat) (g : Grid) (d : Difficulty)
    (lastErr : error) (h : heap) (rs : rstate)
  : res (Grid * error * heap * rstate) :=
  match n with
  | O =>
      let lastErr' := match lastErr with
                      | None => Some "generation failed"%string
                      | Some _ => lastErr
                      end in
      Ok (none, lastErr', h, rs)
  | S n' =>
      '(solved, h1) ← Clone g h;
      '(h2, rs1) ← fillDiagonalBoxes solved h1 rs;
      '(ok, h3, rs2) ← backtrack (budget g) g solved h2 rs1;
      if negb ok then
        attemptsLoop n' g d (Some "failed to build solved grid"%string) h3 rs2
      else
        let target := cluesFor g d in
        '(puzzle, h4) ← Clone solved h3;
        if (Size g * Size g <? 0)%Z then Panic
        else
          let '(rmOrder, rs3) := Perm (Z.to_nat (Size g * Size g)) rs2 in
          h5 ← carve g puzzle target rmOrder h4;
          '(unique, h6) ← hasUniqueSolution g puzzle 2 h5;
          if unique : bool then Ok (puzzle, None, h6, rs3)
          else attemptsLoop n' g d
                 (Some "puzzle uniqueness not achieved"%string) h6 rs3
  end.

Definition Generate (g : Grid) (d : Difficulty) (attempts : Z)
    (h : heap) (rs : rstate) : res (Grid * error * heap * rstate) :=
  attemptsLoop (Pure.tries attempts) g d None h rs.

(** [HintGrid] *)
Definition HintGrid (g : Grid) (h : heap) (rs : rstate)
  : res (Z * Z * Z * bool * heap * rstate) :=
  err ← Validate g h;
  match err with
  | Some _ => Ok (0, 0, 0, false, h, rs)%Z
  | None =>
      '(sol, ok, h', rs') ← Solve g h rs;
      if ok : bool then
        '(r, c, found) ← findFirst h' g (cellsOfZ (Size g));
        if found : bool then v ← cell h' sol r c; Ok (r, c, v, true, h', rs')
        else Ok (0, 0, 0, false, h', rs')%Z
      else Ok (0, 0, 0, false, h', rs')%Z
  end.
End Search.

(** *** Codec *)

(** The decoding loop; [Some msg] is its early return with an error. *)
Fixpoint parseCells (g : Grid) (size : Z) (chars : list ascii) (i : Z)
    (h : heap) : res (option string * heap) :=
  match chars with
  | [] => Ok (None, h)
  | ch :: chars' =>
      if (size =? 0)%Z then Panic
      else
        let r := Z.quot i size in
        let c := Z.rem i size in
        let code := Z.of_N (N_of_ascii ch) in
        if (49 <=? code)%Z && (code <=? 57)%Z then
          let v := (code - 48)%Z in
          if (size <? v)%Z then Ok (Some "digit exceeds grid size"%string, h)
          else h' ← setCell h g r c v; parseCells g size chars' (i + 1)%Z h'
        else if (code =? 48)%Z || (code =? 46)%Z then
          h' ← setCell h g r c 0%Z; parseCells g size chars' (i + 1)%Z h'
        else Ok (Some "invalid character in grid"%string, h)
  end.

Definition FromStringN (s : string) (size boxRows boxCols : Z) (h : heap)
  : res (Grid * error * heap) :=
  if negb (size =? wrap (boxRows * boxCols))%Z
  then Ok (none, Some "invalid dims"%string, h)
  else
    let expected := wrap (size * size) in
    if negb (Z.of_nat (String.length s) =? expected)%Z
    then Ok (none, Some "input must be size*size characters"%string, h)
    else
      let '(g, _, h1) := NewGrid size boxRows boxCols h in
      '(bad, h2) ← parseCells g size (String.list_ascii_of_string s) 0%Z h1;
      match bad with
      | Some msg => Ok (none, Some msg, h2)
      | None =>
          err ← Validate g h2;
          match err with
          | Some msg => Ok (none, Some msg, h2)
          | None => Ok (g, None, h2)
          end
      end.

Fixpoint formatFrom (h : heap) (g : Grid) (ps : list (Z * Z))
  : res (list ascii) :=
  match ps with
  | [] => Ok []
  | (r, c) :: ps' =>
      v ← cell h g r c; rest ← formatFrom h g ps';
      Ok (Pure.cellChar v :: rest)
  end.

Definition String (g : Grid) (h : heap) : res string :=
  buf ← formatFrom h g (cellsOfZ (Size g));
  Ok (String.string_of_list_ascii buf).

(** *** What a grid holds *)

(** The rows of [w] hold the matrix [m] in the store [h]. *)
Definition holds (h : heap) (w : Grid) (m : list (list Z)) : Prop :=
  Forall2 (λ a row, h !! a = Some row) (Cells w) m.

(** The dimensions of a grid as the type documents them (positive,
    [Size == BoxRows*BoxCols], at most [MaxGridSize]); the product is the
    exact one, so no side exceeds [Size]. *)
Definition dimsOk (g : Grid) : Prop :=
  (0 < Size g ≤ MaxGridSize)%Z ∧ (0 < BoxRows g)%Z ∧ (0 < BoxCols g)%Z
  ∧ Size g = (BoxRows g * BoxCols g)%Z.

(** A well-formed grid: dimensions as the type documents them, [Size] rows
    of [Size] cells each. *)
Definition wf (h : heap) (g : Grid) (m : list (list Z)) : Prop :=
  dimsOk g ∧ holds h g m ∧ shape (Z.to_nat (Size g)) m.

(** [h'] differs from [h] at most at the addresses in [locs]. *)
Definition framed (h h' : heap) (locs : list nat) : Prop :=
  length h' = length h ∧ ∀ a, a ∉ locs → h' !! a = h !! a.

Definition pairZ (p : nat * nat) : Z * Z := (Z.of_nat p.1, Z.of_nat p.2).

Definition hasDims (n R C : nat) (g : Grid) : Prop :=
  Size g = Z.of_nat n ∧ BoxRows g = Z.of_nat R ∧ BoxCols g = Z.of_nat C.

(** The dimensions of a grid as natural numbers. *)
Definition dim (g : Grid) : nat := Z.to_nat (Size g).
Definition boxR (g : Grid) : nat := Z.to_nat (BoxRows g).
Definition boxC (g : Grid) : nat := Z.to_nat (BoxCols g).

(** The grid value [FromStringN] and [Clone] hand back: the dimensions
    asked for, rows at the next free addresses of [h]. *)
Definition at_end (size boxRows boxCols : Z) (h : heap) : Grid :=
  mkGrid size boxRows boxCols (seq (length h) (Z.to_nat size)).

End Grid.

(** ** Specification-level notions *)
Module Spec.
Section Spec.
Variables (Size BoxRows BoxCols : nat).
Implicit Types (m s : list (list Z)).

(** Two cells see each other: same row, same column or same box. *)
Definition peer (r c r' c' : nat) : Prop :=
  r = r' ∨ c = c' ∨ (r / BoxRows = r' / BoxRows ∧ c / BoxCols = c' / BoxCols).

Definition inRange m : Prop :=
  ∀ r c, r < Size → c < Size → (0 ≤ get m r c ≤ Z.of_nat Size)%Z.

Definition noClash m : Prop :=
  ∀ r c r' c', r < Size → c < Size → r' < Size → c' < Size →
    (r, c) ≠ (r', c') → peer r c r' c' →
    get m r c ≠ 0%Z → get m r c ≠ get m r' c'.

(** The invariants of the data model: values in [[0, Size]], no non-zero
    value twice in a row, a column or a box. *)
Definition valid m : Prop := inRange m ∧ noClash m.

Definition full m : Prop := ∀ r c, r < Size → c < Size → get m r c ≠ 0%Z.

Definition extends m s : Prop :=
  ∀ r c, r < Size → c < Size → get m r c ≠ 0%Z → get s r c = get m r c.

(** [s] is a complete legal assignment of [m]. *)
Definition completion m s : Prop :=
  shape Size s ∧ valid s ∧ full s ∧ extends m s.

(** [m] has exactly one complete legal assignment. *)
Definition unique m : Prop :=
  ∃ s, completion m s ∧ ∀ s', completion m s' → s' = s.

Definition countEmpty m : nat :=
  length (filter (λ p, get m p.1 p.2 = 0%Z) (cellsOf Size)).

(** All full boards the search can reach from [m], in the order the
    uniqueness counter visits them (candidates in increasing order). *)
Fixpoint solutions (fuel : nat) m : list (list (list Z)) :=
  match fuel with
  | O => []
  | S fuel' =>
      let '(r, c, ok) := Pure.findEmpty Size m in
      if negb ok then [m]
      else v ← Pure.candidates Size;
           if Pure.isSafe Size BoxRows BoxCols m r c v
           then solutions fuel' (set m r c v) else []
  end.

(** The value a byte of the compact form stands for, if any. *)
Definition decodeChar (ch : ascii) : option Z :=
  let code := Z.of_N (N_of_ascii ch) in
  if (49 <=? code)%Z && (code <=? 57)%Z then
    if (Z.of_nat Size <? code - 48)%Z then None else Some (code - 48)%Z
  else if (code =? 48)%Z || (code =? 46)%Z then Some 0%Z
  else None.

Definition legal (ch : ascii) : Prop := is_Some (decodeChar ch).

(** The row-major grid a string of [Size * Size] bytes decodes to. *)
Definition decoded (chars : list ascii) : list (list Z) :=
  (λ r, (λ c, default 0%Z (decodeChar (nth (r * Size + c) chars "0"%char)))
        <$> seq 0 Size) <$> seq 0 Size.

(** A run of [mark] over a list of values. *)
Fixpoint scanVals (vs : list Z) (seen : list bool) : bool :=
  match vs with
  | [] => true
  | v :: vs' =>
      match Pure.mark v seen with
      | None => false
      | Some seen' => scanVals vs' seen'
      end
  end.

Definition nz (v : Z) : Prop := v ≠ 0%Z.

Definition rowsDistinct m : Prop :=
  ∀ i j j', i < Size → j < Size → j' < Size → j ≠ j' →
    get m i j ≠ 0%Z → get m i j ≠ get m i j'.

Definition colsDistinct m : Prop :=
  ∀ i j j', i < Size → j < Size → j' < Size → j ≠ j' →
    get m j i ≠ 0%Z → get m j i ≠ get m j' i.

Definition boxesDistinct m : Prop :=
  ∀ k l p q, k < BoxCols → l < BoxRows →
    p ∈ Pure.boxCells BoxRows BoxCols (k * BoxRows) (l * BoxCols) →
    q ∈ Pure.boxCells BoxRows BoxCols (k * BoxRows) (l * BoxCols) →
    p ≠ q → get m p.1 p.2 ≠ 0%Z → get m p.1 p.2 ≠ get m q.1 q.2.

(** The [i]-th box on the main diagonal of boxes. *)
Definition diagBox (i : nat) : list (nat * nat) :=
  Pure.boxCells BoxRows BoxCols (i * BoxRows) (i * BoxCols).

(** What holds of the grid after the boxes listed in [D] were seeded. *)
Definition seeded (D : list nat) m : Prop :=
  shape Size m ∧ inRange m
  ∧ (∀ r c, r < Size → c < Size → get m r c ≠ 0%Z →
       ∃ i, i ∈ D ∧ (r, c) ∈ diagBox i)
  ∧ (∀ i p q, i ∈ D → p ∈ diagBox i → q ∈ diagBox i → p ≠ q →
       get m p.1 p.2 ≠ get m q.1 q.2).

Definition blank m : Prop := ∀ r c, r < Size → c < Size → get m r c = 0%Z.
End Spec.
End Spec.

(** ** Closed examples *)
Module Examples.

(** The puzzle of the repository's tests. *)
Definition puzzle : string :=
  "53..7....6..195....98....6.8...6...34..8.3..17...2...6.6....28....419..5....8..79".

Definition parsed : Board.Board :=
  [ [5;3;0;0;7;0;0;0;0]; [6;0;0;1;9;5;0;0;0]; [0;9;8;0;0;0;0;6;0];
    [8;0;0;0;6;0;0;0;3]; [4;0;0;8;0;3;0;0;1]; [7;0;0;0;2;0;0;0;6];
    [0;6;0;0;0;0;2;8;0]; [0;0;0;4;1;9;0;0;5]; [0;0;0;0;8;0;0;7;9] ]%Z.

Definition solved : Board.Board :=
  [ [5;3;4;6;7;8;9;1;2]; [6;7;2;1;9;5;3;4;8]; [1;9;8;3;4;2;5;6;7];
    [8;5;9;7;6;1;4;2;3]; [4;2;6;8;5;3;7;9;1]; [7;1;3;9;2;4;8;5;6];
    [9;6;1;5;3;7;2;8;4]; [2;8;7;4;1;9;6;3;5]; [3;4;5;2;8;6;1;7;9] ]%Z.

(** A full board that breaks every rule. *)
Definition ones : Board.Board := replicate 9 (replicate 9 1%Z).

(** A 4x4 grid with 2x2 boxes whose rows sit at addresses 0..3. *)
Definition g4 : Grid.Grid := Grid.mkGrid 4 2 2 [0; 1; 2; 3].

Definition open4 : list (list Z) :=
  [ [0;0;3;4]; [3;4;0;0]; [0;0;4;3]; [4;3;0;0] ]%Z.

Definition full4 : list (list Z) :=
  [ [1;2;3;4]; [3;4;1;2]; [2;1;4;3]; [4;3;2;1] ]%Z.

(** The completion of [open4] the search finds from [rs0]. *)
Definition solved4 : list (list Z) :=
  [ [2;1;3;4]; [3;4;2;1]; [1;2;4;3]; [4;3;1;2] ]%Z.

Definition ones4 : list (list Z) := replicate 4 (replicate 4 1%Z).

Definition zeros4 : list (list Z) := replicate 4 (replicate 4 0%Z).

(** States of the example source. *)
Definition rs0 : @rstate lcgSource := 42%Z.
Definition rs1 : @rstate lcgSource := 2024%Z.

(** A 10x10 grid with 2x5 boxes, empty but for a 10 in its first cell. *)
Definition g10 : Grid.Grid := Grid.mkGrid 10 2 5 (seq 0 10).

Definition ten10 : list (list Z) :=
  (10 :: replicate 9 0)%Z :: replicate 9 (replicate 10 0%Z).

(** A 9x9 grid with 3x3 boxes whose rows sit at addresses 0..8. *)
Definition g9 : Grid.Grid := Grid.mkGrid 9 3 3 (seq 0 9).

End Examples.

(** ** Further specification-level notions *)

(** [(r, c)] is the first empty cell of [m] in row-major order. *)
Definition firstEmpty (n : nat) (m : list (list Z)) (r c : nat) : Prop :=
  r < n ∧ c < n ∧ get m r c = 0%Z
  ∧ ∀ r' c', r' < n → c' < n → r' * n + c' < r * n + c → get m r' c' ≠ 0%Z.

(** The compact form the formatter writes for a string the parser accepts:
    ['.'] becomes ['0'], every other byte stays. *)
Definition canonChar (ch : ascii) : ascii :=
  if Ascii.eqb ch "."%char then "0"%char else ch.

Definition canon (s : string) : string :=
  String.string_of_list_ascii (canonChar <$> String.list_ascii_of_string s).

(** ** The HTTP handlers of the server

    A handler reads the method and the JSON body of the request and writes
    one response.  The standard library does the transport: the result of
    [json.NewDecoder(r.Body).Decode(&req)] is an input here ([None] when it
    returns an error), [fmt.Sscanf(box, "%dx%d", &br, &bc)] is the
    parameter [scan] ([None] when it returns an error), and the response is
    the value [writeJSON] is called with. *)
Module Server.

(** The documents the handlers encode. *)
Inductive doc :=
  | errMsg (msg : string)
      (** [{"error": msg}] *)
  | solution (sol : Board.Board)
      (** [{"solution": sol}] *)
  | puzzle (puz : Board.Board) (sol : option Board.Board)
      (** [{"puzzle": puz}], with ["solution": sol] when it was set *)
  | gridPuzzle (size boxR boxC : Z) (cells : list (list Z)).
      (** [{"size": .., "boxR": .., "boxC": .., "puzzle": cells}] *)

Record response := mkResponse {
  status : Z;
  allow : option string;
  body : doc
}.

Definition StatusOK : Z := 200.
Definition StatusBadRequest : Z := 400.
Definition StatusMethodNotAllowed : Z := 405.
Definition StatusUnprocessableEntity : Z := 422.
Definition StatusInternalServerError : Z := 500.

Definition writeJSON (status : Z) (v : doc) : response :=
  mkResponse status None v.

(** [w.Header().Set("Allow", "POST")] followed by [writeJSON]. *)
Definition notAllowed : response :=
  mkResponse StatusMethodNotAllowed (Some "POST"%string)
    (errMsg "method not allowed").

(** The request body of [/solve]: [Puzzle *sudoku.Board], [String string]. *)
Record solveReq := mkSolveReq {
  Puzzle : option Board.Board;
  String_ : string
}.

(** The request body of [/generate]. *)
Record genReq := mkGenReq {
  Difficulty_ : string;
  IncludeSolution : bool;
  Size_ : Z;
  Box : string;
  Attempts : Z
}.

(** The rows a grid points to, as the encoder reads them. *)
Fixpoint rows (h : Grid.heap) (cells : list nat) : Grid.res (list (list Z)) :=
  match cells with
  | [] => Grid.Ok []
  | a :: rest =>
      row ← Grid.index h (Z.of_nat a); more ← rows h rest;
      Grid.Ok (row :: more)
  end.

(** The board a [/solve] request asks about: the array, or else the
    parsed string. *)
Definition carries (req : solveReq) (b : Board.Board) : Prop :=
  Puzzle req = Some b
  ∨ (Puzzle req = None ∧ String_ req ≠ ""%string
     ∧ Board.FromString (String_ req) = (b, None)).

Section Handlers.
Context {RS : RandSource}.
Variable scan : string → option (Z * Z).

Definition handleSolve (method : string) (decoded : option solveReq)
    (rs : rstate) : option (response * rstate) :=
  if negb (String.eqb method "POST") then Some (notAllowed, rs)
  else
    match decoded with
    | None => Some (writeJSON StatusBadRequest (errMsg "invalid json"), rs)
    | Some req =>
        let solve (b : Board.Board) :=
          match Board.Solve b rs with
          | None => None
          | Some (sol, true, rs') =>
              Some (writeJSON StatusOK (solution sol), rs')
          | Some (_, false, rs') =>
              Some (writeJSON StatusUnprocessableEntity (errMsg "unsolvable"),
                    rs')
          end in
        match Puzzle req with
        | Some b =>
            match Board.Validate b with
            | Some _ =>
                Some (writeJSON StatusBadRequest (errMsg "invalid puzzle"), rs)
            | None => solve b
            end
        | None =>
            if negb (String.eqb (String_ req) "") then
              match Board.FromString (String_ req) with
              | (_, Some _) =>
                  Some (writeJSON StatusBadRequest
                          (errMsg "invalid puzzle string"), rs)
              | (b, None) => solve b
              end
            else
              Some (writeJSON StatusBadRequest (errMsg "missing puzzle"), rs)
        end
    end.

Definition handleGenerate (method : string) (decoded : option genReq)
    (h : Grid.heap) (rs : rstate)
  : Grid.res (response * Grid.heap * rstate) :=
  if negb (String.eqb method "POST") then Grid.Ok (notAllowed, h, rs)
  else
    match decoded with
    | None =>
        Grid.Ok (writeJSON StatusBadRequest (errMsg "invalid json"), h, rs)
    | Some req =>
        let d :=
          if String.eqb (Difficulty_ req) Easy
             || String.eqb (Difficulty_ req) "" then Some Easy
          else if String.eqb (Difficulty_ req) Medium then Some Medium
          else if String.eqb (Difficulty_ req) Hard then Some Hard
          else None in
        match d with
        | None =>
            Grid.Ok (writeJSON StatusBadRequest (errMsg "invalid difficulty"),
                     h, rs)
        | Some d =>
            let attempts :=
              if (Attempts req <? 1)%Z then 3%Z else Attempts req in
            if (Size_ req =? 0)%Z && String.eqb (Box req) "" then
              match Board.Generate d attempts rs with
              | None => Grid.OutOfFuel
              | Some (_, Some _, rs') =>
                  Grid.Ok (writeJSON StatusInternalServerError
                             (errMsg "generation failed"), h, rs')
              | Some (puz, None, rs') =>
                  if IncludeSolution req then
                    match Board.Solve puz rs' with
                    | None => Grid.OutOfFuel
                    | Some (sol, true, rs'') =>
                        Grid.Ok (writeJSON StatusOK (puzzle puz (Some sol)),
                                 h, rs'')
                    | Some (_, false, rs'') =>
                        Grid.Ok (writeJSON StatusOK (puzzle puz None), h, rs'')
                    end
                  else Grid.Ok (writeJSON StatusOK (puzzle puz None), h, rs')
              end
            else if (Size_ req <=? 0)%Z || String.eqb (Box req) "" then
              Grid.Ok (writeJSON StatusBadRequest
                         (errMsg "size and box required for variable grid"),
                       h, rs)
            else if (Grid.MaxGridSize <? Size_ req)%Z then
              Grid.Ok (writeJSON StatusBadRequest
                         (errMsg "grid size exceeds maximum allowed"), h, rs)
            else
              match scan (Box req) with
              | None =>
                  Grid.Ok (writeJSON StatusBadRequest
                             (errMsg "invalid box dims"), h, rs)
              | Some (br, bc) =>
                  if negb (Grid.wrap (br * bc) =? Size_ req)%Z then
                    Grid.Ok (writeJSON StatusBadRequest
                               (errMsg "invalid box dims"), h, rs)
                  else
                    let '(g, err, h1) := Grid.NewGrid (Size_ req) br bc h in
                    match err with
                    | Some _ =>
                        Grid.Ok (writeJSON StatusBadRequest
                                   (errMsg "invalid grid params"), h1, rs)
                    | None =>
                        '(gpuz, err, h2, rs') ←
                          Grid.Generate g d attempts h1 rs;
                        match err with
                        | Some _ =>
                            Grid.Ok (writeJSON StatusInternalServerError
                                       (errMsg "generation failed"), h2, rs')
                        | None =>
                            cells ← rows h2 (Grid.Cells gpuz);
                            Grid.Ok (writeJSON StatusOK
                                       (gridPuzzle (Grid.Size gpuz)
                                          (Grid.BoxRows gpuz)
                                          (Grid.BoxCols gpuz) cells),
                                     h2, rs')
                        end
                    end
              end
        end
    end.

End Handlers.
End Server.
(** ** Shuffles are permutations *)
Section RandFacts.
Context {RS : RandSource}.

Lemma insert_Permutation {A} (l : list A) i x y :
  l !! i = Some x → <[i := y]> l ≡ₚ y :: delete i l.
Proof.
  revert i. induction l as [|a l IH]; intros [|i] Hi; simplify_eq/=; [done|].
  rewrite (IH i Hi). apply perm_swap.
Qed.

Lemma swap_Permutation {A} (l : list A) i j : swap l i j ≡ₚ l.
Proof.
  unfold swap. destruct (l !! i) as [x|] eqn:Hi; [|done].
  destruct (l !! j) as [y|] eqn:Hj; [|done].
  destruct (decide (i = j)) as [->|Hne].
  - rewrite list_insert_insert_eq. simplify_eq. by rewrite list_insert_id.
  - assert (<[j:=x]> l !! i = Some x) as Hi' by by rewrite list_lookup_insert_ne.
    rewrite (insert_Permutation _ _ _ _ Hi').
    etrans; [|symmetry; apply (delete_Permutation l j y Hj)].
    apply Permutation_skip, (Permutation_cons_inv (a := x)).
    etrans; [symmetry; apply (delete_Permutation _ _ _ Hi')|].
    by apply (insert_Permutation _ _ y).
Qed.

Lemma shuffleFrom_Permutation {A} k (l : list A) g : (shuffleFrom k l g).1 ≡ₚ l.
Proof.
  revert l g. induction k as [|k IH]; intros l g; simpl; [done|].
  destruct (uint64n g _) as [j g']. rewrite IH. apply swap_Permutation.
Qed.

Lemma Shuffle_Permutation {A} (l : list A) g : (Shuffle l g).1 ≡ₚ l.
Proof. apply shuffleFrom_Permutation. Qed.

Lemma Perm_Permutation n g : (Perm n g).1 ≡ₚ seq 0 n.
Proof. apply Shuffle_Permutation. Qed.
End RandFacts.
(** ** Facts on matrices *)
Section Matrix.
Implicit Types (m : list (list Z)) (r c n : nat) (v : Z).

Lemma get_lookup m r c row :
  m !! r = Some row → get m r c = nth c row 0%Z.
Proof.
  intros Hr. unfold get. by rewrite (nth_lookup_Some _ _ _ _ Hr).
Qed.

Lemma shape_row n m r row : shape n m → m !! r = Some row → length row = n.
Proof. intros [_ Hrows] Hrow. by eapply (Forall_lookup_1 _ _ _ _ Hrows). Qed.

Lemma set_lookup m r c v row :
  m !! r = Some row → set m r c v !! r = Some (<[c := v]> row).
Proof.
  intros Hrow. unfold set. rewrite (nth_lookup_Some _ _ _ _ Hrow).
  apply list_lookup_insert_eq. by eapply lookup_lt_Some.
Qed.

Lemma get_set_eq m r c v n :
  shape n m → r < n → c < n → get (set m r c v) r c = v.
Proof.
  intros Hs Hr Hc. pose proof Hs as [Hlen _].
  destruct (lookup_lt_is_Some_2 m r) as [row Hrow]; [lia|].
  pose proof (shape_row _ _ _ _ Hs Hrow) as Hl.
  rewrite (get_lookup _ _ _ _ (set_lookup _ _ c v _ Hrow)).
  apply nth_lookup_Some, list_lookup_insert_eq. lia.
Qed.

Lemma get_set_ne m r c v r' c' :
  (r, c) ≠ (r', c') → get (set m r c v) r' c' = get m r' c'.
Proof.
  intros Hne. destruct (decide (r = r')) as [->|Hr].
  - assert (c ≠ c') as Hc by congruence.
    destruct (m !! r') as [row|] eqn:Hrow.
    + rewrite (get_lookup _ _ _ _ (set_lookup _ _ c v _ Hrow)).
      rewrite (get_lookup _ _ _ _ Hrow).
      rewrite !nth_lookup. by rewrite list_lookup_insert_ne.
    + unfold set. rewrite list_insert_ge; [done|]. by apply lookup_ge_None.
  - unfold get, set. rewrite !(nth_lookup _ r').
    by rewrite list_lookup_insert_ne.
Qed.

Lemma shape_set n m r c v : shape n m → shape n (set m r c v).
Proof.
  intros Hs. pose proof Hs as [Hlen Hrows]. unfold set. split.
  - by rewrite length_insert.
  - destruct (m !! r) as [row|] eqn:Hrow.
    + apply Forall_insert; [done|]. rewrite length_insert.
      rewrite (nth_lookup_Some _ _ _ _ Hrow). by eapply shape_row.
    + rewrite list_insert_ge; [done|]. by apply lookup_ge_None.
Qed.

(** Two matrices of the same shape with the same cells are equal. *)
Lemma shape_ext n m m' :
  shape n m → shape n m' →
  (∀ r c, r < n → c < n → get m r c = get m' r c) → m = m'.
Proof.
  intros Hs Hs' Hget. pose proof Hs as [Hlen _]. pose proof Hs' as [Hlen' _].
  apply list_eq_same_length with n; [done..|].
  intros r row row' Hr Hrow Hrow'.
  pose proof (shape_row _ _ _ _ Hs Hrow) as Hl.
  pose proof (shape_row _ _ _ _ Hs' Hrow') as Hl'.
  apply list_eq_same_length with n; [done..|].
  intros c x y Hc Hx Hy.
  specialize (Hget r c Hr Hc).
  rewrite (get_lookup _ _ _ _ Hrow), (get_lookup _ _ _ _ Hrow') in Hget.
  rewrite (nth_lookup_Some _ _ _ _ Hx), (nth_lookup_Some _ _ _ _ Hy) in Hget.
  done.
Qed.

Lemma set_restore n m r c v :
  shape n m → r < n → c < n → set (set m r c v) r c (get m r c) = m.
Proof.
  intros Hs Hr Hc. apply (shape_ext n); [by do 2 apply shape_set | done |].
  intros r' c' Hr' Hc'. destruct (decide ((r, c) = (r', c'))) as [[= <- <-]|Hne].
  - rewrite (get_set_eq _ _ _ _ n); [done | by apply shape_set | done..].
  - by rewrite !get_set_ne.
Qed.

Lemma elem_of_cellsOf n r c : (r, c) ∈ cellsOf n ↔ r < n ∧ c < n.
Proof.
  unfold cellsOf. rewrite list_elem_of_bind. split.
  - intros (r' & Hin & Hr'). apply list_elem_of_bind in Hin as (c' & Hin & Hc').
    apply list_elem_of_singleton in Hin as [= -> ->].
    apply elem_of_seq in Hr', Hc'. lia.
  - intros [Hr Hc]. exists r. split; [|apply elem_of_seq; lia].
    apply list_elem_of_bind. exists c. split; [by apply list_elem_of_singleton|].
    apply elem_of_seq; lia.
Qed.

Lemma NoDup_cellsOf n : NoDup (cellsOf n).
Proof.
  unfold cellsOf. apply NoDup_bind.
  - intros r1 r2 p _ _ Hp1 Hp2.
    apply list_elem_of_bind in Hp1 as (c1 & Hp1 & _).
    apply list_elem_of_bind in Hp2 as (c2 & Hp2 & _).
    apply list_elem_of_singleton in Hp1, Hp2. congruence.
  - intros r _. apply NoDup_bind.
    + intros c1 c2 p _ _ Hp1 Hp2.
      apply list_elem_of_singleton in Hp1, Hp2. congruence.
    + intros c _. apply NoDup_singleton.
    + apply NoDup_seq.
  - apply NoDup_seq.
Qed.

Lemma length_bind_const {A B} (f : A → list B) (l : list A) k :
  (∀ x, length (f x) = k) → length (l ≫= f) = length l * k.
Proof.
  intros Hf. induction l as [|x l IH]; [done|].
  change ((x :: l) ≫= f) with (f x ++ (l ≫= f)).
  rewrite length_app, Hf, IH. simpl. lia.
Qed.

Lemma length_cellsOf n : length (cellsOf n) = n * n.
Proof.
  unfold cellsOf. rewrite (length_bind_const _ _ n), length_seq; [done|].
  intros r. rewrite (length_bind_const _ _ 1), length_seq; [lia | done].
Qed.
End Matrix.

(** ** The matrix algorithms meet their specification *)
Section PureFacts.
Context {RS : RandSource}.
Variables (Size BoxRows BoxCols : nat).
Hypothesis Hdims : Size = BoxRows * BoxCols.
Hypothesis HR : 0 < BoxRows.
Hypothesis HC : 0 < BoxCols.
Implicit Types (m s w : list (list Z)) (r c : nat) (v : Z).

Local Abbreviation peer := (Spec.peer BoxRows BoxCols).
Local Abbreviation valid := (Spec.valid Size BoxRows BoxCols).
Local Abbreviation inRange := (Spec.inRange Size).
Local Abbreviation noClash := (Spec.noClash Size BoxRows BoxCols).
Local Abbreviation full := (Spec.full Size).
Local Abbreviation extends := (Spec.extends Size).
Local Abbreviation completion := (Spec.completion Size BoxRows BoxCols).
Local Abbreviation countEmpty := (Spec.countEmpty Size).
Local Abbreviation solutions := (Spec.solutions Size BoxRows BoxCols).
Local Abbreviation isSafe := (Pure.isSafe Size BoxRows BoxCols).
Local Abbreviation findEmpty := (Pure.findEmpty Size).
Local Abbreviation candidates := (Pure.candidates Size).
Local Abbreviation scanVals := Spec.scanVals.
Local Abbreviation nz := Spec.nz.
Local Abbreviation rowsDistinct := (Spec.rowsDistinct Size).
Local Abbreviation colsDistinct := (Spec.colsDistinct Size).
Local Abbreviation boxesDistinct := (Spec.boxesDistinct BoxRows BoxCols).
Local Abbreviation diagBox := (Spec.diagBox BoxRows BoxCols).
Local Abbreviation seeded := (Spec.seeded Size BoxRows BoxCols).
Local Abbreviation blank := (Spec.blank Size).

Lemma box_corner_bound r i : r < Size → i < BoxRows → r / BoxRows * BoxRows + i < Size.
Proof.
  intros Hr Hi. assert (r / BoxRows < BoxCols) as Hq.
  { apply Nat.Div0.div_lt_upper_bound. lia. }
  nia.
Qed.

Lemma box_corner_bound_col c j : c < Size → j < BoxCols → c / BoxCols * BoxCols + j < Size.
Proof.
  intros Hc Hj. assert (c / BoxCols < BoxRows) as Hq.
  { apply Nat.Div0.div_lt_upper_bound. lia. }
  nia.
Qed.

Lemma box_offset k n x : 0 < n → x / n = k → ∃ i, i < n ∧ x = k * n + i.
Proof.
  intros Hn <-. exists (x mod n). split; [by apply Nat.mod_upper_bound; lia|].
  pose proof (Nat.div_mod_eq x n). lia.
Qed.

Lemma box_div k n i : i < n → (k * n + i) / n = k.
Proof.
  intros Hi. rewrite Nat.div_add_l by lia. rewrite Nat.div_small by done. lia.
Qed.

Lemma div_in_box k n x : k * n ≤ x < k * n + n → x / n = k.
Proof.
  intros Hx. replace x with (k * n + (x - k * n)) by lia. apply box_div. lia.
Qed.

Lemma isSafe_spec m r c v :
  r < Size → c < Size →
  isSafe m r c v = true ↔
  (∀ r' c', r' < Size → c' < Size → peer r c r' c' → get m r' c' ≠ v).
Proof.
  intros Hr Hc. unfold Pure.isSafe.
  rewrite andb_true_iff, !forallb_forall. split.
  - intros [Hline Hbox] r' c' Hr' Hc' [<-|[<-|[Hbr Hbc]]].
    + specialize (Hline c'). rewrite <- list_elem_of_In, elem_of_seq in Hline.
      specialize (Hline ltac:(lia)).
      apply negb_true_iff, orb_false_iff in Hline as [H%Z.eqb_neq _]. done.
    + specialize (Hline r'). rewrite <- list_elem_of_In, elem_of_seq in Hline.
      specialize (Hline ltac:(lia)).
      apply negb_true_iff, orb_false_iff in Hline as [_ H%Z.eqb_neq]. done.
    + symmetry in Hbr, Hbc.
      apply box_offset in Hbr as (i & Hi & ->); [|done].
      apply box_offset in Hbc as (j & Hj & ->); [|done].
      specialize (Hbox i). rewrite <- list_elem_of_In, elem_of_seq in Hbox.
      specialize (Hbox ltac:(lia)). rewrite forallb_forall in Hbox.
      specialize (Hbox j). rewrite <- list_elem_of_In, elem_of_seq in Hbox.
      specialize (Hbox ltac:(lia)). by apply negb_true_iff, Z.eqb_neq in Hbox.
  - intros H. split.
    + intros i [_ Hi]%list_elem_of_In%elem_of_seq.
      apply negb_true_iff, orb_false_iff. split; apply Z.eqb_neq.
      * apply H; [done | lia | by left].
      * apply H; [lia | done | by right; left].
    + intros i [_ Hi]%list_elem_of_In%elem_of_seq. apply forallb_forall.
      intros j [_ Hj]%list_elem_of_In%elem_of_seq.
      apply negb_true_iff, Z.eqb_neq. apply H.
      * apply box_corner_bound; lia.
      * apply box_corner_bound_col; lia.
      * right; right. rewrite !box_div by lia. done.
Qed.

Lemma findEmpty_found m r c :
  findEmpty m = (r, c, true) → r < Size ∧ c < Size ∧ get m r c = 0%Z.
Proof.
  unfold Pure.findEmpty.
  destruct (List.find _ _) as [[r' c']|] eqn:Hf; [|done].
  intros [= -> ->]. apply find_some in Hf as [Hin Hz].
  apply list_elem_of_In, elem_of_cellsOf in Hin. simpl in Hz.
  apply Z.eqb_eq in Hz. tauto.
Qed.

Lemma findEmpty_none m r c :
  findEmpty m = (r, c, false) → r = 0 ∧ c = 0 ∧ full m.
Proof.
  unfold Pure.findEmpty.
  destruct (List.find _ _) as [[r' c']|] eqn:Hf; [done|].
  intros [= <- <-]. split; [done|]. split; [done|].
  intros r c Hr Hc. apply find_none with (x := (r, c)) in Hf;
    [|by apply list_elem_of_In, elem_of_cellsOf].
  simpl in Hf. by apply Z.eqb_neq in Hf.
Qed.

Lemma findEmpty_full m : full m → findEmpty m = (0, 0, false).
Proof.
  intros Hfull. destruct (findEmpty m) as [[r c] [|]] eqn:Hf.
  - apply findEmpty_found in Hf as (Hr & Hc & Hz). by destruct (Hfull r c).
  - by apply findEmpty_none in Hf as (-> & -> & _).
Qed.

(** *** The validator decides the invariants *)

Lemma scanVals_spec vs seen :
  length seen = Size + 1 →
  (∀ v, v ∈ vs → (0 ≤ v ≤ Z.of_nat Size)%Z) →
  scanVals vs seen = true ↔
  (∀ v, v ∈ vs → v ≠ 0%Z → nth (Z.to_nat v) seen false = false)
  ∧ NoDup (filter nz vs).
Proof.
  revert seen. induction vs as [|v vs IH]; intros seen Hlen Hrange; simpl.
  { split; [|done]. intros _. split; [by intros ? ?%elem_of_nil | constructor]. }
  assert (0 ≤ v ≤ Z.of_nat Size)%Z as Hv by (apply Hrange; left).
  assert (∀ u, u ∈ vs → (0 ≤ u ≤ Z.of_nat Size)%Z) as Hrange'.
  { intros u Hu. apply Hrange. by right. }
  unfold Pure.mark. destruct (Z.eqb_spec v 0) as [->|Hnz].
  - rewrite IH by done. rewrite filter_cons_False by (unfold Spec.nz; tauto).
    split; intros [H1 H2]; (split; [|done]).
    + intros u [->|Hu]%elem_of_cons; [done | by apply H1].
    + intros u Hu. apply H1. by right.
  - rewrite filter_cons_True by done.
    destruct (nth (Z.to_nat v) seen false) eqn:Hseen.
    + split; [done|]. intros [H1 _]. rewrite H1 in Hseen; [done | by left | done].
    + rewrite IH; [| by rewrite length_insert | done].
      rewrite NoDup_cons, list_elem_of_filter.
      assert (∀ u, (0 ≤ u ≤ Z.of_nat Size)%Z →
              nth (Z.to_nat u) (<[Z.to_nat v:=true]> seen) false
              = if decide (u = v) then true else nth (Z.to_nat u) seen false) as Hins.
      { intros u Hu. rewrite !nth_lookup. case_decide as Huv.
        - subst u. rewrite list_lookup_insert_eq; [done | lia].
        - rewrite list_lookup_insert_ne; [done | lia]. }
      split.
      * intros [H1 H2]. split; [|split; [|done]].
        -- intros u [->|Hu]%elem_of_cons Hu0; [done|].
           specialize (H1 u Hu Hu0). rewrite Hins in H1 by auto.
           by case_decide.
        -- intros [_ Hin]. specialize (H1 v Hin Hnz). rewrite Hins in H1 by auto.
           by case_decide.
      * intros (H1 & H2 & H3). split; [|done]. intros u Hu Hu0.
        rewrite Hins by auto. case_decide as Huv.
        -- subst u. destruct H2. done.
        -- apply H1; [by right | done].
Qed.

(** Distinctness of the non-zero values read at distinct positions. *)
Lemma NoDup_nz_fmap {A} (f : A → Z) (ps : list A) :
  NoDup ps →
  NoDup (filter nz (f <$> ps)) ↔
  (∀ p q, p ∈ ps → q ∈ ps → p ≠ q → f p ≠ 0%Z → f p ≠ f q).
Proof.
  induction ps as [|p ps IH]; intros Hnd; simpl.
  { split; [by intros _ ? ? ?%elem_of_nil | constructor]. }
  apply NoDup_cons in Hnd as [Hp Hnd]. specialize (IH Hnd).
  destruct (decide (f p = 0%Z)) as [Hz|Hz].
  - rewrite filter_cons_False by (unfold Spec.nz; tauto). rewrite IH. split.
    + intros H q1 q2 H1%elem_of_cons H2%elem_of_cons Hne Hq.
      destruct H1 as [->|H1], H2 as [->|H2];
        [done | done | congruence | by apply H].
    + intros H q1 q2 H1 H2. apply H; by right.
  - rewrite filter_cons_True by done. rewrite NoDup_cons, IH.
    rewrite list_elem_of_filter, list_elem_of_fmap. split.
    + intros [Hnin H] q1 q2 H1%elem_of_cons H2%elem_of_cons Hne Hq.
      destruct H1 as [->|H1], H2 as [->|H2]; [done | | | by apply H].
      * intros Heq. apply Hnin. split; [done|]. by exists q2.
      * intros Heq. apply Hnin. split; [done|]. by exists q1.
    + intros H. split.
      * intros [_ (q & Heq & Hq)].
        apply (H p q); [by left | by right | by intros -> | done | done].
      * intros q1 q2 H1 H2. apply H; by right.
Qed.

Lemma scanBox_vals m ps seen :
  Pure.scanBox m ps seen = scanVals ((λ p, get m p.1 p.2) <$> ps) seen.
Proof.
  revert seen. induction ps as [|[r c] ps IH]; intros seen; simpl; [done|].
  destruct (Pure.mark _ _); [apply IH | done].
Qed.

Lemma scanLine_vals m i js row col :
  Pure.scanLine Size m i js row col = true ↔
  (∀ j, j ∈ js → (0 ≤ get m i j ≤ Z.of_nat Size)%Z
                ∧ (0 ≤ get m j i ≤ Z.of_nat Size)%Z)
  ∧ scanVals ((λ j, get m i j) <$> js) row = true
  ∧ scanVals ((λ j, get m j i) <$> js) col = true.
Proof.
  revert row col. induction js as [|j js IH]; intros row col; simpl.
  { split; [|done]. intros _. split; [|done]. by intros j ?%elem_of_nil. }
  destruct (_ || _) eqn:Hrange.
  - split; [done|]. intros [H _]. specialize (H j ltac:(left)).
    rewrite !orb_true_iff, !Z.ltb_lt in Hrange. lia.
  - rewrite !orb_false_iff, !Z.ltb_ge in Hrange.
    destruct (Pure.mark (get m i j) row) as [row'|]; [|by split; [|intros (_ & ? & _)]].
    destruct (Pure.mark (get m j i) col) as [col'|]; [|by split; [|intros (_ & _ & ?)]].
    rewrite IH. split.
    + intros (H & ? & ?). split; [|done].
      intros j' [->|Hj']%elem_of_cons; [lia | by apply H].
    + intros (H & ? & ?). split; [|done]. intros j' Hj'. apply H. by right.
Qed.

Lemma nth_fresh k : nth k (Pure.fresh Size) false = false.
Proof.
  unfold Pure.fresh. rewrite nth_lookup.
  destruct (replicate _ _ !! k) eqn:H; [|done].
  by apply lookup_replicate in H as [-> _].
Qed.

Lemma length_fresh : length (Pure.fresh Size) = Size + 1.
Proof. apply length_replicate. Qed.

Lemma scan_fresh_spec {A} (f : A → Z) (ps : list A) :
  NoDup ps →
  (∀ p, p ∈ ps → (0 ≤ f p ≤ Z.of_nat Size)%Z) →
  scanVals (f <$> ps) (Pure.fresh Size) = true ↔
  (∀ p q, p ∈ ps → q ∈ ps → p ≠ q → f p ≠ 0%Z → f p ≠ f q).
Proof.
  intros Hnd Hrange. rewrite scanVals_spec.
  - rewrite NoDup_nz_fmap by done. split; [tauto|]. intros H. split; [|done].
    intros. apply nth_fresh.
  - apply length_fresh.
  - intros v (p & -> & Hp)%list_elem_of_fmap. by apply Hrange.
Qed.

Lemma rowsColsOk_spec m :
  Pure.rowsColsOk Size m = true ↔ inRange m ∧ rowsDistinct m ∧ colsDistinct m.
Proof.
  unfold Pure.rowsColsOk. rewrite forallb_forall. split.
  - intros H.
    assert (∀ i, i < Size →
      (∀ j, j < Size → (0 ≤ get m i j ≤ Z.of_nat Size)%Z
                        ∧ (0 ≤ get m j i ≤ Z.of_nat Size)%Z)
      ∧ scanVals ((λ j, get m i j) <$> seq 0 Size) (Pure.fresh Size) = true
      ∧ scanVals ((λ j, get m j i) <$> seq 0 Size) (Pure.fresh Size) = true) as H'.
    { intros i Hi. specialize (H i). rewrite <- list_elem_of_In, elem_of_seq in H.
      specialize (H ltac:(lia)). apply scanLine_vals in H as (H1 & H2 & H3).
      split; [|done]. intros j Hj. apply H1, elem_of_seq. lia. }
    clear H. split; [|split].
    + intros r c Hr Hc. by apply (H' r Hr).
    + intros i j j' Hi Hj Hj' Hne. destruct (H' i Hi) as (Hrg & Hrow & _).
      rewrite scan_fresh_spec in Hrow.
      * apply Hrow; [apply elem_of_seq; lia.. | done].
      * apply NoDup_seq.
      * intros p [_ Hp]%elem_of_seq. by apply Hrg.
    + intros i j j' Hi Hj Hj' Hne. destruct (H' i Hi) as (Hrg & _ & Hcol).
      rewrite scan_fresh_spec in Hcol.
      * apply Hcol; [apply elem_of_seq; lia.. | done].
      * apply NoDup_seq.
      * intros p [_ Hp]%elem_of_seq. by apply Hrg.
  - intros (Hrg & Hrow & Hcol) i [_ Hi]%list_elem_of_In%elem_of_seq.
    apply scanLine_vals. split; [|split].
    + intros j [_ Hj]%elem_of_seq. split; apply Hrg; lia.
    + apply scan_fresh_spec; [apply NoDup_seq | |].
      * intros p [_ Hp]%elem_of_seq. apply Hrg; lia.
      * intros p q [_ Hp]%elem_of_seq [_ Hq]%elem_of_seq. apply Hrow; lia.
    + apply scan_fresh_spec; [apply NoDup_seq | |].
      * intros p [_ Hp]%elem_of_seq. apply Hrg; lia.
      * intros p q [_ Hp]%elem_of_seq [_ Hq]%elem_of_seq. apply Hcol; lia.
Qed.

Lemma elem_of_boxCells br bc r c :
  (r, c) ∈ Pure.boxCells BoxRows BoxCols br bc ↔
  br ≤ r < br + BoxRows ∧ bc ≤ c < bc + BoxCols.
Proof.
  unfold Pure.boxCells. rewrite list_elem_of_bind. split.
  - intros (r' & Hin & Hr'). apply list_elem_of_bind in Hin as (c' & Hin & Hc').
    apply list_elem_of_singleton in Hin as [= -> ->].
    apply elem_of_seq in Hr', Hc'. lia.
  - intros [Hr Hc]. exists r. split; [|apply elem_of_seq; lia].
    apply list_elem_of_bind. exists c. split; [by apply list_elem_of_singleton|].
    apply elem_of_seq; lia.
Qed.

Lemma NoDup_boxCells br bc : NoDup (Pure.boxCells BoxRows BoxCols br bc).
Proof.
  unfold Pure.boxCells. apply NoDup_bind.
  - intros r1 r2 p _ _ Hp1 Hp2.
    apply list_elem_of_bind in Hp1 as (c1 & Hp1 & _).
    apply list_elem_of_bind in Hp2 as (c2 & Hp2 & _).
    apply list_elem_of_singleton in Hp1, Hp2. congruence.
  - intros r _. apply NoDup_bind.
    + intros c1 c2 p _ _ Hp1 Hp2.
      apply list_elem_of_singleton in Hp1, Hp2. congruence.
    + intros c _. apply NoDup_singleton.
    + apply NoDup_seq.
  - apply NoDup_seq.
Qed.

Lemma boxCells_inside k l p :
  k < BoxCols → l < BoxRows →
  p ∈ Pure.boxCells BoxRows BoxCols (k * BoxRows) (l * BoxCols) →
  p.1 < Size ∧ p.2 < Size.
Proof.
  intros Hk Hl. destruct p as [r c]. rewrite elem_of_boxCells. simpl. nia.
Qed.

Lemma boxesOk_spec m :
  inRange m → Pure.boxesOk Size BoxRows BoxCols m = true ↔ boxesDistinct m.
Proof.
  intros Hrg. unfold Pure.boxesOk, Pure.boxRowStarts, Pure.boxColStarts.
  rewrite forallb_forall.
  assert (∀ k l, k < BoxCols → l < BoxRows →
    Pure.scanBox m (Pure.boxCells BoxRows BoxCols (k * BoxRows) (l * BoxCols))
      (Pure.fresh Size) = true ↔
    (∀ p q, p ∈ Pure.boxCells BoxRows BoxCols (k * BoxRows) (l * BoxCols) →
            q ∈ Pure.boxCells BoxRows BoxCols (k * BoxRows) (l * BoxCols) →
            p ≠ q → get m p.1 p.2 ≠ 0%Z → get m p.1 p.2 ≠ get m q.1 q.2)) as Hbox.
  { intros k l Hk Hl. rewrite scanBox_vals. apply scan_fresh_spec.
    - apply NoDup_boxCells.
    - intros p Hp. apply boxCells_inside in Hp as [? ?]; [|done..].
      by apply Hrg. }
  split.
  - intros H k l p q Hk Hl. apply Hbox; [done..|].
    specialize (H (k * BoxRows)). rewrite <- list_elem_of_In, list_elem_of_fmap in H.
    specialize (H ltac:(exists k; split; [done | apply elem_of_seq; lia])).
    rewrite forallb_forall in H. apply H.
    apply list_elem_of_In, list_elem_of_fmap. exists l. split; [done | apply elem_of_seq; lia].
  - intros H br (k & -> & [_ Hk]%elem_of_seq)%list_elem_of_In%list_elem_of_fmap.
    apply forallb_forall.
    intros bc (l & -> & [_ Hl]%elem_of_seq)%list_elem_of_In%list_elem_of_fmap.
    apply Hbox; [lia.. |]. intros p q. apply H; lia.
Qed.

(** The validator accepts exactly the boards that satisfy the invariants. *)
Lemma Validate_spec m :
  Pure.Validate Size BoxRows BoxCols m = None ↔ valid m.
Proof.
  unfold Pure.Validate.
  destruct (Pure.rowsColsOk Size m) eqn:Hrc; simpl.
  - apply rowsColsOk_spec in Hrc as (Hrg & Hrow & Hcol).
    pose proof (boxesOk_spec m Hrg) as Hb.
    destruct (Pure.boxesOk _ _ _ m) eqn:Hbx.
    + split; [intros _|done]. split; [done|].
      destruct Hb as [Hb _]. specialize (Hb eq_refl).
      intros r c r' c' Hr Hc Hr' Hc' Hne [<-|[<-|[Hbr Hbc]]].
      * apply Hrow; [done..|]. congruence.
      * apply Hcol; [done..|]. congruence.
      * apply (Hb (r / BoxRows) (c / BoxCols) (r, c) (r', c')); [| | | |done].
        -- apply Nat.Div0.div_lt_upper_bound. lia.
        -- apply Nat.Div0.div_lt_upper_bound. lia.
        -- apply elem_of_boxCells.
           pose proof (Nat.div_mod_eq r BoxRows). pose proof (Nat.div_mod_eq c BoxCols).
           pose proof (Nat.mod_upper_bound r BoxRows). pose proof (Nat.mod_upper_bound c BoxCols).
           lia.
        -- apply elem_of_boxCells. rewrite Hbr, Hbc.
           pose proof (Nat.div_mod_eq r' BoxRows). pose proof (Nat.div_mod_eq c' BoxCols).
           pose proof (Nat.mod_upper_bound r' BoxRows). pose proof (Nat.mod_upper_bound c' BoxCols).
           lia.
    + split; [done|]. intros [_ Hnc]. exfalso.
      assert (false = true) as Habs; [|congruence].
      apply Hb.
      intros k l [r c] [r' c'] Hk Hl Hp Hq Hne. simpl.
      pose proof (boxCells_inside _ _ _ Hk Hl Hp) as [? ?].
      pose proof (boxCells_inside _ _ _ Hk Hl Hq) as [? ?].
      apply elem_of_boxCells in Hp, Hq.
      apply Hnc; [done..|]. right; right.
      assert (r / BoxRows = k ∧ r' / BoxRows = k ∧ c / BoxCols = l ∧ c' / BoxCols = l)
        as (-> & -> & -> & ->); [|done].
      repeat split; apply div_in_box; lia.
  - split; [done|]. intros [Hrg Hnc]. exfalso.
    assert (Pure.rowsColsOk Size m = true) as Habs; [|congruence].
    apply rowsColsOk_spec. split; [done|]. split.
    + intros i j j' Hi Hj Hj' Hne. apply Hnc; [done..| congruence | by left].
    + intros i j j' Hi Hj Hj' Hne. apply Hnc; [done..| congruence | by right; left].
Qed.

(** *** Placing and clearing values *)

Lemma peer_sym r c r' c' : peer r c r' c' → peer r' c' r c.
Proof. unfold Spec.peer. intuition congruence. Qed.

Lemma valid_set m r c v :
  shape Size m → valid m → r < Size → c < Size →
  (1 ≤ v ≤ Z.of_nat Size)%Z → isSafe m r c v = true →
  valid (set m r c v).
Proof.
  intros Hs [Hrg Hnc] Hr Hc Hv Hsafe.
  rewrite isSafe_spec in Hsafe by done. split.
  - intros r' c' Hr' Hc'. destruct (decide ((r, c) = (r', c'))) as [[= <- <-]|Hne].
    + rewrite (get_set_eq _ _ _ _ Size) by done. lia.
    + rewrite get_set_ne by done. by apply Hrg.
  - intros r1 c1 r2 c2 Hr1 Hc1 Hr2 Hc2 Hne Hpeer.
    destruct (decide ((r, c) = (r1, c1))) as [[= <- <-]|Hne1];
      destruct (decide ((r, c) = (r2, c2))) as [[= <- <-]|Hne2]; [done| | |].
    + rewrite (get_set_eq _ _ _ _ Size), get_set_ne by done.
      intros _ Heq. by apply (Hsafe r2 c2).
    + rewrite (get_set_eq _ _ _ _ Size), get_set_ne by done.
      intros _ Heq. apply (Hsafe r1 c1); [done.. | by apply peer_sym | done].
    + rewrite !get_set_ne by done. by apply Hnc.
Qed.

Lemma valid_clear m r c :
  shape Size m → valid m → valid (set m r c 0%Z).
Proof.
  intros Hs [Hrg Hnc]. split.
  - intros r' c' Hr' Hc'. destruct (decide ((r, c) = (r', c'))) as [[= <- <-]|Hne].
    + rewrite (get_set_eq _ _ _ _ Size) by done. lia.
    + rewrite get_set_ne by done. by apply Hrg.
  - intros r1 c1 r2 c2 Hr1 Hc1 Hr2 Hc2 Hne Hpeer.
    destruct (decide ((r, c) = (r1, c1))) as [[= <- <-]|Hne1].
    { by rewrite (get_set_eq _ _ _ _ Size). }
    rewrite (get_set_ne _ _ _ _ r1 c1) by done. intros Hnz.
    destruct (decide ((r, c) = (r2, c2))) as [[= <- <-]|Hne2].
    + by rewrite (get_set_eq _ _ _ _ Size).
    + rewrite get_set_ne by done. by apply Hnc.
Qed.

Lemma set_set n m r c v v' :
  shape n m → set (set m r c v) r c v' = set m r c v'.
Proof.
  intros Hs. apply (shape_ext n); [by do 2 apply shape_set | by apply shape_set |].
  intros r' c' Hr' Hc'. destruct (decide ((r, c) = (r', c'))) as [[= <- <-]|Hne].
  - rewrite !(get_set_eq _ _ _ _ n); [done.. | by apply shape_set | done | done].
  - by rewrite !get_set_ne.
Qed.

Lemma set_same n m r c :
  shape n m → set m r c (get m r c) = m.
Proof.
  intros Hs. apply (shape_ext n); [by apply shape_set | done |].
  intros r' c' Hr' Hc'. destruct (decide ((r, c) = (r', c'))) as [[= <- <-]|Hne].
  - by rewrite (get_set_eq _ _ _ _ n).
  - by rewrite get_set_ne.
Qed.

(** *** The termination measure *)

Lemma filter_length_agree {A} (P Q : A → Prop)
    `{!∀ x, Decision (P x)} `{!∀ x, Decision (Q x)} (l : list A) :
  (∀ y, y ∈ l → P y ↔ Q y) → length (filter P l) = length (filter Q l).
Proof.
  induction l as [|a l IH]; intros Hiff; [done|].
  assert (length (filter P l) = length (filter Q l)) as IH'.
  { apply IH. intros y Hy. apply Hiff. by right. }
  destruct (decide (P a)) as [HPa|HPa].
  - rewrite !filter_cons_True; [| by apply Hiff; [left|] | done]. simpl. by rewrite IH'.
  - rewrite !filter_cons_False; [done | | done]. rewrite <- Hiff; [done | by left].
Qed.

Lemma filter_length_drop {A} `{!EqDecision A} (P Q : A → Prop)
    `{!∀ x, Decision (P x)} `{!∀ x, Decision (Q x)} (l : list A) (x : A) :
  NoDup l → x ∈ l → P x → ¬ Q x → (∀ y, y ≠ x → P y ↔ Q y) →
  length (filter P l) = S (length (filter Q l)).
Proof.
  intros Hnd Hx HP HQ Hiff. induction l as [|a l IH]; [by apply elem_of_nil in Hx|].
  apply NoDup_cons in Hnd as [Ha Hnd].
  destruct (decide (a = x)) as [->|Hne].
  - rewrite filter_cons_True, filter_cons_False by done. simpl. f_equal.
    apply filter_length_agree. intros y Hy. apply Hiff. by intros ->.
  - apply elem_of_cons in Hx as [->|Hx]; [done|].
    specialize (IH Hnd Hx). destruct (decide (P a)) as [HPa|HPa].
    + rewrite !filter_cons_True; [| by apply Hiff | done]. simpl. by rewrite IH.
    + rewrite !filter_cons_False; [done | by rewrite <- Hiff | done].
Qed.

Lemma countEmpty_set m r c v :
  shape Size m → r < Size → c < Size → get m r c = 0%Z → v ≠ 0%Z →
  countEmpty m = S (countEmpty (set m r c v)).
Proof.
  intros Hs Hr Hc Hz Hv. unfold Spec.countEmpty.
  apply (filter_length_drop _ _ _ (r, c)).
  - apply NoDup_cellsOf.
  - by apply elem_of_cellsOf.
  - done.
  - simpl. by rewrite (get_set_eq _ _ _ _ Size).
  - intros [r' c'] Hne. simpl. by rewrite get_set_ne.
Qed.

Lemma countEmpty_bound m : countEmpty m < Pure.budget Size.
Proof.
  unfold Spec.countEmpty, Pure.budget.
  pose proof (length_filter (λ p, get m p.1 p.2 = 0%Z) (cellsOf Size)) as H.
  rewrite length_cellsOf in H. lia.
Qed.

(** *** Complete legal assignments are what the search enumerates *)

Lemma elem_of_candidates v : v ∈ candidates ↔ (1 ≤ v ≤ Z.of_nat Size)%Z.
Proof.
  unfold Pure.candidates. rewrite list_elem_of_fmap. split.
  - intros (k & -> & Hk%elem_of_seq). lia.
  - intros Hv. exists (Z.to_nat v). split; [lia | apply elem_of_seq; lia].
Qed.

Lemma NoDup_candidates : NoDup candidates.
Proof. apply (NoDup_fmap_2 _), NoDup_seq. Qed.

Lemma solutions_step fuel m r c :
  findEmpty m = (r, c, true) →
  solutions (S fuel) m =
  v ← candidates; if isSafe m r c v then solutions fuel (set m r c v) else [].
Proof. intros Hf. simpl. by rewrite Hf. Qed.

Lemma solutions_done fuel m r c :
  findEmpty m = (r, c, false) → solutions (S fuel) m = [m].
Proof. intros Hf. simpl. by rewrite Hf. Qed.

Lemma elem_of_solutions_step fuel m r c s :
  findEmpty m = (r, c, true) →
  s ∈ solutions (S fuel) m ↔
  ∃ v, (1 ≤ v ≤ Z.of_nat Size)%Z ∧ isSafe m r c v = true
       ∧ s ∈ solutions fuel (set m r c v).
Proof.
  intros Hf. rewrite (solutions_step _ _ _ _ Hf), list_elem_of_bind. split.
  - intros (v & Hs & Hv%elem_of_candidates).
    destruct (isSafe m r c v) eqn:Hsafe; [by exists v | by apply elem_of_nil in Hs].
  - intros (v & Hv & Hsafe & Hs). exists v. rewrite Hsafe.
    split; [done | by apply elem_of_candidates].
Qed.

Lemma extends_set m r c v s :
  get m r c = 0%Z → extends (set m r c v) s → extends m s.
Proof.
  intros Hz He r' c' Hr' Hc' Hnz.
  assert ((r, c) ≠ (r', c')) as Hne by (intros [= <- <-]; done).
  rewrite <- (get_set_ne m r c v r' c' Hne). apply He; [done..|].
  by rewrite get_set_ne.
Qed.

(** What the search reaches is full, of the right shape, and keeps the
    given cells -- whether or not the start was legal. *)
Lemma solutions_reach fuel m s :
  shape Size m → s ∈ solutions fuel m →
  shape Size s ∧ full s ∧ extends m s.
Proof.
  revert m. induction fuel as [|fuel IH]; intros m Hs Hin; [by apply elem_of_nil in Hin|].
  destruct (findEmpty m) as [[r c] [|]] eqn:Hf.
  - destruct (proj1 (elem_of_solutions_step _ _ _ _ _ Hf) Hin) as (v & Hv & Hsafe & Hin').
    apply findEmpty_found in Hf as (Hr & Hc & Hz).
    apply IH in Hin' as (? & ? & He); [|by apply shape_set].
    split; [done|]. split; [done|]. by eapply extends_set.
  - rewrite (solutions_done _ _ _ _ Hf) in Hin.
    apply list_elem_of_singleton in Hin as ->.
    apply findEmpty_none in Hf as (_ & _ & Hfull).
    split; [done|]. split; [done|]. by intros r' c' _ _ _.
Qed.

Lemma solutions_valid fuel m s :
  shape Size m → valid m → s ∈ solutions fuel m → valid s.
Proof.
  revert m. induction fuel as [|fuel IH]; intros m Hs Hv Hin; [by apply elem_of_nil in Hin|].
  destruct (findEmpty m) as [[r c] [|]] eqn:Hf.
  - destruct (proj1 (elem_of_solutions_step _ _ _ _ _ Hf) Hin) as (v & Hrange & Hsafe & Hin').
    apply findEmpty_found in Hf as (Hr & Hc & Hz).
    apply IH in Hin'; [done | by apply shape_set | by apply valid_set].
  - rewrite (solutions_done _ _ _ _ Hf) in Hin.
    by apply list_elem_of_singleton in Hin as ->.
Qed.

Lemma solutions_sound fuel m s :
  shape Size m → valid m → s ∈ solutions fuel m → completion m s.
Proof.
  intros Hs Hv Hin. destruct (solutions_reach _ _ _ Hs Hin) as (? & ? & ?).
  split; [done|]. split; [by apply (solutions_valid fuel m)|]. done.
Qed.

Lemma solutions_complete fuel m s :
  shape Size m → countEmpty m < fuel → completion m s → s ∈ solutions fuel m.
Proof.
  revert m. induction fuel as [|fuel IH]; intros m Hs Hfuel Hcomp; [lia|].
  destruct Hcomp as (Hss & [Hrg Hnc] & Hfull & Hext).
  destruct (findEmpty m) as [[r c] [|]] eqn:Hf.
  - apply (elem_of_solutions_step _ _ _ _ _ Hf).
    apply findEmpty_found in Hf as (Hr & Hc & Hz).
    exists (get s r c).
    assert (1 ≤ get s r c ≤ Z.of_nat Size)%Z as Hv.
    { specialize (Hrg r c Hr Hc). specialize (Hfull r c Hr Hc). lia. }
    split; [done|]. split.
    + apply isSafe_spec; [done..|]. intros r' c' Hr' Hc' Hpeer Heq.
      assert ((r, c) ≠ (r', c')) as Hne by (intros [= <- <-]; lia).
      apply (Hnc r c r' c'); [done.. | by apply Hfull |].
      rewrite <- Heq. symmetry. apply Hext; [done..|]. lia.
    + apply IH.
      * by apply shape_set.
      * rewrite (countEmpty_set m r c (get s r c)) in Hfuel; [lia | done.. | lia].
      * split; [done|]. split; [done|]. split; [done|].
        intros r' c' Hr' Hc'.
        destruct (decide ((r, c) = (r', c'))) as [[= <- <-]|Hne].
        -- by rewrite (get_set_eq _ _ _ _ Size).
        -- rewrite get_set_ne by done. by apply Hext.
  - rewrite (solutions_done _ _ _ _ Hf). apply list_elem_of_singleton.
    apply findEmpty_none in Hf as (_ & _ & Hmfull).
    apply (shape_ext Size); [done..|]. intros r' c' Hr' Hc'.
    apply Hext; [done..|]. by apply Hmfull.
Qed.

Lemma NoDup_solutions fuel m : shape Size m → NoDup (solutions fuel m).
Proof.
  revert m. induction fuel as [|fuel IH]; intros m Hs; [constructor|].
  destruct (findEmpty m) as [[r c] [|]] eqn:Hf.
  - rewrite (solutions_step _ _ _ _ Hf).
    apply findEmpty_found in Hf as (Hr & Hc & Hz).
    apply NoDup_bind; [| |apply NoDup_candidates].
    + intros v1 v2 s Hv1%elem_of_candidates Hv2%elem_of_candidates H1 H2.
      destruct (isSafe m r c v1); [|by apply elem_of_nil in H1].
      destruct (isSafe m r c v2); [|by apply elem_of_nil in H2].
      apply solutions_reach in H1 as (_ & _ & He1); [|by apply shape_set].
      apply solutions_reach in H2 as (_ & _ & He2); [|by apply shape_set].
      specialize (He1 r c Hr Hc). specialize (He2 r c Hr Hc).
      rewrite (get_set_eq _ _ _ _ Size) in He1 by done.
      rewrite (get_set_eq _ _ _ _ Size) in He2 by done.
      rewrite <- He1, <- He2; [done | lia | lia].
    + intros v _. destruct (isSafe m r c v); [|constructor].
      apply IH. by apply shape_set.
  - rewrite (solutions_done _ _ _ _ Hf). apply NoDup_singleton.
Qed.

(** *** The solver against the enumeration *)

Lemma restore_cell m r c v :
  shape Size m → get m r c = 0%Z → set (set m r c v) r c 0%Z = m.
Proof.
  intros Hs Hz. rewrite (set_set Size) by done. rewrite <- Hz. by apply (set_same Size).
Qed.

(** One pass of the candidate loop of [backtrack], given that the recursive
    calls behave. *)
Lemma tryEach_backtrack fuel r c
    (rec : list (list Z) → rstate → option (bool * list (list Z) * rstate)) :
  (∀ w g, shape Size w → countEmpty w < fuel →
     ∃ ok w' g', rec w g = Some (ok, w', g')
       ∧ if ok then w' ∈ solutions fuel w else w' = w ∧ solutions fuel w = []) →
  ∀ vs w g,
    shape Size w → r < Size → c < Size → get w r c = 0%Z →
    countEmpty w ≤ fuel → (∀ v, v ∈ vs → v ≠ 0%Z) →
    ∃ ok w' g', tryEach isSafe rec r c vs w g = Some (ok, w', g')
      ∧ if ok
        then ∃ v, v ∈ vs ∧ isSafe w r c v = true
                  ∧ w' ∈ solutions fuel (set w r c v)
        else w' = w ∧ ∀ v, v ∈ vs → isSafe w r c v = true →
                          solutions fuel (set w r c v) = [].
Proof.
  intros Hrec vs w g Hs Hr Hc Hz Hfuel. revert g.
  induction vs as [|v vs IH]; intros g Hvs; simpl.
  { exists false, w, g. split; [done|]. split; [done|]. by intros v ?%elem_of_nil. }
  assert (v ≠ 0%Z) as Hv by (apply Hvs; left).
  assert (∀ u, u ∈ vs → u ≠ 0%Z) as Hvs' by (intros u Hu; apply Hvs; by right).
  destruct (isSafe w r c v) eqn:Hsafe.
  - destruct (Hrec (set w r c v) g) as (ok & w1 & g1 & Hcall & Hres).
    { by apply shape_set. }
    { rewrite (countEmpty_set w r c v) in Hfuel by done. lia. }
    rewrite Hcall. destruct ok.
    + exists true, w1, g1. split; [done|]. exists v. split; [left|]. done.
    + destruct Hres as [-> Hnone]. rewrite restore_cell by done.
      destruct (IH g1 Hvs') as (ok & w' & g' & Hrun & Hres). rewrite Hrun.
      exists ok, w', g'. split; [done|]. destruct ok.
      * destruct Hres as (u & Hu & ?). exists u. split; [by right | done].
      * destruct Hres as [-> Hall]. split; [done|].
        intros u [->|Hu]%elem_of_cons Hsafe'; [done | by apply Hall].
  - destruct (IH g Hvs') as (ok & w' & g' & Hrun & Hres). rewrite Hrun.
    exists ok, w', g'. split; [done|]. destruct ok.
    + destruct Hres as (u & Hu & ?). exists u. split; [by right | done].
    + destruct Hres as [-> Hall]. split; [done|].
      intros u [->|Hu]%elem_of_cons Hsafe'; [congruence | by apply Hall].
Qed.

Lemma bind_nil_all {A B} (f : A → list B) (l : list A) :
  (∀ x, x ∈ l → f x = []) → l ≫= f = [].
Proof.
  induction l as [|a l IH]; intros H; [done|].
  change ((a :: l) ≫= f) with (f a ++ (l ≫= f)).
  rewrite H by left. rewrite IH; [done|]. intros x Hx. apply H. by right.
Qed.

(** [backtrack] always returns when given one unit of budget per empty
    cell; a success is one of the enumerated boards, a failure leaves the
    board as it was and means that there is none. *)
Lemma backtrack_spec fuel w g :
  shape Size w → countEmpty w < fuel →
  ∃ ok w' g', Pure.backtrack Size BoxRows BoxCols fuel w g = Some (ok, w', g')
    ∧ if ok then w' ∈ solutions fuel w else w' = w ∧ solutions fuel w = [].
Proof.
  revert w g. induction fuel as [|fuel IH]; intros w g Hs Hfuel; [lia|].
  simpl. destruct (findEmpty w) as [[r c] [|]] eqn:Hf; simpl.
  - destruct (Shuffle candidates g) as [vals g1] eqn:Hsh.
    pose proof (Shuffle_Permutation candidates g) as Hperm.
    rewrite Hsh in Hperm. simpl in Hperm.
    pose proof (findEmpty_found _ _ _ Hf) as (Hr & Hc & Hz).
    destruct (tryEach_backtrack fuel r c _ IH vals w g1) as (ok & w' & g' & Hrun & Hres);
      [done.. | lia | |].
    { intros v Hv. rewrite Hperm in Hv. apply elem_of_candidates in Hv. lia. }
    rewrite Hrun. exists ok, w', g'. split; [done|]. destruct ok.
    + destruct Hres as (v & Hv & Hsafe & Hin). apply list_elem_of_bind.
      exists v. rewrite Hsafe. split; [done|]. by rewrite <- Hperm.
    + destruct Hres as [-> Hall]. split; [done|]. apply bind_nil_all.
      intros v Hv. destruct (isSafe w r c v) eqn:Hsafe; [|done].
      apply Hall; [by rewrite Hperm | done].
  - exists true, w, g. split; [done|]. by left.
Qed.

(** *** The uniqueness counter against the enumeration *)

Lemma tryEach_dfs fuel limit r c
    (rec : list (list Z) → Z → option (bool * list (list Z) * Z)) :
  (∀ w count, shape Size w → countEmpty w < fuel → (count < limit)%Z →
     let n := Z.of_nat (length (solutions fuel w)) in
     if (count + n <? limit)%Z then rec w count = Some (false, w, (count + n)%Z)
     else ∃ w', rec w count = Some (true, w', limit)) →
  ∀ vs w count,
    shape Size w → r < Size → c < Size → get w r c = 0%Z →
    countEmpty w ≤ fuel → (∀ v, v ∈ vs → v ≠ 0%Z) → (count < limit)%Z →
    let n := Z.of_nat (length (v ← vs;
               if isSafe w r c v then solutions fuel (set w r c v) else [])) in
    if (count + n <? limit)%Z
    then tryEach isSafe rec r c vs w count = Some (false, w, (count + n)%Z)
    else ∃ w', tryEach isSafe rec r c vs w count = Some (true, w', limit).
Proof.
  intros Hrec vs w count Hs Hr Hc Hz Hfuel. revert count.
  induction vs as [|v vs IH]; intros count Hvs Hcount; simpl.
  { rewrite Z.add_0_r. by destruct (Z.ltb_spec count limit); [|lia]. }
  assert (v ≠ 0%Z) as Hv by (apply Hvs; left).
  assert (∀ u, u ∈ vs → u ≠ 0%Z) as Hvs' by (intros u Hu; apply Hvs; by right).
  rewrite length_app, Nat2Z.inj_add.
  destruct (isSafe w r c v) eqn:Hsafe.
  - pose proof (Hrec (set w r c v) count) as Hcall. simpl in Hcall.
    specialize (Hcall ltac:(by apply shape_set)).
    rewrite (countEmpty_set w r c v) in Hfuel by done.
    specialize (Hcall ltac:(lia) Hcount).
    set (n1 := Z.of_nat (length (solutions fuel (set w r c v)))) in *.
    destruct (Z.ltb_spec (count + n1) limit) as [Hlt|Hge].
    + rewrite Hcall, restore_cell by done.
      specialize (IH (count + n1)%Z Hvs' Hlt). simpl in IH.
      rewrite <- Z.add_assoc in IH. apply IH.
    + destruct Hcall as [w1 Hcall]. rewrite Hcall.
      destruct (_ <? _)%Z eqn:Hb; [apply Z.ltb_lt in Hb; lia|]. by exists w1.
  - simpl. apply IH; done.
Qed.

Lemma dfs_spec fuel limit w count :
  shape Size w → countEmpty w < fuel → (count < limit)%Z →
  let n := Z.of_nat (length (solutions fuel w)) in
  if (count + n <? limit)%Z
  then Pure.dfs Size BoxRows BoxCols fuel limit w count
       = Some (false, w, (count + n)%Z)
  else ∃ w', Pure.dfs Size BoxRows BoxCols fuel limit w count
             = Some (true, w', limit).
Proof.
  revert w count. induction fuel as [|fuel IH]; intros w count Hs Hfuel Hcount; [lia|].
  cbn [Pure.dfs Spec.solutions].
  destruct (findEmpty w) as [[r c] [|]] eqn:Hf; cbn [negb].
  - pose proof (findEmpty_found _ _ _ Hf) as (Hr & Hc & Hz).
    apply (tryEach_dfs fuel limit r c _ IH); [done.. | lia | | done].
    intros v Hv%elem_of_candidates. lia.
  - change (Z.of_nat (length [w])) with 1%Z.
    destruct (Z.ltb_spec (count + 1) limit) as [Hlt|Hge].
    + destruct (Z.leb_spec limit (count + 1)); [lia | done].
    + destruct (Z.leb_spec limit (count + 1)); [|lia].
      exists w. do 3 f_equal. lia.
Qed.

Lemma hasUniqueSolution_spec w limit :
  shape Size w → (2 ≤ limit)%Z →
  Pure.hasUniqueSolution Size BoxRows BoxCols w limit
  = Some (bool_decide (length (solutions (Pure.budget Size) w) = 1)).
Proof.
  intros Hs Hlimit. unfold Pure.hasUniqueSolution.
  pose proof (dfs_spec (Pure.budget Size) limit w 0 Hs (countEmpty_bound w)
                ltac:(lia)) as Hdfs. simpl in Hdfs.
  destruct (_ <? _)%Z eqn:Hlt.
  - rewrite Hdfs. f_equal. apply Z.ltb_lt in Hlt.
    case_bool_decide as Hn; [rewrite Hn; done|]. apply Z.eqb_neq. lia.
  - destruct Hdfs as [w' ->]. f_equal. apply Z.ltb_ge in Hlt.
    case_bool_decide as Hn; [lia|]. apply Z.eqb_neq. lia.
Qed.

(** Exactly one enumerated board means exactly one complete legal
    assignment, for a legal start. *)
Lemma solutions_unique w :
  shape Size w → valid w →
  length (solutions (Pure.budget Size) w) = 1 ↔
  ∃ s, completion w s ∧ ∀ s', completion w s' → s' = s.
Proof.
  intros Hs Hv. pose proof (NoDup_solutions (Pure.budget Size) w Hs) as Hnd.
  assert (∀ s, s ∈ solutions (Pure.budget Size) w ↔ completion w s) as Hiff.
  { intros s. split; [by apply solutions_sound|].
    apply solutions_complete; [done | apply countEmpty_bound]. }
  destruct (solutions (Pure.budget Size) w) as [|s [|s2 l]] eqn:Hsol; simpl.
  - split; [done|]. intros (s & Hc & _). apply Hiff in Hc. by apply elem_of_nil in Hc.
  - split; [intros _|done]. exists s. split; [apply Hiff; left|].
    intros s' Hc%Hiff. by apply list_elem_of_singleton in Hc.
  - split; [done|]. intros (s0 & Hc & Huniq). exfalso.
    assert (s = s0) as -> by (apply Huniq, Hiff; left).
    assert (s2 = s0) as -> by (apply Huniq, Hiff; right; left).
    apply NoDup_cons in Hnd as [Hnin _]. apply Hnin. left.
Qed.

(** Whether the solver succeeds is decided by the board alone. *)
Lemma backtrack_ok fuel w g ok w' g' :
  shape Size w → countEmpty w < fuel →
  Pure.backtrack Size BoxRows BoxCols fuel w g = Some (ok, w', g') →
  ok = negb (bool_decide (solutions fuel w = [])).
Proof.
  intros Hs Hfuel Hrun.
  destruct (backtrack_spec fuel w g Hs Hfuel) as (ok1 & w1 & g1 & Hrun1 & Hres).
  rewrite Hrun in Hrun1. simplify_eq. destruct ok1.
  - case_bool_decide as Hnil; [|done]. rewrite Hnil in Hres. by apply elem_of_nil in Hres.
  - destruct Hres as [_ ->]. by rewrite bool_decide_eq_true_2.
Qed.

(** *** Carving keeps the board legal *)

Lemma carve_spec target rmOrder puzzle :
  shape Size puzzle → valid puzzle →
  ∃ p, Pure.carve Size BoxRows BoxCols target rmOrder puzzle = Some p
       ∧ shape Size p ∧ valid p.
Proof.
  revert puzzle. induction rmOrder as [|idx rest IH]; intros puzzle Hs Hv; simpl.
  { by exists puzzle. }
  destruct (_ <=? _)%Z; [by exists puzzle|].
  destruct (_ =? _)%Z; [by apply IH|].
  rewrite hasUniqueSolution_spec; [|by apply shape_set | done].
  destruct (bool_decide _).
  - apply IH; [by apply shape_set | by apply valid_clear].
  - rewrite (set_set Size), (set_same Size) by done. by apply IH.
Qed.

(** *** Seeding the diagonal boxes *)

Lemma fill_cells (f : nat → Z) ps m idx0 :
  shape Size m → NoDup ps → (∀ p, p ∈ ps → p.1 < Size ∧ p.2 < Size) →
  let m' := (foldl (λ '(m, idx) '(r, c), (set m r c (f idx), idx + 1))
                   (m, idx0) ps).1 in
  shape Size m'
  ∧ (∀ k p, ps !! k = Some p → get m' p.1 p.2 = f (idx0 + k))
  ∧ (∀ r c, (r, c) ∉ ps → get m' r c = get m r c).
Proof.
  revert m idx0. induction ps as [|[r c] ps IH]; intros m idx0 Hs Hnd Hin; simpl.
  { split; [done|]. split; [|done]. by intros k p ?. }
  apply NoDup_cons in Hnd as [Hp Hnd].
  destruct (IH (set m r c (f idx0)) (idx0 + 1)) as (Hs' & Hval & Hother).
  { by apply shape_set. } { done. } { intros p ?. apply Hin. by right. }
  split; [done|]. split.
  - intros [|k] p Hk; simpl in Hk.
    + injection Hk as <-. simpl.
      rewrite Hother by done. rewrite Nat.add_0_r.
      destruct (Hin (r, c) ltac:(left)). by rewrite (get_set_eq _ _ _ _ Size).
    + rewrite (Hval k p Hk). f_equal. lia.
  - intros r' c' Hnin. apply not_elem_of_cons in Hnin as [Hne Hnin].
    rewrite Hother by done. by rewrite get_set_ne.
Qed.

Lemma length_boxCells br bc :
  length (Pure.boxCells BoxRows BoxCols br bc) = Size.
Proof.
  unfold Pure.boxCells. rewrite (length_bind_const _ _ BoxCols), length_seq; [lia|].
  intros r. rewrite (length_bind_const _ _ 1), length_seq; [lia | done].
Qed.

Lemma fillBox_spec m br bc g :
  shape Size m → br + BoxRows ≤ Size → bc + BoxCols ≤ Size →
  let m' := (Pure.fillBox Size BoxRows BoxCols m br bc g).1 in
  shape Size m'
  ∧ (∀ r c, (r, c) ∉ Pure.boxCells BoxRows BoxCols br bc → get m' r c = get m r c)
  ∧ (∀ p, p ∈ Pure.boxCells BoxRows BoxCols br bc →
       (1 ≤ get m' p.1 p.2 ≤ Z.of_nat Size)%Z)
  ∧ (∀ p q, p ∈ Pure.boxCells BoxRows BoxCols br bc →
            q ∈ Pure.boxCells BoxRows BoxCols br bc →
            p ≠ q → get m' p.1 p.2 ≠ get m' q.1 q.2).
Proof.
  intros Hs Hbr Hbc. unfold Pure.fillBox.
  pose proof (Perm_Permutation Size g) as Hperm.
  destruct (Perm Size g) as [vals g']. simpl in Hperm. simpl.
  destruct (fill_cells (λ idx, (Z.of_nat (nth idx vals 0%nat) + 1)%Z)
              (Pure.boxCells BoxRows BoxCols br bc) m 0 Hs
              (NoDup_boxCells br bc)) as (Hs' & Hval & Hother).
  { intros [r c] Hp%elem_of_boxCells. simpl. lia. }
  assert (NoDup vals) as Hndv by (rewrite Hperm; apply NoDup_seq).
  assert (length vals = Size) as Hlen by (by rewrite Hperm, length_seq).
  assert (∀ k, k < Size → nth k vals 0 < Size) as Hlt.
  { intros k Hk. destruct (lookup_lt_is_Some_2 vals k) as [x Hx]; [lia|].
    rewrite (nth_lookup_Some _ _ _ _ Hx).
    apply list_elem_of_lookup_2 in Hx. rewrite Hperm in Hx.
    apply elem_of_seq in Hx. lia. }
  split; [done|]. split; [done|]. split.
  - intros p (k & Hk)%list_elem_of_lookup_1. rewrite (Hval k p Hk). simpl.
    apply lookup_lt_Some in Hk as Hklt. rewrite length_boxCells in Hklt.
    specialize (Hlt k Hklt). lia.
  - intros p q (k & Hk)%list_elem_of_lookup_1 (k' & Hk')%list_elem_of_lookup_1 Hne.
    rewrite (Hval k p Hk), (Hval k' q Hk'). simpl.
    apply lookup_lt_Some in Hk as Hklt. rewrite length_boxCells in Hklt.
    apply lookup_lt_Some in Hk' as Hklt'. rewrite length_boxCells in Hklt'.
    assert (k ≠ k') as Hkk by (intros ->; congruence).
    destruct (lookup_lt_is_Some_2 vals k) as [x Hx]; [lia|].
    destruct (lookup_lt_is_Some_2 vals k') as [x' Hx']; [lia|].
    rewrite (nth_lookup_Some _ _ _ _ Hx), (nth_lookup_Some _ _ _ _ Hx').
    intros Heq. apply Hkk. apply (NoDup_lookup vals k k' x); [done.. |].
    rewrite Hx'. f_equal. lia.
Qed.

Lemma diagBox_disjoint i j p : p ∈ diagBox i → p ∈ diagBox j → i = j.
Proof.
  destruct p as [r c]. unfold Spec.diagBox. rewrite !elem_of_boxCells.
  intros [Hi _] [Hj _]. nia.
Qed.

Lemma seeded_valid D m : seeded D m → valid m.
Proof.
  intros (Hs & Hrg & Hnz & Hdist). split; [done|].
  intros r c r' c' Hr Hc Hr' Hc' Hne Hpeer Hv Heq.
  destruct (Hnz r c Hr Hc Hv) as (i & Hi & Hin).
  destruct (Hnz r' c' Hr' Hc' ltac:(congruence)) as (j & Hj & Hin').
  assert (i = j) as <-.
  { unfold Spec.diagBox in Hin, Hin'. apply elem_of_boxCells in Hin, Hin'.
    destruct Hpeer as [<-|[<-|[Hbr _]]]; [nia | nia |].
    rewrite (div_in_box i BoxRows r), (div_in_box j BoxRows r') in Hbr; lia. }
  by apply (Hdist i (r, c) (r', c')).
Qed.

Lemma fillBoxes_spec ks D m g :
  seeded D m → (∀ i, i ∈ ks → i < BoxRows ∧ i < BoxCols) →
  seeded (D ++ ks) (Pure.fillBoxes Size BoxRows BoxCols m ks g).1.
Proof.
  revert D m g. induction ks as [|i ks IH]; intros D m g Hseed Hks; simpl.
  { by rewrite app_nil_r. }
  destruct (Hks i ltac:(left)) as [HiR HiC].
  destruct Hseed as (Hs & Hrg & Hnz & Hdist).
  pose proof (fillBox_spec m (i * BoxRows) (i * BoxCols) g Hs
                ltac:(nia) ltac:(nia)) as (Hs1 & Hother & Hin & Hinj).
  destruct (Pure.fillBox _ _ _ m _ _ g) as [m1 g1]. simpl in *.
  rewrite (assoc_L (++) D [i] ks : D ++ i :: ks = (D ++ [i]) ++ ks).
  apply IH; [|intros j Hj; apply Hks; by right].
  split; [done|]. split; [|split].
  - intros r c Hr Hc.
    destruct (decide ((r, c) ∈ Pure.boxCells BoxRows BoxCols (i * BoxRows) (i * BoxCols)))
      as [Hbox|Hbox].
    + specialize (Hin _ Hbox). simpl in Hin. lia.
    + rewrite Hother by done. by apply Hrg.
  - intros r c Hr Hc Hv.
    destruct (decide ((r, c) ∈ Pure.boxCells BoxRows BoxCols (i * BoxRows) (i * BoxCols)))
      as [Hbox|Hbox].
    + exists i. split; [|done]. apply elem_of_app. right. left.
    + rewrite Hother in Hv by done. destruct (Hnz r c Hr Hc Hv) as (j & Hj & ?).
      exists j. split; [|done]. apply elem_of_app. by left.
  - intros j p q Hj Hp Hq Hne.
    destruct (decide (j = i)) as [->|Hji]; [by apply Hinj|].
    apply elem_of_app in Hj as [Hj|Hj%list_elem_of_singleton]; [|done].
    destruct p as [r c], q as [r' c']. simpl. rewrite !Hother.
    + by apply (Hdist j (r, c) (r', c')).
    + intros Hq'. apply Hji. by apply (diagBox_disjoint j i (r', c')).
    + intros Hp'. apply Hji. by apply (diagBox_disjoint j i (r, c)).
Qed.

Lemma fillDiagonalBoxes_spec m g :
  shape Size m → blank m →
  let m' := (Pure.fillDiagonalBoxes Size BoxRows BoxCols m g).1 in
  shape Size m' ∧ valid m'.
Proof.
  intros Hs Hblank. unfold Pure.fillDiagonalBoxes.
  assert (Size / BoxRows = BoxCols) as ->
    by (rewrite Hdims, Nat.mul_comm; apply Nat.div_mul; lia).
  assert (Size / BoxCols = BoxRows) as ->
    by (rewrite Hdims; apply Nat.div_mul; lia).
  set (steps := if BoxRows <? BoxCols then BoxRows else BoxCols).
  pose proof (fillBoxes_spec (seq 0 steps) [] m g) as Hfill.
  simpl in *. assert (seeded [] m) as Hseed.
  { split; [done|]. split; [|split].
    - intros r c Hr Hc. rewrite Hblank by done. lia.
    - intros r c Hr Hc Hv. by rewrite Hblank in Hv.
    - by intros i p q ?%elem_of_nil. }
  specialize (Hfill Hseed). split.
  - apply Hfill. intros i [_ Hi]%elem_of_seq. subst steps.
    destruct (Nat.ltb_spec BoxRows BoxCols); lia.
  - eapply seeded_valid, Hfill. intros i [_ Hi]%elem_of_seq. subst steps.
    destruct (Nat.ltb_spec BoxRows BoxCols); lia.
Qed.

(** *** The generator *)

Lemma attemptsLoop_spec n start failed msg d lastErr g :
  shape Size start → blank start →
  ∃ p e g',
    Pure.attemptsLoop Size BoxRows BoxCols n start failed msg d lastErr g
    = Some (p, e, g')
    ∧ match e with
      | None => shape Size p ∧ valid p
                ∧ Pure.hasUniqueSolution Size BoxRows BoxCols p 2 = Some true
      | Some _ => p = failed
      end.
Proof.
  intros Hs Hblank. revert lastErr g.
  induction n as [|n IH]; intros lastErr g; simpl.
  { destruct lastErr; eexists _, (Some _), _; split; done. }
  pose proof (fillDiagonalBoxes_spec start g Hs Hblank) as [Hs1 Hv1].
  destruct (Pure.fillDiagonalBoxes _ _ _ start g) as [seeded0 g1]. simpl in Hs1, Hv1.
  destruct (backtrack_spec (Pure.budget Size) seeded0 g1 Hs1 (countEmpty_bound _))
    as (ok & solved & g2 & -> & Hres).
  destruct ok; [|apply IH].
  apply solutions_sound in Hres as (Hs2 & Hv2 & _); [|done..].
  destruct (Perm (Size * Size) g2) as [rmOrder g3].
  destruct (carve_spec (Pure.cluesFor Size d) rmOrder solved Hs2 Hv2)
    as (puzzle & -> & Hs3 & Hv3).
  destruct (Pure.hasUniqueSolution _ _ _ puzzle 2) as [[|]|] eqn:Hu.
  - exists puzzle, None, g3. done.
  - apply IH.
  - rewrite hasUniqueSolution_spec in Hu by done. done.
Qed.

(** *** The codec *)

Lemma lookup_bind_const {A B} (f : A → list B) (l : list A) k i j x :
  (∀ y, length (f y) = k) → l !! i = Some x → j < k →
  (l ≫= f) !! (i * k + j) = f x !! j.
Proof.
  intros Hf. revert i. induction l as [|a l IH]; intros i Hi Hj; [done|].
  change ((a :: l) ≫= f) with (f a ++ (l ≫= f)).
  destruct i as [|i]; simpl in Hi.
  - injection Hi as ->. simpl. rewrite lookup_app_l; [done | by rewrite Hf].
  - rewrite lookup_app_r; rewrite Hf; [|lia].
    replace (S i * k + j - k) with (i * k + j) by lia. by apply IH.
Qed.

Lemma cellsOf_lookup n r c :
  r < n → c < n → cellsOf n !! (r * n + c) = Some (r, c).
Proof.
  intros Hr Hc. unfold cellsOf.
  rewrite (lookup_bind_const _ _ n r c r); [| | by apply lookup_seq | done].
  - replace c with (c * 1 + 0) at 1 by lia.
    rewrite (lookup_bind_const _ _ 1 c 0 c); [done | done | by apply lookup_seq | lia].
  - intros y. rewrite (length_bind_const _ _ 1), length_seq; [lia | done].
Qed.

Lemma get_decoded chars r c :
  r < Size → c < Size →
  get (Spec.decoded Size chars) r c
  = default 0%Z (Spec.decodeChar Size (nth (r * Size + c) chars "0"%char)).
Proof.
  intros Hr Hc. unfold Spec.decoded.
  erewrite get_lookup; [|rewrite list_lookup_fmap, lookup_seq_lt by done; done].
  erewrite nth_lookup_Some; [done|].
  by rewrite list_lookup_fmap, lookup_seq_lt.
Qed.

Lemma shape_decoded chars : shape Size (Spec.decoded Size chars).
Proof.
  unfold Spec.decoded. split.
  - by rewrite length_fmap, length_seq.
  - apply Forall_fmap, Forall_forall. intros r _. simpl.
    by rewrite length_fmap, length_seq.
Qed.

Lemma cell_index i r c :
  0 < Size → c < Size → r * Size + c = i ↔ r = i / Size ∧ c = i mod Size.
Proof.
  intros Hpos Hc. split.
  - intros <-. split.
    + rewrite Nat.div_add_l by lia. rewrite Nat.div_small by done. lia.
    + rewrite Nat.add_comm, Nat.Div0.mod_add. by rewrite Nat.mod_small.
  - intros [-> ->]. pose proof (Nat.div_mod_eq i Size). lia.
Qed.

Lemma parseCells_spec chars i m :
  0 < Size → shape Size m → i + length chars ≤ Size * Size →
  match Pure.parseCells Size chars i m with
  | inl m' =>
      Forall (Spec.legal Size) chars ∧ shape Size m'
      ∧ ∀ r c, r < Size → c < Size →
          get m' r c =
          if decide (i ≤ r * Size + c < i + length chars)
          then default 0%Z
                 (Spec.decodeChar Size (nth (r * Size + c - i) chars "0"%char))
          else get m r c
  | inr _ => ¬ Forall (Spec.legal Size) chars
  end.
Proof.
  intros Hpos. revert i m. induction chars as [|ch chars IH]; intros i m Hs Hi; simpl.
  { split; [done|]. split; [done|]. intros r c _ _. case_decide; [lia | done]. }
  simpl in Hi.
  assert (i / Size < Size) as Hr by (apply Nat.Div0.div_lt_upper_bound; lia).
  assert (i mod Size < Size) as Hc by (apply Nat.mod_upper_bound; lia).
  assert (∀ v, Spec.decodeChar Size ch = Some v →
    match Pure.parseCells Size chars (i + 1) (set m (i / Size) (i mod Size) v) with
    | inl m' =>
        Forall (Spec.legal Size) (ch :: chars) ∧ shape Size m'
        ∧ ∀ r c, r < Size → c < Size →
            get m' r c =
            if decide (i ≤ r * Size + c < i + S (length chars))
            then default 0%Z (Spec.decodeChar Size
                   (nth (r * Size + c - i) (ch :: chars) "0"%char))
            else get m r c
    | inr _ => ¬ Forall (Spec.legal Size) (ch :: chars)
    end) as Hstep.
  { intros v Hdec.
    specialize (IH (i + 1) (set m (i / Size) (i mod Size) v)
                  ltac:(by apply shape_set) ltac:(lia)).
    destruct (Pure.parseCells _ _ _ _) as [m'|msg].
    - destruct IH as (Hall & Hs' & Hget). split; [|split; [done|]].
      { constructor; [by exists v | done]. }
      intros r c Hr' Hc'. rewrite (Hget r c Hr' Hc').
      destruct (decide (r * Size + c = i)) as [Heq|Hne].
      + rewrite decide_False by lia. rewrite decide_True by lia.
        apply cell_index in Heq as [-> ->]; [|done..].
        rewrite (get_set_eq _ _ _ _ Size) by done.
        replace (i / Size * Size + i mod Size - i) with 0
          by (pose proof (Nat.div_mod_eq i Size); lia).
        simpl. by rewrite Hdec.
      + rewrite get_set_ne by (intros [= <- <-]; apply Hne;
          pose proof (Nat.div_mod_eq i Size); lia).
        repeat case_decide; try lia; try done.
        replace (r * Size + c - i) with (S (r * Size + c - (i + 1))) by lia.
        done.
    - intros Hall. apply IH. by inversion Hall. }
  unfold Spec.decodeChar in Hstep.
  destruct (_ && _) eqn:Hdigit.
  - destruct (_ <? _)%Z eqn:Hbig.
    + intros Hall. inversion Hall as [|? ? [v Hv] _]; subst.
      unfold Spec.decodeChar in Hv. by rewrite Hdigit, Hbig in Hv.
    + by apply Hstep.
  - destruct (_ || _) eqn:Hzero.
    + by apply Hstep.
    + intros Hall. inversion Hall as [|? ? [v Hv] _]; subst.
      unfold Spec.decodeChar in Hv. by rewrite Hdigit, Hzero in Hv.
Qed.

Lemma parseCells_decoded chars m :
  0 < Size → shape Size m → length chars = Size * Size →
  match Pure.parseCells Size chars 0 m with
  | inl m' => Forall (Spec.legal Size) chars ∧ m' = Spec.decoded Size chars
  | inr _ => ¬ Forall (Spec.legal Size) chars
  end.
Proof.
  intros Hpos Hs Hlen.
  pose proof (parseCells_spec chars 0 m Hpos Hs ltac:(lia)) as H.
  destruct (Pure.parseCells _ _ _ _) as [m'|]; [|done].
  destruct H as (Hall & Hs' & Hget). split; [done|].
  apply (shape_ext Size); [done | apply shape_decoded|].
  intros r c Hr Hc. rewrite (Hget r c Hr Hc), get_decoded by done.
  rewrite decide_True by nia. by rewrite Nat.sub_0_r.
Qed.

Lemma decode_cellChar v :
  Size ≤ 9 → (0 ≤ v ≤ Z.of_nat Size)%Z →
  Spec.decodeChar Size (Pure.cellChar v) = Some v.
Proof.
  intros H9 Hv. unfold Pure.cellChar, Spec.decodeChar.
  destruct (Z.eqb_spec v 0) as [->|Hnz]; [done|].
  rewrite Z.mod_small by lia. rewrite N_ascii_embedding by lia.
  rewrite Z2N.id by lia.
  replace (49 <=? 48 + v)%Z with true by (symmetry; apply Z.leb_le; lia).
  replace (48 + v <=? 57)%Z with true by (symmetry; apply Z.leb_le; lia).
  simpl. replace (Z.of_nat Size <? 48 + v - 48)%Z with false
    by (symmetry; apply Z.ltb_ge; lia).
  f_equal. lia.
Qed.

Lemma length_string_of_list l :
  String.length (String.string_of_list_ascii l) = length l.
Proof. induction l as [|a l IH]; simpl; [done | by rewrite IH]. Qed.

Lemma formatCells_chars m :
  String.list_ascii_of_string (Pure.formatCells Size m)
  = (λ p, Pure.cellChar (get m p.1 p.2)) <$> cellsOf Size.
Proof. unfold Pure.formatCells. apply String.list_ascii_of_string_of_list_ascii. Qed.

Lemma formatCells_length m :
  String.length (Pure.formatCells Size m) = Size * Size.
Proof.
  unfold Pure.formatCells.
  by rewrite length_string_of_list, length_fmap, length_cellsOf.
Qed.

(** Decoding what was formatted gives the grid back. *)
Lemma decoded_format m :
  Size ≤ 9 → shape Size m → inRange m →
  Forall (Spec.legal Size) (String.list_ascii_of_string (Pure.formatCells Size m))
  ∧ Spec.decoded Size (String.list_ascii_of_string (Pure.formatCells Size m)) = m.
Proof.
  intros H9 Hs Hrg. rewrite formatCells_chars. split.
  - apply Forall_fmap, Forall_forall. intros [r c] [Hr Hc]%elem_of_cellsOf. simpl.
    exists (get m r c). apply decode_cellChar; [done | by apply Hrg].
  - apply (shape_ext Size); [apply shape_decoded | done |].
    intros r c Hr Hc. rewrite get_decoded by done.
    erewrite nth_lookup_Some;
      [|rewrite list_lookup_fmap, cellsOf_lookup by done; done].
    simpl. rewrite decode_cellChar; [done | done | by apply Hrg].
Qed.

Lemma firstHint_full b sol : full b → Pure.firstHint Size b sol = (0, 0, 0%Z, false).
Proof.
  intros Hfull. pose proof (findEmpty_full b Hfull) as Hf.
  unfold Pure.findEmpty in Hf. unfold Pure.firstHint.
  by destruct (List.find _ _) as [[r c]|].
Qed.

End PureFacts.

(** ** The classic board is the 9x9 instance *)
Section BoardFacts.
Context {RS : RandSource}.
Implicit Types (b : Board.Board).

Local Abbreviation valid9 := (Spec.valid 9 3 3).
Local Abbreviation full9 := (Spec.full 9).
Local Abbreviation completion9 := (Spec.completion 9 3 3).
Local Abbreviation solutions9 := (Spec.solutions 9 3 3 82).

#[local] Arguments Spec.solutions : simpl never.
#[local] Arguments Pure.dfs : simpl never.
#[local] Arguments Pure.backtrack : simpl never.
#[local] Arguments Pure.budget : simpl never.
#[local] Arguments cellsOf : simpl never.
#[local] Arguments Pure.candidates : simpl never.

Lemma dims9 : 9 = 3 * 3.
Proof. reflexivity. Qed.

Lemma pos3 : 0 < 3.
Proof. lia. Qed.

Lemma Board_Validate_eq b : Board.Validate b = Pure.Validate 9 3 3 b.
Proof. reflexivity. Qed.

Lemma Board_findEmpty_eq b : Board.findEmpty b = Pure.findEmpty 9 b.
Proof. reflexivity. Qed.

Lemma Board_isSafe_eq b r c v :
  Board.isSafe b r c v = Pure.isSafe 9 3 3 b r c v.
Proof. reflexivity. Qed.

Lemma Board_backtrack_eq fuel b g :
  Board.backtrack fuel b g = Pure.backtrack 9 3 3 fuel b g.
Proof. reflexivity. Qed.

Lemma Board_dfs_eq fuel limit b n :
  Board.dfs fuel limit b n = Pure.dfs 9 3 3 fuel limit b n.
Proof. reflexivity. Qed.

Lemma Board_countClues_eq b : Board.countClues b = Pure.countClues 9 b.
Proof. unfold Board.countClues, Pure.countClues. reflexivity. Qed.

Lemma Board_cluesFor_eq d : Board.cluesFor d = Pure.cluesFor 9 d.
Proof.
  unfold Board.cluesFor, Pure.cluesFor. simpl.
  destruct (String.eqb_spec d Easy) as [->|?]; [done|].
  destruct (String.eqb_spec d Medium) as [->|?]; [done|].
  by destruct (String.eqb d Hard).
Qed.

Lemma Board_fillBox_eq b br bc g :
  Board.fillBox b br bc g = Pure.fillBox 9 3 3 b br bc g.
Proof. reflexivity. Qed.

Lemma Board_fillDiagonalBoxes_eq b g :
  Board.fillDiagonalBoxes b g = Pure.fillDiagonalBoxes 9 3 3 b g.
Proof.
  unfold Board.fillDiagonalBoxes, Pure.fillDiagonalBoxes.
  change (seq 0 (if 9 / 3 <? 9 / 3 then 9 / 3 else 9 / 3)) with [0; 1; 2].
  cbn [Pure.fillBoxes]. change (@Board.fillBox RS) with (@Pure.fillBox RS 9 3 3).
  change (0 * 3) with 0. change (1 * 3) with 3. change (2 * 3) with 6.
  destruct (Pure.fillBox 9 3 3 b 0 0 g) as [b1 g1].
  destruct (Pure.fillBox 9 3 3 b1 3 3 g1) as [b2 g2].
  by destruct (Pure.fillBox 9 3 3 b2 6 6 g2).
Qed.

Lemma copyBoard_wf b : Board.wf b → Board.copyBoard Board.zero b = b.
Proof.
  intros [Hlen _].
  do 10 (destruct b as [|? b]; [discriminate Hlen || reflexivity|]).
  discriminate Hlen.
Qed.

Lemma zero_wf : Board.wf Board.zero.
Proof. split; [done|]. repeat constructor. Qed.

Lemma zero_blank : Spec.blank 9 Board.zero.
Proof.
  intros r c Hr Hc.
  do 9 (destruct r as [|r]; [do 9 (destruct c as [|c]; [done|]); lia|]). lia.
Qed.

Lemma Board_hasUniqueSolution_eq b limit :
  Board.wf b →
  Board.hasUniqueSolution b limit = Pure.hasUniqueSolution 9 3 3 b limit.
Proof.
  intros Hwf. unfold Board.hasUniqueSolution. by rewrite copyBoard_wf.
Qed.

Lemma Board_carve_eq target rmOrder b :
  Board.wf b →
  Board.carve target rmOrder b = Pure.carve 9 3 3 target rmOrder b.
Proof.
  revert b. induction rmOrder as [|idx rest IH]; intros b Hwf;
    cbn [Board.carve Pure.carve]; [reflexivity|].
  rewrite Board_countClues_eq. destruct (_ <=? _)%Z; [reflexivity|].
  destruct (_ =? _)%Z; [by apply IH|].
  rewrite Board_hasUniqueSolution_eq by by apply shape_set.
  destruct (Pure.hasUniqueSolution 9 3 3 _ 2) as [[|]|]; [| |done].
  - apply IH. by apply shape_set.
  - apply IH. by do 2 apply shape_set.
Qed.

Lemma Board_attemptsLoop_eq n d lastErr g :
  Board.attemptsLoop n d lastErr g
  = Pure.attemptsLoop 9 3 3 n Board.zero Board.zero
      "failed to build solved board" d lastErr g.
Proof.
  revert lastErr g. induction n as [|n IH]; intros lastErr g;
    cbn [Board.attemptsLoop Pure.attemptsLoop]; [reflexivity|].
  rewrite Board_fillDiagonalBoxes_eq.
  pose proof (fillDiagonalBoxes_spec 9 3 3 dims9 pos3 pos3 Board.zero g
                zero_wf zero_blank) as [Hs1 Hv1].
  destruct (Pure.fillDiagonalBoxes 9 3 3 Board.zero g) as [b1 g1].
  cbn [fst] in Hs1, Hv1.
  change (Board.backtrack Board.budget b1 g1)
    with (Pure.backtrack 9 3 3 (Pure.budget 9) b1 g1).
  destruct (backtrack_spec 9 3 3 dims9 pos3 pos3 (Pure.budget 9) b1 g1 Hs1
              (countEmpty_bound 9 3 3 dims9 pos3 pos3 _))
    as (ok & solved & g2 & -> & Hres).
  destruct ok; [|apply IH].
  apply (solutions_sound 9 3 3 dims9 pos3 pos3) in Hres as (Hs2 & Hv2 & _);
    [|done..].
  rewrite Board_cluesFor_eq.
  change (Perm 81 g2) with (Perm (9 * 9) g2).
  destruct (Perm (9 * 9) g2) as [rmOrder g3].
  rewrite Board_carve_eq by done.
  destruct (carve_spec 9 3 3 dims9 pos3 pos3 (Pure.cluesFor 9 d) rmOrder solved
              Hs2 Hv2) as (puzzle & Hcarve & Hs3 & _).
  rewrite Hcarve, Board_hasUniqueSolution_eq by done.
  destruct (Pure.hasUniqueSolution 9 3 3 puzzle 2) as [[|]|];
    [reflexivity | apply IH | reflexivity].
Qed.

Lemma Board_valid b : Board.Validate b = None ↔ valid9 b.
Proof. apply (Validate_spec 9 3 3 dims9 pos3 pos3). Qed.

(** [Solve] always returns; its verdict and its board are those of the
    enumeration. *)
Lemma Board_Solve_spec b g :
  Board.wf b →
  ∃ ok b' g', Board.Solve b g = Some (b', ok, g')
    ∧ if ok then b' ∈ solutions9 b else b' = Board.zero ∧ solutions9 b = [].
Proof.
  intros Hwf. unfold Board.Solve. rewrite copyBoard_wf by done.
  destruct (backtrack_spec 9 3 3 dims9 pos3 pos3 (Pure.budget 9) b g Hwf
              (countEmpty_bound 9 3 3 dims9 pos3 pos3 _))
    as (ok & w' & g' & Hrun & Hres).
  change (Board.backtrack Board.budget b g)
    with (Pure.backtrack 9 3 3 (Pure.budget 9) b g).
  rewrite Hrun. destruct ok.
  - by exists true, w', g'.
  - exists false, Board.zero, g'. split; [done|]. by destruct Hres.
Qed.

Lemma Board_solve_sound b g b' g' :
  Board.wf b → Board.Validate b = None →
  Board.Solve b g = Some (b', true, g') →
  Board.wf b' ∧ Board.Validate b' = None
  ∧ (∀ r c, r < 9 → c < 9 → get b r c ≠ 0%Z → get b' r c = get b r c)
  ∧ (∀ r c, r < 9 → c < 9 → get b' r c ≠ 0%Z).
Proof.
  intros Hwf Hv%Board_valid Hrun.
  destruct (Board_Solve_spec b g Hwf) as (ok & b1 & g1 & Hrun' & Hres).
  rewrite Hrun in Hrun'. injection Hrun' as <- <- <-.
  apply (solutions_sound 9 3 3 dims9 pos3 pos3) in Hres as (? & ? & ? & ?);
    [|done..].
  split; [done|]. split; [by apply Board_valid|]. done.
Qed.

Lemma Board_solve_full b g :
  Board.wf b → full9 b → Board.Solve b g = Some (b, true, g).
Proof.
  intros Hwf Hfull. unfold Board.Solve. rewrite copyBoard_wf by done.
  unfold Board.budget. cbn [Board.backtrack].
  rewrite Board_findEmpty_eq, (findEmpty_full 9 b Hfull). done.
Qed.

Lemma Board_hint_full b g :
  Board.wf b → full9 b → Board.Validate b = None →
  Board.Hint b g = Some (0, 0, 0%Z, false, g).
Proof.
  intros Hwf Hfull Hv. unfold Board.Hint. rewrite Hv, Board_solve_full by done.
  pose proof (findEmpty_full 9 b Hfull) as Hf. unfold Pure.findEmpty in Hf.
  by destruct (List.find _ _) as [[r c]|].
Qed.

Lemma Board_solve_order_free b g1 g2 :
  Board.wf b →
  ∃ ok b1 b2 g1' g2',
    Board.Solve b g1 = Some (b1, ok, g1') ∧ Board.Solve b g2 = Some (b2, ok, g2').
Proof.
  intros Hwf.
  destruct (Board_Solve_spec b g1 Hwf) as (ok1 & b1 & g1' & Hrun1 & Hres1).
  destruct (Board_Solve_spec b g2 Hwf) as (ok2 & b2 & g2' & Hrun2 & Hres2).
  exists ok1, b1, b2, g1', g2'. split; [done|]. rewrite Hrun2.
  destruct ok1, ok2; try done.
  - destruct Hres2 as [_ Hnil]. rewrite Hnil in Hres1. by apply elem_of_nil in Hres1.
  - destruct Hres1 as [_ Hnil]. rewrite Hnil in Hres2. by apply elem_of_nil in Hres2.
Qed.

Lemma Board_unique_spec b :
  Board.wf b →
  Board.hasUniqueSolution b 2
  = Some (bool_decide (length (solutions9 b) = 1)).
Proof.
  intros Hwf. rewrite Board_hasUniqueSolution_eq by done.
  by apply (hasUniqueSolution_spec 9 3 3 dims9 pos3 pos3).
Qed.

Lemma Some_bool_decide (P : Prop) `{!Decision P} :
  Some (bool_decide P) = Some true ↔ P.
Proof.
  split.
  - intros H. injection H as H. by apply bool_decide_eq_true in H.
  - intros H. f_equal. by apply bool_decide_eq_true.
Qed.

Lemma Board_unique_iff b :
  Board.wf b → Board.Validate b = None →
  Board.hasUniqueSolution b 2 = Some true ↔
  ∃ s, completion9 b s ∧ ∀ s', completion9 b s' → s' = s.
Proof.
  intros Hwf Hv%Board_valid. rewrite Board_unique_spec by exact Hwf.
  rewrite <- (solutions_unique 9 3 3 dims9 pos3 pos3 b Hwf Hv).
  apply Some_bool_decide.
Qed.

Lemma Board_dfs_count b :
  Board.wf b →
  ∃ stop b', Board.dfs Board.budget 2 b 0
             = Some (stop, b', Z.min 2 (Z.of_nat (length (solutions9 b))))
    ∧ stop = bool_decide (2 ≤ length (solutions9 b)).
Proof.
  intros Hwf.
  pose proof (dfs_spec 9 3 3 dims9 pos3 pos3 (Pure.budget 9) 2 b 0 Hwf
    (countEmpty_bound 9 3 3 dims9 pos3 pos3 _) ltac:(lia)) as H.
  cbv zeta in H. rewrite Z.add_0_l in H. change (Board.dfs Board.budget 2 b 0)
    with (Pure.dfs 9 3 3 (Pure.budget 9) 2 b 0).
  change (Spec.solutions 9 3 3 82 b) with (Spec.solutions 9 3 3 (Pure.budget 9) b).
  destruct (_ <? _)%Z eqn:Hlt.
  - apply Z.ltb_lt in Hlt. exists false, b. rewrite H. split.
    + do 2 f_equal. lia.
    + symmetry. apply bool_decide_eq_false. lia.
  - apply Z.ltb_ge in Hlt. destruct H as [b' ->]. exists true, b'. split.
    + do 2 f_equal. lia.
    + symmetry. apply bool_decide_eq_true. lia.
Qed.

Lemma Board_generate_spec d attempts g :
  ∃ p e g', Board.Generate d attempts g = Some (p, e, g')
    ∧ match e with
      | None => Board.wf p ∧ Board.Validate p = None
                ∧ Board.hasUniqueSolution p 2 = Some true
      | Some _ => p = Board.zero
      end.
Proof.
  unfold Board.Generate. rewrite Board_attemptsLoop_eq.
  destruct (attemptsLoop_spec 9 3 3 dims9 pos3 pos3 (Pure.tries attempts)
              Board.zero Board.zero "failed to build solved board" d None g
              zero_wf zero_blank) as (p & e & g' & -> & Hres).
  exists p, e, g'. split; [done|]. destruct e; [done|].
  destruct Hres as (? & ? & ?). split; [done|]. split; [by apply Board_valid|].
  by rewrite Board_hasUniqueSolution_eq.
Qed.

(** *** The board codec *)

Lemma Board_parseCells_eq chars i b :
  match Board.parseCells chars i b, Pure.parseCells 9 chars i b with
  | inl x, inl y => x = y
  | inr _, inr _ => True
  | _, _ => False
  end.
Proof.
  revert i b. induction chars as [|ch chars IH]; intros i b; simpl; [done|].
  destruct (_ && _) eqn:Hdigit.
  - apply andb_true_iff in Hdigit as [_ H57%Z.leb_le].
    destruct (Z.ltb_spec (Z.of_nat 9) (Z.of_N (N_of_ascii ch) - 48)); [lia|].
    apply IH.
  - destruct (_ || _); [apply IH | done].
Qed.

Lemma length_list_ascii s :
  length (String.list_ascii_of_string s) = String.length s.
Proof. induction s as [|a s IH]; simpl; [done | by rewrite IH]. Qed.

Lemma Board_String_eq b : Board.String b = Pure.formatCells 9 b.
Proof. unfold Board.String, Pure.formatCells. reflexivity. Qed.

Lemma Board_FromString_spec s :
  let chars := String.list_ascii_of_string s in
  let cond := String.length s = 81 ∧ Forall (Spec.legal 9) chars
              ∧ Board.Validate (Spec.decoded 9 chars) = None in
  (cond → Board.FromString s = (Spec.decoded 9 chars, None))
  ∧ (¬ cond → ∃ msg, Board.FromString s = (Board.zero, Some msg)).
Proof.
  intros chars cond. unfold Board.FromString.
  destruct (Nat.eqb_spec (String.length s) 81) as [Hlen|Hlen]; simpl.
  2: { split; [intros (? & _); done|]. intros _. by eexists. }
  pose proof (Board_parseCells_eq chars 0 Board.zero) as Heq.
  assert (length chars = 9 * 9) as Hchars.
  { subst chars. by rewrite length_list_ascii, Hlen. }
  pose proof (parseCells_decoded 9 3 3 dims9 pos3 pos3 chars Board.zero
                ltac:(lia) zero_wf Hchars) as Hdec.
  fold chars.
  destruct (Board.parseCells chars 0 Board.zero) as [b|msg];
    destruct (Pure.parseCells 9 chars 0 Board.zero) as [b'|msg']; try done.
  - subst b'. destruct Hdec as [Hall ->].
    destruct (Board.Validate (Spec.decoded 9 chars)) as [msg|] eqn:Hv.
    + split; [intros (_ & _ & ?); done|]. intros _. by eexists.
    + split; [done|]. intros Hn. destruct Hn. done.
  - split; [intros (_ & ? & _); done|]. intros _. by eexists.
Qed.

Lemma Board_roundtrip b :
  Board.wf b → Board.Validate b = None →
  Board.FromString (Board.String b) = (b, None).
Proof.
  intros Hwf Hv. pose proof Hv as [Hrg _]%Board_valid.
  rewrite Board_String_eq.
  destruct (decoded_format 9 3 3 dims9 pos3 pos3 b ltac:(lia) Hwf Hrg) as [Hall Hdec].
  destruct (Board_FromString_spec (Pure.formatCells 9 b)) as [Hok _].
  cbv zeta in Hok. rewrite Hdec in Hok. apply Hok.
  split; [apply (formatCells_length 9)|]. split; [exact Hall | exact Hv].
Qed.

End BoardFacts.

(** ** The store: basic facts *)
Section GridBasics.
Implicit Types (g w : Grid.Grid) (h : Grid.heap) (m : list (list Z)).

Local Abbreviation Ok := Grid.Ok.
Local Abbreviation pairZ := Grid.pairZ.

(** Numbers far from the ends of the range do not wrap. *)
Lemma wrap_small z : (- 2 ^ 63 ≤ z < 2 ^ 63)%Z → Grid.wrap z = z.
Proof. intros Hz. unfold Grid.wrap. rewrite Z.mod_small by lia. lia. Qed.

Lemma wrap_range z : (- 2 ^ 63 ≤ Grid.wrap z < 2 ^ 63)%Z.
Proof.
  unfold Grid.wrap.
  pose proof (Z.mod_pos_bound (z + 2 ^ 63) (2 ^ 64) ltac:(lia)). lia.
Qed.

Lemma bind_Ok {A B} (a : A) (f : A → Grid.res B) : Grid.Ok a ≫= f = f a.
Proof. reflexivity. Qed.

Lemma index_nat {A} (l : list A) (i : nat) x :
  l !! i = Some x → Grid.index l (Z.of_nat i) = Ok x.
Proof.
  intros Hi. unfold Grid.index.
  destruct (Z.ltb_spec (Z.of_nat i) 0); [lia|]. by rewrite Nat2Z.id, Hi.
Qed.

Lemma holds_lookup h w m r row :
  Grid.holds h w m → m !! r = Some row →
  ∃ a, Grid.Cells w !! r = Some a ∧ h !! a = Some row.
Proof.
  intros Hh Hrow. unfold Grid.holds in Hh.
  by apply (Forall2_lookup_r _ _ _ _ _ Hh Hrow).
Qed.

Lemma seqZ_nat k len : seqZ (Z.of_nat k) (Z.of_nat len) = Z.of_nat <$> seq k len.
Proof.
  revert k. induction len as [|len IH]; intros k; [done|].
  rewrite seqZ_cons by lia. simpl. f_equal.
  replace (Z.succ (Z.of_nat k)) with (Z.of_nat (S k)) by lia.
  replace (Z.pred (Z.of_nat (S len))) with (Z.of_nat len) by lia. apply IH.
Qed.

Lemma allM_sim {A} (f : A → Grid.res bool) (fp : A → bool) (l : list A) :
  (∀ x, x ∈ l → f x = Ok (fp x)) → Grid.allM f l = Ok (forallb fp l).
Proof.
  induction l as [|x l IH]; intros Hf; simpl; [done|].
  rewrite (Hf x) by left. simpl. destruct (fp x); [|done].
  apply IH. intros y Hy. apply Hf. by right.
Qed.

Lemma allM_fmap {A B} (k : A → B) (f : B → Grid.res bool) (l : list A) :
  Grid.allM f (k <$> l) = Grid.allM (λ x, f (k x)) l.
Proof.
  induction l as [|x l IH]; [done|].
  rewrite fmap_cons. cbn [Grid.allM].
  destruct (f (k x)) as [[|]| | |]; simpl; [apply IH | done..].
Qed.

Lemma forallb_fmap {A B} (k : A → B) (f : B → bool) (l : list A) :
  forallb f (k <$> l) = forallb (λ x, f (k x)) l.
Proof.
  induction l as [|x l IH]; [done|].
  rewrite fmap_cons. cbn [forallb]. by rewrite IH.
Qed.

Lemma bind_pair_fmap (l1 l2 : list nat) :
  ((Z.of_nat <$> l1) ≫= λ r, (Z.of_nat <$> l2) ≫= λ c, [(r, c)])
  = pairZ <$> (l1 ≫= λ r, l2 ≫= λ c, [(r, c)]).
Proof.
  induction l1 as [|r l1 IH]; [done|].
  rewrite fmap_cons, !bind_cons, fmap_app, IH. f_equal.
  clear. induction l2 as [|c l2 IH]; [done|].
  rewrite fmap_cons, !bind_cons, fmap_app, IH. done.
Qed.

End GridBasics.

(** ** The store-based code computes what the matrix code computes *)
Section GridFacts.
Context {RS : RandSource}.
Variables (n R C : nat).
Hypothesis Hdims : n = R * C.
Hypothesis HR : 0 < R.
Hypothesis HC : 0 < C.
Implicit Types (g w : Grid.Grid) (h pre post : Grid.heap) (m : list (list Z)).

Local Abbreviation hasDims := (Grid.hasDims n R C).
Local Abbreviation Ok := Grid.Ok.
Local Abbreviation pairZ := Grid.pairZ.

#[local] Arguments Grid.cell : simpl never.
#[local] Arguments Grid.setCell : simpl never.
#[local] Arguments Grid.index : simpl never.
#[local] Arguments Grid.isSafe : simpl never.
#[local] Arguments Grid.findEmpty : simpl never.
#[local] Arguments Grid.Validate : simpl never.
#[local] Arguments Grid.Clone : simpl never.
#[local] Arguments Grid.NewGrid : simpl never.
#[local] Arguments Pure.isSafe : simpl never.
#[local] Arguments Pure.findEmpty : simpl never.
#[local] Arguments Pure.Validate : simpl never.
#[local] Arguments cellsOf : simpl never.
#[local] Arguments Z.mul : simpl never.
#[local] Arguments Z.add : simpl never.
#[local] Arguments Z.of_nat : simpl never.
#[local] Arguments Z.to_nat : simpl never.

Lemma cell_sim h w m r c :
  Grid.holds h w m → shape n m → r < n → c < n →
  Grid.cell h w (Z.of_nat r) (Z.of_nat c) = Ok (get m r c).
Proof.
  intros Hh Hs Hr Hc. pose proof Hs as [Hlen _].
  destruct (lookup_lt_is_Some_2 m r) as [row Hrow]; [lia|].
  destruct (holds_lookup _ _ _ _ _ Hh Hrow) as (a & Ha & Hha).
  pose proof (shape_row _ _ _ _ Hs Hrow) as Hl.
  destruct (lookup_lt_is_Some_2 row c) as [x Hx]; [lia|].
  unfold Grid.cell. rewrite (index_nat _ _ _ Ha), bind_Ok.
  rewrite (index_nat _ _ _ Hha), bind_Ok. rewrite (index_nat _ _ _ Hx).
  f_equal. rewrite (get_lookup _ _ _ _ Hrow). symmetry. by apply nth_lookup_Some.
Qed.

Lemma cellsOfZ_nat : Grid.cellsOfZ (Z.of_nat n) = pairZ <$> cellsOf n.
Proof.
  unfold Grid.cellsOfZ, cellsOf. change 0%Z with (Z.of_nat 0).
  rewrite seqZ_nat. apply bind_pair_fmap.
Qed.

Lemma boxCells_nat g br bc :
  hasDims g →
  Grid.boxCells g (Z.of_nat br) (Z.of_nat bc) = pairZ <$> Pure.boxCells R C br bc.
Proof.
  intros (_ & HbR & HbC). unfold Grid.boxCells, Pure.boxCells.
  rewrite HbR, HbC, !seqZ_nat. apply bind_pair_fmap.
Qed.

Lemma findFirst_sim h w m ps :
  Grid.holds h w m → shape n m →
  (∀ p, p ∈ ps → p.1 < n ∧ p.2 < n) →
  Grid.findFirst h w (pairZ <$> ps)
  = Ok (match List.find (λ p, (get m p.1 p.2 =? 0)%Z) ps with
        | Some (r, c) => (Z.of_nat r, Z.of_nat c, true)
        | None => (0%Z, 0%Z, false)
        end).
Proof.
  intros Hh Hs. induction ps as [|[r c] ps IH]; intros Hin; simpl; [done|].
  destruct (Hin (r, c) ltac:(left)) as [Hr Hc]. simpl in Hr, Hc.
  rewrite (cell_sim h w m) by done. simpl.
  destruct (_ =? _)%Z; [done|]. apply IH. intros p Hp. apply Hin. by right.
Qed.

Lemma findEmpty_sim g w h m :
  hasDims g → Grid.holds h w m → shape n m →
  Grid.findEmpty g w h
  = Ok (let '(r, c, ok) := Pure.findEmpty n m in (Z.of_nat r, Z.of_nat c, ok)).
Proof.
  intros (Hsz & _ & _) Hh Hs. unfold Grid.findEmpty, Pure.findEmpty.
  rewrite Hsz, cellsOfZ_nat, (findFirst_sim h w m) by
    (done || by intros [r c] ?%elem_of_cellsOf).
  by destruct (List.find _ _) as [[r c]|].
Qed.

Lemma isSafe_sim g w h m r c v :
  hasDims g → Grid.holds h w m → shape n m → r < n → c < n →
  Grid.isSafe g w h (Z.of_nat r) (Z.of_nat c) v
  = Ok (Pure.isSafe n R C m r c v).
Proof.
  intros (Hsz & HbR & HbC) Hh Hs Hr Hc. unfold Grid.isSafe.
  rewrite Hsz, HbR, HbC. change 0%Z with (Z.of_nat 0).
  rewrite !seqZ_nat, !allM_fmap.
  rewrite (allM_sim _ (λ i, negb ((get m r i =? v)%Z || (get m i c =? v)%Z))
             (seq 0 n)); last first.
  { intros i [_ Hi]%elem_of_seq.
    rewrite (cell_sim h w m r i), bind_Ok by (done || lia).
    destruct (get m r i =? v)%Z; [done|].
    by rewrite (cell_sim h w m i c), bind_Ok by (done || lia). }
  rewrite bind_Ok. unfold Pure.isSafe.
  destruct (forallb _ (seq 0 n)); cbn [negb andb]; [|done].
  destruct (Z.eqb_spec (Z.of_nat R) (Z.of_nat 0)); [lia|].
  destruct (Z.eqb_spec (Z.of_nat C) (Z.of_nat 0)); [lia|].
  rewrite !Z.quot_div_nonneg by lia.
  rewrite <- !Nat2Z.inj_div, <- !Nat2Z.inj_mul.
  apply allM_sim.
  intros i [_ Hi]%elem_of_seq. rewrite allM_fmap. apply allM_sim.
  intros j [_ Hj]%elem_of_seq. rewrite <- !Nat2Z.inj_add.
  rewrite (cell_sim h w m); [done.. | |].
  - apply (box_corner_bound n R C); [done.. | lia].
  - apply (box_corner_bound_col n R C); [done.. | lia].
Qed.

(** *** Grids made by [NewGrid]: rows at consecutive fresh addresses *)

Lemma lookup_mid pre m post i :
  i < length m → (pre ++ m ++ post) !! (length pre + i) = m !! i.
Proof.
  intros Hi. rewrite lookup_app_r by lia.
  replace (length pre + i - length pre) with i by lia.
  by rewrite lookup_app_l.
Qed.

Lemma holds_mid pre m post w :
  Grid.Cells w = seq (length pre) n → length m = n →
  Grid.holds (pre ++ m ++ post) w m.
Proof.
  intros Hw Hlen. unfold Grid.holds. rewrite Hw.
  apply Forall2_same_length_lookup. split; [by rewrite length_seq|].
  intros i a row [-> Hi]%lookup_seq Hrow. rewrite lookup_mid; [done | lia].
Qed.

Lemma setCell_mid pre m post w r c v :
  Grid.Cells w = seq (length pre) n → shape n m → r < n → c < n →
  Grid.setCell (pre ++ m ++ post) w (Z.of_nat r) (Z.of_nat c) v
  = Ok (pre ++ set m r c v ++ post).
Proof.
  intros Hw Hs Hr Hc. pose proof Hs as [Hlen _].
  destruct (lookup_lt_is_Some_2 m r) as [row Hrow]; [lia|].
  pose proof (shape_row _ _ _ _ Hs Hrow) as Hl.
  destruct (lookup_lt_is_Some_2 row c) as [x Hx]; [lia|].
  unfold Grid.setCell.
  rewrite (index_nat _ _ (length pre + r)), bind_Ok
    by (rewrite Hw; apply lookup_seq; lia).
  rewrite (index_nat _ _ row), bind_Ok by (rewrite lookup_mid; [done | lia]).
  rewrite (index_nat _ _ x Hx), bind_Ok. f_equal.
  rewrite Nat2Z.id, insert_app_r, insert_app_l by lia.
  unfold set. by rewrite (nth_lookup_Some _ _ _ _ Hrow).
Qed.

(** The searches keep the shape of the board. *)
Lemma tryEach_shape {St} safe
    (rec : list (list Z) → St → option (bool * list (list Z) * St)) r c :
  (∀ m st ok m' st', shape n m → rec m st = Some (ok, m', st') → shape n m') →
  ∀ vs m st ok m' st',
    shape n m → tryEach safe rec r c vs m st = Some (ok, m', st') → shape n m'.
Proof.
  intros Hrec vs. induction vs as [|v vs IH]; intros m st ok m' st' Hs; simpl.
  { by intros [= <- <- <-]. }
  destruct (safe m r c v); [|by apply IH].
  destruct (rec (set m r c v) st) as [[[[|] m1] st1]|] eqn:Hcall; [| |done].
  - intros [= <- <- <-]. eapply Hrec; [|done]. by apply shape_set.
  - apply IH, shape_set. eapply Hrec; [|done]. by apply shape_set.
Qed.

Lemma backtrack_shape fuel m rs ok m' rs' :
  shape n m → Pure.backtrack n R C fuel m rs = Some (ok, m', rs') → shape n m'.
Proof.
  revert m rs ok m' rs'. induction fuel as [|fuel IH]; intros m rs ok m' rs' Hs;
    [done|]. cbn [Pure.backtrack].
  destruct (Pure.findEmpty n m) as [[r c] [|]]; cbn [negb].
  - destruct (Shuffle _ rs) as [vals rs1]. by apply tryEach_shape.
  - by intros [= <- <- <-].
Qed.

Lemma dfs_shape fuel limit m k ok m' k' :
  shape n m → Pure.dfs n R C fuel limit m k = Some (ok, m', k') → shape n m'.
Proof.
  revert m k ok m' k'. induction fuel as [|fuel IH]; intros m k ok m' k' Hs;
    [done|]. cbn [Pure.dfs].
  destruct (Pure.findEmpty n m) as [[r c] [|]]; cbn [negb].
  - by apply tryEach_shape.
  - by intros [= <- <- <-].
Qed.

(** The candidate loop on the store follows the one on matrices. *)
Lemma tryEachM_sim {St} pre post g w r c
    (recM : Grid.heap → St → Grid.res (bool * Grid.heap * St))
    (recP : list (list Z) → St → option (bool * list (list Z) * St)) :
  hasDims g → Grid.Cells w = seq (length pre) n → r < n → c < n →
  (∀ m st, shape n m →
     recM (pre ++ m ++ post) st =
     match recP m st with
     | None => Grid.OutOfFuel
     | Some (ok, m', st') => Ok (ok, pre ++ m' ++ post, st')
     end) →
  (∀ m st ok m' st', shape n m → recP m st = Some (ok, m', st') → shape n m') →
  ∀ vs m st, shape n m →
    Grid.tryEachM recM g w (Z.of_nat r) (Z.of_nat c) vs (pre ++ m ++ post) st =
    match tryEach (Pure.isSafe n R C) recP r c vs m st with
    | None => Grid.OutOfFuel
    | Some (ok, m', st') => Ok (ok, pre ++ m' ++ post, st')
    end.
Proof.
  intros Hg Hw Hr Hc Hrec HrecS vs.
  induction vs as [|v vs IH]; intros m st Hs; cbn [Grid.tryEachM tryEach]; [done|].
  pose proof Hs as [Hlen _].
  rewrite (isSafe_sim g w _ m), bind_Ok by (done || by apply holds_mid).
  destruct (Pure.isSafe n R C m r c v); [|by apply IH].
  rewrite setCell_mid, bind_Ok by done.
  rewrite Hrec by by apply shape_set.
  destruct (recP (set m r c v) st) as [[[[|] m1] st1]|] eqn:Hcall; [done| |done].
  rewrite bind_Ok.
  assert (shape n m1) as Hs1 by (eapply HrecS; [|done]; by apply shape_set).
  rewrite setCell_mid, bind_Ok by done. apply IH. by apply shape_set.
Qed.

Lemma oneTo_sim : Grid.oneTo (Z.of_nat n) = Ok (Pure.candidates n).
Proof.
  unfold Grid.oneTo, Pure.candidates.
  destruct (Z.ltb_spec (Z.of_nat n) 0); [lia|]. f_equal.
  change 0%Z with (Z.of_nat 0). rewrite seqZ_nat, <- list_fmap_compose.
  rewrite <- (fmap_S_seq 0), <- list_fmap_compose.
  apply list_fmap_ext. intros _ i _. simpl. lia.
Qed.

Lemma backtrack_sim fuel pre post g w m rs :
  hasDims g → Grid.Cells w = seq (length pre) n → shape n m →
  Grid.backtrack fuel g w (pre ++ m ++ post) rs =
  match Pure.backtrack n R C fuel m rs with
  | None => Grid.OutOfFuel
  | Some (ok, m', rs') => Ok (ok, pre ++ m' ++ post, rs')
  end.
Proof.
  intros Hg Hw. revert m rs. induction fuel as [|fuel IH]; intros m rs Hs; [done|].
  cbn [Grid.backtrack Pure.backtrack]. pose proof Hs as [Hlen _].
  rewrite (findEmpty_sim g w _ m), bind_Ok by (done || by apply holds_mid).
  destruct (Pure.findEmpty n m) as [[r c] [|]] eqn:Hf; cbn [negb]; [|done].
  pose proof Hg as (Hsz & ? & ?). rewrite Hsz, oneTo_sim, bind_Ok.
  destruct (Shuffle _ rs) as [vals rs1].
  destruct (findEmpty_found _ _ _ _ Hf) as (Hr & Hc & _).
  apply (tryEachM_sim pre post g w r c (Grid.backtrack fuel g w)
           (Pure.backtrack n R C fuel) Hg Hw Hr Hc); [| |done].
  - intros m1 st Hs1. by apply IH.
  - intros m1 st ok m' st' Hs1 Hrun. by apply (backtrack_shape fuel m1 st ok m' st').
Qed.

Lemma dfs_sim fuel limit pre post g w m k :
  hasDims g → Grid.Cells w = seq (length pre) n → shape n m →
  Grid.dfs fuel limit g w (pre ++ m ++ post) k =
  match Pure.dfs n R C fuel limit m k with
  | None => Grid.OutOfFuel
  | Some (ok, m', k') => Ok (ok, pre ++ m' ++ post, k')
  end.
Proof.
  intros Hg Hw. revert m k. induction fuel as [|fuel IH]; intros m k Hs; [done|].
  cbn [Grid.dfs Pure.dfs]. pose proof Hs as [Hlen _].
  rewrite (findEmpty_sim g w _ m), bind_Ok by (done || by apply holds_mid).
  destruct (Pure.findEmpty n m) as [[r c] [|]] eqn:Hf; cbn [negb]; [|done].
  pose proof Hg as (Hsz & ? & ?).
  pose proof oneTo_sim as Hone. unfold Grid.oneTo in Hone.
  destruct (Z.ltb_spec (Z.of_nat n) 0); [lia|]. injection Hone as Hone.
  rewrite Hsz, Hone.
  destruct (findEmpty_found _ _ _ _ Hf) as (Hr & Hc & _).
  apply (tryEachM_sim pre post g w r c (Grid.dfs fuel limit g w)
           (Pure.dfs n R C fuel limit) Hg Hw Hr Hc); [| |done].
  - intros m1 st Hs1. by apply IH.
  - intros m1 st ok m' st' Hs1 Hrun. by apply (dfs_shape fuel limit m1 st ok m' st').
Qed.

(** *** Allocation and cloning *)

Lemma NewGrid_sim g h :
  hasDims g → n ≤ 25 →
  Grid.NewGrid (Grid.Size g) (Grid.BoxRows g) (Grid.BoxCols g) h
  = (Grid.mkGrid (Grid.Size g) (Grid.BoxRows g) (Grid.BoxCols g)
       (seq (length h) n), None, h ++ replicate n (replicate n 0%Z)).
Proof.
  intros (Hsz & HbR & HbC) Hmax. unfold Grid.NewGrid, Grid.MaxGridSize.
  rewrite Hsz, HbR, HbC. rewrite wrap_small by nia.
  destruct (Z.leb_spec (Z.of_nat n) 0); [nia|].
  destruct (Z.leb_spec (Z.of_nat R) 0); [lia|].
  destruct (Z.leb_spec (Z.of_nat C) 0); [lia|].
  destruct (Z.eqb_spec (Z.of_nat n) (Z.of_nat R * Z.of_nat C)); [|nia].
  cbn [orb negb]. destruct (Z.ltb_spec 25 (Z.of_nat n)); [lia|].
  by rewrite Nat2Z.id.
Qed.

Lemma copyRow_same (dst src : list Z) :
  length dst = length src → Grid.copyRow dst src = src.
Proof.
  intros Hl. unfold Grid.copyRow.
  rewrite Hl, firstn_all, drop_ge, app_nil_r by lia. done.
Qed.

Lemma cloneRows_sim out g h m j k :
  Grid.Cells out = seq (length h) n → Grid.holds h g m → shape n m →
  k + j = n →
  Grid.cloneRows out g (Z.of_nat <$> seq k j)
    (h ++ take k m ++ replicate j (replicate n 0%Z))
  = Ok (h ++ m).
Proof.
  intros Hout Hh Hs. pose proof Hs as [Hlen _].
  revert k. induction j as [|j IH]; intros k Hk.
  { simpl. rewrite app_nil_r, firstn_all2 by lia. done. }
  rewrite <- cons_seq, fmap_cons. cbn [Grid.cloneRows].
  destruct (lookup_lt_is_Some_2 m k) as [row Hrow]; [lia|].
  destruct (holds_lookup _ _ _ _ _ Hh Hrow) as (a & Ha & Hha).
  pose proof (shape_row _ _ _ _ Hs Hrow) as Hl.
  assert (length (take k m) = k) as Htk by (rewrite length_take; lia).
  rewrite (index_nat (Grid.Cells out) k (length h + k)), bind_Ok
    by (rewrite Hout; apply lookup_seq; lia).
  rewrite (index_nat _ (length h + k) (replicate n 0%Z)), bind_Ok.
  2: { rewrite lookup_app_r by lia.
       replace (length h + k - length h) with k by lia.
       rewrite lookup_app_r by lia. by rewrite Htk, Nat.sub_diag. }
  rewrite (index_nat _ _ a Ha), bind_Ok.
  rewrite (index_nat _ a row), bind_Ok by by apply lookup_app_l_Some.
  rewrite copyRow_same by (by rewrite length_replicate).
  rewrite insert_app_r.
  rewrite insert_app_r_alt by lia. rewrite Htk, Nat.sub_diag.
  cbn [replicate insert list_insert].
  specialize (IH (S k) ltac:(lia)).
  rewrite (take_S_r _ _ _ Hrow), <- app_assoc in IH. apply IH.
Qed.

Lemma Clone_sim g h m :
  hasDims g → n ≤ 25 → Grid.holds h g m → shape n m →
  Grid.Clone g h
  = Ok (Grid.mkGrid (Grid.Size g) (Grid.BoxRows g) (Grid.BoxCols g)
          (seq (length h) n), h ++ m).
Proof.
  intros Hg Hmax Hh Hs. unfold Grid.Clone. rewrite NewGrid_sim by done.
  cbv beta iota.
  replace (seqZ 0 (Grid.Size g)) with (Z.of_nat <$> seq 0 n)
    by (destruct Hg as (-> & _ & _); symmetry; apply (seqZ_nat 0)).
  pose proof (cloneRows_sim
    (Grid.mkGrid (Grid.Size g) (Grid.BoxRows g) (Grid.BoxCols g) (seq (length h) n))
    g h m n 0 eq_refl Hh Hs ltac:(lia)) as Hc.
  rewrite take_0 in Hc. cbn [app] in Hc. by rewrite Hc, bind_Ok.
Qed.

Lemma budget_sim g : hasDims g → Grid.budget g = Pure.budget n.
Proof. intros (Hsz & _ & _). unfold Grid.budget, Pure.budget. rewrite Hsz. lia. Qed.

Lemma holds_app h w m junk : Grid.holds h w m → Grid.holds (h ++ junk) w m.
Proof.
  unfold Grid.holds. intros Hh. eapply Forall2_impl; [exact Hh|].
  intros a row Ha. by apply lookup_app_l_Some.
Qed.

Lemma Solve_sim g h m rs :
  hasDims g → n ≤ 25 → Grid.holds h g m → shape n m →
  Grid.Solve g h rs =
  match Pure.backtrack n R C (Pure.budget n) m rs with
  | None => Grid.OutOfFuel
  | Some (true, m', rs') =>
      Ok (Grid.mkGrid (Grid.Size g) (Grid.BoxRows g) (Grid.BoxCols g)
            (seq (length h) n), true, h ++ m', rs')
  | Some (false, m', rs') => Ok (Grid.none, false, h ++ m', rs')
  end.
Proof.
  intros Hg Hmax Hh Hs. unfold Grid.Solve.
  rewrite (Clone_sim g h m), bind_Ok, budget_sim by done.
  pose proof (backtrack_sim (Pure.budget n) h [] g
    (Grid.mkGrid (Grid.Size g) (Grid.BoxRows g) (Grid.BoxCols g) (seq (length h) n))
    m rs Hg eq_refl Hs) as Hb.
  rewrite app_nil_r in Hb. rewrite Hb.
  destruct (Pure.backtrack _ _ _ _ _ _) as [[[[|] m'] rs']|]; [| |done];
    by rewrite bind_Ok, app_nil_r.
Qed.

Lemma hasUniqueSolution_sim g w h m limit :
  hasDims g → hasDims w → n ≤ 25 → Grid.holds h w m → shape n m →
  Grid.hasUniqueSolution g w limit h =
  match Pure.dfs n R C (Pure.budget n) limit m 0 with
  | None => Grid.OutOfFuel
  | Some (_, m', count) => Ok ((count =? 1)%Z, h ++ m')
  end.
Proof.
  intros Hg Hw Hmax Hh Hs. unfold Grid.hasUniqueSolution.
  rewrite (Clone_sim w h m), bind_Ok, budget_sim by done.
  pose proof (dfs_sim (Pure.budget n) limit h [] g
    (Grid.mkGrid (Grid.Size w) (Grid.BoxRows w) (Grid.BoxCols w) (seq (length h) n))
    m 0 Hg eq_refl Hs) as Hd.
  rewrite app_nil_r in Hd. rewrite Hd.
  destruct (Pure.dfs _ _ _ _ _ _ _) as [[[ok m'] count]|]; [|done].
  by rewrite bind_Ok, app_nil_r.
Qed.

(** *** The validator *)

Lemma mark_sim v seen :
  (0 ≤ v ≤ Z.of_nat n)%Z → length seen = n + 1 →
  Grid.mark v seen = Ok (Pure.mark v seen).
Proof.
  intros Hv Hlen. unfold Grid.mark, Pure.mark.
  destruct (v =? 0)%Z; [done|].
  destruct (lookup_lt_is_Some_2 seen (Z.to_nat v)) as [b Hb]; [lia|].
  replace v with (Z.of_nat (Z.to_nat v)) at 1 by lia.
  rewrite (index_nat _ _ _ Hb), bind_Ok, (nth_lookup_Some _ _ _ _ Hb).
  by destruct b.
Qed.

Lemma mark_length v seen seen' :
  Pure.mark v seen = Some seen' → length seen' = length seen.
Proof.
  unfold Pure.mark. destruct (v =? 0)%Z; [by intros [= <-]|].
  destruct (nth _ _ _); [done|]. intros [= <-]. apply length_insert.
Qed.

Lemma scanLine_sim h g m i js row col :
  hasDims g → Grid.holds h g m → shape n m → i < n → (∀ j, j ∈ js → j < n) →
  length row = n + 1 → length col = n + 1 →
  Grid.scanLine h g (Z.of_nat i) (Z.of_nat <$> js) row col
  = Ok (Pure.scanLine n m i js row col).
Proof.
  intros Hg Hh Hs Hi. pose proof Hg as (Hsz & _ & _).
  revert row col. induction js as [|j js IH]; intros row col Hjs Hrow Hcol; [done|].
  rewrite fmap_cons. cbn [Grid.scanLine Pure.scanLine].
  assert (j < n) as Hj by (apply Hjs; left).
  rewrite (cell_sim h g m i j), bind_Ok by done.
  rewrite (cell_sim h g m j i), bind_Ok by done. rewrite Hsz.
  destruct (_ || _) eqn:Hrange; [done|].
  rewrite !orb_false_iff, !Z.ltb_ge in Hrange.
  rewrite (mark_sim (get m i j) row), bind_Ok by (lia || done).
  destruct (Pure.mark (get m i j) row) as [row'|] eqn:Hmr; [|done].
  rewrite (mark_sim (get m j i) col), bind_Ok by (lia || done).
  destruct (Pure.mark (get m j i) col) as [col'|] eqn:Hmc; [|done].
  apply IH.
  - intros j' Hj'. apply Hjs. by right.
  - by rewrite (mark_length _ _ _ Hmr).
  - by rewrite (mark_length _ _ _ Hmc).
Qed.

Lemma scanBox_sim h g m ps seen :
  Grid.holds h g m → shape n m → Spec.inRange n m →
  (∀ p, p ∈ ps → p.1 < n ∧ p.2 < n) → length seen = n + 1 →
  Grid.scanBox h g (pairZ <$> ps) seen = Ok (Pure.scanBox m ps seen).
Proof.
  intros Hh Hs Hrg. revert seen.
  induction ps as [|[r c] ps IH]; intros seen Hps Hlen; [done|].
  rewrite fmap_cons. cbn [Grid.scanBox Pure.scanBox Grid.pairZ fst snd].
  destruct (Hps (r, c) ltac:(left)) as [Hr Hc]. cbn [fst snd] in Hr, Hc.
  rewrite (cell_sim h g m r c), bind_Ok by done.
  rewrite mark_sim, bind_Ok by (by apply Hrg || done).
  destruct (Pure.mark (get m r c) seen) as [seen'|] eqn:Hm; [|done].
  apply IH.
  - intros p Hp. apply Hps. by right.
  - by rewrite (mark_length _ _ _ Hm).
Qed.

Lemma starts_sim a b :
  0 < a →
  Grid.starts (Z.of_nat (a * b)) (Z.of_nat a)
  = Z.of_nat <$> ((λ k, k * a) <$> seq 0 b).
Proof.
  intros Ha. unfold Grid.starts.
  replace ((Z.of_nat (a * b) + Z.of_nat a - 1) / Z.of_nat a)%Z with (Z.of_nat b).
  2: { apply Z.div_unique with (r := (Z.of_nat a - 1)%Z); lia. }
  change 0%Z with (Z.of_nat 0). rewrite seqZ_nat, <- !list_fmap_compose.
  apply list_fmap_ext. intros _ k _. simpl. lia.
Qed.

Lemma fresh_sim g : hasDims g → Grid.fresh g = Pure.fresh n.
Proof.
  intros (Hsz & _ & _). unfold Grid.fresh, Pure.fresh. rewrite Hsz. f_equal. lia.
Qed.

Lemma Validate_sim g h m :
  hasDims g → Grid.holds h g m → shape n m →
  Grid.Validate g h = Ok (Pure.Validate n R C m).
Proof.
  intros Hg Hh Hs. pose proof Hg as (Hsz & HbR & HbC).
  unfold Grid.Validate, Pure.Validate. cbv zeta.
  rewrite fresh_sim by done. rewrite Hsz, HbR, HbC.
  change 0%Z with (Z.of_nat 0). rewrite !seqZ_nat, allM_fmap.
  rewrite (allM_sim _ (λ i, Pure.scanLine n m i (seq 0 n) (Pure.fresh n) (Pure.fresh n))
             (seq 0 n)); last first.
  { intros i [_ Hi]%elem_of_seq.
    apply scanLine_sim; try done; try apply length_fresh; try lia.
    intros j [_ Hj]%elem_of_seq. lia. }
  rewrite bind_Ok. fold (Pure.rowsColsOk n m).
  destruct (Pure.rowsColsOk n m) eqn:Hrc; cbn [negb andb]; [|done].
  apply (rowsColsOk_spec n R C Hdims HR HC) in Hrc as (Hrg & _ & _).
  destruct (Z.leb_spec (Z.of_nat n) (Z.of_nat 0)); [nia|].
  destruct (Z.leb_spec (Z.of_nat R) (Z.of_nat 0)); [lia|].
  destruct (Z.leb_spec (Z.of_nat C) (Z.of_nat 0)); [lia|].
  cbn [orb].
  assert (Grid.starts (Z.of_nat n) (Z.of_nat R)
          = Z.of_nat <$> Pure.boxRowStarts R C) as ->.
  { rewrite Hdims. apply (starts_sim R C HR). }
  assert (Grid.starts (Z.of_nat n) (Z.of_nat C)
          = Z.of_nat <$> Pure.boxColStarts R C) as ->.
  { replace n with (C * R) by lia. apply (starts_sim C R HC). }
  unfold Pure.boxRowStarts at 1.
  rewrite allM_fmap.
  rewrite (allM_sim _ (λ br, forallb (λ bc,
             Pure.scanBox m (Pure.boxCells R C br bc) (Pure.fresh n))
             (Pure.boxColStarts R C)) ((λ k, k * R) <$> seq 0 C)); last first.
  { intros br (k & -> & [_ Hk]%elem_of_seq)%list_elem_of_fmap.
    rewrite allM_fmap. apply allM_sim. unfold Pure.boxColStarts.
    intros bc (l & -> & [_ Hl]%elem_of_seq)%list_elem_of_fmap.
    rewrite (boxCells_nat g) by done.
    apply scanBox_sim; try done; try apply length_fresh.
    intros p Hp. apply (boxCells_inside n R C Hdims HR HC k l p); [lia.. | done]. }
  rewrite bind_Ok. fold (Pure.boxRowStarts R C).
  fold (Pure.boxesOk n R C m). by destruct (Pure.boxesOk n R C m).
Qed.

(** *** Counting, formatting, parsing *)

Lemma countFrom_sim h w m ps cnt :
  Grid.holds h w m → shape n m → (∀ p, p ∈ ps → p.1 < n ∧ p.2 < n) →
  Grid.countFrom h w (pairZ <$> ps) cnt
  = Ok (foldl (λ cnt p, if (get m p.1 p.2 =? 0)%Z then cnt else (cnt + 1)%Z)
              cnt ps).
Proof.
  intros Hh Hs. revert cnt. induction ps as [|[r c] ps IH]; intros cnt Hps; [done|].
  rewrite fmap_cons. cbn [Grid.countFrom foldl Grid.pairZ fst snd].
  destruct (Hps (r, c) ltac:(left)) as [Hr Hc]. cbn [fst snd] in Hr, Hc.
  rewrite (cell_sim h w m r c), bind_Ok by done.
  apply IH. intros p Hp. apply Hps. by right.
Qed.

Lemma countClues_sim g w h m :
  hasDims g → Grid.holds h w m → shape n m →
  Grid.countClues g w h = Ok (Pure.countClues n m).
Proof.
  intros (Hsz & _ & _) Hh Hs. unfold Grid.countClues, Pure.countClues.
  rewrite Hsz, cellsOfZ_nat. apply countFrom_sim; [done..|].
  by intros [r c] ?%elem_of_cellsOf.
Qed.

Lemma formatFrom_sim h g m ps :
  Grid.holds h g m → shape n m → (∀ p, p ∈ ps → p.1 < n ∧ p.2 < n) →
  Grid.formatFrom h g (pairZ <$> ps)
  = Ok ((λ p, Pure.cellChar (get m p.1 p.2)) <$> ps).
Proof.
  intros Hh Hs. induction ps as [|[r c] ps IH]; intros Hps; [done|].
  rewrite !fmap_cons. cbn [Grid.formatFrom Grid.pairZ fst snd].
  destruct (Hps (r, c) ltac:(left)) as [Hr Hc]. cbn [fst snd] in Hr, Hc.
  rewrite (cell_sim h g m r c), bind_Ok by done.
  rewrite IH, bind_Ok; [done|]. intros p Hp. apply Hps. by right.
Qed.

Lemma String_sim g h m :
  hasDims g → Grid.holds h g m → shape n m →
  Grid.String g h = Ok (Pure.formatCells n m).
Proof.
  intros (Hsz & _ & _) Hh Hs. unfold Grid.String, Pure.formatCells.
  rewrite Hsz, cellsOfZ_nat, (formatFrom_sim h g m), bind_Ok; [done..|].
  by intros [r c] ?%elem_of_cellsOf.
Qed.

Lemma parseCells_sim pre post g chars i m :
  Grid.Cells g = seq (length pre) n → shape n m →
  i + length chars ≤ n * n →
  match Pure.parseCells n chars i m with
  | inl m' =>
      Grid.parseCells g (Z.of_nat n) chars (Z.of_nat i) (pre ++ m ++ post)
      = Ok (None, pre ++ m' ++ post)
  | inr msg =>
      ∃ h', Grid.parseCells g (Z.of_nat n) chars (Z.of_nat i) (pre ++ m ++ post)
            = Ok (Some msg, h')
  end.
Proof.
  intros Hg. revert i m. induction chars as [|ch chars IH]; intros i m Hs Hi;
    cbn [Pure.parseCells Grid.parseCells]; [done|].
  cbn [length] in Hi.
  assert (0 < n) as Hpos by nia.
  destruct (Z.eqb_spec (Z.of_nat n) 0); [lia|].
  assert (i / n < n) as Hr by (apply Nat.Div0.div_lt_upper_bound; lia).
  assert (i mod n < n) as Hc by (apply Nat.mod_upper_bound; lia).
  rewrite Z.quot_div_nonneg, Z.rem_mod_nonneg by lia.
  rewrite <- Nat2Z.inj_div, <- Nat2Z.inj_mod.
  replace (Z.of_nat i + 1)%Z with (Z.of_nat (i + 1)) by lia.
  destruct (_ && _).
  - destruct (_ <? _)%Z; [by eexists|].
    rewrite setCell_mid, bind_Ok by done.
    apply IH; [by apply shape_set | lia].
  - destruct (_ || _); [|by eexists].
    rewrite setCell_mid, bind_Ok by done.
    apply IH; [by apply shape_set | lia].
Qed.

Lemma zeros_shape : shape n (replicate n (replicate n 0%Z)).
Proof.
  split; [by rewrite length_replicate|].
  apply Forall_replicate. by rewrite length_replicate.
Qed.

Lemma NewGrid_nat h :
  n ≤ 25 →
  Grid.NewGrid (Z.of_nat n) (Z.of_nat R) (Z.of_nat C) h
  = (Grid.mkGrid (Z.of_nat n) (Z.of_nat R) (Z.of_nat C) (seq (length h) n),
     None, h ++ replicate n (replicate n 0%Z)).
Proof.
  intros Hmax.
  by apply (NewGrid_sim (Grid.mkGrid (Z.of_nat n) (Z.of_nat R) (Z.of_nat C) [])).
Qed.

Lemma FromStringN_sim s h :
  n ≤ 25 →
  let chars := String.list_ascii_of_string s in
  let g0 := Grid.mkGrid (Z.of_nat n) (Z.of_nat R) (Z.of_nat C)
              (seq (length h) n) in
  if decide (String.length s = n * n) then
    match Pure.parseCells n chars 0 (replicate n (replicate n 0%Z)) with
    | inr msg =>
        ∃ h', Grid.FromStringN s (Z.of_nat n) (Z.of_nat R) (Z.of_nat C) h
              = Ok (Grid.none, Some msg, h')
    | inl m' =>
        Grid.FromStringN s (Z.of_nat n) (Z.of_nat R) (Z.of_nat C) h
        = match Pure.Validate n R C m' with
          | Some msg => Ok (Grid.none, Some msg, h ++ m')
          | None => Ok (g0, None, h ++ m')
          end
    end
  else ∃ msg, Grid.FromStringN s (Z.of_nat n) (Z.of_nat R) (Z.of_nat C) h
              = Ok (Grid.none, Some msg, h).
Proof.
  intros Hmax chars g0. unfold Grid.FromStringN.
  rewrite !wrap_small by nia.
  destruct (Z.eqb_spec (Z.of_nat n) (Z.of_nat R * Z.of_nat C)); [|nia].
  cbn [negb].
  destruct (decide (String.length s = n * n)) as [Hlen|Hlen].
  2: { destruct (Z.eqb_spec (Z.of_nat (String.length s)) (Z.of_nat n * Z.of_nat n));
         [nia|]. by eexists. }
  destruct (Z.eqb_spec (Z.of_nat (String.length s)) (Z.of_nat n * Z.of_nat n));
    [|nia]. cbn [negb].
  assert (hasDims g0) as Hg0 by done.
  rewrite NewGrid_nat by done. cbv beta iota. fold g0. fold chars.
  pose proof (parseCells_sim h [] g0 chars 0 (replicate n (replicate n 0%Z))
                eq_refl zeros_shape) as Hp.
  rewrite app_nil_r in Hp. change (Z.of_nat 0) with 0%Z in Hp.
  specialize (Hp ltac:(subst chars; rewrite length_list_ascii; lia)).
  pose proof (parseCells_spec n R C Hdims HR HC chars 0 (replicate n (replicate n 0%Z))
                ltac:(nia) zeros_shape
                ltac:(subst chars; rewrite length_list_ascii; lia)) as Hspec.
  destruct (Pure.parseCells n chars 0 _) as [m'|msg].
  - destruct Hspec as (_ & Hs' & _). rewrite Hp, bind_Ok, app_nil_r.
    pose proof Hs' as [Hl _].
    rewrite (Validate_sim g0 (h ++ m') m'), bind_Ok;
      [| done | | done].
    + by destruct (Pure.Validate n R C m').
    + pose proof (holds_mid h m' [] g0 eq_refl Hl) as Hh. by rewrite app_nil_r in Hh.
  - destruct Hp as [h' Hp]. rewrite Hp, bind_Ok. by eexists.
Qed.

Lemma HintGrid_full g h m rs :
  hasDims g → n ≤ 25 → Grid.holds h g m → shape n m →
  Spec.full n m → Spec.valid n R C m →
  Grid.HintGrid g h rs = Ok (0, 0, 0, false, h ++ m, rs)%Z.
Proof.
  intros Hg Hmax Hh Hs Hfull Hv. unfold Grid.HintGrid.
  rewrite (Validate_sim g h m), bind_Ok by done.
  apply (Validate_spec n R C Hdims HR HC) in Hv. rewrite Hv.
  rewrite (Solve_sim g h m) by done.
  unfold Pure.budget. rewrite Nat.add_1_r. cbn [Pure.backtrack].
  rewrite (findEmpty_full n m Hfull). cbn [negb]. rewrite bind_Ok.
  destruct Hg as (Hsz & _ & _). rewrite Hsz, cellsOfZ_nat.
  rewrite (findFirst_sim (h ++ m) g m), bind_Ok.
  - pose proof (findEmpty_full n m Hfull) as Hf. unfold Pure.findEmpty in Hf.
    by destruct (List.find _ _) as [[r c]|].
  - by apply holds_app.
  - done.
  - by intros [r c] ?%elem_of_cellsOf.
Qed.

(** *** Seeding, carving and the attempt loop *)

Lemma fillFrom_sim pre post g vals ps idx0 m :
  Grid.Cells g = seq (length pre) n → shape n m →
  (∀ p, p ∈ ps → p.1 < n ∧ p.2 < n) → idx0 + length ps ≤ length vals →
  Grid.fillFrom g vals (pairZ <$> ps) (Z.of_nat idx0) (pre ++ m ++ post)
  = Ok (pre ++ (foldl (λ '(m, idx) '(r, c),
                   (set m r c (Z.of_nat (nth idx vals 0%nat) + 1)%Z, idx + 1))
                 (m, idx0) ps).1 ++ post).
Proof.
  intros Hg. revert idx0 m. induction ps as [|[r c] ps IH]; intros idx0 m Hs Hps Hlen;
    [done|].
  rewrite fmap_cons. cbn [Grid.fillFrom foldl Grid.pairZ fst snd length] in *.
  destruct (Hps (r, c) ltac:(left)) as [Hr Hc]. cbn [fst snd] in Hr, Hc.
  destruct (lookup_lt_is_Some_2 vals idx0) as [x Hx]; [lia|].
  rewrite (index_nat _ _ _ Hx), bind_Ok, setCell_mid, bind_Ok by done.
  rewrite (nth_lookup_Some _ _ _ _ Hx).
  replace (Z.of_nat idx0 + 1)%Z with (Z.of_nat (idx0 + 1)) by lia.
  apply IH; [by apply shape_set | | lia]. intros p Hp. apply Hps. by right.
Qed.

Lemma fillBox_sim pre post g br bc m rs :
  hasDims g → Grid.Cells g = seq (length pre) n → shape n m →
  br + R ≤ n → bc + C ≤ n →
  Grid.fillBox g (Z.of_nat br) (Z.of_nat bc) (pre ++ m ++ post) rs
  = Ok (pre ++ (Pure.fillBox n R C m br bc rs).1 ++ post,
        (Pure.fillBox n R C m br bc rs).2).
Proof.
  intros Hg Hc Hs Hbr Hbc. pose proof Hg as (Hsz & _ & _).
  unfold Grid.fillBox, Pure.fillBox. rewrite Hsz, Nat2Z.id.
  destruct (Z.ltb_spec (Z.of_nat n) 0); [lia|].
  pose proof (Perm_Permutation n rs) as Hperm.
  destruct (Perm n rs) as [vals rs']. cbn [fst snd] in *.
  rewrite (boxCells_nat g) by done. change 0%Z with (Z.of_nat 0).
  rewrite fillFrom_sim, bind_Ok; [done.. | |].
  - intros [r c] Hp. apply (elem_of_boxCells n R C Hdims HR HC) in Hp.
    cbn [fst snd]. lia.
  - rewrite (length_boxCells n R C Hdims HR HC), Hperm, length_seq. lia.
Qed.

Lemma fillBoxes_sim pre post g ks m rs :
  hasDims g → Grid.Cells g = seq (length pre) n → shape n m →
  (∀ i, i ∈ ks → i < R ∧ i < C) →
  Grid.fillBoxes g (Z.of_nat <$> ks) (pre ++ m ++ post) rs
  = Ok (pre ++ (Pure.fillBoxes n R C m ks rs).1 ++ post,
        (Pure.fillBoxes n R C m ks rs).2).
Proof.
  intros Hg Hc. pose proof Hg as (_ & HbR & HbC).
  revert m rs. induction ks as [|i ks IH]; intros m rs Hs Hks; [done|].
  rewrite fmap_cons. cbn [Grid.fillBoxes Pure.fillBoxes].
  destruct (Hks i ltac:(left)) as [HiR HiC].
  rewrite HbR, HbC, <- !Nat2Z.inj_mul.
  rewrite fillBox_sim, bind_Ok by (done || nia).
  pose proof (fillBox_spec n R C Hdims HR HC m (i * R) (i * C) rs Hs
                ltac:(nia) ltac:(nia)) as (Hs' & _).
  destruct (Pure.fillBox n R C m (i * R) (i * C) rs) as [m1 rs1].
  cbn [fst snd] in *. apply IH; [done|]. intros j Hj. apply Hks. by right.
Qed.

Lemma fillDiagonalBoxes_sim pre post g m rs :
  hasDims g → Grid.Cells g = seq (length pre) n → shape n m →
  Grid.fillDiagonalBoxes g (pre ++ m ++ post) rs
  = Ok (pre ++ (Pure.fillDiagonalBoxes n R C m rs).1 ++ post,
        (Pure.fillDiagonalBoxes n R C m rs).2).
Proof.
  intros Hg Hc Hs. pose proof Hg as (Hsz & HbR & HbC).
  unfold Grid.fillDiagonalBoxes, Pure.fillDiagonalBoxes.
  rewrite Hsz, HbR, HbC.
  destruct (Z.eqb_spec (Z.of_nat R) 0); [lia|].
  destruct (Z.eqb_spec (Z.of_nat C) 0); [lia|].
  rewrite !Z.quot_div_nonneg by lia. rewrite <- !Nat2Z.inj_div.
  assert (n / R = C) as -> by (rewrite Hdims, Nat.mul_comm; apply Nat.div_mul; lia).
  assert (n / C = R) as -> by (rewrite Hdims; apply Nat.div_mul; lia).
  replace (if (Z.of_nat R <? Z.of_nat C)%Z then Z.of_nat R else Z.of_nat C)
    with (Z.of_nat (if R <? C then R else C)).
  2: { destruct (Nat.ltb_spec R C), (Z.ltb_spec (Z.of_nat R) (Z.of_nat C)); lia. }
  change 0%Z with (Z.of_nat 0). rewrite seqZ_nat.
  apply fillBoxes_sim; [done.. |].
  intros i [_ Hi]%elem_of_seq. destruct (Nat.ltb_spec R C); lia.
Qed.

Lemma fill_shape (f : nat → Z) ps m idx0 :
  shape n m →
  shape n (foldl (λ '(m, idx) '(r, c), (set m r c (f idx), idx + 1))
                 (m, idx0) ps).1.
Proof.
  revert m idx0. induction ps as [|[r c] ps IH]; intros m idx0 Hs; [done|].
  cbn [foldl]. apply IH. by apply shape_set.
Qed.

Lemma fillBox_shape m br bc rs :
  shape n m → shape n (Pure.fillBox n R C m br bc rs).1.
Proof.
  intros Hs. unfold Pure.fillBox. destruct (Perm n rs) as [vals rs'].
  cbn [fst]. by apply (fill_shape (λ idx, (Z.of_nat (nth idx vals 0%nat) + 1)%Z)).
Qed.

Lemma fillBoxes_shape ks m rs :
  shape n m → shape n (Pure.fillBoxes n R C m ks rs).1.
Proof.
  revert m rs. induction ks as [|i ks IH]; intros m rs Hs; [done|].
  cbn [Pure.fillBoxes].
  pose proof (fillBox_shape m (i * R) (i * C) rs Hs) as Hs'.
  destruct (Pure.fillBox n R C m (i * R) (i * C) rs) as [m1 rs1]. by apply IH.
Qed.

Lemma fillDiagonalBoxes_shape m rs :
  shape n m → shape n (Pure.fillDiagonalBoxes n R C m rs).1.
Proof. intros Hs. by apply fillBoxes_shape. Qed.

Lemma carve_shape target rmOrder p p' :
  shape n p → Pure.carve n R C target rmOrder p = Some p' → shape n p'.
Proof.
  revert p. induction rmOrder as [|idx rest IH]; intros p Hs; cbn [Pure.carve].
  { by intros [= <-]. }
  destruct (_ <=? _)%Z; [by intros [= <-]|].
  destruct (_ =? _)%Z; [by apply IH|].
  destruct (Pure.hasUniqueSolution _ _ _ _ _) as [[|]|]; [| |done].
  - apply IH. by apply shape_set.
  - apply IH. by do 2 apply shape_set.
Qed.

Lemma cluesFor_sim g d : hasDims g → Grid.cluesFor g d = Pure.cluesFor n d.
Proof.
  intros (Hsz & _ & _). unfold Grid.cluesFor, Pure.cluesFor. rewrite Hsz.
  replace (Z.of_nat n =? 9)%Z with (n =? 9).
  2: { destruct (Nat.eqb_spec n 9), (Z.eqb_spec (Z.of_nat n) 9); lia. }
  by rewrite Nat2Z.inj_mul.
Qed.

Lemma carve_sim g puzzle pre target rmOrder :
  hasDims g → hasDims puzzle → n ≤ 25 →
  Grid.Cells puzzle = seq (length pre) n →
  (∀ idx, idx ∈ rmOrder → idx < n * n) →
  ∀ post p, shape n p →
    match Pure.carve n R C target rmOrder p with
    | None =>
        Grid.carve g puzzle target rmOrder (pre ++ p ++ post) = Grid.OutOfFuel
    | Some p' =>
        ∃ post', Grid.carve g puzzle target rmOrder (pre ++ p ++ post)
                 = Ok (pre ++ p' ++ post')
    end.
Proof.
  intros Hg Hpz Hmax Hc. pose proof Hg as (Hsz & _ & _).
  induction rmOrder as [|idx rest IH]; intros Hin post p Hs;
    cbn [Pure.carve Grid.carve]; [by eexists|].
  pose proof Hs as [Hlen _].
  assert (∀ x, x ∈ rest → x < n * n) as Hin' by (intros x Hx; apply Hin; by right).
  assert (idx < n * n) as Hidx by (apply Hin; left).
  rewrite (countClues_sim g puzzle _ p), bind_Ok by (done || by apply holds_mid).
  destruct (_ <=? _)%Z; [by eexists|].
  rewrite Hsz. destruct (Z.eqb_spec (Z.of_nat n) 0); [lia|].
  rewrite Z.quot_div_nonneg, Z.rem_mod_nonneg by lia.
  rewrite <- Nat2Z.inj_div, <- Nat2Z.inj_mod.
  assert (idx / n < n) as Hr by (apply Nat.Div0.div_lt_upper_bound; lia).
  assert (idx mod n < n) as Hcc by (apply Nat.mod_upper_bound; lia).
  rewrite (cell_sim _ puzzle p), bind_Ok by (done || by apply holds_mid).
  destruct (_ =? _)%Z; [by apply IH|].
  rewrite setCell_mid, bind_Ok by done.
  set (cleared := set p (idx / n) (idx mod n) 0%Z).
  assert (shape n cleared) as Hsc by by apply shape_set.
  rewrite (hasUniqueSolution_sim g puzzle _ cleared 2);
    [| done.. | apply holds_mid; [done | by destruct Hsc] | done].
  unfold Pure.hasUniqueSolution.
  destruct (Pure.dfs n R C (Pure.budget n) 2 cleared 0) as [[[ok m'] count]|]; [|done].
  rewrite bind_Ok, <- !app_assoc.
  destruct (count =? 1)%Z.
  - by apply IH.
  - rewrite setCell_mid, bind_Ok by done. apply IH; [done|]. by apply shape_set.
Qed.

Lemma attemptsLoop_sim g h m0 failed d :
  hasDims g → n ≤ 25 → Grid.holds h g m0 → shape n m0 →
  ∀ tries lastErr junk rs,
    match Pure.attemptsLoop n R C tries m0 failed
            "failed to build solved grid" d lastErr rs with
    | None => Grid.attemptsLoop tries g d lastErr (h ++ junk) rs = Grid.OutOfFuel
    | Some (p, None, rs') =>
        ∃ pre post,
          Grid.attemptsLoop tries g d lastErr (h ++ junk) rs
          = Ok (Grid.mkGrid (Grid.Size g) (Grid.BoxRows g) (Grid.BoxCols g)
                  (seq (length (h ++ pre)) n), None, (h ++ pre) ++ p ++ post, rs')
    | Some (_, Some e, rs') =>
        ∃ h', Grid.attemptsLoop tries g d lastErr (h ++ junk) rs
              = Ok (Grid.none, Some e, h ++ h', rs')
    end.
Proof.
  intros Hg Hmax Hh Hs. pose proof Hg as (Hsz & HbR & HbC).
  induction tries as [|tries IH]; intros lastErr junk rs;
    cbn [Pure.attemptsLoop Grid.attemptsLoop].
  { destruct lastErr; by eexists. }
  rewrite (Clone_sim g (h ++ junk) m0), bind_Ok by (done || by apply holds_app).
  set (solved := Grid.mkGrid _ _ _ _).
  assert (hasDims solved) as Hds by done.
  pose proof (fillDiagonalBoxes_sim (h ++ junk) [] solved m0 rs Hds eq_refl Hs) as Hfill.
  rewrite !app_nil_r in Hfill. rewrite Hfill, bind_Ok.
  pose proof (fillDiagonalBoxes_shape m0 rs Hs) as Hs1.
  destruct (Pure.fillDiagonalBoxes n R C m0 rs) as [m1 rs1]. cbn [fst snd] in *.
  rewrite budget_sim by done.
  pose proof (backtrack_sim (Pure.budget n) (h ++ junk) [] g solved m1 rs1
                Hg eq_refl Hs1) as Hbt.
  rewrite !app_nil_r in Hbt. rewrite Hbt.
  destruct (Pure.backtrack n R C (Pure.budget n) m1 rs1) as [[[ok m2] rs2]|] eqn:Hrun;
    [|done].
  rewrite bind_Ok, !app_nil_r.
  pose proof (backtrack_shape _ _ _ _ _ _ Hs1 Hrun) as Hs2.
  destruct ok; cbn [negb].
  2: { specialize (IH (Some "failed to build solved grid"%string) (junk ++ m2) rs2).
       by rewrite <- app_assoc. }
  rewrite (Clone_sim solved ((h ++ junk) ++ m2) m2), bind_Ok;
    [| done.. | | done].
  2: { pose proof (holds_mid (h ++ junk) m2 [] solved eq_refl (proj1 Hs2)) as H.
       by rewrite app_nil_r in H. }
  set (puzzle := Grid.mkGrid _ _ _ _).
  assert (hasDims puzzle) as Hdp by done.
  replace (Grid.Size g * Grid.Size g <? 0)%Z with false
    by (symmetry; apply Z.ltb_ge; nia).
  replace (Z.to_nat (Grid.Size g * Grid.Size g)) with (n * n) by (rewrite Hsz; lia).
  pose proof (Perm_Permutation (n * n) rs2) as Hperm.
  destruct (Perm (n * n) rs2) as [rmOrder rs3]. cbn [fst] in Hperm.
  rewrite (cluesFor_sim g d Hg).
  pose proof (carve_sim g puzzle ((h ++ junk) ++ m2) (Pure.cluesFor n d) rmOrder
                Hg Hdp Hmax eq_refl) as Hcarve.
  specialize (Hcarve ltac:(intros idx Hidx; rewrite Hperm in Hidx;
                           apply elem_of_seq in Hidx; lia) [] m2 Hs2).
  rewrite app_nil_r in Hcarve.
  pose proof (carve_shape (Pure.cluesFor n d) rmOrder m2) as Hs3.
  destruct (Pure.carve n R C (Pure.cluesFor n d) rmOrder m2) as [p|]; [|by rewrite Hcarve].
  specialize (Hs3 p Hs2 eq_refl).
  destruct Hcarve as [post' Hcarve]. rewrite Hcarve, bind_Ok.
  rewrite (hasUniqueSolution_sim g puzzle _ p 2);
    [| done.. | apply holds_mid; [done | by destruct Hs3] | done].
  unfold Pure.hasUniqueSolution.
  destruct (Pure.dfs n R C (Pure.budget n) 2 p 0) as [[[ok m'] count]|]; [|done].
  rewrite bind_Ok. destruct (count =? 1)%Z.
  - exists (junk ++ m2), (post' ++ m'). subst puzzle. cbn [Grid.Size Grid.BoxRows Grid.BoxCols solved].
    rewrite <- !app_assoc. rewrite !app_assoc. done.
  - specialize (IH (Some "puzzle uniqueness not achieved"%string)
                  (junk ++ m2 ++ p ++ post' ++ m') rs3).
    by rewrite <- !app_assoc.
Qed.

End GridFacts.

(** ** What the store-based search may write *)
Section GridFrame.
Context {RS : RandSource}.
Implicit Types (g w : Grid.Grid) (h : Grid.heap).

Lemma index_Ok {A} (l : list A) i x :
  Grid.index l i = Grid.Ok x → (0 ≤ i)%Z ∧ l !! Z.to_nat i = Some x.
Proof.
  unfold Grid.index. destruct (Z.ltb_spec i 0); [done|].
  destruct (l !! Z.to_nat i) eqn:Hl; [|done]. by intros [= <-].
Qed.

Lemma framed_refl h locs : Grid.framed h h locs.
Proof. by split. Qed.

Lemma framed_trans h1 h2 h3 locs :
  Grid.framed h1 h2 locs → Grid.framed h2 h3 locs → Grid.framed h1 h3 locs.
Proof.
  intros [Hl1 H1] [Hl2 H2]. split; [congruence|].
  intros a Ha. by rewrite H2, H1.
Qed.

Lemma setCell_frame h w r c v h' :
  Grid.setCell h w r c v = Grid.Ok h' → Grid.framed h h' (Grid.Cells w).
Proof.
  unfold Grid.setCell.
  destruct (Grid.index (Grid.Cells w) r) as [a| | |] eqn:Ha; [|done..].
  cbn [mbind Grid.res_bind].
  destruct (Grid.index h (Z.of_nat a)) as [row| | |]; [|done..].
  cbn [mbind Grid.res_bind].
  destruct (Grid.index row c) as [x| | |]; [|done..].
  cbn [mbind Grid.res_bind]. intros [= <-].
  apply index_Ok in Ha as [_ Ha]. apply list_elem_of_lookup_2 in Ha.
  split; [apply length_insert|]. intros b Hb.
  apply list_lookup_insert_ne. by intros ->.
Qed.

Lemma tryEachM_frame {St} g w r c
    (rec : Grid.heap → St → Grid.res (bool * Grid.heap * St)) :
  (∀ h st b h' st', rec h st = Grid.Ok (b, h', st') →
     Grid.framed h h' (Grid.Cells w)) →
  ∀ vs h st b h' st',
    Grid.tryEachM rec g w r c vs h st = Grid.Ok (b, h', st') →
    Grid.framed h h' (Grid.Cells w).
Proof.
  intros Hrec vs. induction vs as [|v vs IH]; intros h st b h' st';
    cbn [Grid.tryEachM].
  { intros [= _ <- _]. apply framed_refl. }
  destruct (Grid.isSafe g w h r c v) as [[|]| | |]; cbn [mbind Grid.res_bind];
    [|by apply IH|done..].
  destruct (Grid.setCell h w r c v) as [h1| | |] eqn:Hset; [|done..].
  cbn [mbind Grid.res_bind].
  destruct (rec h1 st) as [[[[|] h2] st2]| | |] eqn:Hcall; [| |done..];
    cbn [mbind Grid.res_bind].
  - intros [= _ <- _].
    eapply framed_trans; [by eapply setCell_frame | by eapply Hrec].
  - destruct (Grid.setCell h2 w r c 0) as [h3| | |] eqn:Hset'; [|done..].
    cbn [mbind Grid.res_bind]. intros Hrun.
    eapply framed_trans; [by eapply setCell_frame|].
    eapply framed_trans; [by eapply Hrec|].
    eapply framed_trans; [by eapply setCell_frame | by eapply IH].
Qed.

Lemma backtrack_frame fuel g w h rs b h' rs' :
  Grid.backtrack fuel g w h rs = Grid.Ok (b, h', rs') →
  Grid.framed h h' (Grid.Cells w).
Proof.
  revert h rs b h' rs'. induction fuel as [|fuel IH]; intros h rs b h' rs'; [done|].
  cbn [Grid.backtrack].
  destruct (Grid.findEmpty g w h) as [[[r c] [|]]| | |]; cbn [mbind Grid.res_bind negb];
    [| |done..].
  - destruct (Grid.oneTo (Grid.Size g)) as [vals| | |]; [|done..].
    cbn [mbind Grid.res_bind]. destruct (Shuffle vals rs) as [vals' rs1].
    apply tryEachM_frame. apply IH.
  - intros [= _ <- _]. apply framed_refl.
Qed.

Lemma cloneRows_frame out g rows h h' :
  Grid.cloneRows out g rows h = Grid.Ok h' → Grid.framed h h' (Grid.Cells out).
Proof.
  revert h. induction rows as [|r rows IH]; intros h; cbn [Grid.cloneRows].
  { intros [= <-]. apply framed_refl. }
  destruct (Grid.index (Grid.Cells out) r) as [d| | |] eqn:Hd; [|done..].
  cbn [mbind Grid.res_bind].
  destruct (Grid.index h (Z.of_nat d)) as [dst| | |]; [|done..].
  cbn [mbind Grid.res_bind].
  destruct (Grid.index (Grid.Cells g) r) as [s| | |]; [|done..].
  cbn [mbind Grid.res_bind].
  destruct (Grid.index h (Z.of_nat s)) as [src| | |]; [|done..].
  cbn [mbind Grid.res_bind]. intros Hrun.
  eapply framed_trans; [|by eapply IH].
  apply index_Ok in Hd as [_ Hd]. apply list_elem_of_lookup_2 in Hd.
  split; [apply length_insert|]. intros b Hb.
  apply list_lookup_insert_ne. by intros ->.
Qed.

Lemma NewGrid_fresh size boxRows boxCols h out e h1 :
  Grid.NewGrid size boxRows boxCols h = (out, e, h1) →
  (∀ a, a ∈ Grid.Cells out → length h ≤ a)
  ∧ ∃ rows, h1 = h ++ rows.
Proof.
  unfold Grid.NewGrid. destruct (_ || _).
  { intros [= <- _ <-]. split; [by intros a ?%elem_of_nil|]. exists []. by rewrite app_nil_r. }
  destruct (_ <? _)%Z.
  { intros [= <- _ <-]. split; [by intros a ?%elem_of_nil|]. exists []. by rewrite app_nil_r. }
  intros [= <- _ <-]. split; [|by eexists].
  intros a [Ha _]%elem_of_seq. done.
Qed.

(** [Clone] leaves every row that existed before as it was, and the rows
    of the copy are new. *)
Lemma Clone_frame g h out h' :
  Grid.Clone g h = Grid.Ok (out, h') →
  (∀ a, a ∈ Grid.Cells out → length h ≤ a)
  ∧ (∀ a, a < length h → h' !! a = h !! a).
Proof.
  unfold Grid.Clone.
  destruct (Grid.NewGrid _ _ _ h) as [[out0 e] h1] eqn:Hnew.
  apply NewGrid_fresh in Hnew as [Hfresh [rows ->]].
  destruct (Grid.cloneRows out0 g _ _) as [h2| | |] eqn:Hrows; [|done..].
  cbn [mbind Grid.res_bind]. intros [= <- <-]. split; [done|].
  apply cloneRows_frame in Hrows as [_ Hrows]. intros a Ha.
  rewrite Hrows.
  - by rewrite lookup_app_l.
  - intros Hin%Hfresh. lia.
Qed.

Lemma Solve_frame g h rs g' ok h' rs' :
  Grid.Solve g h rs = Grid.Ok (g', ok, h', rs') →
  ∀ a, a < length h → h' !! a = h !! a.
Proof.
  unfold Grid.Solve.
  destruct (Grid.Clone g h) as [[work h1]| | |] eqn:Hclone; [|done..].
  cbn [mbind Grid.res_bind].
  destruct (Grid.backtrack _ g work h1 rs) as [[[b h2] rs2]| | |] eqn:Hbt; [|done..].
  cbn [mbind Grid.res_bind]. intros Hres a Ha.
  apply Clone_frame in Hclone as [Hfresh Hkeep].
  apply backtrack_frame in Hbt as [_ Hbt].
  assert (h' = h2) as -> by (destruct b; by injection Hres).
  rewrite Hbt; [by apply Hkeep|]. intros Hin%Hfresh. lia.
Qed.

Lemma cell_stable h h' g r c v :
  (∀ a, a < length h → h' !! a = h !! a) →
  Grid.cell h g r c = Grid.Ok v → Grid.cell h' g r c = Grid.Ok v.
Proof.
  intros Hkeep. unfold Grid.cell.
  destruct (Grid.index (Grid.Cells g) r) as [a| | |]; [|done..].
  cbn [mbind Grid.res_bind].
  destruct (Grid.index h (Z.of_nat a)) as [row| | |] eqn:Hrow; [|done..].
  cbn [mbind Grid.res_bind]. intros Hc.
  apply index_Ok in Hrow as [_ Hrow]. rewrite Nat2Z.id in Hrow.
  rewrite (index_nat h' a row); [done|].
  rewrite Hkeep; [done|]. by eapply lookup_lt_Some.
Qed.

End GridFrame.

(** ** Results on well-formed grids *)
Section GridResults.
Context {RS : RandSource}.
Variables (n R C : nat).
Hypothesis Hdims : n = R * C.
Hypothesis HR : 0 < R.
Hypothesis HC : 0 < C.
Hypothesis Hmax : n ≤ 25.
Implicit Types (g w : Grid.Grid) (h : Grid.heap) (m : list (list Z)).

Local Abbreviation hasDims := (Grid.hasDims n R C).
Local Abbreviation valid := (Spec.valid n R C).
Local Abbreviation completion := (Spec.completion n R C).
Local Abbreviation sols := (Spec.solutions n R C (Pure.budget n)).
Local Abbreviation fresh g h :=
  (Grid.mkGrid (Grid.Size g) (Grid.BoxRows g) (Grid.BoxCols g)
     (seq (length h) n)).

Lemma holds_fresh h m g : length m = n → Grid.holds (h ++ m) (fresh g h) m.
Proof.
  intros Hl. pose proof (holds_mid n R C Hdims HR HC h m [] (fresh g h) eq_refl Hl) as H.
  by rewrite app_nil_r in H.
Qed.

Lemma Grid_Validate_valid g h m :
  hasDims g → Grid.holds h g m → shape n m →
  Grid.Validate g h = Grid.Ok None ↔ valid m.
Proof.
  intros Hg Hh Hs. rewrite (Validate_sim n R C Hdims HR HC g h m) by done.
  rewrite <- (Validate_spec n R C Hdims HR HC). split; [by intros [= ->] | by intros ->].
Qed.

(** [Solve] on a well-formed grid: it returns, the copy it worked on sits
    behind the old store, and the outcome is that of the enumeration. *)
Lemma Grid_Solve_spec g h m rs :
  hasDims g → Grid.holds h g m → shape n m →
  ∃ (ok : bool) m' rs',
    Grid.Solve g h rs
    = Grid.Ok (if ok then fresh g h else Grid.none, ok, h ++ m', rs')
    ∧ shape n m'
    ∧ if ok then m' ∈ sols m else sols m = [].
Proof.
  intros Hg Hh Hs. rewrite (Solve_sim n R C Hdims HR HC g h m) by done.
  destruct (backtrack_spec n R C Hdims HR HC (Pure.budget n) m rs Hs
              (countEmpty_bound n R C Hdims HR HC _))
    as (ok & m' & rs' & Hrun & Hres).
  rewrite Hrun. exists ok, m', rs'.
  pose proof (backtrack_shape n R C _ _ _ _ _ _ Hs Hrun).
  destruct ok; [done|]. by destruct Hres.
Qed.

Lemma Grid_hasUnique_spec g w h m :
  hasDims g → hasDims w → Grid.holds h w m → shape n m →
  ∃ junk, Grid.hasUniqueSolution g w 2 h
          = Grid.Ok (bool_decide (length (sols m) = 1), h ++ junk).
Proof.
  intros Hg Hw Hh Hs.
  rewrite (hasUniqueSolution_sim n R C Hdims HR HC g w h m) by done.
  pose proof (hasUniqueSolution_spec n R C Hdims HR HC m 2 Hs ltac:(lia)) as Hu.
  unfold Pure.hasUniqueSolution in Hu.
  destruct (Pure.dfs n R C (Pure.budget n) 2 m 0) as [[[ok m'] count]|]; [|done].
  injection Hu as ->. by eexists.
Qed.

Lemma Grid_generate_spec g h m0 d attempts rs :
  hasDims g → Grid.holds h g m0 → shape n m0 → Spec.blank n m0 →
  ∃ p e h' rs',
    Grid.Generate g d attempts h rs = Grid.Ok (p, e, h', rs')
    ∧ match e with
      | None => ∃ mp, hasDims p ∧ Grid.holds h' p mp ∧ shape n mp ∧ valid mp
                      ∧ length (sols mp) = 1
      | Some _ => p = Grid.none
      end.
Proof.
  intros Hg Hh Hs Hblank. unfold Grid.Generate.
  pose proof (attemptsLoop_sim n R C Hdims HR HC g h m0 [] d Hg Hmax Hh Hs
                (Pure.tries attempts) None [] rs) as Hsim.
  rewrite app_nil_r in Hsim.
  destruct (attemptsLoop_spec n R C Hdims HR HC (Pure.tries attempts) m0 []
              "failed to build solved grid" d None rs Hs Hblank)
    as (p & e & rs' & Hrun & Hres).
  rewrite Hrun in Hsim. destruct e as [msg|].
  - destruct Hsim as [h' ->]. by eexists _, _, _, _.
  - destruct Hsim as (pre & post & ->). destruct Hres as (Hsp & Hvp & Hu).
    eexists _, _, _, _. split; [done|]. exists p.
    split; [by destruct Hg|]. split.
    { apply (holds_mid n R C Hdims HR HC); [done | by destruct Hsp]. }
    split; [done|]. split; [done|].
    rewrite (hasUniqueSolution_spec n R C Hdims HR HC) in Hu by (done || lia).
    injection Hu as Hu. by apply bool_decide_eq_true in Hu.
Qed.

Lemma Grid_roundtrip g h m :
  hasDims g → Grid.holds h g m → shape n m → n ≤ 9 →
  Grid.Validate g h = Grid.Ok None →
  Grid.String g h = Grid.Ok (Pure.formatCells n m)
  ∧ Grid.FromStringN (Pure.formatCells n m)
      (Grid.Size g) (Grid.BoxRows g) (Grid.BoxCols g) h
    = Grid.Ok (fresh g h, None, h ++ m).
Proof.
  intros Hg Hh Hs H9 Hv. split; [by apply (String_sim n R C Hdims HR HC)|].
  apply (Grid_Validate_valid g h m Hg Hh Hs) in Hv.
  pose proof (proj2 (Validate_spec n R C Hdims HR HC m) Hv) as Hpv.
  destruct Hv as [Hrg _].
  destruct (decoded_format n R C Hdims HR HC m H9 Hs Hrg) as [Hall Hdec].
  pose proof Hg as (Hsz & HbR & HbC). rewrite Hsz, HbR, HbC.
  pose proof (FromStringN_sim n R C Hdims HR HC (Pure.formatCells n m) h Hmax) as Hsim.
  cbv zeta in Hsim.
  rewrite decide_True in Hsim by apply (formatCells_length n).
  pose proof (parseCells_decoded n R C Hdims HR HC
                (String.list_ascii_of_string (Pure.formatCells n m))
                (replicate n (replicate n 0%Z)) ltac:(nia)
                (zeros_shape n)) as Hp.
  rewrite length_list_ascii, (formatCells_length n) in Hp. specialize (Hp eq_refl).
  destruct (Pure.parseCells n _ 0 _) as [m'|msg]; [|done].
  destruct Hp as [_ ->]. rewrite Hdec in Hsim. by rewrite Hsim, Hpv.
Qed.

Lemma Grid_solve_sound g h m rs g' h' rs' :
  hasDims g → Grid.holds h g m → shape n m → valid m →
  Grid.Solve g h rs = Grid.Ok (g', true, h', rs') →
  ∃ m', g' = fresh g h ∧ h' = h ++ m' ∧ completion m m'.
Proof.
  intros Hg Hh Hs Hv Hrun.
  destruct (Grid_Solve_spec g h m rs Hg Hh Hs) as (ok & m' & rs0 & Heq & Hs' & Hres).
  rewrite Heq in Hrun. destruct ok; [|done].
  injection Hrun as <- <- <-. exists m'. split; [done|]. split; [done|].
  by apply (solutions_sound n R C Hdims HR HC (Pure.budget n)).
Qed.

Lemma Grid_solve_full g h m rs :
  hasDims g → Grid.holds h g m → shape n m → Spec.full n m →
  Grid.Solve g h rs = Grid.Ok (fresh g h, true, h ++ m, rs).
Proof.
  intros Hg Hh Hs Hfull. rewrite (Solve_sim n R C Hdims HR HC g h m) by done.
  unfold Pure.budget. rewrite Nat.add_1_r. cbn [Pure.backtrack].
  by rewrite (findEmpty_full n m Hfull).
Qed.

Lemma Grid_solve_order_free {RS' : RandSource} g h m
    (rs1 : @rstate RS) (rs2 : @rstate RS') :
  hasDims g → Grid.holds h g m → shape n m →
  ∃ (ok : bool) m1 m2 rs1' rs2',
    Grid.Solve g h rs1
    = Grid.Ok (if ok then fresh g h else Grid.none, ok, h ++ m1, rs1')
    ∧ Grid.Solve g h rs2
      = Grid.Ok (if ok then fresh g h else Grid.none, ok, h ++ m2, rs2')
    ∧ if ok then m1 ∈ sols m ∧ m2 ∈ sols m else sols m = [].
Proof.
  intros Hg Hh Hs.
  destruct (Grid_Solve_spec g h m rs1 Hg Hh Hs) as (ok1 & m1 & rs1' & H1 & _ & R1).
  rewrite (Solve_sim (RS := RS') n R C Hdims HR HC g h m) by done.
  destruct (backtrack_spec (RS := RS') n R C Hdims HR HC (Pure.budget n) m rs2 Hs
              (countEmpty_bound n R C Hdims HR HC _))
    as (ok2 & m2 & rs2' & H2 & R2).
  rewrite H2.
  destruct ok1, ok2.
  - exists true, m1, m2, rs1', rs2'. by rewrite H1.
  - destruct R2 as [_ R2]. rewrite R2 in R1. by apply elem_of_nil in R1.
  - rewrite R1 in R2. by apply elem_of_nil in R2.
  - exists false, m1, m2, rs1', rs2'. by rewrite H1.
Qed.

Lemma Grid_unique_iff g w h m :
  hasDims g → hasDims w → Grid.holds h w m → shape n m → valid m →
  ∃ (u : bool) junk,
    Grid.hasUniqueSolution g w 2 h = Grid.Ok (u, h ++ junk)
    ∧ (u = true ↔ ∃ s, completion m s ∧ ∀ s', completion m s' → s' = s).
Proof.
  intros Hg Hw Hh Hs Hv.
  destruct (Grid_hasUnique_spec g w h m Hg Hw Hh Hs) as [junk Hrun].
  eexists _, junk. split; [exact Hrun|].
  rewrite bool_decide_eq_true.
  by apply (solutions_unique n R C Hdims HR HC).
Qed.

Lemma Grid_parse_spec s h :
  let chars := String.list_ascii_of_string s in
  let g0 := Grid.mkGrid (Z.of_nat n) (Z.of_nat R) (Z.of_nat C)
              (seq (length h) n) in
  let cond := String.length s = n * n
              ∧ Forall (Spec.legal n) chars
              ∧ Grid.Validate g0 (h ++ Spec.decoded n chars) = Grid.Ok None in
  (cond → Grid.FromStringN s (Z.of_nat n) (Z.of_nat R) (Z.of_nat C) h
          = Grid.Ok (g0, None, h ++ Spec.decoded n chars))
  ∧ (¬ cond → ∃ msg h',
       Grid.FromStringN s (Z.of_nat n) (Z.of_nat R) (Z.of_nat C) h
       = Grid.Ok (Grid.none, Some msg, h')).
Proof.
  intros chars g0 cond.
  pose proof (FromStringN_sim n R C Hdims HR HC s h Hmax) as Hsim.
  cbv zeta in Hsim. fold chars in Hsim. fold g0 in Hsim.
  assert (Hval : ∀ m', shape n m' →
            Grid.Validate g0 (h ++ m') = Grid.Ok (Pure.Validate n R C m')).
  { intros m' Hs'. apply (Validate_sim n R C Hdims HR HC); try done.
    apply (holds_fresh h m' g0). by destruct Hs'. }
  destruct (decide (String.length s = n * n)) as [Hlen|Hlen].
  - pose proof (parseCells_decoded n R C Hdims HR HC chars
                  (replicate n (replicate n 0%Z)) ltac:(nia) (zeros_shape n)) as Hp.
    unfold chars in Hp at 1. rewrite length_list_ascii in Hp. specialize (Hp Hlen).
    destruct (Pure.parseCells n chars 0 _) as [m'|msg].
    + destruct Hp as [Hall ->].
      assert (Hsd : shape n (Spec.decoded n chars)).
      { apply (shape_decoded n). }
      split.
      * intros (_ & _ & Hv). rewrite Hval in Hv by done.
        injection Hv as Hv. by rewrite Hsim, Hv.
      * intros Hn. destruct (Pure.Validate n R C (Spec.decoded n chars)) as [msg|] eqn:Hv.
        -- by eexists _, _.
        -- destruct Hn. split; [done|]. split; [done|]. by rewrite Hval, Hv.
    + split.
      * by intros (_ & Hall & _).
      * intros _. destruct Hsim as [h' ->]. by eexists _, _.
  - split.
    + by intros (? & _).
    + intros _. destruct Hsim as [msg ->]. by eexists _, _.
Qed.

End GridResults.

(** * The properties of the specification *)

(** ** Helpers for grids given by [Grid.wf] *)

Lemma dimsOk_nat g :
  Grid.dimsOk g →
  Grid.dim g = Grid.boxR g * Grid.boxC g
  ∧ 0 < Grid.boxR g ∧ 0 < Grid.boxC g ∧ Grid.dim g ≤ 25
  ∧ Grid.hasDims (Grid.dim g) (Grid.boxR g) (Grid.boxC g) g.
Proof.
  unfold Grid.dimsOk, Grid.dim, Grid.boxR, Grid.boxC, Grid.hasDims,
    Grid.MaxGridSize.
  intros (Hs & HR & HC & Heq).
  split; [rewrite Heq; apply Z2Nat.inj_mul; lia|].
  repeat split; lia.
Qed.

Lemma dimsOk_at_end size boxRows boxCols h h' :
  Grid.dimsOk (Grid.at_end size boxRows boxCols h) →
  Grid.dimsOk (Grid.at_end size boxRows boxCols h').
Proof. done. Qed.

(** The copy [Solve] and [FromStringN] hand back is well-formed. *)
Lemma wf_at_end g h m' :
  Grid.dimsOk g → shape (Grid.dim g) m' →
  Grid.wf (h ++ m')
    (Grid.at_end (Grid.Size g) (Grid.BoxRows g) (Grid.BoxCols g) h) m'.
Proof.
  intros Hd Hs. destruct (dimsOk_nat g Hd) as (Hdims & HR & HC & _ & _).
  split; [done|]. split; [|done].
  apply (holds_fresh _ _ _ Hdims HR HC h m' g). by destruct Hs.
Qed.

(** The caller's grid still reads the same cells after an allocation. *)
Lemma wf_app h g m junk : Grid.wf h g m → Grid.wf (h ++ junk) g m.
Proof.
  intros (Hd & Hh & Hs). split; [done|]. split; [|done].
  by apply holds_app.
Qed.

Lemma full_check n m :
  forallb (λ p, negb (get m p.1 p.2 =? 0)%Z) (cellsOf n) = true →
  Spec.full n m.
Proof.
  intros Hall r c Hr Hc.
  assert (Hin : (r, c) ∈ cellsOf n) by by apply elem_of_cellsOf.
  apply list_elem_of_In in Hin.
  pose proof (proj1 (forallb_forall _ _) Hall _ Hin) as Hrc. simpl in Hrc.
  apply negb_true_iff, Z.eqb_neq in Hrc. done.
Qed.

Lemma blank_check n m :
  forallb (λ p, (get m p.1 p.2 =? 0)%Z) (cellsOf n) = true →
  Spec.blank n m.
Proof.
  intros Hall r c Hr Hc.
  assert (Hin : (r, c) ∈ cellsOf n) by by apply elem_of_cellsOf.
  apply list_elem_of_In in Hin.
  pose proof (proj1 (forallb_forall _ _) Hall _ Hin) as Hrc. simpl in Hrc.
  by apply Z.eqb_eq in Hrc.
Qed.

Lemma legal_check n chars :
  forallb (λ ch, if Spec.decodeChar n ch is Some _ then true else false) chars = true →
  Forall (Spec.legal n) chars.
Proof.
  induction chars as [|ch chars IH]; [by constructor|].
  cbn [forallb]. intros [Hch Hrest]%andb_true_iff. constructor; [|by apply IH].
  unfold Spec.legal. by destruct (Spec.decodeChar n ch).
Qed.

(** No completion of a board can keep two equal clues in one row. *)
Lemma clash_no_completion n R C m c c' :
  0 < n → c < n → c' < n → c ≠ c' →
  get m 0 c ≠ 0%Z → get m 0 c = get m 0 c' →
  ¬ ∃ s, Spec.completion n R C m s.
Proof.
  intros Hn Hc Hc' Hne Hnz Heq (s & _ & (_ & Hclash) & _ & Hext).
  pose proof (Hext 0 c Hn Hc Hnz) as E1.
  assert (Hnz' : get m 0 c' ≠ 0%Z) by by rewrite <- Heq.
  pose proof (Hext 0 c' Hn Hc' Hnz') as E2.
  apply (Hclash 0 c 0 c' Hn Hc Hn Hc').
  - intros [= ?]. done.
  - by left.
  - by rewrite E1.
  - by rewrite E1, E2.
Qed.

Ltac closed_wf :=
  repeat split; try (by vm_compute); repeat constructor.

(** ** Solver *)

(** C1, literally, fails: a full board that breaks the rules is handed
    back with [ok = true], and the validator rejects it. *)
Lemma Solve_sound_invalid_input :
  Board.Solve (RS := lcgSource) Examples.ones Examples.rs0
  = Some (Examples.ones, true, Examples.rs0)
  ∧ Board.Validate Examples.ones = ErrInvalidBoard
  ∧ Grid.Solve (RS := lcgSource) Examples.g4 Examples.ones4 Examples.rs0
    = Grid.Ok (Grid.at_end 4 2 2 Examples.ones4, true,
               Examples.ones4 ++ Examples.ones4, Examples.rs0)
  ∧ Grid.Validate (Grid.at_end 4 2 2 Examples.ones4)
      (Examples.ones4 ++ Examples.ones4)
    = Grid.Ok ErrInvalidBoard.
Proof. vm_compute. done. Qed.

(** C1 (solver soundness), for a grid that passes the validator: if
    [Solve] returns [g'] with [ok = true], then [g'] passes the validator,
    every non-zero cell of the input holds the same value in [g'], and no
    cell of [g'] is zero.  Stated for the 9x9 board of sudoku.go and for the
    general grid of grid.go, whose result lives in the store [h']. *)
Theorem Solve_sound {RS : RandSource}
    (b b' : Board.Board) (rs rs' : rstate)
    (g g' : Grid.Grid) (h h' : Grid.heap) (m : list (list Z))
    (gs gs' : rstate) :
  Board.wf b → Board.Validate b = None →
  Board.Solve b rs = Some (b', true, rs') →
  Grid.wf h g m → Grid.Validate g h = Grid.Ok None →
  Grid.Solve g h gs = Grid.Ok (g', true, h', gs') →
  (Board.Validate b' = None ∧ Spec.extends 9 b b' ∧ Spec.full 9 b')
  ∧ ∃ m', Grid.wf h' g' m' ∧ Grid.Validate g' h' = Grid.Ok None
          ∧ Spec.extends (Grid.dim g) m m' ∧ Spec.full (Grid.dim g) m'.
Proof.
  intros Hwf Hv Hrun (Hd & Hh & Hs) Hgv Hgrun. split.
  - by destruct (Board_solve_sound b rs b' rs' Hwf Hv Hrun) as (_ & ? & ? & ?).
  - destruct (dimsOk_nat g Hd) as (Hdims & HR & HC & Hmax & Hg).
    apply (Grid_Validate_valid _ _ _ Hdims HR HC g h m Hg Hh Hs) in Hgv.
    destruct (Grid_solve_sound _ _ _ Hdims HR HC Hmax g h m gs g' h' gs'
                Hg Hh Hs Hgv Hgrun) as (m' & -> & -> & Hs' & Hv' & Hf & He).
    exists m'. split; [by apply wf_at_end|]. split; [|done].
    refine (proj2 (Grid_Validate_valid _ _ _ Hdims HR HC _ (h ++ m') m'
                     _ _ Hs') Hv'); [done|].
    apply (holds_fresh _ _ _ Hdims HR HC h m' g). by destruct Hs'.
Qed.

Lemma Solve_sound_witness :
  (Board.Validate Examples.solved = None
   ∧ Spec.extends 9 Examples.parsed Examples.solved
   ∧ Spec.full 9 Examples.solved)
  ∧ ∃ m', Grid.wf (Examples.open4 ++ Examples.solved4)
            (Grid.at_end 4 2 2 Examples.open4) m'
          ∧ Grid.Validate (Grid.at_end 4 2 2 Examples.open4)
              (Examples.open4 ++ Examples.solved4) = Grid.Ok None
          ∧ Spec.extends 4 Examples.open4 m' ∧ Spec.full 4 m'.
Proof.
  apply (Solve_sound (RS := lcgSource)
           Examples.parsed Examples.solved
           Examples.rs0 1424573080165299674%Z
           Examples.g4 (Grid.at_end 4 2 2 Examples.open4)
           Examples.open4 (Examples.open4 ++ Examples.solved4) Examples.open4
           Examples.rs0 6356963020929956066%Z).
  - closed_wf.
  - vm_compute. reflexivity.
  - vm_compute. reflexivity.
  - closed_wf.
  - vm_compute. reflexivity.
  - vm_compute. reflexivity.
Defined.

(** ** Generator and uniqueness counter *)




(** C3, literally, fails: on a full board that breaks the rules the
    counter stops at one and answers true, yet the board has no legal
    completion at all. *)
Lemma hasUniqueSolution_invalid_input :
  Board.hasUniqueSolution Examples.ones 2 = Some true
  ∧ (¬ ∃ s, Spec.completion 9 3 3 Examples.ones s)
  ∧ Grid.hasUniqueSolution Examples.g4 Examples.g4 2 Examples.ones4
    = Grid.Ok (true, Examples.ones4 ++ Examples.ones4)
  ∧ ¬ ∃ s, Spec.completion 4 2 2 Examples.ones4 s.
Proof.
  split; [by vm_compute|]. split.
  { apply (clash_no_completion 9 3 3 Examples.ones 0 1); (lia || by vm_compute). }
  split; [by vm_compute|].
  apply (clash_no_completion 4 2 2 Examples.ones4 0 1); (lia || by vm_compute).
Qed.

(** C3 (uniqueness counter), for a grid that passes the validator:
    [hasUniqueSolution g 2] returns true exactly when [g] has one and only
    one complete legal assignment.  The search with limit 2 ends with the
    count [min 2 k], where [k] is the number of full assignments the search
    reaches, which are the completions of [g], each once; it stops early
    exactly when [k >= 2]; and the answer is the test that this count
    is 1.  The solver, whose candidate loop calls the same [isSafe], agrees
    with the counter: it succeeds exactly when there is a completion. *)
Theorem hasUniqueSolution_iff {RS : RandSource}
    (b : Board.Board) (rs : rstate)
    (g : Grid.Grid) (h : Grid.heap) (m : list (list Z)) (gs : rstate) :
  Board.wf b → Board.Validate b = None →
  Grid.wf h g m → Grid.Validate g h = Grid.Ok None →
  (let sols := Spec.solutions 9 3 3 Board.budget b in
   (Board.hasUniqueSolution b 2 = Some true ↔ Spec.unique 9 3 3 b)
   ∧ (∃ stop b', Board.dfs Board.budget 2 b 0
                 = Some (stop, b', Z.min 2 (Z.of_nat (length sols)))
                 ∧ stop = bool_decide (2 ≤ length sols))
   ∧ Board.hasUniqueSolution b 2 = Some (bool_decide (length sols = 1))
   ∧ NoDup sols ∧ (∀ s, s ∈ sols ↔ Spec.completion 9 3 3 b s)
   ∧ ∃ (ok : bool) b' rs',
       Board.Solve b rs = Some (b', ok, rs')
       ∧ (ok = true ↔ ∃ s, Spec.completion 9 3 3 b s))
  ∧ (∃ (u : bool) junk,
       Grid.hasUniqueSolution g g 2 h = Grid.Ok (u, h ++ junk)
       ∧ (u = true ↔ Spec.unique (Grid.dim g) (Grid.boxR g) (Grid.boxC g) m))
  ∧ ∃ (ok : bool) g' m' gs',
      Grid.Solve g h gs = Grid.Ok (g', ok, h ++ m', gs')
      ∧ (ok = true
         ↔ ∃ s, Spec.completion (Grid.dim g) (Grid.boxR g) (Grid.boxC g) m s).
Proof.
  intros Hwf Hv (Hd & Hh & Hs) Hgv. split.
  - cbv zeta. split; [exact (Board_unique_iff b Hwf Hv)|].
    split; [by apply Board_dfs_count|].
    split; [by apply Board_unique_spec|].
    split; [by apply (NoDup_solutions 9 3 3 dims9 pos3 pos3)|].
    apply Board_valid in Hv.
    assert (Hsols : ∀ s, s ∈ Spec.solutions 9 3 3 Board.budget b
                         ↔ Spec.completion 9 3 3 b s).
    { intros s. split.
      - by apply (solutions_sound 9 3 3 dims9 pos3 pos3).
      - apply (solutions_complete 9 3 3 dims9 pos3 pos3); [done|].
        apply (countEmpty_bound 9 3 3 dims9 pos3 pos3). }
    split; [exact Hsols|].
    destruct (Board_Solve_spec b rs Hwf) as (ok & b' & rs' & Hrun & Hres).
    exists ok, b', rs'. split; [done|]. destruct ok.
    + split; [|done]. intros _. exists b'. by apply Hsols.
    + destruct Hres as [_ Hnil]. split; [done|]. intros [s Hc].
      apply Hsols in Hc. change Board.budget with 82 in Hc.
      rewrite Hnil in Hc. by apply elem_of_nil in Hc.
  - destruct (dimsOk_nat g Hd) as (Hdims & HR & HC & Hmax & Hg).
    apply (Grid_Validate_valid _ _ _ Hdims HR HC g h m Hg Hh Hs) in Hgv.
    split.
    { exact (Grid_unique_iff _ _ _ Hdims HR HC Hmax g g h m Hg Hg Hh Hs Hgv). }
    destruct (Grid_Solve_spec _ _ _ Hdims HR HC Hmax g h m gs Hg Hh Hs)
      as (ok & m' & gs' & Hrun & _ & Hres).
    eexists ok, _, m', gs'. split; [exact Hrun|]. destruct ok.
    + split; [|done]. intros _. exists m'.
      by apply (solutions_sound _ _ _ Hdims HR HC (Pure.budget (Grid.dim g))).
    + split; [done|]. intros [s Hc].
      apply (solutions_complete _ _ _ Hdims HR HC (Pure.budget (Grid.dim g)))
        in Hc; [|done|apply (countEmpty_bound _ _ _ Hdims HR HC)].
      rewrite Hres in Hc. by apply elem_of_nil in Hc.
Qed.

Lemma hasUniqueSolution_iff_witness :
  Spec.unique 9 3 3 Examples.parsed
  ∧ ∃ (u : bool) junk,
      Grid.hasUniqueSolution Examples.g4 Examples.g4 2 Examples.open4
      = Grid.Ok (u, Examples.open4 ++ junk)
      ∧ (u = true ↔ Spec.unique 4 2 2 Examples.open4).
Proof.
  destruct (hasUniqueSolution_iff (RS := lcgSource)
              Examples.parsed Examples.rs0
              Examples.g4 Examples.open4 Examples.open4 Examples.rs0)
    as [(Hiff & _) [HG _]].
  - closed_wf.
  - vm_compute. reflexivity.
  - closed_wf.
  - vm_compute. reflexivity.
  - split; [|exact HG]. apply Hiff. vm_compute. reflexivity.
Defined.

(** ** Codec *)

(** C4 (round-trip codec): for a grid of size at most 9 that passes the
    validator, parsing the string it formats to, with the grid's own
    dimensions, succeeds and gives a grid with the same dimensions and the
    same cells.  (The parsed grid of grid.go is a new allocation: its rows
    follow the old store, which is unchanged.) *)
Theorem String_roundtrip
    (b : Board.Board) (g : Grid.Grid) (h : Grid.heap) (m : list (list Z)) :
  Board.wf b → Board.Validate b = None →
  Grid.wf h g m → (Grid.Size g ≤ 9)%Z → Grid.Validate g h = Grid.Ok None →
  Board.FromString (Board.String b) = (b, None)
  ∧ ∃ s g',
      Grid.String g h = Grid.Ok s
      ∧ Grid.FromStringN s (Grid.Size g) (Grid.BoxRows g) (Grid.BoxCols g) h
        = Grid.Ok (g', None, h ++ m)
      ∧ Grid.Size g' = Grid.Size g ∧ Grid.BoxRows g' = Grid.BoxRows g
      ∧ Grid.BoxCols g' = Grid.BoxCols g
      ∧ Grid.wf (h ++ m) g' m.
Proof.
  intros Hwf Hv (Hd & Hh & Hs) H9 Hgv. split; [by apply Board_roundtrip|].
  destruct (dimsOk_nat g Hd) as (Hdims & HR & HC & Hmax & Hg).
  assert (Hn9 : Grid.dim g ≤ 9) by (unfold Grid.dim; lia).
  destruct (Grid_roundtrip _ _ _ Hdims HR HC Hmax g h m Hg Hh Hs Hn9 Hgv)
    as [Hfmt Hparse].
  eexists _, _. split; [exact Hfmt|]. split; [exact Hparse|].
  repeat (split; [done|]). by apply wf_at_end.
Qed.

Lemma String_roundtrip_witness :
  Board.FromString (Board.String Examples.parsed) = (Examples.parsed, None)
  ∧ ∃ s g',
      Grid.String Examples.g4 Examples.open4 = Grid.Ok s
      ∧ Grid.FromStringN s 4 2 2 Examples.open4
        = Grid.Ok (g', None, Examples.open4 ++ Examples.open4)
      ∧ Grid.Size g' = 4%Z ∧ Grid.BoxRows g' = 2%Z ∧ Grid.BoxCols g' = 2%Z
      ∧ Grid.wf (Examples.open4 ++ Examples.open4) g' Examples.open4.
Proof.
  apply (String_roundtrip Examples.parsed Examples.g4 Examples.open4
           Examples.open4).
  - closed_wf.
  - vm_compute. reflexivity.
  - closed_wf.
  - by vm_compute.
  - vm_compute. reflexivity.
Defined.

(** C7, literally, fails for grid.go: [FromStringN] first refuses
    dimensions with [size != boxRows*boxCols], though the string has
    [size * size] legal characters and the decoded grid passes the
    validator. *)
Lemma FromStringN_dims_guard :
  String.length "0000" = 2 * 2
  ∧ Forall (Spec.legal 2) (String.list_ascii_of_string "0000")
  ∧ Grid.Validate (Grid.at_end 2 2 2 [])
      ([] ++ Spec.decoded 2 (String.list_ascii_of_string "0000"))
    = Grid.Ok None
  ∧ Grid.FromStringN "0000" 2 2 2 []
    = Grid.Ok (Grid.none, Some "invalid dims", []).
Proof.
  split; [reflexivity|]. split; [|by vm_compute].
  apply legal_check. vm_compute. reflexivity.
Qed.

(** C7 (parsing).  The 9x9 parser, and the general parser for dimensions
    as the [Grid] type documents them (positive, [size = boxRows * boxCols]
    exactly, [size <= 25]): parsing succeeds if and only if the string has
    exactly [size * size] characters, each of them '0', '.' or a digit
    '1'..'9' of value at most [size], and the decoded row-major grid passes
    the validator; it then returns that grid.  Otherwise it fails with an
    error and returns the zero value in place of a grid.  And whatever the
    string and the dimensions, [FromStringN] fails with "invalid dims" when
    [size] differs from the product [boxRows*boxCols] as the code computes
    it, in [int] arithmetic. *)
Theorem FromString_iff
    (s : string) (size boxRows boxCols : Z) (h : Grid.heap) :
  let chars := String.list_ascii_of_string s in
  let n := Z.to_nat size in
  let g0 := Grid.at_end size boxRows boxCols h in
  let okB := String.length s = 81 ∧ Forall (Spec.legal 9) chars
             ∧ Board.Validate (Spec.decoded 9 chars) = None in
  let okG := String.length s = n * n ∧ Forall (Spec.legal n) chars
             ∧ Grid.Validate g0 (h ++ Spec.decoded n chars) = Grid.Ok None in
  ((okB → Board.FromString s = (Spec.decoded 9 chars, None))
   ∧ (¬ okB → ∃ msg, Board.FromString s = (Board.zero, Some msg)))
  ∧ (Grid.dimsOk g0 →
     (okG → Grid.FromStringN s size boxRows boxCols h
            = Grid.Ok (g0, None, h ++ Spec.decoded n chars))
     ∧ (¬ okG → ∃ msg h', Grid.FromStringN s size boxRows boxCols h
                          = Grid.Ok (Grid.none, Some msg, h')))
  ∧ (size ≠ Grid.wrap (boxRows * boxCols) →
     Grid.FromStringN s size boxRows boxCols h
     = Grid.Ok (Grid.none, Some "invalid dims"%string, h)).
Proof.
  intros chars n g0 okB okG. split; [apply Board_FromString_spec|]. split.
  - intros Hd. destruct (dimsOk_nat _ Hd) as (Hdims & HR & HC & Hmax & _).
    pose proof (Grid_parse_spec _ _ _ Hdims HR HC Hmax s h) as Hspec.
    destruct Hd as (Hs & HbR & HbC & _).
    unfold Grid.dim, Grid.boxR, Grid.boxC, Grid.at_end in *.
    cbn [Grid.Size Grid.BoxRows Grid.BoxCols] in *.
    rewrite !Z2Nat.id in Hspec by lia. exact Hspec.
  - intros Hne. unfold Grid.FromStringN.
    by destruct (Z.eqb_spec size (Grid.wrap (boxRows * boxCols))).
Qed.

Lemma FromString_iff_witness :
  Board.FromString Examples.puzzle = (Examples.parsed, None)
  ∧ Grid.FromStringN "0034340000434300" 4 2 2 []
    = Grid.Ok (Grid.at_end 4 2 2 [], None, Examples.open4)
  ∧ Grid.FromStringN "0034340000434300" 4 2 4 []
    = Grid.Ok (Grid.none, Some "invalid dims"%string, []).
Proof.
  destruct (FromString_iff Examples.puzzle 9 3 3 []) as [[HB _] _].
  destruct (FromString_iff "0034340000434300" 4 2 2 []) as (_ & HG & _).
  destruct (FromString_iff "0034340000434300" 4 2 4 []) as (_ & _ & HD).
  split; [|split].
  - apply HB. split; [reflexivity|]. split; [|by vm_compute].
    apply legal_check. vm_compute. reflexivity.
  - apply HG; [closed_wf|]. split; [reflexivity|]. split; [|by vm_compute].
    apply legal_check. vm_compute. reflexivity.
  - apply HD. by vm_compute.
Defined.

(** ** Random source, frame and full grids *)

(** C5 (the outcome of [Solve] does not depend on the random source): two
    runs of [Solve] on the same grid, from any two sources in any two
    states, both return, with the same [ok] flag: it is true exactly when
    the search space of the grid is not empty, and then each run returns
    one of the full assignments in it; only which one may differ. *)
Theorem Solve_ok_order_free {RS1 RS2 : RandSource}
    (b : Board.Board) (r1 : @rstate RS1) (r2 : @rstate RS2)
    (g : Grid.Grid) (h : Grid.heap) (m : list (list Z))
    (s1 : @rstate RS1) (s2 : @rstate RS2) :
  Board.wf b → Grid.wf h g m →
  (∃ (ok : bool) b1 b2 r1' r2',
     Board.Solve b r1 = Some (b1, ok, r1')
     ∧ Board.Solve b r2 = Some (b2, ok, r2')
     ∧ if ok then b1 ∈ Spec.solutions 9 3 3 Board.budget b
                  ∧ b2 ∈ Spec.solutions 9 3 3 Board.budget b
       else Spec.solutions 9 3 3 Board.budget b = [])
  ∧ (∃ (ok : bool) g1 g2 m1 m2 s1' s2',
       Grid.Solve g h s1 = Grid.Ok (g1, ok, h ++ m1, s1')
       ∧ Grid.Solve g h s2 = Grid.Ok (g2, ok, h ++ m2, s2')
       ∧ let sols := Spec.solutions (Grid.dim g) (Grid.boxR g) (Grid.boxC g)
                       (Pure.budget (Grid.dim g)) m in
         if ok then m1 ∈ sols ∧ m2 ∈ sols else sols = []).
Proof.
  intros Hwf (Hd & Hh & Hs). split.
  - destruct (Board_Solve_spec (RS := RS1) b r1 Hwf)
      as (ok1 & b1 & r1' & Hrun1 & Hres1).
    destruct (Board_Solve_spec (RS := RS2) b r2 Hwf)
      as (ok2 & b2 & r2' & Hrun2 & Hres2).
    change Board.budget with 82.
    exists ok1, b1, b2, r1', r2'. split; [done|]. rewrite Hrun2.
    destruct ok1, ok2.
    + done.
    + destruct Hres2 as [_ Hnil]. rewrite Hnil in Hres1.
      by apply elem_of_nil in Hres1.
    + destruct Hres1 as [_ Hnil]. rewrite Hnil in Hres2.
      by apply elem_of_nil in Hres2.
    + by destruct Hres1.
  - destruct (dimsOk_nat g Hd) as (Hdims & HR & HC & Hmax & Hg).
    destruct (Grid_solve_order_free (RS := RS1) (RS' := RS2) _ _ _
                Hdims HR HC Hmax g h m s1 s2 Hg Hh Hs)
      as (ok & m1 & m2 & s1' & s2' & H1 & H2 & Hres).
    by eexists ok, _, _, m1, m2, s1', s2'.
Qed.

Lemma Solve_ok_order_free_witness :
  (∃ (ok : bool) b1 b2 r1' r2',
     Board.Solve (RS := lcgSource) Examples.parsed Examples.rs0
     = Some (b1, ok, r1')
     ∧ Board.Solve (RS := lcgSource) Examples.parsed Examples.rs1
       = Some (b2, ok, r2')
     ∧ if ok then b1 ∈ Spec.solutions 9 3 3 Board.budget Examples.parsed
                  ∧ b2 ∈ Spec.solutions 9 3 3 Board.budget Examples.parsed
       else Spec.solutions 9 3 3 Board.budget Examples.parsed = [])
  ∧ (∃ (ok : bool) g1 g2 m1 m2 s1' s2',
       Grid.Solve (RS := lcgSource) Examples.g4 Examples.open4 Examples.rs0
       = Grid.Ok (g1, ok, Examples.open4 ++ m1, s1')
       ∧ Grid.Solve (RS := lcgSource) Examples.g4 Examples.open4 Examples.rs1
         = Grid.Ok (g2, ok, Examples.open4 ++ m2, s2')
       ∧ let sols := Spec.solutions 4 2 2 (Pure.budget 4) Examples.open4 in
         if ok then m1 ∈ sols ∧ m2 ∈ sols else sols = []).
Proof.
  apply (Solve_ok_order_free (RS1 := lcgSource) (RS2 := lcgSource)
           Examples.parsed Examples.rs0 Examples.rs1
           Examples.g4 Examples.open4 Examples.open4
           Examples.rs0 Examples.rs1).
  - closed_wf.
  - closed_wf.
Defined.

(** C6 (determinism under a fixed seed): [SetRandSeed K] replaces the
    global source whatever its state was ([r1] and [r2], for instance the
    state at start-up and the state an earlier [Generate] left behind), so
    two calls of [Generate Medium N], each made right after [SetRandSeed K]
    from otherwise equal states, return, and return the same outcome: the
    same error or the same puzzle (and leave the source in the same
    state). *)
Theorem Generate_seeded {RS : RandSource}
    (K N : Z) (r1 r2 : rstate)
    (g : Grid.Grid) (h : Grid.heap) (m0 : list (list Z)) :
  Grid.wf h g m0 → Spec.blank (Grid.dim g) m0 →
  SetRandSeed K r1 = SetRandSeed K r2
  ∧ (∃ p e r',
     Board.Generate Medium N (SetRandSeed K r1) = Some (p, e, r')
     ∧ Board.Generate Medium N (SetRandSeed K r2) = Some (p, e, r'))
  ∧ (∃ p e h' r',
       Grid.Generate g Medium N h (SetRandSeed K r1) = Grid.Ok (p, e, h', r')
       ∧ Grid.Generate g Medium N h (SetRandSeed K r2)
         = Grid.Ok (p, e, h', r')).
Proof.
  intros (Hd & Hh & Hs) Hblank. split; [reflexivity|]. split.
  - destruct (Board_generate_spec Medium N (SetRandSeed K r1))
      as (p & e & r' & Hrun & _).
    by exists p, e, r'.
  - destruct (dimsOk_nat g Hd) as (Hdims & HR & HC & Hmax & Hg).
    destruct (Grid_generate_spec _ _ _ Hdims HR HC Hmax g h m0 Medium N
                (SetRandSeed K r1) Hg Hh Hs Hblank)
      as (p & e & h' & r' & Hrun & _).
    by exists p, e, h', r'.
Qed.

Lemma Generate_seeded_witness :
  SetRandSeed (RS := lcgSource) 7 Examples.rs0 = SetRandSeed 7 Examples.rs1
  ∧ (∃ p e r',
     Board.Generate (RS := lcgSource) Medium 1
       (SetRandSeed 7 Examples.rs0) = Some (p, e, r')
     ∧ Board.Generate (RS := lcgSource) Medium 1
         (SetRandSeed 7 Examples.rs1) = Some (p, e, r'))
  ∧ (∃ p e h' r',
       Grid.Generate (RS := lcgSource) Examples.g4 Medium 1 Examples.zeros4
         (SetRandSeed 7 Examples.rs0) = Grid.Ok (p, e, h', r')
       ∧ Grid.Generate (RS := lcgSource) Examples.g4 Medium 1 Examples.zeros4
           (SetRandSeed 7 Examples.rs1) = Grid.Ok (p, e, h', r')).
Proof.
  apply (Generate_seeded (RS := lcgSource) 7 1 Examples.rs0 Examples.rs1
           Examples.g4 Examples.zeros4 Examples.zeros4).
  - closed_wf.
  - apply blank_check. vm_compute. reflexivity.
Defined.

(** C8 (frame): [Solve] leaves the caller's grid as it was, whether it
    succeeds or not.  In grid.go a grid shares its rows with every copy of
    the struct, so this is a statement on the store: [Solve] returns, every
    address of the old store holds the same row afterwards (the search
    writes to newly allocated rows only), and so every cell of [g] reads
    the same value.  In sudoku.go a board is an array, passed and copied by
    value, so that the embedding has no store the call could change. *)
Theorem Solve_keeps_caller_grid {RS : RandSource}
    (g : Grid.Grid) (h : Grid.heap) (m : list (list Z)) (rs : rstate) :
  Grid.wf h g m →
  ∃ g' (ok : bool) h' rs',
    Grid.Solve g h rs = Grid.Ok (g', ok, h', rs')
    ∧ (∀ a, a < length h → h' !! a = h !! a)
    ∧ (∀ r c v, Grid.cell h g r c = Grid.Ok v → Grid.cell h' g r c = Grid.Ok v)
    ∧ Grid.wf h' g m.
Proof.
  intros (Hd & Hh & Hs).
  destruct (dimsOk_nat g Hd) as (Hdims & HR & HC & Hmax & Hg).
  destruct (Grid_Solve_spec _ _ _ Hdims HR HC Hmax g h m rs Hg Hh Hs)
    as (ok & m' & rs' & Hrun & _ & _).
  eexists _, ok, _, rs'. split; [exact Hrun|].
  pose proof (Solve_frame _ _ _ _ _ _ _ Hrun) as Hframe.
  split; [exact Hframe|]. split.
  - intros r c v. by apply cell_stable.
  - by apply wf_app.
Qed.

Lemma Solve_keeps_caller_grid_witness :
  ∃ g' (ok : bool) h' rs',
    Grid.Solve (RS := lcgSource) Examples.g4 Examples.open4 Examples.rs0
    = Grid.Ok (g', ok, h', rs')
    ∧ (∀ a, a < length Examples.open4 → h' !! a = Examples.open4 !! a)
    ∧ (∀ r c v, Grid.cell Examples.open4 Examples.g4 r c = Grid.Ok v →
                Grid.cell h' Examples.g4 r c = Grid.Ok v)
    ∧ Grid.wf h' Examples.g4 Examples.open4.
Proof.
  apply (Solve_keeps_caller_grid (RS := lcgSource) Examples.g4 Examples.open4
           Examples.open4 Examples.rs0).
  closed_wf.
Defined.

(** C9 (full grids are returned unchecked): on a grid without zero cell
    [Solve] returns that grid with [ok = true]; no candidate is tried, the
    random source is not touched, and nothing is validated: the statement
    asks nothing of the rows, columns and boxes, and the full board of ones
    is such an input. *)
Theorem Solve_full {RS : RandSource}
    (b : Board.Board) (rs : rstate)
    (g : Grid.Grid) (h : Grid.heap) (m : list (list Z)) (gs : rstate) :
  Board.wf b → Spec.full 9 b → Grid.wf h g m → Spec.full (Grid.dim g) m →
  Board.Solve b rs = Some (b, true, rs)
  ∧ ∃ g', Grid.Solve g h gs = Grid.Ok (g', true, h ++ m, gs)
          ∧ Grid.wf (h ++ m) g' m
          ∧ Grid.Size g' = Grid.Size g ∧ Grid.BoxRows g' = Grid.BoxRows g
          ∧ Grid.BoxCols g' = Grid.BoxCols g.
Proof.
  intros Hwf Hfull (Hd & Hh & Hs) Hgfull.
  split; [by apply Board_solve_full|].
  destruct (dimsOk_nat g Hd) as (Hdims & HR & HC & Hmax & Hg).
  eexists. split.
  - exact (Grid_solve_full _ _ _ Hdims HR HC Hmax g h m gs Hg Hh Hs Hgfull).
  - split; [by apply wf_at_end | done].
Qed.

Lemma Solve_full_witness :
  Board.Validate Examples.ones = ErrInvalidBoard
  ∧ Grid.Validate Examples.g4 Examples.ones4 = Grid.Ok ErrInvalidBoard
  ∧ Board.Solve (RS := lcgSource) Examples.ones Examples.rs0
    = Some (Examples.ones, true, Examples.rs0)
  ∧ ∃ g', Grid.Solve (RS := lcgSource) Examples.g4 Examples.ones4 Examples.rs0
          = Grid.Ok (g', true, Examples.ones4 ++ Examples.ones4, Examples.rs0)
          ∧ Grid.wf (Examples.ones4 ++ Examples.ones4) g' Examples.ones4
          ∧ Grid.Size g' = 4%Z ∧ Grid.BoxRows g' = 2%Z
          ∧ Grid.BoxCols g' = 2%Z.
Proof.
  split; [by vm_compute|]. split; [by vm_compute|].
  apply (Solve_full (RS := lcgSource) Examples.ones Examples.rs0
           Examples.g4 Examples.ones4 Examples.ones4 Examples.rs0).
  - closed_wf.
  - apply full_check. vm_compute. reflexivity.
  - closed_wf.
  - apply full_check. vm_compute. reflexivity.
Defined.

(** C10 (no hint on a full grid): on a grid without zero cell that passes
    the validator, [Hint] and [HintGrid] return [(0, 0, 0, false)], although
    the grid is solvable: [Solve] returns it as its own solution. *)
Theorem Hint_full {RS : RandSource}
    (b : Board.Board) (rs : rstate)
    (g : Grid.Grid) (h : Grid.heap) (m : list (list Z)) (gs : rstate) :
  Board.wf b → Spec.full 9 b → Board.Validate b = None →
  Grid.wf h g m → Spec.full (Grid.dim g) m →
  Grid.Validate g h = Grid.Ok None →
  (Board.Hint b rs = Some (0, 0, 0%Z, false, rs)
   ∧ Board.Solve b rs = Some (b, true, rs))
  ∧ (Grid.HintGrid g h gs = Grid.Ok (0%Z, 0%Z, 0%Z, false, h ++ m, gs)
     ∧ ∃ g', Grid.Solve g h gs = Grid.Ok (g', true, h ++ m, gs)).
Proof.
  intros Hwf Hfull Hv (Hd & Hh & Hs) Hgfull Hgv. split.
  - split; [by apply Board_hint_full | by apply Board_solve_full].
  - destruct (dimsOk_nat g Hd) as (Hdims & HR & HC & Hmax & Hg).
    apply (Grid_Validate_valid _ _ _ Hdims HR HC g h m Hg Hh Hs) in Hgv.
    split.
    + exact (HintGrid_full _ _ _ Hdims HR HC g h m gs Hg Hmax Hh Hs Hgfull Hgv).
    + eexists.
      exact (Grid_solve_full _ _ _ Hdims HR HC Hmax g h m gs Hg Hh Hs Hgfull).
Qed.

Lemma Hint_full_witness :
  (Board.Hint (RS := lcgSource) Examples.solved Examples.rs0
   = Some (0, 0, 0%Z, false, Examples.rs0)
   ∧ Board.Solve (RS := lcgSource) Examples.solved Examples.rs0
     = Some (Examples.solved, true, Examples.rs0))
  ∧ (Grid.HintGrid (RS := lcgSource) Examples.g4 Examples.full4 Examples.rs0
     = Grid.Ok (0%Z, 0%Z, 0%Z, false, Examples.full4 ++ Examples.full4,
                Examples.rs0)
     ∧ ∃ g', Grid.Solve (RS := lcgSource) Examples.g4 Examples.full4
               Examples.rs0
             = Grid.Ok (g', true, Examples.full4 ++ Examples.full4,
                        Examples.rs0)).
Proof.
  apply (Hint_full (RS := lcgSource) Examples.solved Examples.rs0
           Examples.g4 Examples.full4 Examples.full4 Examples.rs0).
  - closed_wf.
  - apply full_check. vm_compute. reflexivity.
  - vm_compute. reflexivity.
  - closed_wf.
  - apply full_check. vm_compute. reflexivity.
  - vm_compute. reflexivity.
Defined.

(** * Further properties of the library *)

(** ** More on the matrix algorithms *)
Section MorePure.
Context {RS : RandSource}.
Variables (n R C : nat).
Hypothesis Hdims : n = R * C.
Hypothesis HR : 0 < R.
Hypothesis HC : 0 < C.
Implicit Types (m s : list (list Z)) (r c : nat) (v : Z).

Local Abbreviation valid := (Spec.valid n R C).
Local Abbreviation isSafe := (Pure.isSafe n R C).

(** [List.find] returns the first hit. *)
Lemma find_first {A} (f : A → bool) (l : list A) x :
  List.find f l = Some x →
  ∃ k, l !! k = Some x ∧ f x = true
       ∧ ∀ j y, j < k → l !! j = Some y → f y = false.
Proof.
  induction l as [|a l IH]; [done|]. cbn [List.find].
  destruct (f a) eqn:Hfa.
  - intros [= ->]. exists 0. split; [done|]. split; [done|]. intros; lia.
  - intros Hx. destruct (IH Hx) as (k & Hk & Hfx & Hbefore).
    exists (S k). split; [done|]. split; [done|].
    intros [|j] y Hj Hy; [by injection Hy as <-|].
    apply (Hbefore j); [lia | done].
Qed.

Lemma findEmpty_first m r c :
  Pure.findEmpty n m = (r, c, true) →
  ∀ r' c', r' < n → c' < n → r' * n + c' < r * n + c → get m r' c' ≠ 0%Z.
Proof.
  intros Hfind r' c' Hr' Hc' Hlt.
  destruct (findEmpty_found n m r c Hfind) as (Hr & Hc & _).
  unfold Pure.findEmpty in Hfind.
  destruct (List.find _ _) as [[r0 c0]|] eqn:Hf; [|done].
  injection Hfind as -> ->.
  destruct (find_first _ _ _ Hf) as (k & Hk & _ & Hbefore).
  pose proof (cellsOf_lookup n R C Hdims HR HC n r c Hr Hc) as Hk'.
  assert (k = r * n + c) as ->.
  { pose proof (NoDup_cellsOf n) as Hnd.
    by eapply NoDup_lookup. }
  pose proof (Hbefore _ _ Hlt (cellsOf_lookup n R C Hdims HR HC n r' c' Hr' Hc')) as Hz.
  simpl in Hz. by apply Z.eqb_neq in Hz.
Qed.

(** In an empty cell of a valid matrix, the values [isSafe] accepts are
    those that keep the matrix valid. *)
Lemma isSafe_valid_iff m r c v :
  shape n m → valid m → r < n → c < n → get m r c = 0%Z →
  (1 ≤ v ≤ Z.of_nat n)%Z →
  isSafe m r c v = true ↔ valid (set m r c v).
Proof.
  intros Hs Hv Hr Hc Hz Hrange. split.
  - by apply (valid_set n R C Hdims HR HC).
  - intros [_ Hclash]. apply (isSafe_spec n R C Hdims HR HC m r c v Hr Hc).
    intros r' c' Hr' Hc' Hpeer.
    destruct (decide ((r, c) = (r', c'))) as [[= <- <-]|Hne]; [lia|].
    pose proof (Hclash r c r' c' Hr Hc Hr' Hc' Hne Hpeer) as Hcl.
    rewrite (get_set_eq m r c v n Hs Hr Hc) in Hcl.
    rewrite (get_set_ne m r c v r' c' Hne) in Hcl.
    intros Heq. apply Hcl; [lia | done].
Qed.

(** *** Counting clues *)

Lemma get_outside m r c : length m ≤ r → get m r c = 0%Z.
Proof.
  intros Hr. unfold get. rewrite (nth_overflow m []) by lia. by destruct c.
Qed.

Lemma count_fold m (l : list (nat * nat)) (k : Z) :
  (foldl (λ cnt p, if (get m p.1 p.2 =? 0)%Z then cnt else (cnt + 1)%Z) k l
   + Z.of_nat (length (filter (λ p, get m p.1 p.2 = 0%Z) l))
   = k + Z.of_nat (length l))%Z.
Proof.
  revert k. induction l as [|p l IH]; intros k; [simpl; lia|].
  cbn [foldl]. rewrite filter_cons.
  destruct (Z.eqb_spec (get m p.1 p.2) 0) as [Hz|Hz].
  - rewrite decide_True by done. specialize (IH k). simpl in *. lia.
  - rewrite decide_False by done. specialize (IH (k + 1)%Z). simpl in *. lia.
Qed.

Lemma countClues_countEmpty m :
  (Pure.countClues n m + Z.of_nat (Spec.countEmpty n m) = Z.of_nat (n * n))%Z.
Proof.
  unfold Pure.countClues, Spec.countEmpty.
  rewrite count_fold, length_cellsOf. lia.
Qed.

Lemma filter_none {A} (P : A → Prop) `{!∀ x, Decision (P x)} (l : list A) :
  (∀ x, x ∈ l → ¬ P x) → filter P l = [].
Proof.
  induction l as [|a l IH]; intros Hall; [done|].
  rewrite filter_cons, decide_False by (apply Hall; by left).
  apply IH. intros x Hx. apply Hall. by right.
Qed.

Lemma countEmpty_full m : Spec.full n m → Spec.countEmpty n m = 0.
Proof.
  intros Hfull. unfold Spec.countEmpty. rewrite filter_none; [done|].
  intros [r c] [Hr Hc]%elem_of_cellsOf. simpl. by apply Hfull.
Qed.

Lemma countClues_full m :
  Spec.full n m → Pure.countClues n m = Z.of_nat (n * n).
Proof.
  intros Hfull. pose proof (countClues_countEmpty m) as H.
  rewrite (countEmpty_full m Hfull) in H. lia.
Qed.

Lemma countClues_clear m r c :
  shape n m → r < n → c < n → get m r c ≠ 0%Z →
  Pure.countClues n (set m r c 0) = (Pure.countClues n m - 1)%Z.
Proof.
  intros Hs Hr Hc Hnz.
  pose proof (countClues_countEmpty m) as H1.
  pose proof (countClues_countEmpty (set m r c 0)) as H2.
  pose proof (countEmpty_set n (set m r c 0) r c (get m r c)
                (shape_set n m r c 0 Hs) Hr Hc
                (get_set_eq m r c 0%Z n Hs Hr Hc) Hnz) as H3.
  rewrite (set_restore n m r c 0 Hs Hr Hc) in H3. lia.
Qed.

(** Carving stops at the target: it never leaves fewer clues than the
    target, unless there were fewer to begin with. *)
Lemma carve_clues target rmOrder p p' :
  0 < n → shape n p →
  Pure.carve n R C target rmOrder p = Some p' →
  (Z.min target (Pure.countClues n p) ≤ Pure.countClues n p')%Z.
Proof.
  intros Hn. revert p. induction rmOrder as [|idx rest IH]; intros p Hs.
  { intros [= ->]. lia. }
  cbn [Pure.carve]. destruct (Z.leb_spec (Pure.countClues n p) target) as [Hle|Hgt].
  { intros [= ->]. lia. }
  cbv zeta. set (r := idx / n). set (c := idx mod n).
  assert (Hc : c < n) by (apply Nat.mod_upper_bound; lia).
  destruct (Z.eqb_spec (get p r c) 0) as [Hz|Hnz]; [by apply IH|].
  assert (Hr : r < n).
  { destruct (decide (r < n)) as [|Hge]; [done|]. destruct Hnz.
    apply get_outside. destruct Hs as [-> _]. lia. }
  pose proof (countClues_clear p r c Hs Hr Hc Hnz) as Hclear.
  destruct (Pure.hasUniqueSolution n R C (set p r c 0) 2) as [[|]|]; [| |done].
  - intros Hrun. apply IH in Hrun; [|by apply shape_set]. lia.
  - rewrite (set_restore n p r c 0 Hs Hr Hc). by apply IH.
Qed.

Lemma attemptsLoop_clues tries start failed msg d lastErr g p g' :
  shape n start →
  Pure.attemptsLoop n R C tries start failed msg d lastErr g
  = Some (p, None, g') →
  shape n p
  ∧ (Z.min (Pure.cluesFor n d) (Z.of_nat (n * n)) ≤ Pure.countClues n p
     ≤ Z.of_nat (n * n))%Z.
Proof.
  intros Hs. revert lastErr g.
  induction tries as [|tries IH]; intros lastErr g; cbn [Pure.attemptsLoop].
  { by destruct lastErr. }
  pose proof (fillDiagonalBoxes_shape n R C start g Hs) as Hs1.
  destruct (Pure.fillDiagonalBoxes n R C start g) as [seeded g1].
  simpl in Hs1.
  destruct (backtrack_spec n R C Hdims HR HC (Pure.budget n) seeded g1 Hs1
              (countEmpty_bound n R C Hdims HR HC _))
    as (ok & solved & g2 & -> & Hres).
  destruct ok; [|by apply IH].
  destruct (solutions_reach n R C Hdims HR HC _ _ _ Hs1 Hres)
    as (Hs2 & Hfull & _).
  destruct (Perm (n * n) g2) as [rmOrder g3].
  destruct (Pure.carve n R C (Pure.cluesFor n d) rmOrder solved)
    as [puzzle|] eqn:Hcarve; [|done].
  destruct (Pure.hasUniqueSolution n R C puzzle 2) as [[|]|]; [| |done].
  - intros [= <- <-].
    split; [by apply (carve_shape n R C _ _ _ _ Hs2 Hcarve)|].
    apply carve_clues in Hcarve; [|nia|done].
    rewrite (countClues_full solved Hfull) in Hcarve.
    pose proof (countClues_countEmpty puzzle). lia.
  - by apply IH.
Qed.

(** The generator returns, whatever the grid it starts from holds. *)
Lemma carve_total target rmOrder p :
  shape n p → ∃ p', Pure.carve n R C target rmOrder p = Some p'.
Proof.
  revert p. induction rmOrder as [|idx rest IH]; intros p Hs; cbn [Pure.carve].
  { by eexists. }
  destruct (_ <=? _)%Z; [by eexists|].
  destruct (_ =? _)%Z; [by apply IH|]. cbv zeta.
  rewrite (hasUniqueSolution_spec n R C Hdims HR HC);
    [|by apply shape_set | lia].
  destruct (bool_decide _); apply IH; by repeat apply shape_set.
Qed.

Lemma attemptsLoop_total tries start failed msg d lastErr g :
  shape n start →
  ∃ p e g',
    Pure.attemptsLoop n R C tries start failed msg d lastErr g
    = Some (p, e, g').
Proof.
  intros Hs. revert lastErr g.
  induction tries as [|tries IH]; intros lastErr g; cbn [Pure.attemptsLoop].
  { by eexists _, _, _. }
  pose proof (fillDiagonalBoxes_shape n R C start g Hs) as Hs1.
  destruct (Pure.fillDiagonalBoxes n R C start g) as [seeded g1].
  simpl in Hs1.
  destruct (backtrack_spec n R C Hdims HR HC (Pure.budget n) seeded g1 Hs1
              (countEmpty_bound n R C Hdims HR HC _))
    as (ok & solved & g2 & Hrun & Hres).
  rewrite Hrun. destruct ok; [|by apply IH].
  destruct (solutions_reach n R C Hdims HR HC _ _ _ Hs1 Hres) as (Hs2 & _).
  destruct (Perm (n * n) g2) as [rmOrder g3].
  destruct (carve_total (Pure.cluesFor n d) rmOrder solved Hs2)
    as [puzzle Hcarve].
  rewrite Hcarve.
  rewrite (hasUniqueSolution_spec n R C Hdims HR HC);
    [|by apply (carve_shape n R C _ _ _ _ Hs2 Hcarve) | lia].
  destruct (bool_decide _); [by eexists _, _, _ | by apply IH].
Qed.

(** *** A puzzle with one completion leaves the solver no choice *)

Lemma backtrack_unique w g ok w' g' s :
  shape n w → valid w →
  Spec.completion n R C w s → (∀ s', Spec.completion n R C w s' → s' = s) →
  Pure.backtrack n R C (Pure.budget n) w g = Some (ok, w', g') →
  ok = true ∧ w' = s.
Proof.
  intros Hs Hv Hc Huniq Hrun.
  destruct (backtrack_spec n R C Hdims HR HC (Pure.budget n) w g Hs
              (countEmpty_bound n R C Hdims HR HC _))
    as (ok0 & w0 & g0 & Hrun0 & Hres).
  rewrite Hrun in Hrun0. injection Hrun0 as <- <- <-.
  apply (solutions_complete n R C Hdims HR HC (Pure.budget n) w s Hs
           (countEmpty_bound n R C Hdims HR HC _)) in Hc.
  destruct ok.
  - split; [done|]. apply Huniq.
    by apply (solutions_sound n R C Hdims HR HC (Pure.budget n)).
  - destruct Hres as [_ Hnil]. rewrite Hnil in Hc. by apply elem_of_nil in Hc.
Qed.

End MorePure.

(** ** Validator, legality test and scan for an empty cell *)

(** X1 (validator, sound and complete): [Validate] returns [nil] exactly
    when every value lies in [[0, Size]] and no non-zero value occurs twice
    in a row, a column or a box; otherwise it returns [ErrInvalidBoard].
    On a well-formed grid the general validator neither panics nor
    diverges. *)
Theorem Validate_iff_valid
    (b : Board.Board) (g : Grid.Grid) (h : Grid.heap) (m : list (list Z)) :
  Grid.wf h g m →
  ((Board.Validate b = None ↔ Spec.valid 9 3 3 b)
   ∧ (Board.Validate b ≠ None → Board.Validate b = ErrInvalidBoard))
  ∧ ((Grid.Validate g h = Grid.Ok None
      ↔ Spec.valid (Grid.dim g) (Grid.boxR g) (Grid.boxC g) m)
     ∧ (Grid.Validate g h ≠ Grid.Ok None →
        Grid.Validate g h = Grid.Ok ErrInvalidBoard)).
Proof.
  intros (Hd & Hh & Hs). split.
  - split; [apply Board_valid|]. unfold Board.Validate.
    by destruct (_ && _).
  - destruct (dimsOk_nat g Hd) as (Hdims & HR & HC & Hmax & Hg).
    split; [by apply (Grid_Validate_valid _ _ _ Hdims HR HC)|].
    rewrite (Validate_sim _ _ _ Hdims HR HC g h m Hg Hh Hs).
    unfold Pure.Validate. by destruct (_ && _).
Qed.

Lemma Validate_iff_valid_witness :
  Spec.valid 9 3 3 Examples.parsed ∧ Spec.valid 4 2 2 Examples.open4.
Proof.
  destruct (Validate_iff_valid Examples.parsed Examples.g4 Examples.open4
              Examples.open4) as [[HB _] [HG _]]; [closed_wf|].
  split; [apply HB | apply HG]; vm_compute; reflexivity.
Defined.

(** X2 ([isSafe] is the test that a placement keeps the grid valid): in
    an empty cell of a grid that passes the validator, [isSafe] accepts a
    value of [1..Size] exactly when the grid with that value placed there
    still passes the validator. *)
Theorem isSafe_iff_stays_valid
    (b : Board.Board) (r c : nat) (v : Z)
    (g : Grid.Grid) (h : Grid.heap) (m : list (list Z)) (r' c' : nat) (v' : Z) :
  Board.wf b → Board.Validate b = None →
  r < 9 → c < 9 → get b r c = 0%Z → (1 ≤ v ≤ 9)%Z →
  Grid.wf h g m → Grid.Validate g h = Grid.Ok None →
  r' < Grid.dim g → c' < Grid.dim g → get m r' c' = 0%Z →
  (1 ≤ v' ≤ Grid.Size g)%Z →
  (Board.isSafe b r c v = true ↔ Board.Validate (set b r c v) = None)
  ∧ ∃ safe : bool,
      Grid.isSafe g g h (Z.of_nat r') (Z.of_nat c') v' = Grid.Ok safe
      ∧ (safe = true
         ↔ Spec.valid (Grid.dim g) (Grid.boxR g) (Grid.boxC g)
             (set m r' c' v')).
Proof.
  intros Hwf Hv Hr Hc Hz Hrange (Hd & Hh & Hs) Hgv Hr' Hc' Hz' Hrange'.
  split.
  - rewrite Board_isSafe_eq, Board_valid. apply Board_valid in Hv.
    by apply (isSafe_valid_iff 9 3 3 dims9 pos3 pos3).
  - destruct (dimsOk_nat g Hd) as (Hdims & HR & HC & Hmax & Hg).
    apply (Grid_Validate_valid _ _ _ Hdims HR HC g h m Hg Hh Hs) in Hgv.
    eexists. split.
    + by apply (isSafe_sim _ _ _ Hdims HR HC g g h m).
    + apply (isSafe_valid_iff _ _ _ Hdims HR HC); try done.
      unfold Grid.dim. destruct Hd as (? & _). lia.
Qed.

Lemma isSafe_iff_stays_valid_witness :
  (Board.isSafe Examples.parsed 0 2 4 = true
   ↔ Board.Validate (set Examples.parsed 0 2 4) = None)
  ∧ ∃ safe : bool,
      Grid.isSafe Examples.g4 Examples.g4 Examples.open4 0%Z 1%Z 2 = Grid.Ok safe
      ∧ (safe = true ↔ Spec.valid 4 2 2 (set Examples.open4 0 1 2)).
Proof.
  apply (isSafe_iff_stays_valid Examples.parsed 0 2 4
           Examples.g4 Examples.open4 Examples.open4 0 1 2);
    try closed_wf; try (vm_compute; reflexivity); try lia;
    try (by vm_compute).
Defined.

(** X3 ([findEmpty] returns the first empty cell): the scan answers with
    the first zero cell in row-major order, and with [(0, 0, false)] exactly
    when the grid has no zero cell. *)
Theorem findEmpty_first_empty
    (b : Board.Board) (g : Grid.Grid) (h : Grid.heap) (m : list (list Z)) :
  Grid.wf h g m →
  (∃ r c (ok : bool),
     Board.findEmpty b = (r, c, ok)
     ∧ if ok then firstEmpty 9 b r c else r = 0 ∧ c = 0 ∧ Spec.full 9 b)
  ∧ (∃ r c (ok : bool),
       Grid.findEmpty g g h = Grid.Ok (Z.of_nat r, Z.of_nat c, ok)
       ∧ if ok then firstEmpty (Grid.dim g) m r c
         else r = 0 ∧ c = 0 ∧ Spec.full (Grid.dim g) m).
Proof.
  intros (Hd & Hh & Hs).
  assert (Hpure : ∀ n R C m', n = R * C → 0 < R → 0 < C →
    ∃ r c (ok : bool), Pure.findEmpty n m' = (r, c, ok)
      ∧ if ok then firstEmpty n m' r c else r = 0 ∧ c = 0 ∧ Spec.full n m').
  { intros n R C m' Hdims HR HC.
    destruct (Pure.findEmpty n m') as [[r c] ok] eqn:Hf.
    exists r, c, ok. split; [done|]. destruct ok.
    - destruct (findEmpty_found n m' r c Hf) as (? & ? & ?).
      repeat (split; [done|]).
      by apply (findEmpty_first n R C Hdims HR HC m' r c).
    - by apply findEmpty_none. }
  split.
  - rewrite Board_findEmpty_eq. apply (Hpure 9 3 3); [done | lia | lia].
  - destruct (dimsOk_nat g Hd) as (Hdims & HR & HC & Hmax & Hg).
    rewrite (findEmpty_sim _ _ _ Hdims HR HC g g h m Hg Hh Hs).
    destruct (Hpure _ _ _ m Hdims HR HC) as (r & c & ok & -> & Hres).
    by exists r, c, ok.
Qed.

Lemma findEmpty_first_empty_witness :
  (∃ r c (ok : bool),
     Board.findEmpty Examples.parsed = (r, c, ok)
     ∧ if ok then firstEmpty 9 Examples.parsed r c
       else r = 0 ∧ c = 0 ∧ Spec.full 9 Examples.parsed)
  ∧ (∃ r c (ok : bool),
       Grid.findEmpty Examples.g4 Examples.g4 Examples.full4
       = Grid.Ok (Z.of_nat r, Z.of_nat c, ok)
       ∧ if ok then firstEmpty 4 Examples.full4 r c
         else r = 0 ∧ c = 0 ∧ Spec.full 4 Examples.full4).
Proof.
  apply (findEmpty_first_empty Examples.parsed Examples.g4 Examples.full4
           Examples.full4).
  closed_wf.
Defined.

(** ** Hints *)
Section MoreHint.
Context {RS : RandSource}.
Variables (n R C : nat).
Hypothesis Hdims : n = R * C.
Hypothesis HR : 0 < R.
Hypothesis HC : 0 < C.
Implicit Types (m s b : list (list Z)) (r c : nat) (v : Z).

Local Abbreviation valid := (Spec.valid n R C).
Local Abbreviation completion := (Spec.completion n R C).

(** Clearing cells of a valid matrix keeps it valid. *)
Lemma valid_below m s : Spec.extends n m s → valid s → valid m.
Proof.
  intros Hext [Hrg Hclash]. split.
  - intros r c Hr Hc. destruct (decide (get m r c = 0%Z)) as [->|Hnz]; [lia|].
    rewrite <- (Hext r c Hr Hc Hnz). by apply Hrg.
  - intros r c r' c' Hr Hc Hr' Hc' Hne Hpeer Hnz.
    destruct (decide (get m r' c' = 0%Z)) as [Hz|Hnz']; [by rewrite Hz|].
    rewrite <- (Hext r c Hr Hc Hnz), <- (Hext r' c' Hr' Hc' Hnz').
    apply Hclash; try done. by rewrite (Hext r c Hr Hc Hnz).
Qed.

Lemma extends_fill m s r c :
  shape n m → r < n → c < n →
  Spec.extends n m s → Spec.extends n (set m r c (get s r c)) s.
Proof.
  intros Hs Hr Hc Hext r' c' Hr' Hc'.
  destruct (decide ((r, c) = (r', c'))) as [[= <- <-]|Hne].
  - by rewrite (get_set_eq m r c _ n Hs Hr Hc).
  - rewrite (get_set_ne m r c _ r' c' Hne). by apply Hext.
Qed.

(** The hint read off a completion: the first empty cell with its value
    there, which can be placed. *)
Lemma firstHint_spec b sol :
  shape n b → completion b sol →
  match Pure.firstHint n b sol with
  | (r, c, v, true) =>
      firstEmpty n b r c ∧ v = get sol r c ∧ (1 ≤ v ≤ Z.of_nat n)%Z
      ∧ valid (set b r c v) ∧ completion (set b r c v) sol
  | (r, c, v, false) => r = 0 ∧ c = 0 ∧ v = 0%Z ∧ Spec.full n b
  end.
Proof.
  intros Hs (Hss & Hvs & Hfs & Hext). unfold Pure.firstHint.
  destruct (Pure.findEmpty n b) as [[r c] ok] eqn:Hf.
  pose proof Hf as Hf'. unfold Pure.findEmpty in Hf'.
  destruct (List.find _ _) as [[r0 c0]|].
  - injection Hf' as -> -> <-.
    destruct (findEmpty_found n b r c Hf) as (Hr & Hc & Hz).
    split.
    { repeat (split; [done|]).
      by apply (findEmpty_first n R C Hdims HR HC b r c). }
    split; [done|].
    pose proof (extends_fill b sol r c Hs Hr Hc Hext) as Hext'.
    split.
    { pose proof (proj1 Hvs r c Hr Hc). pose proof (Hfs r c Hr Hc). lia. }
    split; [by apply (valid_below _ sol)|]. done.
  - injection Hf' as <- <- <-.
    by destruct (findEmpty_none n b 0 0 Hf) as (_ & _ & ?).
Qed.

(** The two ways a search from a valid matrix ends. *)
Lemma backtrack_decides b g :
  shape n b → valid b →
  ∃ (ok : bool) b' g',
    Pure.backtrack n R C (Pure.budget n) b g = Some (ok, b', g')
    ∧ if ok then completion b b' else ¬ ∃ s, completion b s.
Proof.
  intros Hs Hv.
  destruct (backtrack_spec n R C Hdims HR HC (Pure.budget n) b g Hs
              (countEmpty_bound n R C Hdims HR HC _))
    as (ok & b' & g' & Hrun & Hres).
  exists ok, b', g'. split; [done|]. destruct ok.
  - by apply (solutions_sound n R C Hdims HR HC (Pure.budget n)).
  - destruct Hres as [_ Hnil]. intros [s Hc].
    apply (solutions_complete n R C Hdims HR HC (Pure.budget n) b s Hs
             (countEmpty_bound n R C Hdims HR HC _)) in Hc.
    rewrite Hnil in Hc. by apply elem_of_nil in Hc.
Qed.

Hypothesis Hmax : n ≤ 25.

(** [HintGrid] on the store computes the hint of the matrix. *)
Lemma HintGrid_sim g h m rs :
  Grid.hasDims n R C g → Grid.holds h g m → shape n m →
  Grid.HintGrid g h rs =
  match Pure.Validate n R C m with
  | Some _ => Grid.Ok (0, 0, 0, false, h, rs)%Z
  | None =>
      match Pure.backtrack n R C (Pure.budget n) m rs with
      | None => Grid.OutOfFuel
      | Some (true, m', rs') =>
          let '(r, c, v, ok) := Pure.firstHint n m m' in
          Grid.Ok (Z.of_nat r, Z.of_nat c, v, ok, h ++ m', rs')
      | Some (false, m', rs') => Grid.Ok (0, 0, 0, false, h ++ m', rs')%Z
      end
  end.
Proof.
  intros Hg Hh Hs. unfold Grid.HintGrid.
  rewrite (Validate_sim n R C Hdims HR HC g h m), bind_Ok by done.
  destruct (Pure.Validate n R C m); [done|].
  rewrite (Solve_sim n R C Hdims HR HC g h m) by done.
  destruct (Pure.backtrack n R C (Pure.budget n) m rs)
    as [[[[|] m'] rs']|] eqn:Hrun; [|done..].
  rewrite bind_Ok.
  pose proof (backtrack_shape n R C _ _ _ _ _ _ Hs Hrun) as Hs'.
  pose proof Hg as (Hsz & _ & _). rewrite Hsz, cellsOfZ_nat.
  rewrite (findFirst_sim n R C Hdims HR HC (h ++ m') g m), bind_Ok;
    [|by apply holds_app|done|by intros [r c] ?%elem_of_cellsOf].
  unfold Pure.firstHint.
  destruct (List.find _ _) as [[r c]|] eqn:Hfind; [|done].
  apply find_some in Hfind as [Hin _].
  apply list_elem_of_In, elem_of_cellsOf in Hin as [Hr Hc].
  rewrite (cell_sim n R C Hdims HR HC (h ++ m') _ m' r c); [done| |done..].
  apply (holds_fresh n R C Hdims HR HC h m' g). by destruct Hs'.
Qed.

End MoreHint.

(** The outcome of a hint, computed on the matrix. *)
Lemma hint_outcome {RS : RandSource} (n R C : nat) (m0 : list (list Z))
    (g0 : rstate) :
  n = R * C → 0 < R → 0 < C → shape n m0 →
  ∃ r c v (ok : bool) (extra : list (list Z)) g',
    match Pure.Validate n R C m0 with
    | Some _ => Some (0, 0, 0%Z, false, [], g0)
    | None =>
        match Pure.backtrack n R C (Pure.budget n) m0 g0 with
        | None => None
        | Some (true, m', g') =>
            let '(r, c, v, ok) := Pure.firstHint n m0 m' in
            Some (r, c, v, ok, m', g')
        | Some (false, m', g') => Some (0, 0, 0%Z, false, m', g')
        end
    end = Some (r, c, v, ok, extra, g')
    ∧ (ok = true ↔ Spec.valid n R C m0 ∧ ¬ Spec.full n m0
                   ∧ ∃ s, Spec.completion n R C m0 s)
    ∧ if ok then firstEmpty n m0 r c ∧ (1 ≤ v ≤ Z.of_nat n)%Z
                 ∧ Spec.valid n R C (set m0 r c v)
                 ∧ ∃ s, Spec.completion n R C (set m0 r c v) s
      else r = 0 ∧ c = 0 ∧ v = 0%Z.
Proof.
  intros Hdims HR HC Hs0.
  destruct (Pure.Validate n R C m0) as [e|] eqn:Hv.
  { eexists _, _, _, false, _, _. split; [done|].
    split; [|done]. split; [done|]. intros [Hval _].
    apply (Validate_spec n R C Hdims HR HC) in Hval. congruence. }
  apply (Validate_spec n R C Hdims HR HC) in Hv.
  destruct (backtrack_decides n R C Hdims HR HC m0 g0 Hs0 Hv)
    as (ok0 & m' & g' & -> & Hres).
  destruct ok0.
  - pose proof (firstHint_spec n R C Hdims HR HC m0 m' Hs0 Hres) as Hh0.
    destruct (Pure.firstHint n m0 m') as [[[r c] v] ok].
    exists r, c, v, ok, m', g'. split; [done|].
    destruct ok.
    + destruct Hh0 as (Hfe & _ & Hrg & Hvs & Hcs).
      split; [|by eauto 10]. split; [|done]. intros _.
      split; [done|]. split; [|by eauto].
      intros Hfull. destruct Hfe as (Hr & Hc & Hz & _).
      by apply (Hfull r c).
    + destruct Hh0 as (-> & -> & -> & Hfull).
      split; [|done]. split; [done|]. by intros (_ & ? & _).
  - eexists _, _, _, false, m', g'. split; [done|].
    split; [|done]. split; [done|]. by intros (_ & _ & ?).
Qed.

Lemma Board_Hint_eq {RS : RandSource} (b : Board.Board) (rs : rstate) :
  Board.wf b →
  Board.Hint b rs =
  match Pure.Validate 9 3 3 b with
  | Some _ => Some (0, 0, 0%Z, false, rs)
  | None =>
      match Pure.backtrack 9 3 3 (Pure.budget 9) b rs with
      | None => None
      | Some (true, m', g') =>
          let '(r, c, v, ok) := Pure.firstHint 9 b m' in Some (r, c, v, ok, g')
      | Some (false, m', g') => Some (0, 0, 0%Z, false, g')
      end
  end.
Proof.
  intros Hwf. unfold Board.Hint, Board.Solve. rewrite copyBoard_wf by done.
  rewrite Board_Validate_eq, Board_backtrack_eq.
  change Board.budget with (Pure.budget 9).
  destruct (Pure.Validate 9 3 3 b); [done|].
  destruct (Pure.backtrack 9 3 3 (Pure.budget 9) b rs)
    as [[[[|] m'] g']|]; [|done..].
  unfold Pure.firstHint. by destruct (List.find _ _) as [[r0 c0]|].
Qed.

(** X4 (hints): [Hint] and [HintGrid] always answer.  They report a hint
    exactly when the grid passes the validator, has an empty cell and has a
    completion; the hint is then the first empty cell in row-major order
    with a value of [1..Size], and the grid with that value placed there
    passes the validator and can still be completed.  Without a hint the
    answer is [(0, 0, 0, false)]. *)
Theorem Hint_valid {RS : RandSource}
    (b : Board.Board) (rs : rstate)
    (g : Grid.Grid) (h : Grid.heap) (m : list (list Z)) (gs : rstate) :
  Board.wf b → Grid.wf h g m →
  (∃ r c v (ok : bool) rs',
     Board.Hint b rs = Some (r, c, v, ok, rs')
     ∧ (ok = true ↔ Board.Validate b = None ∧ ¬ Spec.full 9 b
                    ∧ ∃ s, Spec.completion 9 3 3 b s)
     ∧ if ok then firstEmpty 9 b r c ∧ (1 ≤ v ≤ 9)%Z
                  ∧ Board.Validate (set b r c v) = None
                  ∧ ∃ s, Spec.completion 9 3 3 (set b r c v) s
       else r = 0 ∧ c = 0 ∧ v = 0%Z)
  ∧ (∃ r c v (ok : bool) h' gs',
       Grid.HintGrid g h gs = Grid.Ok (Z.of_nat r, Z.of_nat c, v, ok, h', gs')
       ∧ (ok = true
          ↔ Grid.Validate g h = Grid.Ok None ∧ ¬ Spec.full (Grid.dim g) m
            ∧ ∃ s, Spec.completion (Grid.dim g) (Grid.boxR g) (Grid.boxC g) m s)
       ∧ if ok then firstEmpty (Grid.dim g) m r c ∧ (1 ≤ v ≤ Grid.Size g)%Z
                    ∧ Spec.valid (Grid.dim g) (Grid.boxR g) (Grid.boxC g)
                        (set m r c v)
                    ∧ ∃ s, Spec.completion (Grid.dim g) (Grid.boxR g)
                             (Grid.boxC g) (set m r c v) s
         else r = 0 ∧ c = 0 ∧ v = 0%Z).
Proof.
  intros Hwf (Hd & Hh & Hs). split.
  - destruct (hint_outcome 9 3 3 b rs dims9 pos3 pos3 Hwf)
      as (r & c & v & ok & extra & rs' & Heq & Hiff & Hres).
    exists r, c, v, ok, rs'. split.
    { rewrite (Board_Hint_eq b rs Hwf).
      destruct (Pure.Validate 9 3 3 b); [by injection Heq as <- <- <- <- _ <-|].
      destruct (Pure.backtrack 9 3 3 (Pure.budget 9) b rs)
        as [[[[|] m'] g']|]; [| |done].
      - destruct (Pure.firstHint 9 b m') as [[[r0 c0] v0] ok0].
        by injection Heq as <- <- <- <- _ <-.
      - by injection Heq as <- <- <- <- _ <-. }
    split.
    { rewrite Hiff. by rewrite (Board_valid b). }
    destruct ok; [|done]. destruct Hres as (? & ? & Hvs & ?).
    split; [done|]. split; [done|]. split; [|done].
    by apply (Board_valid (set b r c v)).
  - destruct (dimsOk_nat g Hd) as (Hdims & HR & HC & Hmax & Hg).
    destruct (hint_outcome _ _ _ m gs Hdims HR HC Hs)
      as (r & c & v & ok & extra & gs' & Heq & Hiff & Hres).
    assert (Hsz : Grid.Size g = Z.of_nat (Grid.dim g)) by by destruct Hg.
    exists r, c, v, ok. 
    assert (Hrun : ∃ h', Grid.HintGrid g h gs
                   = Grid.Ok (Z.of_nat r, Z.of_nat c, v, ok, h', gs')).
    { rewrite (HintGrid_sim _ _ _ Hdims HR HC Hmax g h m gs Hg Hh Hs).
      destruct (Pure.Validate _ _ _ m).
      { injection Heq as <- <- <- <- _ <-. by eexists. }
      destruct (Pure.backtrack _ _ _ _ m gs)
        as [[[[|] m'] g']|]; [| |done].
      - destruct (Pure.firstHint _ m m') as [[[r0 c0] v0] ok0].
        injection Heq as <- <- <- <- _ <-. by eexists.
      - injection Heq as <- <- <- <- _ <-. by eexists. }
    destruct Hrun as [h' Hrun]. exists h', gs'. split; [done|].
    split.
    { rewrite Hiff.
      by rewrite (Grid_Validate_valid _ _ _ Hdims HR HC g h m Hg Hh Hs). }
    by rewrite Hsz.
Qed.

Lemma Hint_valid_witness :
  (∃ r c v (ok : bool) rs',
     Board.Hint (RS := lcgSource) Examples.parsed Examples.rs0
     = Some (r, c, v, ok, rs')
     ∧ (ok = true ↔ Board.Validate Examples.parsed = None
                    ∧ ¬ Spec.full 9 Examples.parsed
                    ∧ ∃ s, Spec.completion 9 3 3 Examples.parsed s)
     ∧ if ok then firstEmpty 9 Examples.parsed r c ∧ (1 ≤ v ≤ 9)%Z
                  ∧ Board.Validate (set Examples.parsed r c v) = None
                  ∧ ∃ s, Spec.completion 9 3 3 (set Examples.parsed r c v) s
       else r = 0 ∧ c = 0 ∧ v = 0%Z)
  ∧ (∃ r c v (ok : bool) h' gs',
       Grid.HintGrid (RS := lcgSource) Examples.g4 Examples.open4 Examples.rs0
       = Grid.Ok (Z.of_nat r, Z.of_nat c, v, ok, h', gs')
       ∧ (ok = true
          ↔ Grid.Validate Examples.g4 Examples.open4 = Grid.Ok None
            ∧ ¬ Spec.full 4 Examples.open4
            ∧ ∃ s, Spec.completion 4 2 2 Examples.open4 s)
       ∧ if ok then firstEmpty 4 Examples.open4 r c ∧ (1 ≤ v ≤ 4)%Z
                    ∧ Spec.valid 4 2 2 (set Examples.open4 r c v)
                    ∧ ∃ s, Spec.completion 4 2 2 (set Examples.open4 r c v) s
         else r = 0 ∧ c = 0 ∧ v = 0%Z).
Proof.
  apply (Hint_valid (RS := lcgSource) Examples.parsed Examples.rs0
           Examples.g4 Examples.open4 Examples.open4 Examples.rs0);
    closed_wf.
Defined.

(** ** Solver and generator together *)

(** X5 (a puzzle with one completion has one answer): on a grid that
    passes the validator and has exactly one completion, [Solve] succeeds
    and returns that completion, whatever the random source and the order
    in which it makes the candidates come. *)
Theorem Solve_unique_answer {RS1 RS2 : RandSource}
    (b : Board.Board) (r1 : @rstate RS1) (r2 : @rstate RS2)
    (g : Grid.Grid) (h : Grid.heap) (m : list (list Z))
    (s1 : @rstate RS1) (s2 : @rstate RS2) :
  Board.wf b → Board.Validate b = None → Spec.unique 9 3 3 b →
  Grid.wf h g m → Grid.Validate g h = Grid.Ok None →
  Spec.unique (Grid.dim g) (Grid.boxR g) (Grid.boxC g) m →
  (∃ sol r1' r2',
     Board.Solve b r1 = Some (sol, true, r1')
     ∧ Board.Solve b r2 = Some (sol, true, r2')
     ∧ Spec.completion 9 3 3 b sol)
  ∧ (∃ g' sol s1' s2',
       Grid.Solve g h s1 = Grid.Ok (g', true, h ++ sol, s1')
       ∧ Grid.Solve g h s2 = Grid.Ok (g', true, h ++ sol, s2')
       ∧ Grid.wf (h ++ sol) g' sol
       ∧ Spec.completion (Grid.dim g) (Grid.boxR g) (Grid.boxC g) m sol).
Proof.
  intros Hwf Hv (sol & Hc & Huniq) (Hd & Hh & Hs) Hgv (gsol & Hgc & Hguniq).
  split.
  - apply Board_valid in Hv. exists sol.
    assert (Hrun : ∀ (RS : RandSource) (r : @rstate RS),
              ∃ r', Board.Solve b r = Some (sol, true, r')).
    { intros RS r. unfold Board.Solve. rewrite copyBoard_wf by done.
      rewrite Board_backtrack_eq. change Board.budget with (Pure.budget 9).
      destruct (backtrack_decides 9 3 3 dims9 pos3 pos3 b r Hwf Hv)
        as (ok & b' & r' & Hrun & _).
      destruct (backtrack_unique 9 3 3 dims9 pos3 pos3 b r ok b' r' sol
                  Hwf Hv Hc Huniq Hrun) as [-> ->].
      rewrite Hrun. by exists r'. }
    destruct (Hrun RS1 r1) as [r1' H1]. destruct (Hrun RS2 r2) as [r2' H2].
    by exists r1', r2'.
  - destruct (dimsOk_nat g Hd) as (Hdims & HR & HC & Hmax & Hg).
    apply (Grid_Validate_valid _ _ _ Hdims HR HC g h m Hg Hh Hs) in Hgv.
    assert (Hrun : ∀ (RS : RandSource) (r : @rstate RS),
              ∃ r', Grid.Solve g h r
                    = Grid.Ok (Grid.at_end (Grid.Size g) (Grid.BoxRows g)
                                 (Grid.BoxCols g) h, true, h ++ gsol, r')).
    { intros RS r. rewrite (Solve_sim _ _ _ Hdims HR HC g h m) by done.
      destruct (backtrack_decides _ _ _ Hdims HR HC m r Hs Hgv)
        as (ok & b' & r' & Hrun & _).
      destruct (backtrack_unique _ _ _ Hdims HR HC m r ok b' r' gsol
                  Hs Hgv Hgc Hguniq Hrun) as [-> ->].
      rewrite Hrun. by exists r'. }
    destruct (Hrun RS1 s1) as [s1' H1]. destruct (Hrun RS2 s2) as [s2' H2].
    eexists _, gsol, s1', s2'. split; [exact H1|]. split; [exact H2|].
    split; [|done]. apply wf_at_end; [done|]. by destruct Hgc.
Qed.

Lemma Solve_unique_answer_witness :
  (∃ sol r1' r2',
     Board.Solve (RS := lcgSource) Examples.parsed Examples.rs0
     = Some (sol, true, r1')
     ∧ Board.Solve (RS := lcgSource) Examples.parsed Examples.rs1
       = Some (sol, true, r2')
     ∧ Spec.completion 9 3 3 Examples.parsed sol)
  ∧ (∃ g' sol s1' s2',
       Grid.Solve (RS := lcgSource) Examples.g4 Examples.full4 Examples.rs0
       = Grid.Ok (g', true, Examples.full4 ++ sol, s1')
       ∧ Grid.Solve (RS := lcgSource) Examples.g4 Examples.full4 Examples.rs1
         = Grid.Ok (g', true, Examples.full4 ++ sol, s2')
       ∧ Grid.wf (Examples.full4 ++ sol) g' sol
       ∧ Spec.completion 4 2 2 Examples.full4 sol).
Proof.
  assert (HB : Spec.unique 9 3 3 Examples.parsed).
  { apply (Board_unique_iff Examples.parsed); [closed_wf|by vm_compute..]. }
  assert (HG : Spec.unique 4 2 2 Examples.full4).
  { apply (solutions_unique 4 2 2); [done|lia|lia|closed_wf| |by vm_compute].
    apply (Validate_spec 4 2 2); [done|lia|lia|by vm_compute]. }
  apply (Solve_unique_answer (RS1 := lcgSource) (RS2 := lcgSource)
           Examples.parsed Examples.rs0 Examples.rs1
           Examples.g4 Examples.full4 Examples.full4
           Examples.rs0 Examples.rs1);
    try closed_wf; try (vm_compute; reflexivity); done.
Defined.

(** X6 (the generator stops carving at the target): [Generate] returns,
    and a puzzle it returns has at least the target number of clues of its
    difficulty (40, 32 or 26 on the classic board; on a general grid the
    scaled target, or all cells when the grid has fewer), and at most one
    clue per cell.  For grid.go this holds whatever the receiver holds. *)
Theorem Generate_keeps_target {RS : RandSource}
    (d : Difficulty) (attempts : Z) (rs : rstate)
    (g : Grid.Grid) (h : Grid.heap) (m0 : list (list Z)) (gs : rstate) :
  Grid.wf h g m0 →
  (∃ p e rs',
     Board.Generate d attempts rs = Some (p, e, rs')
     ∧ (e = None → (Board.cluesFor d ≤ Board.countClues p ≤ 81)%Z))
  ∧ (∃ gp e h' gs',
       Grid.Generate g d attempts h gs = Grid.Ok (gp, e, h', gs')
       ∧ (e = None →
          ∃ k, Grid.countClues g gp h' = Grid.Ok k
               ∧ (Z.min (Grid.cluesFor g d) (Grid.Size g * Grid.Size g) ≤ k
                  ≤ Grid.Size g * Grid.Size g)%Z)).
Proof.
  intros (Hd & Hh & Hs). split.
  - destruct (Board_generate_spec d attempts rs) as (p & e & rs' & Hgen & _).
    exists p, e, rs'. split; [done|]. intros ->.
    unfold Board.Generate in Hgen. rewrite Board_attemptsLoop_eq in Hgen.
    apply (attemptsLoop_clues 9 3 3 dims9 pos3 pos3) in Hgen as [_ Hgen];
      [|apply zero_wf].
    rewrite Board_cluesFor_eq, Board_countClues_eq.
    assert (Pure.cluesFor 9 d ≤ 81)%Z; [|lia].
    unfold Pure.cluesFor. change (9 =? 9) with true. cbv iota.
    by repeat case_match.
  - destruct (dimsOk_nat g Hd) as (Hdims & HR & HC & Hmax & Hg).
    unfold Grid.Generate.
    pose proof (attemptsLoop_sim _ _ _ Hdims HR HC g h m0 [] d Hg Hmax Hh Hs
                  (Pure.tries attempts) None [] gs) as Hsim.
    rewrite app_nil_r in Hsim.
    destruct (attemptsLoop_total _ _ _ Hdims HR HC (Pure.tries attempts) m0 []
                "failed to build solved grid" d None gs Hs)
      as (p0 & e & gs0 & Hrun).
    rewrite Hrun in Hsim. destruct e as [msg|].
    + destruct Hsim as [h0 Hsim]. eexists _, _, _, _. split; [exact Hsim|].
      done.
    + destruct Hsim as (pre & post & Hsim).
      eexists _, _, _, _. split; [exact Hsim|]. intros _.
      pose proof (attemptsLoop_clues _ _ _ Hdims HR HC _ _ _ _ _ _ _ _ _
                    Hs Hrun) as [Hsp Hclues].
      exists (Pure.countClues (Grid.dim g) p0). split.
      * apply (countClues_sim _ _ _ Hdims HR HC); [done| |done].
        apply (holds_mid _ _ _ Hdims HR HC); [done | by destruct Hsp].
      * rewrite (cluesFor_sim _ _ _ Hdims HR HC g d Hg).
        destruct Hg as (-> & _ & _). lia.
Qed.

Lemma Generate_keeps_target_witness :
  (∃ p e rs',
     Board.Generate (RS := lcgSource) Hard 3 Examples.rs0 = Some (p, e, rs')
     ∧ (e = None → (Board.cluesFor Hard ≤ Board.countClues p ≤ 81)%Z))
  ∧ (∃ gp h' gs',
       Grid.Generate (RS := lcgSource) Examples.g4 Hard 3 Examples.zeros4
         Examples.rs0 = Grid.Ok (gp, None, h', gs')
       ∧ Grid.cluesFor Examples.g4 Hard = 8%Z
       ∧ Grid.countClues Examples.g4 gp h' = Grid.Ok 8%Z
       ∧ ∃ k, Grid.countClues Examples.g4 gp h' = Grid.Ok k
              ∧ (Z.min (Grid.cluesFor Examples.g4 Hard) (4 * 4) ≤ k
                 ≤ 4 * 4)%Z).
Proof.
  destruct (Generate_keeps_target (RS := lcgSource) Hard 3 Examples.rs0
              Examples.g4 Examples.zeros4 Examples.zeros4 Examples.rs0)
    as [HB (gp & e & h' & gs' & Hrun & Hres)].
  - closed_wf.
  - split; [exact HB|].
    assert (Hc : ∃ p0 h0 gs0,
               Grid.Generate (RS := lcgSource) Examples.g4 Hard 3
                 Examples.zeros4 Examples.rs0 = Grid.Ok (p0, None, h0, gs0)
               ∧ Grid.countClues Examples.g4 p0 h0 = Grid.Ok 8%Z).
    { eexists _, _, _. split; [vm_compute; reflexivity|].
      vm_compute. reflexivity. }
    destruct Hc as (p0 & h0 & gs0 & Hc & Hcount).
    rewrite Hc in Hrun. injection Hrun as <- <- <- <-.
    exists p0, h0, gs0. split; [exact Hc|]. split; [by vm_compute|].
    split; [exact Hcount|]. apply Hres. reflexivity.
Defined.

(** X7 (a generated puzzle can be solved): whenever [Generate] returns a
    puzzle ([Grid.Generate]: called on an empty grid), [Solve] on that
    puzzle succeeds from every state of the random source, and its answer
    is the one completion of the puzzle. *)
Theorem Generate_then_Solve {RS : RandSource}
    (d : Difficulty) (attempts : Z) (rs rs2 : rstate)
    (g : Grid.Grid) (h : Grid.heap) (m0 : list (list Z)) (gs gs2 : rstate) :
  Grid.wf h g m0 → Spec.blank (Grid.dim g) m0 →
  (∃ p e rs',
     Board.Generate d attempts rs = Some (p, e, rs')
     ∧ (e = None →
        ∃ sol rs3, Board.Solve p rs2 = Some (sol, true, rs3)
                   ∧ Spec.completion 9 3 3 p sol
                   ∧ ∀ s, Spec.completion 9 3 3 p s → s = sol))
  ∧ (∃ gp e h' gs',
       Grid.Generate g d attempts h gs = Grid.Ok (gp, e, h', gs')
       ∧ (e = None →
          ∃ mp gsol sol gs3,
            Grid.wf h' gp mp
            ∧ Grid.Solve gp h' gs2 = Grid.Ok (gsol, true, h' ++ sol, gs3)
            ∧ Grid.wf (h' ++ sol) gsol sol
            ∧ Spec.completion (Grid.dim g) (Grid.boxR g) (Grid.boxC g) mp sol
            ∧ ∀ s, Spec.completion (Grid.dim g) (Grid.boxR g) (Grid.boxC g)
                     mp s → s = sol)).
Proof.
  intros (Hd & Hh & Hs) Hblank. split.
  - destruct (Board_generate_spec d attempts rs) as (p & e & rs' & Hgen & Hres).
    exists p, e, rs'. split; [done|]. intros ->.
    destruct Hres as (Hwf & Hv & Hu).
    apply (Board_unique_iff p Hwf Hv) in Hu as (sol & Hc & Huniq).
    apply Board_valid in Hv.
    unfold Board.Solve. rewrite copyBoard_wf by done.
    rewrite Board_backtrack_eq. change Board.budget with (Pure.budget 9).
    destruct (backtrack_decides 9 3 3 dims9 pos3 pos3 p rs2 Hwf Hv)
      as (ok & b' & r' & Hrun & _).
    destruct (backtrack_unique 9 3 3 dims9 pos3 pos3 p rs2 ok b' r' sol
                Hwf Hv Hc Huniq Hrun) as [-> ->].
    rewrite Hrun. by exists sol, r'.
  - destruct (dimsOk_nat g Hd) as (Hdims & HR & HC & Hmax & Hg).
    destruct (Grid_generate_spec _ _ _ Hdims HR HC Hmax g h m0 d attempts gs
                Hg Hh Hs Hblank) as (gp & e & h' & gs' & Hggen & Hres).
    exists gp, e, h', gs'. split; [done|]. intros ->.
    destruct Hres as (mp & Hp & Hhp & Hsp & Hvp & Hone).
    apply (solutions_unique _ _ _ Hdims HR HC mp Hsp Hvp) in Hone
      as (sol & Hc & Huniq).
    assert (Hdp : Grid.dimsOk gp).
    { destruct Hp as (E1 & E2 & E3), Hg as (F1 & F2 & F3).
      unfold Grid.dimsOk in *. by rewrite E1, E2, E3, <- F1, <- F2, <- F3. }
    assert (Hszp : Grid.Size gp = Grid.Size g).
    { destruct Hp as (E1 & _), Hg as (F1 & _). by rewrite E1, <- F1. }
    rewrite (Solve_sim _ _ _ Hdims HR HC gp h' mp) by done.
    destruct (backtrack_decides _ _ _ Hdims HR HC mp gs2 Hsp Hvp)
      as (ok & b' & r' & Hrun & _).
    destruct (backtrack_unique _ _ _ Hdims HR HC mp gs2 ok b' r' sol
                Hsp Hvp Hc Huniq Hrun) as [-> ->].
    rewrite Hrun. eexists mp, _, sol, r'.
    split; [split; [done|]; split; [done|]; by rewrite Hszp|].
    split; [done|]. split; [|done].
    pose proof (wf_at_end gp h' sol Hdp) as Hw.
    unfold Grid.at_end, Grid.dim in Hw. rewrite Hszp in Hw at 1 3.
    apply Hw. by destruct Hc.
Qed.

Lemma Generate_then_Solve_witness :
  (∃ p e rs',
     Board.Generate (RS := lcgSource) Easy 3 Examples.rs0 = Some (p, e, rs')
     ∧ (e = None →
        ∃ sol rs3, Board.Solve p Examples.rs1 = Some (sol, true, rs3)
                   ∧ Spec.completion 9 3 3 p sol
                   ∧ ∀ s, Spec.completion 9 3 3 p s → s = sol))
  ∧ (∃ gp h' gs',
       Grid.Generate (RS := lcgSource) Examples.g4 Easy 3 Examples.zeros4
         Examples.rs0 = Grid.Ok (gp, None, h', gs')
       ∧ ∃ mp gsol sol gs3,
           Grid.wf h' gp mp
           ∧ Grid.Solve gp h' Examples.rs1
             = Grid.Ok (gsol, true, h' ++ sol, gs3)
           ∧ sol = [ [2;1;4;3]; [4;3;2;1]; [1;4;3;2]; [3;2;1;4] ]%Z
           ∧ Grid.wf (h' ++ sol) gsol sol
           ∧ Spec.completion 4 2 2 mp sol
           ∧ ∀ s, Spec.completion 4 2 2 mp s → s = sol).
Proof.
  destruct (Generate_then_Solve (RS := lcgSource) Easy 3
              Examples.rs0 Examples.rs1
              Examples.g4 Examples.zeros4 Examples.zeros4
              Examples.rs0 Examples.rs1)
    as [HB (gp & e & h' & gs' & Hrun & Hres)].
  - closed_wf.
  - apply blank_check. vm_compute. reflexivity.
  - split; [exact HB|].
    assert (Hc : ∃ p0 h0 gs0 g1 r1,
               Grid.Generate (RS := lcgSource) Examples.g4 Easy 3
                 Examples.zeros4 Examples.rs0 = Grid.Ok (p0, None, h0, gs0)
               ∧ Grid.Solve (RS := lcgSource) p0 h0 Examples.rs1
                 = Grid.Ok (g1, true,
                            h0 ++ [ [2;1;4;3]; [4;3;2;1]; [1;4;3;2];
                                    [3;2;1;4] ]%Z, r1)).
    { eexists _, _, _, _, _. split; [vm_compute; reflexivity|].
      vm_compute. reflexivity. }
    destruct Hc as (p0 & h0 & gs0 & g1 & r1 & Hc & Hsolve).
    rewrite Hc in Hrun. injection Hrun as <- <- <- <-.
    exists p0, h0, gs0. split; [exact Hc|].
    destruct (Hres eq_refl) as (mp & gsol & sol & gs3 & Hw & Hs & Hrest).
    exists mp, gsol, sol, gs3. split; [exact Hw|]. split; [exact Hs|].
    split; [|exact Hrest].
    rewrite Hsolve in Hs. injection Hs as _ Hs _.
    by apply app_inv_head in Hs.
Defined.

(** ** More on the codec *)

Lemma N_of_ascii_lt (ch : ascii) : (Z.of_N (N_of_ascii ch) < 256)%Z.
Proof. pose proof (N_ascii_bounded ch). lia. Qed.

Lemma ascii_of_code (ch : ascii) (k : N) : N_of_ascii ch = k → ch = ascii_of_N k.
Proof. intros <-. by rewrite ascii_N_embedding. Qed.

(** Formatting the value a legal byte stands for gives the byte back,
    except that ['.'] comes back as ['0']. *)
Lemma cellChar_decode n ch v :
  Spec.decodeChar n ch = Some v → Pure.cellChar v = canonChar ch.
Proof.
  unfold Spec.decodeChar, Pure.cellChar, canonChar.
  pose proof (N_of_ascii_lt ch) as Hlt.
  set (code := Z.of_N (N_of_ascii ch)) in *.
  destruct ((49 <=? code)%Z && (code <=? 57)%Z) eqn:Hdigit.
  - apply andb_true_iff in Hdigit as [H1%Z.leb_le H2%Z.leb_le].
    destruct (_ <? _)%Z; [done|]. intros [= <-].
    rewrite (proj2 (Z.eqb_neq _ _)) by lia.
    replace ((48 + (code - 48)) mod 256)%Z with code
      by (rewrite Z.mod_small; lia).
    unfold code. rewrite N2Z.id, ascii_N_embedding.
    destruct (Ascii.eqb_spec ch "."%char) as [->|]; [|done].
    vm_compute in H1. done.
  - destruct ((code =? 48)%Z || (code =? 46)%Z) eqn:Hz; [|done].
    intros [= <-]. cbn [Z.eqb].
    apply orb_true_iff in Hz as [H%Z.eqb_eq|H%Z.eqb_eq].
    + assert (ch = "0"%char) as -> by (apply (ascii_of_code ch 48); lia). done.
    + assert (ch = "."%char) as -> by (apply (ascii_of_code ch 46); lia). done.
Qed.

Section MoreCodec.
Variables (n R C : nat).
Hypothesis Hdims : n = R * C.
Hypothesis HR : 0 < R.
Hypothesis HC : 0 < C.

Lemma cellsOf_at k : k < n * n → cellsOf n !! k = Some (k / n, k mod n).
Proof.
  intros Hk. assert (0 < n) by nia.
  pose proof (Nat.div_mod_eq k n). pose proof (Nat.mod_upper_bound k n).
  assert (Hr : k / n < n) by (apply Nat.Div0.div_lt_upper_bound; lia).
  replace k with (k / n * n + k mod n) at 1 by lia.
  apply (cellsOf_lookup n R C Hdims HR HC); lia.
Qed.

(** Formatting what a string decodes to gives the string in canonical
    form. *)
Lemma format_decoded chars :
  length chars = n * n → Forall (Spec.legal n) chars →
  String.list_ascii_of_string (Pure.formatCells n (Spec.decoded n chars))
  = canonChar <$> chars.
Proof.
  intros Hlen Hlegal. rewrite formatCells_chars.
  apply list_eq. intros k. rewrite !list_lookup_fmap.
  destruct (decide (k < n * n)) as [Hk|Hk].
  - rewrite (cellsOf_at k Hk). simpl.
    assert (0 < n) by nia.
    pose proof (Nat.div_mod_eq k n). pose proof (Nat.mod_upper_bound k n).
    assert (Hr : k / n < n) by (apply Nat.Div0.div_lt_upper_bound; lia).
    rewrite (get_decoded n chars (k / n) (k mod n)) by lia.
    replace (k / n * n + k mod n) with k by lia.
    destruct (chars !! k) as [ch|] eqn:Hch;
      [|apply lookup_ge_None in Hch; lia].
    rewrite (nth_lookup_Some _ _ _ _ Hch). simpl. f_equal.
    destruct (Forall_lookup_1 _ _ _ _ Hlegal Hch) as [v Hv].
    rewrite Hv. simpl. by apply (cellChar_decode n).
  - rewrite (proj2 (lookup_ge_None _ _)) by (rewrite length_cellsOf; lia).
    by rewrite (proj2 (lookup_ge_None _ _)) by lia.
Qed.

Lemma canon_format chars :
  length chars = n * n → Forall (Spec.legal n) chars →
  Pure.formatCells n (Spec.decoded n chars)
  = canon (String.string_of_list_ascii chars).
Proof.
  intros Hlen Hlegal. unfold canon.
  rewrite String.list_ascii_of_string_of_list_ascii.
  rewrite <- (format_decoded chars Hlen Hlegal).
  by rewrite String.string_of_list_ascii_of_string.
Qed.

(** A value above 9 formats to a byte the parser refuses. *)
Lemma cellChar_big v :
  (10 ≤ v ≤ 25)%Z → Spec.decodeChar n (Pure.cellChar v) = None.
Proof.
  intros Hv. unfold Pure.cellChar. rewrite (proj2 (Z.eqb_neq _ _)) by lia.
  unfold Spec.decodeChar. rewrite (Z.mod_small (48 + v) 256) by lia.
  rewrite N_ascii_embedding by lia. rewrite Z2N.id by lia.
  destruct (Z.leb_spec (48 + v) 57); [lia|]. rewrite andb_false_r.
  destruct (Z.eqb_spec (48 + v) 48); [lia|].
  by destruct (Z.eqb_spec (48 + v) 46); [lia|].
Qed.

Lemma format_big_illegal m r c :
  r < n → c < n → (10 ≤ get m r c ≤ 25)%Z →
  ¬ Forall (Spec.legal n) (String.list_ascii_of_string (Pure.formatCells n m)).
Proof.
  intros Hr Hc Hv Hall. rewrite formatCells_chars in Hall.
  pose proof (cellsOf_lookup n R C Hdims HR HC n r c Hr Hc) as Hk.
  assert (Hch : ((λ p : nat * nat, Pure.cellChar (get m p.1 p.2)) <$> cellsOf n)
                !! (r * n + c) = Some (Pure.cellChar (get m r c))).
  { by rewrite list_lookup_fmap, Hk. }
  destruct (Forall_lookup_1 _ _ _ _ Hall Hch) as [v Hdec].
  by rewrite (cellChar_big _ Hv) in Hdec.
Qed.

End MoreCodec.

(** X8 (parse, then format): when parsing a string succeeds, formatting
    the parsed grid gives the string back in canonical form, every ['.']
    written as ['0']; its length is the number of cells. *)
Theorem String_of_parsed
    (s : string) (b : Board.Board)
    (s' : string) (size boxRows boxCols : Z) (h h' : Grid.heap)
    (g : Grid.Grid) :
  Board.FromString s = (b, None) →
  Grid.dimsOk (Grid.at_end size boxRows boxCols h) →
  Grid.FromStringN s' size boxRows boxCols h = Grid.Ok (g, None, h') →
  (Board.String b = canon s ∧ String.length (Board.String b) = 81)
  ∧ (Grid.String g h' = Grid.Ok (canon s')
     ∧ String.length (canon s') = Z.to_nat size * Z.to_nat size).
Proof.
  intros Hparse Hd Hgparse. split.
  - pose proof (Board_FromString_spec s) as Hspec. cbv zeta in Hspec.
    destruct Hspec as [Hok Hbad].
    set (chars := String.list_ascii_of_string s) in *.
    assert (Hcond : String.length s = 81 ∧ Forall (Spec.legal 9) chars
                    ∧ Board.Validate (Spec.decoded 9 chars) = None).
    { destruct (decide (String.length s = 81)) as [Hlen|Hlen];
        [|destruct Hbad as [msg Hmsg]; [by intros [? _]|congruence]].
      destruct (Forall_dec (Spec.legal 9) chars) as [Hall|Hall];
        [|destruct Hbad as [msg Hmsg]; [by intros (_ & ? & _)|congruence]].
      destruct (Board.Validate (Spec.decoded 9 chars)) eqn:Hv; [|done].
      destruct Hbad as [msg Hmsg]; [by intros (_ & _ & ?)|congruence]. }
    destruct Hcond as (Hlen & Hall & Hv).
    rewrite Hok in Hparse by done. injection Hparse as <-.
    rewrite Board_String_eq. split; [|apply (formatCells_length 9)].
    rewrite (canon_format 9 3 3 dims9 pos3 pos3 chars); 
      [|by unfold chars; rewrite length_list_ascii|done].
    unfold chars. by rewrite String.string_of_list_ascii_of_string.
  - destruct (dimsOk_nat _ Hd) as (Hdims & HR & HC & Hmax & _).
    destruct Hd as (Hsz & HbR & HbC & _).
    unfold Grid.dim, Grid.boxR, Grid.boxC, Grid.at_end in *.
    cbn [Grid.Size Grid.BoxRows Grid.BoxCols] in *.
    set (n := Z.to_nat size) in *.
    pose proof (FromStringN_sim _ _ _ Hdims HR HC s' h Hmax) as Hsim.
    cbv zeta in Hsim. unfold n in Hsim. rewrite !Z2Nat.id in Hsim by lia.
    fold n in Hsim.
    set (chars := String.list_ascii_of_string s') in *.
    destruct (decide (String.length s' = n * n)) as [Hlen|Hlen];
      [|destruct Hsim as [msg Hmsg]; congruence].
    pose proof (parseCells_decoded _ _ _ Hdims HR HC chars
                  (replicate n (replicate n 0%Z)) ltac:(lia) (zeros_shape n))
      as Hp.
    unfold chars in Hp at 1. rewrite length_list_ascii in Hp.
    specialize (Hp Hlen).
    destruct (Pure.parseCells n chars 0 _) as [m'|msg];
      [|destruct Hsim as [h0 Hmsg]; congruence].
    destruct Hp as [Hall ->]. rewrite Hsim in Hgparse.
    destruct (Pure.Validate _ _ _ _); [congruence|].
    injection Hgparse as <- <-.
    assert (Hcanon : Pure.formatCells n (Spec.decoded n chars) = canon s').
    { rewrite (canon_format _ _ _ Hdims HR HC chars);
        [|by unfold chars; rewrite length_list_ascii|done].
      unfold chars. by rewrite String.string_of_list_ascii_of_string. }
    split.
    + rewrite <- Hcanon.
      apply (String_sim _ _ _ Hdims HR HC); [| |apply shape_decoded].
      * unfold Grid.hasDims. cbn. fold n. lia.
      * pose proof (holds_fresh _ _ _ Hdims HR HC h (Spec.decoded n chars)
                      (Grid.mkGrid size boxRows boxCols [])) as Hf.
        apply Hf. by destruct (shape_decoded n chars).
    + rewrite <- Hcanon. apply formatCells_length.
Qed.

Lemma String_of_parsed_witness :
  (Board.String Examples.parsed = canon Examples.puzzle
   ∧ String.length (Board.String Examples.parsed) = 81)
  ∧ (Grid.String (Grid.at_end 4 2 2 []) Examples.open4
     = Grid.Ok (canon "..3434....4343..")
     ∧ String.length (canon "..3434....4343..") = 4 * 4).
Proof.
  apply (String_of_parsed Examples.puzzle Examples.parsed
           "..3434....4343.." 4 2 2 [] Examples.open4 (Grid.at_end 4 2 2 [])).
  - vm_compute. reflexivity.
  - closed_wf.
  - vm_compute. reflexivity.
Defined.

(** X9 (the string form stops at 9): a grid that passes the validator and
    holds a value of 10 or more (so of size 10 to 25) formats to a string
    that the parser, called with the grid's own dimensions, refuses with an
    error. *)
Theorem String_above_nine_unparsable
    (g : Grid.Grid) (h : Grid.heap) (m : list (list Z)) (r c : nat) :
  Grid.wf h g m → Grid.Validate g h = Grid.Ok None →
  r < Grid.dim g → c < Grid.dim g → (10 ≤ get m r c)%Z →
  ∃ s, Grid.String g h = Grid.Ok s
       ∧ ∃ msg h',
           Grid.FromStringN s (Grid.Size g) (Grid.BoxRows g) (Grid.BoxCols g) h
           = Grid.Ok (Grid.none, Some msg, h').
Proof.
  intros (Hd & Hh & Hs) Hv Hr Hc Hbig.
  destruct (dimsOk_nat g Hd) as (Hdims & HR & HC & Hmax & Hg).
  apply (Grid_Validate_valid _ _ _ Hdims HR HC g h m Hg Hh Hs) in Hv.
  exists (Pure.formatCells (Grid.dim g) m).
  split; [by apply (String_sim _ _ _ Hdims HR HC)|].
  pose proof (Grid_parse_spec _ _ _ Hdims HR HC Hmax
                (Pure.formatCells (Grid.dim g) m) h) as [_ Hbad].
  pose proof Hg as (E1 & E2 & E3). rewrite E1, E2, E3. apply Hbad.
  intros (_ & Hall & _).
  apply (format_big_illegal _ _ _ Hdims HR HC m r c Hr Hc); [|done].
  pose proof (proj1 Hv r c Hr Hc). lia.
Qed.

Lemma String_above_nine_unparsable_witness :
  ∃ s, Grid.String Examples.g10 Examples.ten10 = Grid.Ok s
       ∧ ∃ msg h', Grid.FromStringN s 10 2 5 Examples.ten10
                   = Grid.Ok (Grid.none, Some msg, h').
Proof.
  apply (String_above_nine_unparsable Examples.g10 Examples.ten10
           Examples.ten10 0 0).
  - closed_wf.
  - vm_compute. reflexivity.
  - vm_compute. lia.
  - vm_compute. lia.
  - by vm_compute.
Defined.

(** X10 (the parser and the size limit): [FromStringN] drops the error of
    [NewGrid].  For a size above [MaxGridSize] that passes the two guards
    ([size == boxRows*boxCols] and [len(s) == size*size], the products as
    the code computes them; below 2^63 they are the exact ones) and a string
    that is not empty, it never reports the size: it panics on the first
    cell when the first byte is a digit, ['0'] or ['.'], and reports an
    invalid character otherwise. *)
Theorem FromStringN_oversize
    (ch : ascii) (rest : string) (size boxRows boxCols : Z) (h : Grid.heap) :
  (Grid.MaxGridSize < size)%Z → size = Grid.wrap (boxRows * boxCols) →
  Z.of_nat (String.length (String ch rest)) = Grid.wrap (size * size) →
  Grid.FromStringN (String ch rest) size boxRows boxCols h
  = if Spec.decodeChar 9 ch is Some _ then Grid.Panic
    else Grid.Ok (Grid.none, Some "invalid character in grid"%string, h).
Proof.
  unfold Grid.MaxGridSize. intros Hbig Hdims Hlen. unfold Grid.FromStringN.
  rewrite (proj2 (Z.eqb_eq _ _) Hdims). cbn [negb].
  rewrite (proj2 (Z.eqb_eq _ _) Hlen). cbn [negb].
  assert (HNew : Grid.NewGrid size boxRows boxCols h
                 = (Grid.none, (Grid.NewGrid size boxRows boxCols h).1.2, h)).
  { unfold Grid.NewGrid. destruct (_ || _); [done|].
    unfold Grid.MaxGridSize. by destruct (Z.ltb_spec 25 size); [|lia]. }
  rewrite HNew. cbn [String.list_ascii_of_string Grid.parseCells].
  destruct (Z.eqb_spec size 0); [lia|].
  unfold Spec.decodeChar.
  set (code := Z.of_N (N_of_ascii ch)).
  destruct ((49 <=? code)%Z && (code <=? 57)%Z) eqn:Hdigit.
  - apply andb_true_iff in Hdigit as [H1%Z.leb_le H2%Z.leb_le].
    destruct (Z.ltb_spec size (code - 48)); [lia|].
    destruct (Z.ltb_spec (Z.of_nat 9) (code - 48)); [lia|].
    rewrite Z.quot_0_l, Z.rem_0_l by lia. done.
  - destruct ((code =? 48)%Z || (code =? 46)%Z); [|done].
    rewrite Z.quot_0_l, Z.rem_0_l by lia. done.
Qed.

Lemma FromStringN_oversize_witness :
  Grid.FromStringN
    (String "0" (String.string_of_list_ascii (replicate 675 "0"%char)))
    26 2 13 []
  = Grid.Panic.
Proof.
  apply (FromStringN_oversize "0"
           (String.string_of_list_ascii (replicate 675 "0"%char)) 26 2 13 []).
  - by vm_compute.
  - by vm_compute.
  - vm_compute. reflexivity.
Defined.

(** ** Allocation, copies and what the operations leave alone *)

Lemma blank_valid n R C m : Spec.blank n m → Spec.valid n R C m.
Proof.
  intros Hblank. split.
  - intros r c Hr Hc. rewrite Hblank by done. lia.
  - intros r c r' c' Hr Hc _ _ _ _ Hnz. by rewrite Hblank in Hnz.
Qed.

Lemma zeros_blank n : Spec.blank n (replicate n (replicate n 0%Z)).
Proof.
  intros r c Hr Hc. unfold get.
  rewrite (nth_lookup_Some _ _ _ (replicate n 0%Z))
    by (by apply lookup_replicate_2).
  by rewrite (nth_lookup_Some _ _ _ 0%Z) by (by apply lookup_replicate_2).
Qed.

(** A grid whose rows are left alone still holds what it held. *)
Lemma holds_kept h h' g m :
  Grid.holds h g m → (∀ a, a ∈ Grid.Cells g → h' !! a = h !! a) →
  Grid.holds h' g m.
Proof.
  unfold Grid.holds. intros Hh Hkeep.
  induction Hh as [|a row cells m' Ha Hrest IH]; [constructor|].
  constructor.
  - rewrite Hkeep; [done | by left].
  - apply IH. intros a' Ha'. apply Hkeep. by right.
Qed.

Lemma holds_below h g m a : Grid.holds h g m → a ∈ Grid.Cells g → a < length h.
Proof.
  unfold Grid.holds. intros Hh Ha.
  apply list_elem_of_lookup in Ha as [i Hi].
  destruct (Forall2_lookup_l _ _ _ _ _ Hh Hi) as (row & _ & Hrow).
  by eapply lookup_lt_Some.
Qed.

(** X11 ([NewGrid]): the constructor accepts exactly the dimensions with
    [0 < size <= 25], positive box sides and [size == boxRows*boxCols], the
    product as the code computes it.  It then returns an all-zero grid of
    [size] rows of [size] cells, on rows of its own; otherwise it returns an
    error with the zero [Grid] and allocates nothing.  When the product is
    the exact one the grid is well-formed and passes the validator.  The
    product wraps around, so some accepted dimensions are not the documented
    ones: they are those with a box side above 25. *)
Theorem NewGrid_spec (size boxRows boxCols : Z) (h : Grid.heap) :
  let g0 := Grid.at_end size boxRows boxCols h in
  let zeros := replicate (Z.to_nat size) (replicate (Z.to_nat size) 0%Z) in
  let accepted := (0 < size ≤ Grid.MaxGridSize ∧ 0 < boxRows ∧ 0 < boxCols
                   ∧ size = Grid.wrap (boxRows * boxCols))%Z in
  (Grid.dimsOk g0 →
   Grid.NewGrid size boxRows boxCols h = (g0, None, h ++ zeros)
   ∧ Grid.wf (h ++ zeros) g0 zeros ∧ Spec.blank (Z.to_nat size) zeros
   ∧ Grid.Validate g0 (h ++ zeros) = Grid.Ok None
   ∧ ∀ a, a ∈ Grid.Cells g0 → length h ≤ a)
  ∧ (accepted →
     Grid.NewGrid size boxRows boxCols h = (g0, None, h ++ zeros)
     ∧ Grid.holds (h ++ zeros) g0 zeros ∧ shape (Z.to_nat size) zeros
     ∧ Spec.blank (Z.to_nat size) zeros
     ∧ (∀ a, a ∈ Grid.Cells g0 → length h ≤ a)
     ∧ (Grid.dimsOk g0
        ↔ (boxRows ≤ Grid.MaxGridSize ∧ boxCols ≤ Grid.MaxGridSize)%Z))
  ∧ (¬ accepted →
     ∃ msg, Grid.NewGrid size boxRows boxCols h = (Grid.none, Some msg, h)).
Proof.
  intros g0 zeros accepted.
  assert (Hacc : accepted →
            Grid.NewGrid size boxRows boxCols h = (g0, None, h ++ zeros)).
  { intros (Hsz & HbR & HbC & Heq). unfold Grid.NewGrid, Grid.MaxGridSize in *.
    destruct (Z.leb_spec size 0); [lia|].
    destruct (Z.leb_spec boxRows 0); [lia|].
    destruct (Z.leb_spec boxCols 0); [lia|].
    destruct (Z.eqb_spec size (Grid.wrap (boxRows * boxCols))); [|lia].
    by destruct (Z.ltb_spec 25 size); [lia|]. }
  assert (Hfresh : ∀ a, a ∈ Grid.Cells g0 → length h ≤ a).
  { by intros a [Ha _]%elem_of_seq. }
  split; [|split].
  - intros Hd. pose proof Hd as (Hsz & HbR & HbC & Heq).
    cbn in Hsz, HbR, HbC, Heq. unfold Grid.MaxGridSize in Hsz.
    destruct (dimsOk_nat _ Hd) as (Hdims & HR & HC & Hmax & Hg).
    assert (Hwf : Grid.wf (h ++ zeros) g0 zeros).
    { apply (wf_at_end g0 h zeros Hd). apply zeros_shape. }
    split.
    { apply Hacc. unfold accepted, Grid.MaxGridSize.
      rewrite wrap_small by nia. lia. }
    split; [done|]. split; [apply zeros_blank|]. split; [|done].
    destruct Hwf as (_ & Hh & Hs).
    apply (Grid_Validate_valid _ _ _ Hdims HR HC g0 _ zeros Hg Hh Hs).
    apply blank_valid, zeros_blank.
  - intros Ha. split; [by apply Hacc|].
    destruct Ha as (Hsz & HbR & HbC & Heq). unfold Grid.MaxGridSize in *.
    split.
    { unfold Grid.holds, g0, zeros, Grid.at_end. cbn [Grid.Cells].
      apply Forall2_same_length_lookup.
      split; [by rewrite length_seq, length_replicate|].
      intros i a row [-> Hi]%lookup_seq Hrow.
      rewrite lookup_app_r by lia.
      by replace (length h + i - length h) with i by lia. }
    split; [apply zeros_shape|]. split; [apply zeros_blank|].
    split; [done|].
    unfold Grid.dimsOk, Grid.MaxGridSize. cbn. split.
    + intros (_ & _ & _ & Hex). nia.
    + intros [H1 H2]. rewrite wrap_small in Heq by nia. lia.
  - intros Hnd. unfold Grid.NewGrid, Grid.MaxGridSize.
    destruct (_ || _) eqn:Hguard; [by eexists|].
    destruct (Z.ltb_spec 25 size); [by eexists|].
    destruct Hnd. apply orb_false_iff in Hguard as [Hguard H4].
    apply orb_false_iff in Hguard as [Hguard H3].
    apply orb_false_iff in Hguard as [H1 H2].
    apply Z.leb_gt in H1, H2, H3. apply negb_false_iff, Z.eqb_eq in H4.
    unfold accepted, Grid.MaxGridSize. lia.
Qed.

Lemma NewGrid_spec_witness :
  Grid.NewGrid 4 2 2 Examples.open4
  = (Grid.mkGrid 4 2 2 [4; 5; 6; 7], None, Examples.open4 ++ Examples.zeros4)
  ∧ Grid.Validate (Grid.mkGrid 4 2 2 [4; 5; 6; 7])
      (Examples.open4 ++ Examples.zeros4) = Grid.Ok None
  ∧ Grid.NewGrid 2 3 6148914691236517206 []
    = (Grid.mkGrid 2 3 6148914691236517206 [0; 1], None, [ [0;0]; [0;0] ]%Z)
  ∧ ¬ Grid.dimsOk (Grid.mkGrid 2 3 6148914691236517206 [0; 1])
  ∧ ∃ msg, Grid.NewGrid 26 2 13 [] = (Grid.none, Some msg, []).
Proof.
  destruct (NewGrid_spec 4 2 2 Examples.open4) as ((H1 & _ & _ & H2 & _) & _);
    [closed_wf|].
  destruct (NewGrid_spec 2 3 6148914691236517206 [])
    as (_ & (H3 & _ & _ & _ & _ & H4) & _); [by vm_compute|].
  destruct (NewGrid_spec 26 2 13 []) as (_ & _ & H5).
  split; [exact H1|]. split; [exact H2|]. split; [exact H3|].
  split; [|apply H5; unfold Grid.MaxGridSize; lia].
  intros Hd. apply H4 in Hd. unfold Grid.MaxGridSize in Hd. lia.
Defined.

(** X12 ([Clone] is a deep copy): the clone holds the cells the grid
    holds, on rows of its own, and the grid is as before; a later write to a
    cell of the clone leaves every cell of the grid as it was. *)
Theorem Clone_deep_copy
    (g : Grid.Grid) (h : Grid.heap) (m : list (list Z)) :
  Grid.wf h g m →
  ∃ g' h',
    Grid.Clone g h = Grid.Ok (g', h')
    ∧ Grid.wf h' g' m ∧ Grid.wf h' g m
    ∧ (∀ a, a ∈ Grid.Cells g' → a ∉ Grid.Cells g)
    ∧ ∀ r c v h'', Grid.setCell h' g' r c v = Grid.Ok h'' → Grid.wf h'' g m.
Proof.
  intros (Hd & Hh & Hs).
  destruct (dimsOk_nat g Hd) as (Hdims & HR & HC & Hmax & Hg).
  eexists _, _. split.
  { exact (Clone_sim _ _ _ Hdims HR HC g h m Hg Hmax Hh Hs). }
  assert (Hfresh : ∀ a, a ∈ seq (length h) (Grid.dim g) → a ∉ Grid.Cells g).
  { intros a [Ha _]%elem_of_seq Hin.
    pose proof (holds_below h g m a Hh Hin). lia. }
  split; [by apply (wf_at_end g h m Hd)|].
  split; [by apply wf_app|]. split; [exact Hfresh|].
  intros r c v h'' Hset. split; [done|]. split; [|done].
  apply setCell_frame in Hset as [_ Hkeep].
  apply (holds_kept (h ++ m)); [by apply holds_app|].
  intros a Ha. apply Hkeep. intros Hin. by apply (Hfresh a).
Qed.

Lemma Clone_deep_copy_witness :
  ∃ g' h',
    Grid.Clone Examples.g4 Examples.open4 = Grid.Ok (g', h')
    ∧ Grid.wf h' g' Examples.open4 ∧ Grid.wf h' Examples.g4 Examples.open4
    ∧ (∀ a, a ∈ Grid.Cells g' → a ∉ Grid.Cells Examples.g4)
    ∧ ∀ r c v h'', Grid.setCell h' g' r c v = Grid.Ok h'' →
                   Grid.wf h'' Examples.g4 Examples.open4.
Proof.
  apply (Clone_deep_copy Examples.g4 Examples.open4 Examples.open4).
  closed_wf.
Defined.

Lemma app_keeps (h extra : list (list Z)) a :
  a < length h → (h ++ extra) !! a = h !! a.
Proof. intros Ha. by apply lookup_app_l. Qed.

(** X13 (the caller's grid is left alone): [hasUniqueSolution],
    [HintGrid] and [Generate] return on a well-formed grid (an empty one
    for [Generate]), and afterwards every row of the old store is unchanged:
    the grid passed in holds the same cells.  All their writes go to copies
    they allocate. *)
Theorem callers_grid_kept {RS : RandSource}
    (g : Grid.Grid) (h : Grid.heap) (m : list (list Z))
    (limit : Z) (d : Difficulty) (attempts : Z) (rs : rstate) :
  Grid.wf h g m → (1 ≤ limit)%Z →
  (∃ (u : bool) h',
     Grid.hasUniqueSolution g g limit h = Grid.Ok (u, h')
     ∧ (∀ a, a < length h → h' !! a = h !! a) ∧ Grid.wf h' g m)
  ∧ (∃ r c v (ok : bool) h' rs',
       Grid.HintGrid g h rs = Grid.Ok (r, c, v, ok, h', rs')
       ∧ (∀ a, a < length h → h' !! a = h !! a) ∧ Grid.wf h' g m)
  ∧ (Spec.blank (Grid.dim g) m →
     ∃ gp e h' rs',
       Grid.Generate g d attempts h rs = Grid.Ok (gp, e, h', rs')
       ∧ (∀ a, a < length h → h' !! a = h !! a) ∧ Grid.wf h' g m).
Proof.
  intros Hwf Hlimit. pose proof Hwf as (Hd & Hh & Hs).
  destruct (dimsOk_nat g Hd) as (Hdims & HR & HC & Hmax & Hg).
  split; [|split].
  - rewrite (hasUniqueSolution_sim _ _ _ Hdims HR HC g g h m) by done.
    pose proof (dfs_spec _ _ _ Hdims HR HC (Pure.budget (Grid.dim g)) limit m 0
                  Hs (countEmpty_bound _ _ _ Hdims HR HC _) ltac:(lia)) as Hdfs.
    cbv zeta in Hdfs. destruct (_ <? _)%Z.
    + rewrite Hdfs. eexists _, _. split; [done|].
      split; [intros a Ha; by apply app_keeps | by apply wf_app].
    + destruct Hdfs as [w' ->]. eexists _, _. split; [done|].
      split; [intros a Ha; by apply app_keeps | by apply wf_app].
  - rewrite (HintGrid_sim _ _ _ Hdims HR HC Hmax g h m rs Hg Hh Hs).
    destruct (Pure.Validate _ _ _ m).
    { eexists _, _, _, _, _, _. split; [done|]. by split. }
    destruct (backtrack_spec _ _ _ Hdims HR HC (Pure.budget (Grid.dim g))
                m rs Hs (countEmpty_bound _ _ _ Hdims HR HC _))
      as (ok & m' & rs' & -> & _).
    destruct ok.
    + destruct (Pure.firstHint _ m m') as [[[r c] v] ok].
      eexists _, _, _, _, _, _. split; [done|].
      split; [intros a Ha; by apply app_keeps | by apply wf_app].
    + eexists _, _, _, _, _, _. split; [done|].
      split; [intros a Ha; by apply app_keeps | by apply wf_app].
  - intros Hblank. unfold Grid.Generate.
    pose proof (attemptsLoop_sim _ _ _ Hdims HR HC g h m [] d Hg Hmax Hh Hs
                  (Pure.tries attempts) None [] rs) as Hsim.
    rewrite app_nil_r in Hsim.
    destruct (attemptsLoop_spec _ _ _ Hdims HR HC (Pure.tries attempts) m []
                "failed to build solved grid" d None rs Hs Hblank)
      as (p & e & rs' & Hrun & _).
    rewrite Hrun in Hsim. destruct e as [msg|].
    + destruct Hsim as [h' ->]. eexists _, _, _, _. split; [done|].
      split; [intros a Ha; by apply app_keeps | by apply wf_app].
    + destruct Hsim as (pre & post & ->). eexists _, _, _, _. split; [done|].
      rewrite <- (assoc_L (++) h pre).
      split; [intros a Ha; by apply app_keeps | by apply wf_app].
Qed.

Lemma callers_grid_kept_witness :
  (∃ (u : bool) h',
     Grid.hasUniqueSolution Examples.g4 Examples.g4 2 Examples.zeros4
     = Grid.Ok (u, h')
     ∧ (∀ a, a < length Examples.zeros4 → h' !! a = Examples.zeros4 !! a)
     ∧ Grid.wf h' Examples.g4 Examples.zeros4)
  ∧ (∃ r c v (ok : bool) h' rs',
       Grid.HintGrid (RS := lcgSource) Examples.g4 Examples.zeros4 Examples.rs0
       = Grid.Ok (r, c, v, ok, h', rs')
       ∧ (∀ a, a < length Examples.zeros4 → h' !! a = Examples.zeros4 !! a)
       ∧ Grid.wf h' Examples.g4 Examples.zeros4)
  ∧ (Spec.blank 4 Examples.zeros4 →
     ∃ gp e h' rs',
       Grid.Generate (RS := lcgSource) Examples.g4 Hard 3 Examples.zeros4
         Examples.rs0 = Grid.Ok (gp, e, h', rs')
       ∧ (∀ a, a < length Examples.zeros4 → h' !! a = Examples.zeros4 !! a)
       ∧ Grid.wf h' Examples.g4 Examples.zeros4).
Proof.
  apply (callers_grid_kept (RS := lcgSource) Examples.g4 Examples.zeros4
           Examples.zeros4 2 Hard 3 Examples.rs0).
  - closed_wf.
  - lia.
Defined.

(** X14 (the limit of the uniqueness counter): on a grid that passes the
    validator, every limit of 2 or more gives the answer of limit 2, the
    test for exactly one completion; with limit 1 the search stops at the
    first completion with the count at 1, so that the answer is true as
    soon as there is a completion, even if there are several. *)
Theorem hasUniqueSolution_limit
    (b : Board.Board) (g : Grid.Grid) (h : Grid.heap) (m : list (list Z))
    (limit : Z) :
  Board.wf b → Board.Validate b = None →
  Grid.wf h g m → Grid.Validate g h = Grid.Ok None → (2 ≤ limit)%Z →
  (Board.hasUniqueSolution b limit = Board.hasUniqueSolution b 2
   ∧ (Board.hasUniqueSolution b 1 = Some true
      ↔ ∃ s, Spec.completion 9 3 3 b s))
  ∧ (∃ (u u1 : bool) h2 hl h1,
       Grid.hasUniqueSolution g g 2 h = Grid.Ok (u, h2)
       ∧ Grid.hasUniqueSolution g g limit h = Grid.Ok (u, hl)
       ∧ Grid.hasUniqueSolution g g 1 h = Grid.Ok (u1, h1)
       ∧ (u1 = true
          ↔ ∃ s, Spec.completion (Grid.dim g) (Grid.boxR g) (Grid.boxC g) m s)).
Proof.
  intros Hwf Hv (Hd & Hh & Hs) Hgv Hlimit.
  assert (Hone : ∀ n R C (w : list (list Z)), n = R * C → 0 < R → 0 < C →
            shape n w → Spec.valid n R C w →
            ∃ (u1 : bool) w',
              Pure.dfs n R C (Pure.budget n) 1 w 0
              = Some (u1, w', if u1 then 1 else 0)%Z
              ∧ (u1 = true ↔ ∃ s, Spec.completion n R C w s)).
  { intros n R C w Hdims HR HC Hsw Hvw.
    pose proof (dfs_spec n R C Hdims HR HC (Pure.budget n) 1 w 0 Hsw
                  (countEmpty_bound n R C Hdims HR HC _) ltac:(lia)) as Hdfs.
    cbv zeta in Hdfs.
    assert (Hsols : ∀ s, s ∈ Spec.solutions n R C (Pure.budget n) w
                         ↔ Spec.completion n R C w s).
    { intros s. split.
      - by apply (solutions_sound n R C Hdims HR HC).
      - apply (solutions_complete n R C Hdims HR HC); [done|].
        apply (countEmpty_bound n R C Hdims HR HC). }
    destruct (Spec.solutions n R C (Pure.budget n) w) as [|s0 sols] eqn:Hl.
    - simpl in Hdfs. exists false, w. split; [done|]. split; [done|].
      intros [s Hc]. apply Hsols in Hc. by apply elem_of_nil in Hc.
    - destruct (Z.ltb_spec (0 + Z.of_nat (length (s0 :: sols))) 1) as [Hlt|_];
        [simpl in Hlt; lia|].
      destruct Hdfs as [w' Hdfs]. exists true, w'. split; [done|].
      split; [|done]. intros _. exists s0. apply Hsols. by left. }
  split.
  - rewrite !Board_hasUniqueSolution_eq by done. split.
    + by rewrite !(hasUniqueSolution_spec 9 3 3 dims9 pos3 pos3) by (done || lia).
    + apply Board_valid in Hv.
      destruct (Hone 9 3 3 b dims9 pos3 pos3 Hwf Hv) as (u1 & w' & Hrun & Hiff).
      unfold Pure.hasUniqueSolution. rewrite Hrun. rewrite <- Hiff.
      by destruct u1.
  - destruct (dimsOk_nat g Hd) as (Hdims & HR & HC & Hmax & Hg).
    apply (Grid_Validate_valid _ _ _ Hdims HR HC g h m Hg Hh Hs) in Hgv.
    rewrite !(hasUniqueSolution_sim _ _ _ Hdims HR HC g g h m) by done.
    pose proof (hasUniqueSolution_spec _ _ _ Hdims HR HC m 2 Hs ltac:(lia)) as H2.
    pose proof (hasUniqueSolution_spec _ _ _ Hdims HR HC m limit Hs Hlimit) as Hl.
    unfold Pure.hasUniqueSolution in H2, Hl.
    destruct (Pure.dfs _ _ _ _ 2 m 0) as [[[? m2] k2]|]; [|done].
    destruct (Pure.dfs _ _ _ _ limit m 0) as [[[? ml] kl]|]; [|done].
    destruct (Hone _ _ _ m Hdims HR HC Hs Hgv) as (u1 & w' & -> & Hiff).
    injection H2 as H2. injection Hl as Hl.
    eexists _, u1, _, _, _. split; [done|]. split; [by rewrite Hl, <- H2|].
    split; [by destruct u1|]. done.
Qed.

Lemma hasUniqueSolution_limit_witness :
  (Board.hasUniqueSolution Examples.parsed 3
   = Board.hasUniqueSolution Examples.parsed 2
   ∧ (Board.hasUniqueSolution Examples.parsed 1 = Some true
      ↔ ∃ s, Spec.completion 9 3 3 Examples.parsed s))
  ∧ (∃ (u u1 : bool) h2 hl h1,
       Grid.hasUniqueSolution Examples.g4 Examples.g4 2 Examples.open4
       = Grid.Ok (u, h2)
       ∧ Grid.hasUniqueSolution Examples.g4 Examples.g4 3 Examples.open4
         = Grid.Ok (u, hl)
       ∧ Grid.hasUniqueSolution Examples.g4 Examples.g4 1 Examples.open4
         = Grid.Ok (u1, h1)
       ∧ (u1 = true ↔ ∃ s, Spec.completion 4 2 2 Examples.open4 s)).
Proof.
  apply (hasUniqueSolution_limit Examples.parsed Examples.g4 Examples.open4
           Examples.open4 3).
  - closed_wf.
  - vm_compute. reflexivity.
  - closed_wf.
  - vm_compute. reflexivity.
  - lia.
Defined.

(** ** The classic board and the general grid *)

Lemma Board_Solve_eq {RS : RandSource} (b : Board.Board) (rs : rstate) :
  Board.wf b →
  Board.Solve b rs =
  match Pure.backtrack 9 3 3 (Pure.budget 9) b rs with
  | None => None
  | Some (true, b', rs') => Some (b', true, rs')
  | Some (false, _, rs') => Some (Board.zero, false, rs')
  end.
Proof.
  intros Hwf. unfold Board.Solve. rewrite copyBoard_wf by done.
  rewrite Board_backtrack_eq. change Board.budget with (Pure.budget 9).
  by destruct (Pure.backtrack 9 3 3 (Pure.budget 9) b rs) as [[[[|] ?] ?]|].
Qed.

Lemma hasDims_classic g :
  Grid.Size g = 9%Z → Grid.BoxRows g = 3%Z → Grid.BoxCols g = 3%Z →
  Grid.hasDims 9 3 3 g.
Proof. intros H1 H2 H3. unfold Grid.hasDims. by rewrite H1, H2, H3. Qed.

(** X15 (one semantics for both code paths): on a 9x9 grid with 3x3
    boxes the general functions of grid.go compute what the functions on
    the classic board compute on the same cells: the same verdict of the
    validator, the same outcome of [Solve] (same flag, same solution, same
    state of the random source), the same answer of the uniqueness counter,
    the same hint, the same string and the same clue target. *)
Theorem classic_is_general {RS : RandSource}
    (b : Board.Board) (g : Grid.Grid) (h : Grid.heap)
    (rs : rstate) (d : Difficulty) :
  Grid.wf h g b →
  Grid.Size g = 9%Z → Grid.BoxRows g = 3%Z → Grid.BoxCols g = 3%Z →
  Grid.Validate g h = Grid.Ok (Board.Validate b)
  ∧ (∃ (ok : bool) b' g' m' rs',
       Board.Solve b rs = Some (b', ok, rs')
       ∧ Grid.Solve g h rs = Grid.Ok (g', ok, h ++ m', rs')
       ∧ (ok = true → m' = b' ∧ Grid.wf (h ++ m') g' b'))
  ∧ (∃ (u : bool) junk,
       Board.hasUniqueSolution b 2 = Some u
       ∧ Grid.hasUniqueSolution g g 2 h = Grid.Ok (u, h ++ junk))
  ∧ (∃ r c v (ok : bool) h' rs',
       Board.Hint b rs = Some (r, c, v, ok, rs')
       ∧ Grid.HintGrid g h rs
         = Grid.Ok (Z.of_nat r, Z.of_nat c, v, ok, h', rs'))
  ∧ Grid.String g h = Grid.Ok (Board.String b)
  ∧ Grid.cluesFor g d = Board.cluesFor d.
Proof.
  intros (Hd & Hh & Hs) Hsz HbR HbC.
  pose proof (hasDims_classic g Hsz HbR HbC) as Hg.
  assert (Hwf : Board.wf b).
  { unfold Board.wf. by rewrite Hsz in Hs. }
  assert (Hmax : 9 ≤ 25) by lia.
  split.
  { by rewrite (Validate_sim 9 3 3 dims9 pos3 pos3 g h b Hg Hh Hwf). }
  split.
  { rewrite (Board_Solve_eq b rs Hwf).
    rewrite (Solve_sim 9 3 3 dims9 pos3 pos3 g h b rs Hg Hmax Hh Hwf).
    destruct (backtrack_spec 9 3 3 dims9 pos3 pos3 (Pure.budget 9) b rs Hwf
                (countEmpty_bound 9 3 3 dims9 pos3 pos3 _))
      as (ok & b' & rs' & Hrun & _).
    rewrite Hrun.
    pose proof (backtrack_shape 9 3 3 _ _ _ _ _ _ Hwf Hrun) as Hs'.
    destruct ok.
    - eexists true, b', _, b', rs'. split; [done|]. split; [done|].
      intros _. split; [done|].
      assert (E : 9 = Grid.dim g) by (unfold Grid.dim; by rewrite Hsz).
      rewrite E. apply (wf_at_end g h b' Hd). by rewrite <- E.
    - eexists false, _, _, b', rs'. by split. }
  split.
  { rewrite (Board_hasUniqueSolution_eq b 2 Hwf).
    rewrite (hasUniqueSolution_sim 9 3 3 dims9 pos3 pos3 g g h b 2) by done.
    pose proof (hasUniqueSolution_spec 9 3 3 dims9 pos3 pos3 b 2 Hwf
                  ltac:(lia)) as Hu.
    unfold Pure.hasUniqueSolution in *.
    destruct (Pure.dfs 9 3 3 (Pure.budget 9) 2 b 0) as [[[? m'] k]|]; [|done].
    by exists (k =? 1)%Z, m'. }
  split.
  { rewrite (Board_Hint_eq b rs Hwf).
    rewrite (HintGrid_sim 9 3 3 dims9 pos3 pos3 Hmax g h b rs Hg Hh Hwf).
    destruct (Pure.Validate 9 3 3 b); [by eexists _, _, _, _, _, _|].
    destruct (backtrack_spec 9 3 3 dims9 pos3 pos3 (Pure.budget 9) b rs Hwf
                (countEmpty_bound 9 3 3 dims9 pos3 pos3 _))
      as (ok & b' & rs' & -> & _).
    destruct ok; [|by eexists 0, 0, _, _, _, _].
    destruct (Pure.firstHint 9 b b') as [[[r c] v] ok].
    by eexists _, _, _, _, _, _. }
  split.
  { rewrite Board_String_eq. by apply (String_sim 9 3 3 dims9 pos3 pos3). }
  by rewrite (cluesFor_sim 9 3 3 dims9 pos3 pos3 g d Hg), Board_cluesFor_eq.
Qed.

Lemma classic_is_general_witness :
  Grid.Validate Examples.g9 Examples.parsed
  = Grid.Ok (Board.Validate Examples.parsed)
  ∧ (∃ (ok : bool) b' g' m' rs',
       Board.Solve (RS := lcgSource) Examples.parsed Examples.rs0
       = Some (b', ok, rs')
       ∧ Grid.Solve Examples.g9 Examples.parsed Examples.rs0
         = Grid.Ok (g', ok, Examples.parsed ++ m', rs')
       ∧ (ok = true → m' = b' ∧ Grid.wf (Examples.parsed ++ m') g' b'))
  ∧ (∃ (u : bool) junk,
       Board.hasUniqueSolution Examples.parsed 2 = Some u
       ∧ Grid.hasUniqueSolution Examples.g9 Examples.g9 2 Examples.parsed
         = Grid.Ok (u, Examples.parsed ++ junk))
  ∧ (∃ r c v (ok : bool) h' rs',
       Board.Hint (RS := lcgSource) Examples.parsed Examples.rs0
       = Some (r, c, v, ok, rs')
       ∧ Grid.HintGrid Examples.g9 Examples.parsed Examples.rs0
         = Grid.Ok (Z.of_nat r, Z.of_nat c, v, ok, h', rs'))
  ∧ Grid.String Examples.g9 Examples.parsed
    = Grid.Ok (Board.String Examples.parsed)
  ∧ Grid.cluesFor Examples.g9 Hard = Board.cluesFor Hard.
Proof.
  apply (classic_is_general (RS := lcgSource) Examples.parsed Examples.g9
           Examples.parsed Examples.rs0 Hard).
  - closed_wf.
  - reflexivity.
  - reflexivity.
  - reflexivity.
Defined.

Section MoreGenerate.
Context {RS : RandSource}.
Variables (n R C : nat).

(** The message and the value returned on failure play no part in what an
    attempt loop generates. *)
Lemma attemptsLoop_msg tries start f1 f2 msg1 msg2 d e1 e2 g :
  (e1 = None ↔ e2 = None) →
  match Pure.attemptsLoop n R C tries start f1 msg1 d e1 g,
        Pure.attemptsLoop n R C tries start f2 msg2 d e2 g with
  | Some (p1, r1, g1), Some (p2, r2, g2) =>
      g1 = g2 ∧ (r1 = None ↔ r2 = None) ∧ (r1 = None → p1 = p2)
  | None, None => True
  | _, _ => False
  end.
Proof.
  revert e1 e2 g. induction tries as [|tries IH]; intros e1 e2 g He;
    cbn [Pure.attemptsLoop].
  { destruct e1, e2; repeat split; done. }
  destruct (Pure.fillDiagonalBoxes n R C start g) as [seeded g1].
  destruct (Pure.backtrack n R C (Pure.budget n) seeded g1)
    as [[[[|] solved] g2]|]; [| |done].
  - destruct (Perm (n * n) g2) as [rmOrder g3].
    destruct (Pure.carve n R C (Pure.cluesFor n d) rmOrder solved)
      as [puzzle|]; [|done].
    destruct (Pure.hasUniqueSolution n R C puzzle 2) as [[|]|]; [done| |done].
    by apply IH.
  - by apply IH.
Qed.

End MoreGenerate.

(** X16 (one generator, one parser): from the same state of the random
    source, [Generate] on an empty 9x9 grid with 3x3 boxes and [Generate]
    on the classic board both return, both fail or both succeed, and on
    success they return the same puzzle and leave the source in the same
    state; [FromStringN] with dimensions 9, 3, 3 accepts the strings that
    [FromString] accepts, with the same cells. *)
Theorem classic_is_general_inputs {RS : RandSource}
    (g : Grid.Grid) (h : Grid.heap)
    (d : Difficulty) (attempts : Z) (rs : rstate) (s : string) :
  Grid.wf h g Board.zero →
  Grid.Size g = 9%Z → Grid.BoxRows g = 3%Z → Grid.BoxCols g = 3%Z →
  (∃ p e rs' gp e' h',
     Board.Generate d attempts rs = Some (p, e, rs')
     ∧ Grid.Generate g d attempts h rs = Grid.Ok (gp, e', h', rs')
     ∧ (e = None ↔ e' = None)
     ∧ (e = None → Grid.wf h' gp p ∧ Grid.Size gp = 9%Z
                   ∧ Grid.BoxRows gp = 3%Z ∧ Grid.BoxCols gp = 3%Z))
  ∧ (∃ b e g' e' h',
       Board.FromString s = (b, e)
       ∧ Grid.FromStringN s 9 3 3 h = Grid.Ok (g', e', h')
       ∧ (e = None ↔ e' = None)
       ∧ (e = None → g' = Grid.at_end 9 3 3 h ∧ h' = h ++ b
                     ∧ Grid.wf h' g' b)).
Proof.
  intros (Hd & Hh & Hs) Hsz HbR HbC.
  pose proof (hasDims_classic g Hsz HbR HbC) as Hg.
  pose proof zero_wf as Hwf.
  assert (Hmax : 9 ≤ 25) by lia.
  split.
  - unfold Board.Generate, Grid.Generate. rewrite Board_attemptsLoop_eq.
    pose proof (attemptsLoop_sim 9 3 3 dims9 pos3 pos3 g h Board.zero [] d
                  Hg Hmax Hh Hwf (Pure.tries attempts) None [] rs) as Hsim.
    rewrite app_nil_r in Hsim.
    pose proof (attemptsLoop_msg 9 3 3 (Pure.tries attempts) Board.zero
                  Board.zero [] "failed to build solved board"
                  "failed to build solved grid" d None None rs
                  ltac:(done)) as Hmsg.
    destruct (attemptsLoop_spec 9 3 3 dims9 pos3 pos3 (Pure.tries attempts)
                Board.zero Board.zero "failed to build solved board" d None rs
                zero_wf zero_blank) as (p & e & rs' & Hrun & Hres).
    rewrite Hrun in Hmsg |- *.
    destruct (Pure.attemptsLoop 9 3 3 _ Board.zero [] _ d None rs)
      as [[[p2 e2] rs2]|]; [|done].
    destruct Hmsg as (<- & Hiff & Hsame).
    destruct e2 as [msg2|].
    + destruct Hsim as [h' Hsim]. rewrite Hsim.
      eexists p, e, rs', _, _, _. split; [done|]. split; [done|].
      split; [done|]. intros He. apply Hiff in He. done.
    + destruct Hsim as (pre & post & Hsim). rewrite Hsim.
      assert (He : e = None) by by apply Hiff. subst e.
      specialize (Hsame eq_refl). subst p2.
      eexists p, None, rs', _, _, _. split; [done|]. split; [done|].
      split; [done|]. intros _. destruct Hres as (Hsp & _).
      split; [|done]. split; [done|]. split.
      * apply (holds_mid 9 3 3 dims9 pos3 pos3); [done | by destruct Hsp].
      * cbn. by rewrite Hsz.
  - pose proof (FromStringN_sim 9 3 3 dims9 pos3 pos3 s h Hmax) as Hsim.
    cbv zeta in Hsim.
    change (Z.of_nat 9) with 9%Z in Hsim. change (Z.of_nat 3) with 3%Z in Hsim.
    unfold Board.FromString.
    pose proof (Board_parseCells_eq (String.list_ascii_of_string s) 0
                  Board.zero) as Hpc.
    change (replicate 9 (replicate 9 0%Z)) with Board.zero in Hsim.
    change (9 * 9) with 81 in Hsim.
    destruct (decide (String.length s = 81)) as [Hlen|Hlen].
    + rewrite (proj2 (Nat.eqb_eq _ _) Hlen). cbn [negb].
      pose proof (parseCells_decoded 9 3 3 dims9 pos3 pos3
                    (String.list_ascii_of_string s) Board.zero ltac:(lia)
                    zero_wf) as Hdec.
      rewrite length_list_ascii in Hdec. specialize (Hdec Hlen).
      destruct (Board.parseCells _ 0 Board.zero) as [b|msg],
        (Pure.parseCells 9 _ 0 Board.zero) as [b2|msg2]; try done.
      * subst b2. destruct Hdec as [_ ->]. rewrite Hsim.
        rewrite Board_Validate_eq.
        destruct (Pure.Validate 9 3 3 _) as [msg|].
        -- eexists _, _, _, _, _. split; [done|]. split; [done|]. by split.
        -- eexists _, _, _, _, _. split; [done|]. split; [done|].
           split; [done|]. intros _. split; [done|]. split; [done|].
           apply (wf_at_end (Grid.mkGrid 9 3 3 []) h); [closed_wf|].
           apply shape_decoded.
      * destruct Hsim as [h' ->].
        eexists _, _, _, _, _. split; [done|]. split; [done|]. by split.
    + rewrite (proj2 (Nat.eqb_neq _ _) Hlen). cbn [negb].
      destruct Hsim as [msg ->].
      eexists _, _, _, _, _. split; [done|]. split; [done|]. by split.
Qed.

Lemma classic_is_general_inputs_witness :
  (∃ p e rs' gp e' h',
     Board.Generate (RS := lcgSource) Easy 1 Examples.rs0 = Some (p, e, rs')
     ∧ Grid.Generate Examples.g9 Easy 1 Board.zero Examples.rs0
       = Grid.Ok (gp, e', h', rs')
     ∧ (e = None ↔ e' = None)
     ∧ (e = None → Grid.wf h' gp p ∧ Grid.Size gp = 9%Z
                   ∧ Grid.BoxRows gp = 3%Z ∧ Grid.BoxCols gp = 3%Z))
  ∧ (∃ b e g' e' h',
       Board.FromString Examples.puzzle = (b, e)
       ∧ Grid.FromStringN Examples.puzzle 9 3 3 Board.zero
         = Grid.Ok (g', e', h')
       ∧ (e = None ↔ e' = None)
       ∧ (e = None → g' = Grid.at_end 9 3 3 Board.zero
                     ∧ h' = Board.zero ++ b ∧ Grid.wf h' g' b)).
Proof.
  apply (classic_is_general_inputs (RS := lcgSource) Examples.g9 Board.zero
           Easy 1 Examples.rs0 Examples.puzzle).
  - closed_wf.
  - reflexivity.
  - reflexivity.
  - reflexivity.
Defined.

(** ** The HTTP handlers *)

(** What [Solve] answers on a board that passes the validator. *)
Lemma Board_Solve_decides {RS : RandSource} (b : Board.Board) (rs : rstate) :
  Board.wf b → Board.Validate b = None →
  ∃ (ok : bool) sol rs',
    Board.Solve b rs = Some (sol, ok, rs')
    ∧ if ok then Spec.completion 9 3 3 b sol
      else ¬ ∃ s, Spec.completion 9 3 3 b s.
Proof.
  intros Hwf Hv. apply Board_valid in Hv. rewrite (Board_Solve_eq b rs Hwf).
  destruct (backtrack_decides 9 3 3 dims9 pos3 pos3 b rs Hwf Hv)
    as (ok & b' & rs' & -> & Hres).
  destruct ok; by eexists _, _, _.
Qed.

(** A string that parses gives a well-shaped board that passes the
    validator. *)
Lemma FromString_ok s b :
  Board.FromString s = (b, None) → Board.wf b ∧ Board.Validate b = None.
Proof.
  unfold Board.FromString. destruct (negb _); [done|].
  pose proof (Board_parseCells_eq (String.list_ascii_of_string s) 0
                Board.zero) as Hpc.
  destruct (Board.parseCells _ 0 Board.zero) as [b0|msg] eqn:Hparse; [|done].
  destruct (Board.Validate b0) eqn:Hv; [done|]. intros [= <-].
  split; [|done].
  destruct (Pure.parseCells 9 _ 0 Board.zero) as [b2|] eqn:Hp2; [|done].
  subst b2.
  pose proof (parseCells_spec 9 3 3 dims9 pos3 pos3
                (String.list_ascii_of_string s) 0 Board.zero ltac:(lia)
                zero_wf) as Hspec.
  destruct (decide (0 + length (String.list_ascii_of_string s) ≤ 9 * 9))
    as [Hle|Hgt].
  - specialize (Hspec Hle). rewrite Hp2 in Hspec. by destruct Hspec as (_ & ? & _).
  - clear Hspec. revert Hp2. generalize 0 at 2.
    assert (Hgen : ∀ chars i m m', shape 9 m →
              Pure.parseCells 9 chars i m = inl m' → shape 9 m').
    { induction chars as [|ch chars IH]; intros i m m' Hm; cbn [Pure.parseCells].
      - by intros [= <-].
      - cbv zeta. repeat case_match; try done;
          apply IH; by apply shape_set. }
    intros i Hp. by apply (Hgen _ _ _ _ zero_wf Hp).
Qed.

(** X17 ([/solve] answers with solutions only): the handler always
    answers, with 405 unless the method is POST, and otherwise with 200,
    400 or 422.  For a decoded request it answers 200 exactly when the
    board the request carries passes the validator and has a completion,
    and the document is then a completion of that board (full, valid,
    every clue kept); it answers 422 exactly when the board passes the
    validator and has no completion.  So [Solve] is never run on a board
    that breaks the rules. *)
Theorem handleSolve_sound {RS : RandSource}
    (method : string) (decoded : option Server.solveReq) (rs : rstate) :
  (∀ req b, decoded = Some req → Server.Puzzle req = Some b → Board.wf b) →
  ∃ resp rs',
    Server.handleSolve method decoded rs = Some (resp, rs')
    ∧ (Server.status resp = 405%Z ↔ method ≠ "POST"%string)
    ∧ (method = "POST"%string →
       Server.status resp ∈ [200; 400; 422]%Z
       ∧ (Server.status resp = 200%Z
          ↔ ∃ req b, decoded = Some req ∧ Server.carries req b
                     ∧ Board.Validate b = None
                     ∧ ∃ s, Spec.completion 9 3 3 b s)
       ∧ (Server.status resp = 200%Z →
          ∃ req b sol, decoded = Some req ∧ Server.carries req b
                       ∧ Server.body resp = Server.solution sol
                       ∧ Spec.completion 9 3 3 b sol
                       ∧ Board.Validate sol = None)
       ∧ (Server.status resp = 422%Z
          ↔ ∃ req b, decoded = Some req ∧ Server.carries req b
                     ∧ Board.Validate b = None
                     ∧ ¬ ∃ s, Spec.completion 9 3 3 b s)).
Proof.
  intros Hshape. unfold Server.handleSolve.
  destruct (String.eqb_spec method "POST") as [->|Hm]; cbn [negb].
  2:{ eexists _, _. split; [done|]. split; [done|]. done. }
  assert (Hsolve : ∀ req b, decoded = Some req → Server.carries req b →
            (∀ b', Server.carries req b' → b' = b) →
            Board.wf b → Board.Validate b = None →
            ∃ resp rs',
              match Board.Solve b rs with
              | Some (sol, true, rs') =>
                  Some (Server.writeJSON Server.StatusOK (Server.solution sol),
                        rs')
              | Some (_, false, rs') =>
                  Some (Server.writeJSON Server.StatusUnprocessableEntity
                          (Server.errMsg "unsolvable"), rs')
              | None => None
              end = Some (resp, rs')
              ∧ (Server.status resp = 405%Z ↔ "POST"%string ≠ "POST"%string)
              ∧ ("POST"%string = "POST"%string →
                 Server.status resp ∈ [200; 400; 422]%Z
                 ∧ (Server.status resp = 200%Z
                    ↔ ∃ req b, decoded = Some req ∧ Server.carries req b
                               ∧ Board.Validate b = None
                               ∧ ∃ s, Spec.completion 9 3 3 b s)
                 ∧ (Server.status resp = 200%Z →
                    ∃ req b sol, decoded = Some req ∧ Server.carries req b
                                 ∧ Server.body resp = Server.solution sol
                                 ∧ Spec.completion 9 3 3 b sol
                                 ∧ Board.Validate sol = None)
                 ∧ (Server.status resp = 422%Z
                    ↔ ∃ req b, decoded = Some req ∧ Server.carries req b
                               ∧ Board.Validate b = None
                               ∧ ¬ ∃ s, Spec.completion 9 3 3 b s))).
  { intros req b Hreq Hcar Honly Hwf Hv.
    destruct (Board_Solve_decides b rs Hwf Hv) as (ok & sol & rs' & -> & Hres).
    destruct ok.
    - eexists _, _. split; [done|]. split; [done|]. intros _.
      split; [cbn; repeat constructor|]. split; [|split].
      + split; [|done]. intros _. exists req, b. eauto.
      + intros _. exists req, b, sol. repeat (split; [done|]).
        apply Board_valid. by destruct Hres as (_ & ? & _).
      + split; [done|]. intros (req' & b' & Hreq' & Hcar' & _ & Hno).
        rewrite Hreq in Hreq'. injection Hreq' as <-.
        rewrite (Honly b' Hcar') in Hno. destruct Hno. by exists sol.
    - eexists _, _. split; [done|]. split; [done|]. intros _.
      split; [cbn; repeat constructor|]. split; [|split].
      + split; [done|]. intros (req' & b' & Hreq' & Hcar' & _ & Hyes).
        rewrite Hreq in Hreq'. injection Hreq' as <-.
        by rewrite (Honly b' Hcar') in Hyes.
      + done.
      + split; [|done]. intros _. by exists req, b. }
  assert (Hbad : ∀ msg,
            (∀ req b, decoded = Some req → Server.carries req b →
                      Board.Validate b ≠ None) →
            ∃ resp rs',
              Some (Server.writeJSON Server.StatusBadRequest
                      (Server.errMsg msg), rs) = Some (resp, rs')
              ∧ (Server.status resp = 405%Z ↔ "POST"%string ≠ "POST"%string)
              ∧ ("POST"%string = "POST"%string →
                 Server.status resp ∈ [200; 400; 422]%Z
                 ∧ (Server.status resp = 200%Z
                    ↔ ∃ req b, decoded = Some req ∧ Server.carries req b
                               ∧ Board.Validate b = None
                               ∧ ∃ s, Spec.completion 9 3 3 b s)
                 ∧ (Server.status resp = 200%Z →
                    ∃ req b sol, decoded = Some req ∧ Server.carries req b
                                 ∧ Server.body resp = Server.solution sol
                                 ∧ Spec.completion 9 3 3 b sol
                                 ∧ Board.Validate sol = None)
                 ∧ (Server.status resp = 422%Z
                    ↔ ∃ req b, decoded = Some req ∧ Server.carries req b
                               ∧ Board.Validate b = None
                               ∧ ¬ ∃ s, Spec.completion 9 3 3 b s))).
  { intros msg Hnone. eexists _, _. split; [done|]. split; [done|]. intros _.
    split; [cbn; repeat constructor|]. split; [|split].
    - split; [done|]. intros (req & b & Hreq & Hcar & Hv & _).
      by destruct (Hnone req b Hreq Hcar).
    - done.
    - split; [done|]. intros (req & b & Hreq & Hcar & Hv & _).
      by destruct (Hnone req b Hreq Hcar). }
  destruct decoded as [req|]; [|by apply Hbad].
  destruct (Server.Puzzle req) as [b|] eqn:Hpuz.
  - assert (Honly : ∀ b', Server.carries req b' → b' = b).
    { intros b' [Hb'|[Hb' _]]; congruence. }
    destruct (Board.Validate b) eqn:Hv.
    + apply Hbad. intros req' b' [= <-] Hcar.
      rewrite (Honly b' Hcar). congruence.
    + apply (Hsolve req b); try done; [by left | by eapply Hshape].
  - destruct (String.eqb_spec (Server.String_ req) "") as [Hempty|Hne];
      cbn [negb].
    + apply Hbad. intros req' b' [= <-] [Hcar|(_ & Hcar & _)]; congruence.
    + destruct (Board.FromString (Server.String_ req)) as [b [msg|]] eqn:Hparse.
      * apply Hbad. intros req' b' [= <-] [Hcar|(_ & _ & Hcar)]; congruence.
      * destruct (FromString_ok _ _ Hparse) as [Hwf Hv].
        apply (Hsolve req b); try done; [by right|].
        intros b' [Hcar|(_ & _ & Hcar)]; congruence.
Qed.

Lemma handleSolve_sound_witness :
  let decoded := Some (Server.mkSolveReq (Some Examples.parsed) "") in
  ∃ resp rs',
    Server.handleSolve (RS := lcgSource) "POST" decoded Examples.rs0
    = Some (resp, rs')
    ∧ (Server.status resp = 405%Z ↔ "POST"%string ≠ "POST"%string)
    ∧ ("POST"%string = "POST"%string →
       Server.status resp ∈ [200; 400; 422]%Z
       ∧ (Server.status resp = 200%Z
          ↔ ∃ req b, decoded = Some req ∧ Server.carries req b
                     ∧ Board.Validate b = None
                     ∧ ∃ s, Spec.completion 9 3 3 b s)
       ∧ (Server.status resp = 200%Z →
          ∃ req b sol, decoded = Some req ∧ Server.carries req b
                       ∧ Server.body resp = Server.solution sol
                       ∧ Spec.completion 9 3 3 b sol
                       ∧ Board.Validate sol = None)
       ∧ (Server.status resp = 422%Z
          ↔ ∃ req b, decoded = Some req ∧ Server.carries req b
                     ∧ Board.Validate b = None
                     ∧ ¬ ∃ s, Spec.completion 9 3 3 b s)).
Proof.
  apply (handleSolve_sound (RS := lcgSource) "POST"
           (Some (Server.mkSolveReq (Some Examples.parsed) "")) Examples.rs0).
  intros req b [= <-] [= <-]. closed_wf.
Defined.

Lemma rows_holds h g m : Grid.holds h g m → Server.rows h (Grid.Cells g) = Grid.Ok m.
Proof.
  unfold Grid.holds. intros Hh.
  induction Hh as [|a row cells m' Ha Hrest IH]; [done|].
  cbn [Server.rows]. rewrite (index_nat h a row Ha), bind_Ok.
  by rewrite IH, bind_Ok.
Qed.

Lemma NewGrid_cases size boxRows boxCols h :
  size = (boxRows * boxCols)%Z →
  (Grid.dimsOk (Grid.at_end size boxRows boxCols h)
   ∧ Grid.NewGrid size boxRows boxCols h
     = (Grid.at_end size boxRows boxCols h, None,
        h ++ replicate (Z.to_nat size) (replicate (Z.to_nat size) 0%Z)))
  ∨ ∃ msg, Grid.NewGrid size boxRows boxCols h = (Grid.none, Some msg, h).
Proof.
  intros Hprod. unfold Grid.NewGrid, Grid.dimsOk, Grid.MaxGridSize. cbn.
  destruct (Z.leb_spec size 0); [right; by eexists|].
  destruct (Z.leb_spec boxRows 0); [right; by eexists|].
  destruct (Z.leb_spec boxCols 0); [right; by eexists|].
  destruct (Z.eqb_spec size (Grid.wrap (boxRows * boxCols)));
    [|right; by eexists].
  cbn. destruct (Z.ltb_spec 25 size); [right; by eexists|].
  left. split; [lia | done].
Qed.

Lemma Generate_extends {RS : RandSource} g h m d attempts rs gp e h' rs' :
  Grid.wf h g m → Spec.blank (Grid.dim g) m →
  Grid.Generate g d attempts h rs = Grid.Ok (gp, e, h', rs') →
  ∃ extra, h' = h ++ extra.
Proof.
  intros (Hd & Hh & Hs) Hblank. unfold Grid.Generate.
  destruct (dimsOk_nat g Hd) as (Hdims & HR & HC & Hmax & Hg).
  pose proof (attemptsLoop_sim _ _ _ Hdims HR HC g h m [] d Hg Hmax Hh Hs
                (Pure.tries attempts) None [] rs) as Hsim.
  rewrite app_nil_r in Hsim.
  destruct (attemptsLoop_spec _ _ _ Hdims HR HC (Pure.tries attempts) m []
              "failed to build solved grid" d None rs Hs Hblank)
    as (p & e0 & rs0 & Hrun & _).
  rewrite Hrun in Hsim. destruct e0 as [msg|].
  - destruct Hsim as [h0 ->]. intros [= <- <- <- <-]. by eexists.
  - destruct Hsim as (pre & post & ->). intros [= <- <- <- <-].
    rewrite <- (assoc_L (++) h pre). by eexists.
Qed.

(** X18 ([/generate] answers with proper puzzles only): provided the
    product of the two numbers scanned from [box] does not overflow [int],
    the handler always answers (it neither panics nor runs out of its
    recursion budget), with 405 unless the method is POST and otherwise
    with 200, 400 or 500, and it leaves the rows that were in the store
    alone.  (The guard [br*bc != req.Size] multiplies before anything bounds
    the two numbers; a product that wraps onto the size passes it and
    [NewGrid] alike.)  A 200 answer on the
    classic path carries a puzzle that passes the validator and has exactly
    one completion, together with that completion whenever the request set
    [includeSolution]; a 200 answer on the variable-size path carries the
    size asked for, box sides whose product is the size, and cells that form
    a valid grid of that size with exactly one completion. *)
Theorem handleGenerate_sound {RS : RandSource}
    (scan : string → option (Z * Z)) (method : string)
    (decoded : option Server.genReq) (h : Grid.heap) (rs : rstate) :
  (∀ req br bc, decoded = Some req → scan (Server.Box req) = Some (br, bc) →
     (- 2 ^ 63 ≤ br * bc < 2 ^ 63)%Z) →
  ∃ resp h' rs',
    Server.handleGenerate scan method decoded h rs = Grid.Ok (resp, h', rs')
    ∧ (∀ a, a < length h → h' !! a = h !! a)
    ∧ (Server.status resp = 405%Z ↔ method ≠ "POST"%string)
    ∧ Server.status resp ∈ [200; 400; 405; 500]%Z
    ∧ (Server.status resp = 200%Z →
       ∃ req, decoded = Some req ∧
         match Server.body resp with
         | Server.puzzle puz sol =>
             Board.wf puz ∧ Board.Validate puz = None ∧ Spec.unique 9 3 3 puz
             ∧ if Server.IncludeSolution req
               then ∃ s, sol = Some s ∧ Spec.completion 9 3 3 puz s
               else sol = None
         | Server.gridPuzzle size boxR boxC cells =>
             size = Server.Size_ req ∧ scan (Server.Box req) = Some (boxR, boxC)
             ∧ (0 < size ≤ Grid.MaxGridSize)%Z ∧ (0 < boxR)%Z ∧ (0 < boxC)%Z
             ∧ size = (boxR * boxC)%Z
             ∧ shape (Z.to_nat size) cells
             ∧ Spec.valid (Z.to_nat size) (Z.to_nat boxR) (Z.to_nat boxC) cells
             ∧ Spec.unique (Z.to_nat size) (Z.to_nat boxR) (Z.to_nat boxC) cells
         | _ => False
         end).
Proof.
  intros Hfit. unfold Server.handleGenerate.
  destruct (String.eqb_spec method "POST") as [->|Hm]; cbn [negb].
  2:{ eexists _, _, _. split; [done|]. split; [done|]. split; [done|].
      split; [cbn; repeat constructor|]. done. }
  assert (Hbad : ∀ msg (rs0 : rstate) extra,
    ∃ resp h' rs',
      Grid.Ok (Server.writeJSON Server.StatusBadRequest (Server.errMsg msg),
               h ++ extra, rs0) = Grid.Ok (resp, h', rs')
      ∧ (∀ a, a < length h → h' !! a = h !! a)
      ∧ (Server.status resp = 405%Z ↔ "POST"%string ≠ "POST"%string)
      ∧ Server.status resp ∈ [200; 400; 405; 500]%Z
      ∧ (Server.status resp = 200%Z →
         ∃ req, decoded = Some req ∧
           match Server.body resp with
           | Server.puzzle puz sol =>
               Board.wf puz ∧ Board.Validate puz = None
               ∧ Spec.unique 9 3 3 puz
               ∧ if Server.IncludeSolution req
                 then ∃ s, sol = Some s ∧ Spec.completion 9 3 3 puz s
                 else sol = None
           | Server.gridPuzzle size boxR boxC cells =>
               size = Server.Size_ req
               ∧ scan (Server.Box req) = Some (boxR, boxC)
               ∧ (0 < size ≤ Grid.MaxGridSize)%Z ∧ (0 < boxR)%Z ∧ (0 < boxC)%Z
               ∧ size = (boxR * boxC)%Z
               ∧ shape (Z.to_nat size) cells
               ∧ Spec.valid (Z.to_nat size) (Z.to_nat boxR) (Z.to_nat boxC)
                   cells
               ∧ Spec.unique (Z.to_nat size) (Z.to_nat boxR) (Z.to_nat boxC)
                   cells
           | _ => False
           end)).
  { intros msg rs0 extra. eexists _, _, _. split; [done|].
    split; [intros a Ha; by apply app_keeps|]. split; [done|].
    split; [cbn; repeat constructor|]. done. }
  assert (H500 : ∀ msg (rs0 : rstate) extra,
    ∃ resp h' rs',
      Grid.Ok (Server.writeJSON Server.StatusInternalServerError
                 (Server.errMsg msg), h ++ extra, rs0)
      = Grid.Ok (resp, h', rs')
      ∧ (∀ a, a < length h → h' !! a = h !! a)
      ∧ (Server.status resp = 405%Z ↔ "POST"%string ≠ "POST"%string)
      ∧ Server.status resp ∈ [200; 400; 405; 500]%Z
      ∧ (Server.status resp = 200%Z →
         ∃ req, decoded = Some req ∧
           match Server.body resp with
           | Server.puzzle puz sol =>
               Board.wf puz ∧ Board.Validate puz = None
               ∧ Spec.unique 9 3 3 puz
               ∧ if Server.IncludeSolution req
                 then ∃ s, sol = Some s ∧ Spec.completion 9 3 3 puz s
                 else sol = None
           | Server.gridPuzzle size boxR boxC cells =>
               size = Server.Size_ req
               ∧ scan (Server.Box req) = Some (boxR, boxC)
               ∧ (0 < size ≤ Grid.MaxGridSize)%Z ∧ (0 < boxR)%Z ∧ (0 < boxC)%Z
               ∧ size = (boxR * boxC)%Z
               ∧ shape (Z.to_nat size) cells
               ∧ Spec.valid (Z.to_nat size) (Z.to_nat boxR) (Z.to_nat boxC)
                   cells
               ∧ Spec.unique (Z.to_nat size) (Z.to_nat boxR) (Z.to_nat boxC)
                   cells
           | _ => False
           end)).
  { intros msg rs0 extra. eexists _, _, _. split; [done|].
    split; [intros a Ha; by apply app_keeps|]. split; [done|].
    split; [cbn; repeat constructor|]. done. }
  pose proof (Hbad "" rs []) as Hbad0. 
  assert (Hnil : ∀ msg, ∃ resp h' rs',
      Grid.Ok (Server.writeJSON Server.StatusBadRequest (Server.errMsg msg),
               h, rs) = Grid.Ok (resp, h', rs')
      ∧ (∀ a, a < length h → h' !! a = h !! a)
      ∧ (Server.status resp = 405%Z ↔ "POST"%string ≠ "POST"%string)
      ∧ Server.status resp ∈ [200; 400; 405; 500]%Z
      ∧ (Server.status resp = 200%Z →
         ∃ req, decoded = Some req ∧
           match Server.body resp with
           | Server.puzzle puz sol =>
               Board.wf puz ∧ Board.Validate puz = None
               ∧ Spec.unique 9 3 3 puz
               ∧ if Server.IncludeSolution req
                 then ∃ s, sol = Some s ∧ Spec.completion 9 3 3 puz s
                 else sol = None
           | Server.gridPuzzle size boxR boxC cells =>
               size = Server.Size_ req
               ∧ scan (Server.Box req) = Some (boxR, boxC)
               ∧ (0 < size ≤ Grid.MaxGridSize)%Z ∧ (0 < boxR)%Z ∧ (0 < boxC)%Z
               ∧ size = (boxR * boxC)%Z
               ∧ shape (Z.to_nat size) cells
               ∧ Spec.valid (Z.to_nat size) (Z.to_nat boxR) (Z.to_nat boxC)
                   cells
               ∧ Spec.unique (Z.to_nat size) (Z.to_nat boxR) (Z.to_nat boxC)
                   cells
           | _ => False
           end)).
  { intros msg. pose proof (Hbad msg rs []) as H. by rewrite app_nil_r in H. }
  clear Hbad0.
  destruct decoded as [req|]; [|by apply Hnil].
  set (d := if _ || _ then Some Easy else _).
  destruct d as [d|]; [|by apply Hnil].
  set (attempts := if (Server.Attempts req <? 1)%Z then 3%Z
                   else Server.Attempts req).
  destruct ((Server.Size_ req =? 0)%Z && String.eqb (Server.Box req) "").
  - (* the classic board *)
    destruct (Board_generate_spec d attempts rs)
      as (puz & e & rs' & -> & Hres).
    destruct e as [msg|].
    { pose proof (H500 "generation failed"%string rs' []) as H.
      by rewrite app_nil_r in H. }
    destruct Hres as (Hwf & Hv & Hu).
    apply (Board_unique_iff puz Hwf Hv) in Hu.
    destruct (Server.IncludeSolution req) eqn:Hinc.
    + destruct (Board_Solve_decides puz rs' Hwf Hv)
        as (ok & sol & rs'' & -> & Hsol).
      destruct ok.
      * eexists _, _, _. split; [done|]. split; [done|]. split; [done|].
        split; [cbn; repeat constructor|]. intros _. exists req.
        split; [done|]. cbn. rewrite Hinc. eauto 10.
      * destruct Hsol. destruct Hu as (s & Hs & _). by exists s.
    + eexists _, _, _. split; [done|]. split; [done|]. split; [done|].
      split; [cbn; repeat constructor|]. intros _. exists req.
      split; [done|]. cbn. by rewrite Hinc.
  - (* a grid of the size asked for *)
    destruct (_ || _); [by apply Hnil|].
    destruct (Z.ltb_spec Grid.MaxGridSize (Server.Size_ req)) as [|Hmax];
      [by apply Hnil|].
    destruct (scan (Server.Box req)) as [[br bc]|] eqn:Hscan; [|by apply Hnil].
    rewrite (wrap_small (br * bc)) by (by apply (Hfit req)).
    destruct (Z.eqb_spec (br * bc) (Server.Size_ req)) as [Hprod|];
      cbn [negb]; [|by apply Hnil].
    destruct (NewGrid_cases (Server.Size_ req) br bc h (eq_sym Hprod))
      as [[Hd ->]|[msg ->]]; [|by apply Hnil].
    assert (Hwf0 : Grid.wf
              (h ++ replicate (Z.to_nat (Server.Size_ req))
                      (replicate (Z.to_nat (Server.Size_ req)) 0%Z))
              (Grid.at_end (Server.Size_ req) br bc h)
              (replicate (Z.to_nat (Server.Size_ req))
                 (replicate (Z.to_nat (Server.Size_ req)) 0%Z))).
    { apply (wf_at_end (Grid.at_end (Server.Size_ req) br bc h) h _ Hd).
      apply zeros_shape. }
    pose proof (zeros_blank (Z.to_nat (Server.Size_ req))) as Hblank.
    set (g0 := Grid.at_end (Server.Size_ req) br bc h) in *.
    set (zeros := replicate _ _) in *.
    destruct (dimsOk_nat g0 Hd) as (Hdims & HR & HC & Hmax' & Hg).
    destruct Hwf0 as (_ & Hh0 & Hs0).
    destruct (Grid_generate_spec _ _ _ Hdims HR HC Hmax' g0 (h ++ zeros) zeros
                d attempts rs Hg Hh0 Hs0 Hblank)
      as (gp & e & h2 & rs' & Hgen & Hres).
    pose proof (Generate_extends g0 (h ++ zeros) zeros d attempts rs _ _ _ _
                  (conj Hd (conj Hh0 Hs0)) Hblank Hgen) as Hframe.
    rewrite Hgen, bind_Ok. destruct Hframe as [extra ->].
    destruct e as [msg|].
    { rewrite <- (assoc_L (++) h zeros extra). by apply H500. }
    destruct Hres as (mp & Hp & Hhp & Hsp & Hvp & Hone).
    rewrite (rows_holds _ gp mp Hhp), bind_Ok.
    rewrite <- (assoc_L (++) h zeros extra).
    eexists _, _, _. split; [done|].
    split; [intros a Ha; by apply app_keeps|]. split; [done|].
    split; [cbn; repeat constructor|]. intros _. exists req.
    split; [done|]. cbn.
    destruct Hp as (E1 & E2 & E3). pose proof Hd as (F1 & F2 & F3 & F4).
    cbn in F1, F2, F3, F4.
    unfold Grid.dim, Grid.boxR, Grid.boxC in *. cbn in E1, E2, E3.
    rewrite E1, E2, E3, !Z2Nat.id by lia.
    cbn [Grid.Size Grid.BoxRows Grid.BoxCols g0 Grid.at_end] in *.
    repeat (split; [done || lia|]).
    by apply (solutions_unique _ _ _ Hdims HR HC).
Qed.

Lemma handleGenerate_sound_witness :
  let scan := λ s : string,
    if String.eqb s "2x2" then Some (2, 2)%Z else None in
  let req := Server.mkGenReq "medium" false 4 "2x2" 3 in
  let cells := [ [0;0;4;0]; [4;3;0;0]; [1;4;0;2]; [3;0;0;4] ]%Z in
  (∃ h' rs',
     Server.handleGenerate (RS := lcgSource) scan "POST" (Some req) []
       Examples.rs0
     = Grid.Ok (Server.writeJSON 200 (Server.gridPuzzle 4 2 2 cells), h', rs'))
  ∧ shape 4 cells ∧ Spec.valid 4 2 2 cells ∧ Spec.unique 4 2 2 cells.
Proof.
  intros scan req cells.
  destruct (handleGenerate_sound (RS := lcgSource) scan "POST" (Some req) []
              Examples.rs0)
    as (resp & h' & rs' & Hrun & _ & _ & _ & Hok).
  { intros req0 br bc [= <-] Hs. vm_compute in Hs. injection Hs as <- <-.
    by vm_compute. }
  assert (Hc : ∃ h0 rs0,
             Server.handleGenerate (RS := lcgSource) scan "POST" (Some req) []
               Examples.rs0
             = Grid.Ok (Server.writeJSON 200
                          (Server.gridPuzzle 4 2 2 cells), h0, rs0)).
  { eexists _, _. vm_compute. reflexivity. }
  split; [exact Hc|]. destruct Hc as (h0 & rs0 & Hc).
  rewrite Hc in Hrun. injection Hrun as <- <- <-.
  destruct (Hok eq_refl) as (req0 & _ & Hbody). cbn in Hbody.
  destruct Hbody as (_ & _ & _ & _ & _ & _ & Hs & Hv & Hu).
  split; [exact Hs|]. split; [exact Hv | exact Hu].
Defined.

(** ** The solver on any input *)

(** X19 (what a successful [Solve] returns, whatever the input): the
    returned grid has the shape of the input, no empty cell, and every clue
    of the input in its place; it passes the validator exactly when the
    input does.  In particular a solved grid is never better than the
    puzzle it came from: clues that clash stay in the answer. *)
Theorem Solve_any_input {RS : RandSource}
    (b b' : Board.Board) (rs rs' : rstate)
    (g g' : Grid.Grid) (h h' : Grid.heap) (m : list (list Z))
    (gs gs' : rstate) :
  Board.wf b → Board.Solve b rs = Some (b', true, rs') →
  Grid.wf h g m → Grid.Solve g h gs = Grid.Ok (g', true, h', gs') →
  (Board.wf b' ∧ Spec.full 9 b' ∧ Spec.extends 9 b b'
   ∧ (Board.Validate b' = None ↔ Board.Validate b = None))
  ∧ ∃ m', h' = h ++ m' ∧ Grid.wf h' g' m'
          ∧ Spec.full (Grid.dim g) m' ∧ Spec.extends (Grid.dim g) m m'
          ∧ (Grid.Validate g' h' = Grid.Ok None
             ↔ Grid.Validate g h = Grid.Ok None).
Proof.
  intros Hwf Hrun (Hd & Hh & Hs) Hgrun. split.
  - destruct (Board_Solve_spec b rs Hwf) as (ok & b0 & rs0 & Hrun0 & Hres).
    rewrite Hrun in Hrun0. injection Hrun0 as <- <- <-.
    destruct (solutions_reach 9 3 3 dims9 pos3 pos3 _ _ _ Hwf Hres)
      as (Hs' & Hfull & Hext).
    repeat (split; [done|]). rewrite !Board_valid. split.
    + intros Hv'. by apply (valid_below 9 3 3 dims9 pos3 pos3 b b').
    + intros Hv. by apply (solutions_valid 9 3 3 dims9 pos3 pos3 82 b).
  - destruct (dimsOk_nat g Hd) as (Hdims & HR & HC & Hmax & Hg).
    destruct (Grid_Solve_spec _ _ _ Hdims HR HC Hmax g h m gs Hg Hh Hs)
      as (ok & m' & gs0 & Hrun0 & Hs' & Hres).
    rewrite Hgrun in Hrun0. destruct ok; [|done].
    injection Hrun0 as -> -> <-.
    destruct (solutions_reach _ _ _ Hdims HR HC _ _ _ Hs Hres)
      as (_ & Hfull & Hext).
    exists m'. split; [done|].
    assert (Hwf' : Grid.wf (h ++ m')
              (Grid.at_end (Grid.Size g) (Grid.BoxRows g) (Grid.BoxCols g) h)
              m') by by apply wf_at_end.
    split; [done|]. split; [done|]. split; [done|].
    destruct Hwf' as (_ & Hh' & _).
    rewrite (Grid_Validate_valid _ _ _ Hdims HR HC _ (h ++ m') m');
      [|done|done|done].
    rewrite (Grid_Validate_valid _ _ _ Hdims HR HC g h m Hg Hh Hs).
    split.
    + intros Hv'. by apply (valid_below _ _ _ Hdims HR HC m m').
    + intros Hv.
      by apply (solutions_valid _ _ _ Hdims HR HC (Pure.budget (Grid.dim g)) m).
Qed.

Lemma Solve_any_input_witness :
  (Board.wf Examples.ones ∧ Spec.full 9 Examples.ones
   ∧ Spec.extends 9 Examples.ones Examples.ones
   ∧ (Board.Validate Examples.ones = None
      ↔ Board.Validate Examples.ones = None))
  ∧ ∃ m', Examples.open4 ++ Examples.solved4 = Examples.open4 ++ m'
          ∧ Grid.wf (Examples.open4 ++ Examples.solved4)
              (Grid.at_end 4 2 2 Examples.open4) m'
          ∧ Spec.full 4 m' ∧ Spec.extends 4 Examples.open4 m'
          ∧ (Grid.Validate (Grid.at_end 4 2 2 Examples.open4)
               (Examples.open4 ++ Examples.solved4) = Grid.Ok None
             ↔ Grid.Validate Examples.g4 Examples.open4 = Grid.Ok None).
Proof.
  apply (Solve_any_input (RS := lcgSource)
           Examples.ones Examples.ones Examples.rs0 Examples.rs0
           Examples.g4 (Grid.at_end 4 2 2 Examples.open4)
           Examples.open4 (Examples.open4 ++ Examples.solved4) Examples.open4
           Examples.rs0 6356963020929956066%Z).
  - closed_wf.
  - vm_compute. reflexivity.
  - closed_wf.
  - vm_compute. reflexivity.
Defined.

(** ** Dimensions whose product wraps around

    [NewGrid] and the handler compare [size] with the product
    [boxRows*boxCols] as [int] computes it.  A product that wraps onto a
    size of at most 25 passes, though one box side is then larger than the
    grid; the first box scan of the search runs off the grid. *)



Section WrappedDims.
Context {RS : RandSource}.
Variables (size boxRows boxCols : Z).
Hypothesis Hsize : (0 < size ≤ Grid.MaxGridSize)%Z.
Hypothesis HbR : (0 < boxRows)%Z.
Hypothesis HbC : (0 < boxCols)%Z.
Hypothesis Hwrap : size = Grid.wrap (boxRows * boxCols).
Hypothesis Hne : size ≠ (boxRows * boxCols)%Z.

Local Abbreviation n := (Z.to_nat size).
Local Abbreviation zeros := (replicate (Z.to_nat size)
                               (replicate (Z.to_nat size) 0%Z)).
Local Abbreviation at_end := (Grid.at_end size boxRows boxCols).













End WrappedDims.



(** X21 (the empty string): [FromStringN] checks the dimensions only
    through the two products.  On the empty string, whenever both guards
    pass ([size == boxRows*boxCols] and [0 == size*size] as the code
    computes them, e.g. size 0 with a box side 0), the error of [NewGrid] is
    dropped, no cell is read, the zero [Grid] passes the validator, and the
    call returns it with a nil error: a success that carries no grid. *)
Theorem FromStringN_empty (size boxRows boxCols : Z) (h : Grid.heap) :
  size = Grid.wrap (boxRows * boxCols) → Grid.wrap (size * size) = 0%Z →
  (∃ msg, Grid.NewGrid size boxRows boxCols h = (Grid.none, Some msg, h))
  ∧ Grid.Validate Grid.none h = Grid.Ok None
  ∧ Grid.FromStringN "" size boxRows boxCols h = Grid.Ok (Grid.none, None, h).
Proof.
  intros Hdims Hlen.
  assert (Hnew : ∃ msg, Grid.NewGrid size boxRows boxCols h
                        = (Grid.none, Some msg, h)).
  { unfold Grid.NewGrid, Grid.MaxGridSize.
    destruct (Z.leb_spec size 0) as [|Hpos]; [by eexists|].
    destruct (_ || _); [by eexists|].
    destruct (Z.ltb_spec 25 size) as [|Hsmall]; [by eexists|].
    rewrite wrap_small in Hlen by nia. nia. }
  assert (Hval : Grid.Validate Grid.none h = Grid.Ok None) by done.
  split; [exact Hnew|]. split; [exact Hval|].
  unfold Grid.FromStringN.
  rewrite (proj2 (Z.eqb_eq _ _) Hdims). cbn [negb].
  change (Z.of_nat (String.length "")) with 0%Z. rewrite Hlen.
  change (negb (0 =? 0)%Z) with false. cbv iota.
  destruct Hnew as [msg ->].
  cbn [String.list_ascii_of_string Grid.parseCells]. rewrite bind_Ok.
  by rewrite Hval.
Qed.

Lemma FromStringN_empty_witness :
  Grid.FromStringN "" 0 0 3 [] = Grid.Ok (Grid.none, None, [])
  ∧ Grid.FromStringN "" 4294967296 65536 65536 []
    = Grid.Ok (Grid.none, None, []).
Proof.
  split.
  - apply (FromStringN_empty 0 0 3 []); by vm_compute.
  - apply (FromStringN_empty 4294967296 65536 65536 []); by vm_compute.
Defined.
